(** * PlayStation disc image tools: identification, naming and grouping

    A shallow embedding of the four scripts of the repository

      - [01_createSingleBinCue.py]   (cue synthesis),
      - [02_tagBinCuePairsWithIDs.py] (PS1 tagging),
      - [03_compressBinCueGames.py]  (grouping and packing),
      - [04_tagPs2IsosWithIDs.py]    (PS2 tagging),

    together with the properties their specification states about them.

    Text is modelled as [list ascii]: Python [str] restricted to ASCII (the
    characters from 128 on of Rocq's [ascii] stand for themselves, without
    case or class).  File content is [list byte]; the text of a cue file,
    which is read from bytes, is a list of code points.  The regular
    expressions of the scripts are kept as syntax and run by a small
    backtracking matcher that follows the priority order of Python's [re]
    module.  The drivers run on a world of files, directories and printed
    lines, and end by returning an exit code or by raising. *)

From Stdlib Require Import Ascii String List NArith Lia Bool Arith.
From Stdlib Require Import Strings.Byte DecimalString.
From stdpp Require Import base list gmap strings sorting.
From Equations Require Import Equations.

Set Default Proof Using "Type".
Set Warnings "-clear-no-such-hyp".
Local Open Scope N_scope.

(** ** Characters and text *)

Abbreviation text := (list ascii).

(** A literal: [str "SLUS"] is the text S, L, U, S. *)
Definition str (s : string) : text := list_ascii_of_string s.

Definition bytes_of (s : string) : list byte := map byte_of_ascii (str s).

Module Chars.

(** Code-point classes, shared by the [str] and the [bytes] patterns. *)
Definition range (lo hi : N) (n : N) : bool := (lo <=? n) && (n <=? hi).
Definition lit (c : ascii) (n : N) : bool := n =? N_of_ascii c.
Definition oneof (s : string) (n : N) : bool :=
  existsb (fun c => n =? N_of_ascii c) (str s).
Definition neg (p : N -> bool) (n : N) : bool := negb (p n).

Definition upper_AZ : N -> bool := range 65 90.     (* [A-Z] *)
Definition digit : N -> bool := range 48 57.        (* [0-9], \d *)

(** [str.isspace] and the class [\s] of a [str] pattern: TAB, LF, VT, FF,
    CR, the four separators FS, GS, RS, US, and the space. *)
Definition space (n : N) : bool := range 9 13 n || range 28 32 n.

(** [str.isspace] and [\s] over all code points. *)
Definition uspace (n : N) : bool :=
  range 9 13 n || range 28 32 n || (n =? 133) || (n =? 160) || (n =? 5760) ||
  range 8192 8202 n || (n =? 8232) || (n =? 8233) || (n =? 8239) ||
  (n =? 8287) || (n =? 12288).

Definition to_upper (n : N) : N := if range 97 122 n then n - 32 else n.
Definition to_lower (n : N) : N := if range 65 90 n then n + 32 else n.

(** A class under [re.IGNORECASE]: a character belongs to it when it, its
    lower case or its upper case does. *)
Definition ci (p : N -> bool) (n : N) : bool :=
  p n || p (to_lower n) || p (to_upper n).

Definition upper (c : ascii) : ascii := ascii_of_N (to_upper (N_of_ascii c)).
Definition lower (c : ascii) : ascii := ascii_of_N (to_lower (N_of_ascii c)).
Definition isspace (c : ascii) : bool := space (N_of_ascii c).
Definition isdigit (c : ascii) : bool := digit (N_of_ascii c).

End Chars.

(** ** The few [str] methods the scripts call *)

Module Py.

Definition upper (s : text) : text := map Chars.upper s.
Definition lower (s : text) : text := map Chars.lower s.

Fixpoint starts_with (p s : text) : bool :=
  match p, s with
  | [], _ => true
  | a :: p', b :: s' => if ascii_dec a b then starts_with p' s' else false
  | _ :: _, [] => false
  end.

(** [s.replace(old, new)] for a non-empty [old]: occurrences are found left
    to right and do not overlap; [skip] counts the characters of an
    occurrence still to be passed over. *)
Fixpoint replace_from (old new : text) (skip : nat) (s : text) : text :=
  match s with
  | [] => []
  | c :: s' =>
      match skip with
      | S k => replace_from old new k s'
      | O =>
          if starts_with old s
          then new ++ replace_from old new (Nat.pred (length old)) s'
          else c :: replace_from old new O s'
      end
  end.

Definition replace (old new s : text) : text := replace_from old new O s.

(** [s.lstrip()], [s.rstrip()], [s.strip()] *)
Fixpoint lstrip_by {A : Type} (p : A -> bool) (s : list A) : list A :=
  match s with
  | c :: s' => if p c then lstrip_by p s' else s
  | [] => []
  end.

Definition rstrip_by {A : Type} (p : A -> bool) (s : list A) : list A :=
  rev (lstrip_by p (rev s)).

(** Decimal digits of a number: the formats [{n}] and [{n:02d}]. *)
Definition dec (n : nat) : text := str (NilZero.string_of_uint (Nat.to_uint n)).
Definition dec02 (n : nat) : text :=
  let d := dec n in if (length d <? 2)%nat then "0"%char :: d else d.
Definition decZ (z : Z) : text := str (NilZero.string_of_int (Z.to_int z)).

(** UTF-8 of code points. *)
Definition byte_of_N (n : N) : byte := byte_of_ascii (ascii_of_N n).
Definition encode_point (n : N) : list byte :=
  if n <? 128 then [byte_of_N n]
  else if n <? 2048 then [byte_of_N (192 + n / 64); byte_of_N (128 + n mod 64)]
  else if n <? 65536
  then [byte_of_N (224 + n / 4096); byte_of_N (128 + (n / 64) mod 64);
        byte_of_N (128 + n mod 64)]
  else [byte_of_N (240 + n / 262144); byte_of_N (128 + (n / 4096) mod 64);
        byte_of_N (128 + (n / 64) mod 64); byte_of_N (128 + n mod 64)].
Definition encode_utf8 (s : list N) : list byte := flat_map encode_point s.

Definition lstrip : text -> text := lstrip_by Chars.isspace.
Definition rstrip : text -> text := rstrip_by Chars.isspace.
Definition strip (s : text) : text := lstrip (rstrip s).

End Py.

(** ** A backtracking matcher for the patterns of the scripts *)

Module Re.

(** The constructs the scripts' patterns are written with.  Classes are
    predicates on code points, so that one pattern runs over [str] and over
    [bytes]. *)
Inductive t : Type :=
| Chr (p : N -> bool)                       (* one character of a class *)
| Rep (greedy : bool) (p : N -> bool) (lo : nat) (hi : option nat)
                                            (* p{lo,hi}, p*, p+, lazy or not *)
| Opt (r : t)                               (* (?:r)? *)
| Cat (r1 r2 : t)
| Eps
| Eos.                                      (* $ *)

Definition cat (rs : list t) : t := foldr Cat Eps rs.
Definition star (p : N -> bool) : t := Rep true p 0 None.
Definition plus (p : N -> bool) : t := Rep true p 1 None.
Definition times (p : N -> bool) (lo hi : nat) : t := Rep true p lo (Some hi).

Section Engine.
Context {A : Type} (code : A -> N).

(** A run of the matcher from the start of [s]: what it consumed and what
    is left. *)
Definition run : Type := (list A * list A)%type.

Definition consume (c : A) (x : run) : run := (c :: x.1, x.2).

Definition room (hi : option nat) : bool :=
  match hi with Some O => false | _ => true end.
Definition less (hi : option nat) : option nat :=
  match hi with Some n => Some (Nat.pred n) | None => None end.

(** All ways to match p{lo,hi} at the start of [s], best first. *)
Fixpoint rep (greedy : bool) (p : N -> bool) (lo : nat) (hi : option nat)
    (s : list A) : list run :=
  let stop : list run := match lo with O => [([], s)] | S _ => [] end in
  let more : list run :=
    match s with
    | c :: s' =>
        if p (code c) && room hi
        then map (consume c) (rep greedy p (Nat.pred lo) (less hi) s')
        else []
    | [] => []
    end in
  if greedy then more ++ stop else stop ++ more.

(** [$]: the end of the text, or just before a final newline. *)
Definition at_end (s : list A) : bool :=
  match s with
  | [] => true
  | [c] => code c =? 10
  | _ => false
  end.

(** All runs of [r] from the start of [s], in the order in which a
    backtracking matcher tries them. *)
Fixpoint runs (r : t) (s : list A) : list run :=
  match r with
  | Chr p =>
      match s with
      | c :: s' => if p (code c) then [([c], s')] else []
      | [] => []
      end
  | Rep greedy p lo hi => rep greedy p lo hi s
  | Opt r1 => runs r1 s ++ [([], s)]
  | Cat r1 r2 =>
      flat_map (fun x => map (fun y => (x.1 ++ y.1, y.2)) (runs r2 x.2))
               (runs r1 s)
  | Eps => [([], s)]
  | Eos => if at_end s then [([], s)] else []
  end.

(** [pattern.match(s)]: the first run, if any. *)
Definition match_here (r : t) (s : list A) : option run := head (runs r s).

(** A match found by scanning: the text before it, the match, the rest. *)
Record found : Type := Found { before : list A; matched : list A; after : list A }.

Definition shift (c : A) (f : found) : found :=
  Found (c :: before f) (matched f) (after f).

(** [pattern.search(s)]: the leftmost position that has a run. *)
Fixpoint search (r : t) (s : list A) : option found :=
  match match_here r s with
  | Some x => Some (Found [] x.1 x.2)
  | None =>
      match s with
      | [] => None
      | c :: s' => shift c <$> search r s'
      end
  end.

(** [pattern.sub(repl, s, count=1)] with a literal replacement. *)
Definition sub_first (r : t) (repl s : list A) : list A :=
  match search r s with
  | Some f => before f ++ repl ++ after f
  | None => s
  end.

(** [pattern.sub(repl, s)] with a literal replacement.  After a match the
    scan resumes behind it; a position without a match is copied.  (An
    empty match puts [repl] and steps over one character; none of the
    patterns below has one.) *)
Fixpoint sub_loop (fuel : nat) (r : t) (repl s : list A) : list A :=
  match fuel with
  | O => s
  | S fuel' =>
      match match_here r s, s with
      | Some ([], _), [] => repl
      | Some ([], _), c :: s' => repl ++ c :: sub_loop fuel' r repl s'
      | Some (_ :: _, rest), _ => repl ++ sub_loop fuel' r repl rest
      | None, [] => []
      | None, c :: s' => c :: sub_loop fuel' r repl s'
      end
  end.

Definition sub (r : t) (repl s : list A) : list A :=
  sub_loop (S (length s)) r repl s.

(** [pattern.findall(s)] for a pattern whose only group is the whole
    match. *)
Fixpoint findall_loop (fuel : nat) (r : t) (s : list A) : list (list A) :=
  match fuel with
  | O => []
  | S fuel' =>
      match match_here r s, s with
      | Some ([], _), [] => [[]]
      | Some ([], _), _ :: s' => [] :: findall_loop fuel' r s'
      | Some (m, rest), _ => m :: findall_loop fuel' r rest
      | None, [] => []
      | None, _ :: s' => findall_loop fuel' r s'
      end
  end.

Definition findall (r : t) (s : list A) : list (list A) :=
  findall_loop (S (length s)) r s.

End Engine.

Arguments Found {A} _ _ _.
Arguments before {A} _.
Arguments matched {A} _.
Arguments after {A} _.

(** The two instances: [str] patterns and [bytes] patterns. *)
Definition code_s (c : ascii) : N := N_of_ascii c.
Definition code_b (b : byte) : N := Byte.to_N b.

(** *** Replacement templates

    [pattern.sub(repl, s)] reads a [str] replacement as a template: a
    backslash starts an escape or the reference to a group; a template
    without a backslash stands for itself. *)
Inductive piece : Type :=
| Lit (c : ascii)
| Group (index : nat).

(** Where the reading of a template stands: in plain text; behind a
    backslash; behind \g; in the name behind \g<; behind \0 and [k] more
    octal digits, of value [v]; behind a backslash and the digit [c]; behind
    a backslash and the two octal digits [c] and [d]. *)
Inductive reading : Type :=
| Plain
| Esc
| GOpen
| GName (name : text)
| Oct0 (k : nat) (v : N)
| Dig (c : N)
| Dig2 (c d : N).

Definition backslash : ascii := ascii_of_N 92.
Definition octal (c : ascii) : bool := Chars.range 48 55 (N_of_ascii c).
Definition ascii_letter (c : ascii) : bool :=
  Chars.range 65 90 (N_of_ascii c) || Chars.range 97 122 (N_of_ascii c).
Definition digit_value (c : ascii) : N := N_of_ascii c - 48.

(** The escapes \a \b \f \n \r \t \v and the doubled backslash. *)
Definition escape (c : ascii) : option ascii :=
  if ascii_dec c "a" then Some (ascii_of_N 7)
  else if ascii_dec c "b" then Some (ascii_of_N 8)
  else if ascii_dec c "f" then Some (ascii_of_N 12)
  else if ascii_dec c "n" then Some (ascii_of_N 10)
  else if ascii_dec c "r" then Some (ascii_of_N 13)
  else if ascii_dec c "t" then Some (ascii_of_N 9)
  else if ascii_dec c "v" then Some (ascii_of_N 11)
  else if ascii_dec c backslash then Some backslash
  else None.

(** The group a name between \g< and > stands for: the patterns have no
    named group, so it is a number in decimal digits. *)
Definition group_number (name : text) : option nat :=
  match name with
  | [] => None
  | _ =>
      if forallb Chars.isdigit name
      then Some (N.to_nat (foldl (fun v c => 10 * v + digit_value c) 0 name))
      else None
  end.

(** The pieces of a template; [None] stands for the error raised on a bad
    escape. *)
Fixpoint parse_template (st : reading) (s : text) : option (list piece) :=
  match s with
  | [] =>
      match st with
      | Plain => Some []
      | Esc | GOpen | GName _ => None
      | Oct0 _ v => Some [Lit (ascii_of_N (v mod 256))]
      | Dig c => Some [Group (N.to_nat c)]
      | Dig2 c d => Some [Group (N.to_nat (10 * c + d))]
      end
  | x :: s' =>
      let plain :=
        if ascii_dec x backslash then parse_template Esc s'
        else cons (Lit x) <$> parse_template Plain s' in
      match st with
      | Plain => plain
      | Esc =>
          if ascii_dec x "g" then parse_template GOpen s'
          else if ascii_dec x "0" then parse_template (Oct0 0 0) s'
          else if Chars.isdigit x then parse_template (Dig (digit_value x)) s'
          else
            match escape x with
            | Some c => cons (Lit c) <$> parse_template Plain s'
            | None =>
                if ascii_letter x then None
                else (fun r => Lit backslash :: Lit x :: r) <$> parse_template Plain s'
            end
      | GOpen => if ascii_dec x "<" then parse_template (GName []) s' else None
      | GName name =>
          if ascii_dec x ">"
          then match group_number name with
               | Some i => cons (Group i) <$> parse_template Plain s'
               | None => None
               end
          else parse_template (GName (name ++ [x])) s'
      | Oct0 k v =>
          if octal x && (k <? 2)%nat
          then parse_template (Oct0 (S k) (8 * v + digit_value x)) s'
          else cons (Lit (ascii_of_N (v mod 256))) <$> plain
      | Dig c =>
          if Chars.isdigit x
          then if (c <? 8) && octal x
               then parse_template (Dig2 c (digit_value x)) s'
               else cons (Group (N.to_nat (10 * c + digit_value x))) <$>
                      parse_template Plain s'
          else cons (Group (N.to_nat c)) <$> plain
      | Dig2 c d =>
          if octal x
          then let v := 64 * c + 8 * d + digit_value x in
               if 255 <? v then None
               else cons (Lit (ascii_of_N v)) <$> parse_template Plain s'
          else cons (Group (N.to_nat (10 * c + d))) <$> plain
      end
  end.

(** A template for a pattern with [groups] groups: a reference to a group
    beyond them is an error. *)
Definition compile_template (groups : nat) (repl : text) : option (list piece) :=
  match parse_template Plain repl with
  | Some pieces =>
      if forallb (fun p => match p with
                           | Group i => (i <=? groups)%nat
                           | Lit _ => true
                           end) pieces
      then Some pieces
      else None
  | None => None
  end.

(** The text a template stands for at a match, for a pattern in which every
    group is the whole match. *)
Definition expand (pieces : list piece) (m : text) : text :=
  flat_map (fun p => match p with Lit c => [c] | Group _ => m end) pieces.

(** [pattern.sub(repl, s, count=1)] on [str], for a pattern with [groups]
    groups that are each the whole match; [None] stands for the error a bad
    template raises, which it does before the text is searched. *)
Definition sub_first_template (r : t) (groups : nat) (repl s : text) : option text :=
  match compile_template groups repl with
  | None => None
  | Some pieces =>
      Some match search code_s r s with
           | Some f => before f ++ expand pieces (matched f) ++ after f
           | None => s
           end
  end.

End Re.

(** ** Files, paths and what a script prints

    A world is the files of the machine by path, the directories, and the
    lines printed so far. *)

Module Fs.

(** A path, as its components. *)
Definition path : Type := list text.

Record world : Type := World {
  files : gmap path (list byte);
  dirs : gset path;
  out : list text
}.

(** How a run ends: it returns an exit code, or an exception leaves it. *)
Inductive outcome : Type :=
| Return (w : world) (code : Z)
| Raise (w : world).

Definition final (o : outcome) : world :=
  match o with Return w _ => w | Raise w => w end.

Definition print (line : text) (w : world) : world :=
  World (files w) (dirs w) (out w ++ [line]).

(** [p.exists()], [p.is_dir()] *)
Definition exists_ (p : path) (w : world) : bool :=
  bool_decide (is_Some (files w !! p)) || bool_decide (p ∈ dirs w).
Definition is_dir (p : path) (w : world) : bool := bool_decide (p ∈ dirs w).

Definition write_bytes (p : path) (content : list byte) (w : world) : world :=
  World (<[p := content]> (files w)) (dirs w) (out w).

(** [d.mkdir(parents=True, exist_ok=True)]: [d] and the directories above it *)
Definition mkdir_p (d : path) (w : world) : world :=
  World (files w) (list_to_set (map (fun n => take n d) (seq 0 (S (length d)))) ∪ dirs w)
        (out w).

(** [p.read_bytes()], [p.open("rb")]: [None] stands for the exception raised
    on a missing path and on a directory. *)
Definition read_bytes (p : path) (w : world) : option (list byte) := files w !! p.

(** [p.is_file()] *)
Definition is_file (p : path) (w : world) : bool :=
  bool_decide (is_Some (files w !! p)) && negb (bool_decide (p ∈ dirs w)).

(** [p] is [d] or below it; [p] with [new] in the place of [old]. *)
Definition is_prefix (d p : path) : bool := bool_decide (take (length d) p = d).
Definition reroot (old new p : path) : path :=
  if is_prefix old p then new ++ drop (length old) p else p.

(** The paths that are there, files and directories, and those among them
    that a directory holds. *)
Definition entries (w : world) : list path :=
  map fst (map_to_list (files w)) ++ elements (dirs w).
Definition children (d : path) (w : world) : list path :=
  List.filter (fun p => bool_decide (removelast p = d) && negb (bool_decide (p = [])))
              (entries w).

(** [old.rename(new)] on POSIX.  A file replaces a file at [new] and cannot
    replace a directory.  A directory moves with all it holds; it cannot
    replace a file, a directory that holds something, or go below itself.
    [None] stands for the exception raised, also when [old] is missing. *)
Definition rename (old new : path) (w : world) : option world :=
  match files w !! old with
  | Some content =>
      if bool_decide (new ∈ dirs w) then None
      else Some (World (<[new := content]> (delete old (files w))) (dirs w) (out w))
  | None =>
      if negb (bool_decide (old ∈ dirs w)) then None
      else if bool_decide (new = old) then Some w
      else if bool_decide (is_Some (files w !! new)) then None
      else if bool_decide (new ∈ dirs w) &&
              negb (bool_decide (children new w = [])) then None
      else if is_prefix old new then None
      else Some (World (list_to_map (map (fun kv => (reroot old new kv.1, kv.2))
                                         (map_to_list (files w))))
                       (set_map (reroot old new) (dirs w))
                       (out w))
  end.

(** [p.unlink()] *)
Definition unlink (p : path) (w : world) : option world :=
  match files w !! p with
  | Some _ => Some (World (delete p (files w)) (dirs w) (out w))
  | None => None
  end.

(** [shutil.copy2(src, dst)]: fails on a missing source and when both are the
    same file. *)
Definition copy2 (src dst : path) (w : world) : option world :=
  if decide (src = dst) then None
  else match files w !! src with
       | Some content => Some (write_bytes dst content w)
       | None => None
       end.

(** *** pathlib *)

(** [p.name] *)
Definition name (p : path) : text := List.last p [].

(** [p.parent] *)
Definition parent (p : path) : path := removelast p.

(** [str(p)] of an absolute path *)
Definition show (p : path) : text := concat (map (fun c => "/"%char :: c) p).

(** The text before and behind the last "." of a name. *)
Fixpoint split_last_dot (s : text) : option (text * text) :=
  match s with
  | [] => None
  | c :: s' =>
      match split_last_dot s' with
      | Some (a, b) => Some (c :: a, b)
      | None => if ascii_dec c "." then Some ([], s') else None
      end
  end.

(** [p.suffix]: from the last ".", unless it starts or ends the name. *)
Definition suffix_of (n : text) : text :=
  match split_last_dot n with
  | Some (_ :: _, (_ :: _) as b) => "."%char :: b
  | _ => []
  end.

(** [p.stem] *)
Definition stem_of (n : text) : text :=
  match split_last_dot n with
  | Some ((_ :: _) as a, _ :: _) => a
  | _ => n
  end.

Definition suffix (p : path) : text := suffix_of (name p).
Definition stem (p : path) : text := stem_of (name p).

(** [p.with_name(n)], [p.with_suffix(s)] *)
Definition with_name (p : path) (n : text) : path := parent p ++ [n].
Definition with_suffix (p : path) (s : text) : path := with_name p (stem p ++ s).

(** *** The order of texts and of paths *)

Fixpoint text_compare (a b : text) : comparison :=
  match a, b with
  | [], [] => Eq
  | [], _ :: _ => Lt
  | _ :: _, [] => Gt
  | x :: a', y :: b' =>
      match N.compare (N_of_ascii x) (N_of_ascii y) with
      | Eq => text_compare a' b'
      | c => c
      end
  end.

Fixpoint path_compare (p q : path) : comparison :=
  match p, q with
  | [], [] => Eq
  | [], _ :: _ => Lt
  | _ :: _, [] => Gt
  | x :: p', y :: q' =>
      match text_compare x y with
      | Eq => path_compare p' q'
      | c => c
      end
  end.

Definition path_le (p q : path) : Prop := path_compare p q <> Gt.

#[global] Instance path_le_dec : RelDecision path_le.
Proof. intros p q. unfold path_le. apply _. Defined.

Definition text_le (a b : text) : Prop := text_compare a b <> Gt.

#[global] Instance text_le_dec : RelDecision text_le.
Proof. intros a b. unfold text_le. apply _. Defined.

(** [sorted(paths)], [sorted(texts)] *)
Definition sorted (ps : list path) : list path := merge_sort path_le ps.
Definition sorted_texts (ts : list text) : list text := merge_sort text_le ts.

Fixpoint ends_with (s e : text) : bool :=
  if decide (s = e) then true
  else match s with
       | [] => false
       | _ :: s' => ends_with s' e
       end.

(** The paths below [root], at most [max_depth] components down, whose name
    ends with [ext]: what [root.rglob("*" + ext)] yields, cut at the depth. *)
Definition below (root : path) (max_depth : nat) (ext : text) (p : path) : bool :=
  bool_decide (take (length root) p = root) &&
  (length root <? length p)%nat &&
  (length p - length root <=? max_depth)%nat &&
  ends_with (name p) ext.

(** [root.iterdir()]: the files and the directories in [root]. *)
Definition iterdir (root : path) (w : world) : list path := children root w.

(** [sep.join(parts)] *)
Fixpoint join (sep : text) (parts : list text) : text :=
  match parts with
  | [] => []
  | [x] => x
  | x :: rest => x ++ sep ++ join sep rest
  end.

(** A value that is not empty, as [if x:] reads an optional text. *)
Definition truthy (x : option text) : bool :=
  match x with Some (_ :: _) => true | _ => false end.

End Fs.

(** ** Scanning file content for a code (scripts 02 and 04)

    The two scripts have the same [find_disc_code], over their own pattern
    and [normalize_code]; it is written once, over both. *)

Module Scan.

(** [bs.decode("ascii", errors="ignore")]: bytes outside ASCII are dropped. *)
Definition decode_ascii_ignore (bs : list byte) : text :=
  map ascii_of_byte (List.filter (fun b => Byte.to_N b <? 128) bs).

(** A value together with the equation that names it, for a [with] clause
    that has to remember what it matched on. *)
Definition inspect {A : Type} (a : A) : {b : A | a = b} := exist _ a eq_refl.

Section FindDiscCode.
Variables (READ_CHUNK MAX_SCAN : nat).
Variable ID_BYTES_RE : Re.t.
Variable normalize_code : text -> text.

(** The [while True] loop.  [handle] is what the open file has left to
    read and [scanned] the loop's counter; [handle.read(READ_CHUNK)]
    returns the next [READ_CHUNK] bytes, or what is left of the file,
    and moves the position behind them. *)
Equations? scan_loop (handle : list byte) (scanned : nat) : option text
  by wf (length handle) lt :=
scan_loop handle scanned with inspect (take READ_CHUNK handle) := {
  | exist _ [] _ => None                              (* if not chunk: break *)
  | exist _ (b :: bs) Hread =>
      let chunk := b :: bs in
      let scanned := (scanned + length chunk)%nat in
      match Re.search Re.code_b ID_BYTES_RE chunk with
      | Some m => Some (normalize_code (decode_ascii_ignore (Re.matched m)))
      | None =>
          if (MAX_SCAN <=? scanned)%nat then None     (* break *)
          else scan_loop (drop (length chunk) handle) scanned
      end
  }.
Proof.
  destruct handle as [|h handle]; [by rewrite take_nil in Hread|].
  rewrite length_drop. cbn [length]. lia.
Qed.

Definition find_disc_code (content : list byte) : option text :=
  scan_loop content 0.

End FindDiscCode.

End Scan.

(** ** Script 02: tagging PS1 BIN/CUE pairs *)

Module Ps1.
Import Chars Re.

(** rb"(S[LC][A-Z]{2}[A-Z]?[-_][0-9]{3,5}(?:\.[0-9]{2})?)" *)
Definition ID_BYTES_RE : Re.t :=
  cat [Chr (lit "S"); Chr (oneof "LC"); times upper_AZ 2 2; Opt (Chr upper_AZ);
       Chr (oneof "-_"); times digit 3 5;
       Opt (cat [Chr (lit "."); times digit 2 2])].

(** The same pattern on [str] with [re.IGNORECASE]. *)
Definition NAME_CODE_RE : Re.t :=
  cat [Chr (ci (lit "S")); Chr (ci (oneof "LC")); times (ci upper_AZ) 2 2;
       Opt (Chr (ci upper_AZ));
       Chr (ci (oneof "-_")); times (ci digit) 3 5;
       Opt (cat [Chr (ci (lit ".")); times (ci digit) 2 2])].

Definition MAX_SCAN : nat := (64 * 1024 * 1024)%nat.
Definition READ_CHUNK : nat := (4 * 1024 * 1024)%nat.

(** [normalize_code]: raw.replace("_", "-").replace(".", "").upper() *)
Definition normalize_code (raw : text) : text :=
  Py.upper (Py.replace (str ".") (str "") (Py.replace (str "_") (str "-") raw)).

Definition find_disc_code (content : list byte) : option text :=
  Scan.find_disc_code READ_CHUNK MAX_SCAN ID_BYTES_RE normalize_code content.

(** [extract_code_from_name], on the stem of the path: group 1 is the whole
    match. *)
Definition extract_code_from_name (stem : text) : option text :=
  Re.matched <$> Re.search Re.code_s NAME_CODE_RE stem.

(** [build_new_base]: f"{stem.rstrip()} [{code}]" *)
Definition build_new_base (stem code : text) : text :=
  Py.rstrip stem ++ str " [" ++ code ++ str "]".

(** The stem [main] plans for a file (its lines 129 to 133).  [code] is the
    replacement template of [NAME_CODE_RE.sub(code, stem, count=1)], a
    pattern whose one group is the whole match; [None] stands for the error
    a bad template raises. *)
Definition new_stem_for (stem code : text) (code_in_name : option text) :
    option text :=
  if Fs.truthy code_in_name
  then Re.sub_first_template NAME_CODE_RE 1 code stem
  else Some (build_new_base stem code).

(** *** Rewriting the FILE lines of a cue file

    The text of the cue file is a list of code points; the patterns run on
    it with the code point as its own class code. *)

Definition code_p (n : N) : N := n.

(** The line boundaries of [str.splitlines]. *)
Definition linebreak (n : N) : bool :=
  range 10 13 n || range 28 30 n || (n =? 133) || (n =? 8232) || (n =? 8233).

(** The line ends as [read_text] hands them over: reading in text mode
    turns CR LF and a CR alone into LF. *)
Fixpoint universal_newlines (s : list N) : list N :=
  match s with
  | [] => []
  | c :: s' =>
      if c =? 13
      then match s' with
           | 10 :: s'' => 10 :: universal_newlines s''
           | _ => 10 :: universal_newlines s'
           end
      else c :: universal_newlines s'
  end.

(** [s.splitlines(keepends=True)]; [cur] is the line read so far. *)
Fixpoint splitlines (cur s : list N) : list (list N) :=
  match s with
  | [] => match cur with [] => [] | _ => [cur] end
  | c :: s' =>
      if c =? 13
      then match s' with
           | 10 :: s'' => (cur ++ [13; 10]) :: splitlines [] s''
           | _ => (cur ++ [13]) :: splitlines [] s'
           end
      else if linebreak c then (cur ++ [c]) :: splitlines [] s'
      else splitlines (cur ++ [c]) s'
  end.

(** FILE_LINE_RE, with [re.IGNORECASE]: at the start, FILE, whitespace, a
    double quote or none, group 1 (one or more characters other than a double
    quote, as few as possible), a double quote or none, whitespace, group 2
    (what is left of the line), the end.  It is kept in two parts: up to
    group 2, and group 2 with the end.  Under [re.IGNORECASE] the letter I
    also stands for the dotted capital and the dotless small i. *)
Definition letter_I (n : N) : bool := ci (lit "I") n || (n =? 304) || (n =? 305).

Definition FILE_LINE_HEAD : Re.t :=
  cat [Chr (ci (lit "F")); Chr letter_I; Chr (ci (lit "L")); Chr (ci (lit "E"));
       plus uspace; Opt (Chr (lit "034")); Rep false (neg (lit "034")) 1 None;
       Opt (Chr (lit "034")); star uspace].

Definition FILE_LINE_REST : Re.t := cat [star (neg (lit "010")); Eos].

(** [FILE_LINE_RE.match(core)]: group 2 of the first run, if there is one. *)
Definition file_line_rest (core : list N) : option (list N) :=
  head (flat_map (fun x => map fst (Re.runs code_p FILE_LINE_REST x.2))
                 (Re.runs code_p FILE_LINE_HEAD core)).

Fixpoint ends_with_points (s e : list N) : bool :=
  if decide (s = e) then true
  else match s with
       | [] => false
       | _ :: s' => ends_with_points s' e
       end.

Definition points (s : text) : list N := map N_of_ascii s.

(** The body of the loop over the lines: the new line when the line is a
    FILE line. *)
Definition retarget_line (new_bin_name : text) (line : list N) : option (list N) :=
  let split :=
    if ends_with_points line [13; 10]
    then (take (length line - 2) line, [13; 10])
    else if ends_with_points line [10]
    then (take (length line - 1) line, [10])
    else (line, []) in
  let core := split.1 in
  let line_end := split.2 in
  match file_line_rest core with
  | None => None
  | Some group2 =>
      let rest := Py.lstrip_by uspace (Py.rstrip_by uspace group2) in
      let new_line := points (str "FILE ") ++ [34] ++ points new_bin_name ++ [34] in
      let new_line :=
        match rest with
        | [] => new_line
        | _ => new_line ++ [32] ++ rest
        end in
      Some (new_line ++ line_end)
  end.

(** [cue_for_bin] *)
Definition cue_for_bin (bin_path : Fs.path) (w : Fs.world) : option Fs.path :=
  let cue_path := Fs.with_suffix bin_path (str ".cue") in
  if Fs.exists_ cue_path w then Some cue_path else None.

(** *** The driver *)

(** An entry of [work_items]. *)
Record work_item : Type := Item {
  bin_path : Fs.path;
  cue_path : option Fs.path;
  new_bin : Fs.path;
  new_cue : option Fs.path;
  code_of : text
}.

(** What the loop of [main] finds for the file [bin]: the cue file, the new
    paths and the code, [Some None] without a code, [None] when reading the
    image or composing the new stem raises. *)
Definition proposal (w : Fs.world) (bin : Fs.path) : option (option work_item) :=
  let code_in_name := extract_code_from_name (Fs.stem bin) in
  let scanned :=
    if negb (Fs.truthy code_in_name)
    then find_disc_code <$> Fs.read_bytes bin w else Some None in
  match scanned with
  | None => None
  | Some code_from_bin =>
      let code :=
        if Fs.truthy code_in_name then normalize_code <$> code_in_name
        else code_from_bin in
      if negb (Fs.truthy code) then Some None
      else
        let code := default [] code in
        let cue := cue_for_bin bin w in
        match new_stem_for (Fs.stem bin) code code_in_name with
        | None => None
        | Some new_stem =>
            let new_base := new_stem in
            let new_bin := Fs.with_name bin (new_base ++ Fs.suffix bin) in
            let new_cue :=
              (fun c => Fs.with_name c (new_base ++ str ".cue")) <$> cue in
            Some (Some (Item bin cue new_bin new_cue code))
        end
  end.

(** The two tests of the loop on what is there already. *)
Definition bin_conflict (it : work_item) (w : Fs.world) : bool :=
  Fs.exists_ (new_bin it) w && negb (bool_decide (new_bin it = bin_path it)).
Definition cue_conflict (it : work_item) (w : Fs.world) : bool :=
  match new_cue it with
  | Some nc => Fs.exists_ nc w && negb (bool_decide (Some nc = cue_path it))
  | None => false
  end.

(** One turn of the planning loop of [main]. *)
Definition plan_step (st : Fs.world * list work_item) (bin : Fs.path) :
    option (Fs.world * list work_item) :=
  let w := st.1 in
  let work_items := st.2 in
  match proposal w bin with
  | None => None
  | Some None =>
      Some (Fs.print (str "[WARN] No disc code found in " ++ Fs.name bin ++
                      str "; skipping") w, work_items)
  | Some (Some it) =>
      if bin_conflict it w
      then Some (Fs.print (str "[WARN] Target BIN already exists (" ++
                           Fs.name (new_bin it) ++ str "); skipping " ++
                           Fs.name bin) w, work_items)
      else if cue_conflict it w
      then Some (Fs.print (str "[WARN] Target CUE already exists (" ++
                           Fs.name (default [] (new_cue it)) ++ str "); skipping " ++
                           Fs.name bin) w, work_items)
      else Some (Fs.print (str "[PLAN] " ++ Fs.name bin ++ str " -> " ++
                           Fs.name (new_bin it)) w,
                 work_items ++ [it])
  end.

(** The planning loop: [inr] with the world as it is left when a turn
    raises. *)
Fixpoint plan_all (bins : list Fs.path) (st : Fs.world * list work_item) :
    Fs.world * list work_item + Fs.world :=
  match bins with
  | [] => inl st
  | bin :: rest =>
      match plan_step st bin with
      | None => inr st.1
      | Some st => plan_all rest st
      end
  end.

(** [bin_files] of [main]. *)
Definition bin_files (root : Fs.path) (w : Fs.world) : list Fs.path :=
  Fs.sorted (List.filter (fun p => bool_decide (Py.lower (Fs.suffix p) = str ".bin"))
                         (Fs.iterdir root w)).

Section Apply.
(** [bs.decode("utf-8", errors="replace")], the codec of Python. *)
Variable decode_utf8_replace : list byte -> list N.

(** [update_cue_file]: the world and [changed]; [None] when the cue file
    cannot be read. *)
Definition update_cue_file (cue : Fs.path) (new_bin_name : text) (w : Fs.world) :
    option (Fs.world * bool) :=
  match Fs.files w !! cue with
  | None => None
  | Some content =>
      let raw_lines :=
        splitlines [] (universal_newlines (decode_utf8_replace content)) in
      let retargeted := map (retarget_line new_bin_name) raw_lines in
      let changed := existsb (fun r => bool_decide (is_Some r)) retargeted in
      let raw_lines := zip_with (fun line r => default line r) raw_lines retargeted in
      if changed
      then Some (Fs.write_bytes cue (Py.encode_utf8 (concat raw_lines)) w, true)
      else Some (w, false)
  end.

(** The body of the loop over [work_items]. *)
Definition apply_item (it : work_item) (w : Fs.world) : option Fs.world :=
  let updated :=
    match cue_path it with
    | Some cue =>
        match update_cue_file cue (Fs.name (new_bin it)) w with
        | None => None
        | Some (w, true) => Some w
        | Some (w, false) =>
            Some (Fs.print (str "[WARN] No FILE line updated in " ++ Fs.name cue ++
                            str "; check manually") w)
        end
    | None => Some w
    end in
  match updated with
  | None => None
  | Some w =>
      match Fs.rename (bin_path it) (new_bin it) w with
      | None => None
      | Some w =>
          let renamed :=
            match cue_path it, new_cue it with
            | Some cue, Some nc => Fs.rename cue nc w
            | _, _ => Some w
            end in
          match renamed with
          | None => None
          | Some w =>
              Some (Fs.print (str "[DONE] " ++ Fs.name (bin_path it) ++ str " -> " ++
                              Fs.name (new_bin it) ++ str " [" ++ code_of it ++ str "]") w)
          end
      end
  end.

(** The loop over [work_items]: [inl] when it is through, [inr] with the
    world as it is left when a step raises. *)
Fixpoint apply_all (items : list work_item) (w : Fs.world) : Fs.world + Fs.world :=
  match items with
  | [] => inl w
  | it :: rest =>
      match apply_item it w with
      | None => inr w
      | Some w => apply_all rest w
      end
  end.

(** [main], on the resolved directory and the flag [--dry-run]. *)
Definition main (root : Fs.path) (dry_run : bool) (w : Fs.world) : Fs.outcome :=
  if negb (Fs.is_dir root w)
  then Fs.Return (Fs.print (str "[ERROR] Not a directory: " ++ Fs.show root) w) 1
  else
    match bin_files root w with
    | [] => Fs.Return (Fs.print (str "[INFO] No BIN files found in " ++ Fs.show root) w) 0
    | _ =>
        match plan_all (bin_files root w) (w, []) with
        | inr w => Fs.Raise w
        | inl (w, []) => Fs.Return (Fs.print (str "[INFO] Nothing to do.") w) 0
        | inl (w, work_items) =>
            if dry_run
            then Fs.Return (Fs.print (str "[INFO] Dry run complete; " ++
                                      Py.dec (length work_items) ++
                                      str " planned rename(s).") w) 0
            else
              match apply_all work_items w with
              | inr w => Fs.Raise w
              | inl w =>
                  Fs.Return (Fs.print (str "[INFO] Renamed " ++
                                       Py.dec (length work_items) ++
                                       str " BIN/CUE pair(s).") w) 0
              end
        end
    end.

End Apply.

End Ps1.

(** ** Script 04: tagging PS2 ISOs *)

Module Ps2.
Import Chars Re.

(** rb"([A-Z]{4,5}[-_][0-9]{3,5}(?:\.[0-9]{2})?)" *)
Definition ID_BYTES_RE : Re.t :=
  cat [times upper_AZ 4 5; Chr (oneof "-_"); times digit 3 5;
       Opt (cat [Chr (lit "."); times digit 2 2])].

(** The same pattern on [str] with [re.IGNORECASE]. *)
Definition NAME_CODE_RE : Re.t :=
  cat [times (ci upper_AZ) 4 5; Chr (ci (oneof "-_")); times (ci digit) 3 5;
       Opt (cat [Chr (ci (lit ".")); times (ci digit) 2 2])].

Definition MAX_SCAN : nat := (64 * 1024 * 1024)%nat.
Definition READ_CHUNK : nat := (4 * 1024 * 1024)%nat.

(** [normalize_code]: raw.replace("_", "-").replace(".", ""), then upper() *)
Definition normalize_code (raw : text) : text :=
  let text := Py.replace (str ".") (str "") (Py.replace (str "_") (str "-") raw) in
  Py.upper text.

Definition find_disc_code (content : list byte) : option text :=
  Scan.find_disc_code READ_CHUNK MAX_SCAN ID_BYTES_RE normalize_code content.

(** [extract_code_from_name], on the stem of the path: group 1 is the whole
    match. *)
Definition extract_code_from_name (stem : text) : option text :=
  Re.matched <$> Re.search Re.code_s NAME_CODE_RE stem.

(** [build_new_stem].  [code] is the replacement template of
    [NAME_CODE_RE.sub(code, stem, count=1)], a pattern whose one group is the
    whole match; [None] stands for the error a bad template raises. *)
Definition build_new_stem (stem code : text) (has_code : bool) : option text :=
  if has_code then Re.sub_first_template NAME_CODE_RE 1 code stem
  else Some (Py.rstrip stem ++ str " [" ++ code ++ str "]").

(** *** The driver *)

(** An entry of [work_items]: the file, its new path, the code. *)
Definition work_item : Type := (Fs.path * Fs.path * text)%type.

(** What the loop of [main] finds for the file [iso]: the new path and the
    code, [Some None] without a code, [None] when reading the image or
    composing the new stem raises. *)
Definition proposal (w : Fs.world) (iso : Fs.path) : option (option (Fs.path * text)) :=
  let code_in_name := extract_code_from_name (Fs.stem iso) in
  let scanned :=
    if negb (Fs.truthy code_in_name)
    then find_disc_code <$> Fs.read_bytes iso w else Some None in
  match scanned with
  | None => None
  | Some code_from_iso =>
      let code :=
        if Fs.truthy code_in_name then normalize_code <$> code_in_name
        else code_from_iso in
      if negb (Fs.truthy code) then Some None
      else
        let code := default [] code in
        match build_new_stem (Fs.stem iso) code (Fs.truthy code_in_name) with
        | None => None
        | Some new_stem =>
            let new_path := Fs.with_name iso (new_stem ++ Fs.suffix iso) in
            Some (Some (new_path, code))
        end
  end.

(** One turn of the planning loop of [main]: the world (for what is printed)
    and [work_items], before and after the file [iso]. *)
Definition plan_step (st : Fs.world * list work_item) (iso : Fs.path) :
    option (Fs.world * list work_item) :=
  let w := st.1 in
  let work_items := st.2 in
  match proposal w iso with
  | None => None
  | Some None =>
      Some (Fs.print (str "[WARN] No disc code found in " ++ Fs.name iso ++
                      str "; skipping") w, work_items)
  | Some (Some (new_path, code)) =>
      if Fs.exists_ new_path w && negb (bool_decide (new_path = iso))
      then Some (Fs.print (str "[WARN] Target already exists (" ++ Fs.name new_path ++
                           str "); skipping " ++ Fs.name iso) w, work_items)
      else Some (Fs.print (str "[PLAN] " ++ Fs.name iso ++ str " -> " ++
                           Fs.name new_path) w,
                 work_items ++ [(iso, new_path, code)])
  end.

(** The planning loop: [inr] with the world as it is left when a turn
    raises. *)
Fixpoint plan_all (isos : list Fs.path) (st : Fs.world * list work_item) :
    Fs.world * list work_item + Fs.world :=
  match isos with
  | [] => inl st
  | iso :: rest =>
      match plan_step st iso with
      | None => inr st.1
      | Some st => plan_all rest st
      end
  end.

(** The loop that renames: [inl] when it is through, [inr] when a rename
    raises. *)
Fixpoint rename_all (items : list work_item) (w : Fs.world) : Fs.world + Fs.world :=
  match items with
  | [] => inl w
  | (old, new, code) :: rest =>
      match Fs.rename old new w with
      | None => inr w
      | Some w =>
          rename_all rest
            (Fs.print (str "[DONE] " ++ Fs.name old ++ str " -> " ++ Fs.name new ++
                       str " [" ++ code ++ str "]") w)
      end
  end.

(** [iso_files] of [main]. *)
Definition iso_files (root : Fs.path) (w : Fs.world) : list Fs.path :=
  Fs.sorted (List.filter (fun p => bool_decide (Py.lower (Fs.suffix p) = str ".iso"))
                         (Fs.iterdir root w)).

(** [main], on the resolved directory and the flag [--dry-run]. *)
Definition main (root : Fs.path) (dry_run : bool) (w : Fs.world) : Fs.outcome :=
  if negb (Fs.is_dir root w)
  then Fs.Return (Fs.print (str "[ERROR] Not a directory: " ++ Fs.show root) w) 1
  else
    match iso_files root w with
    | [] => Fs.Return (Fs.print (str "[INFO] No ISO files found in " ++ Fs.show root) w) 0
    | _ =>
        match plan_all (iso_files root w) (w, []) with
        | inr w => Fs.Raise w
        | inl (w, []) => Fs.Return (Fs.print (str "[INFO] Nothing to do.") w) 0
        | inl (w, work_items) =>
            if dry_run
            then Fs.Return (Fs.print (str "[INFO] Dry run complete; " ++
                                      Py.dec (length work_items) ++
                                      str " planned rename(s).") w) 0
            else
              match rename_all work_items w with
              | inr w => Fs.Raise w
              | inl w =>
                  Fs.Return (Fs.print (str "[INFO] Renamed " ++
                                       Py.dec (length work_items) ++ str " ISO(s).") w) 0
              end
        end
    end.

End Ps2.

(** ** Script 03: one archive per game *)

Module Pack.
Import Chars Re.

(** r"\s*\[S[LC][A-Z]{2}[A-Z]?-?\d+\]\s*$" with [re.IGNORECASE] *)
Definition CODE_SUFFIX_RE : Re.t :=
  cat [star (ci space); Chr (ci (lit "[")); Chr (ci (lit "S"));
       Chr (ci (oneof "LC")); times (ci upper_AZ) 2 2; Opt (Chr (ci upper_AZ));
       Opt (Chr (ci (lit "-"))); plus (ci digit); Chr (ci (lit "]"));
       star (ci space); Eos].

(** r"(?i)\s*\(disc\s*\d+\)" *)
Definition DISC_PAREN_RE : Re.t :=
  cat [star (ci space); Chr (ci (lit "(")); Chr (ci (lit "d")); Chr (ci (lit "i"));
       Chr (ci (lit "s")); Chr (ci (lit "c")); star (ci space); plus (ci digit);
       Chr (ci (lit ")"))].

(** r"(?i)[ _-]*disc[_-]?\s*\d+" *)
Definition DISC_BARE_RE : Re.t :=
  cat [star (ci (oneof " _-")); Chr (ci (lit "d")); Chr (ci (lit "i"));
       Chr (ci (lit "s")); Chr (ci (lit "c")); Opt (Chr (ci (oneof "_-")));
       star (ci space); plus (ci digit)].

(** The patterns and their replacements, in the order they are applied. *)
Definition DISC_MARKER_REPS : list (Re.t * text) :=
  [(DISC_PAREN_RE, str ""); (DISC_BARE_RE, str "")].

Definition strip_code (title : text) : text :=
  sub code_s CODE_SUFFIX_RE (str "") title.

(** [for pattern, repl in DISC_MARKER_REPS: text = pattern.sub(repl, text)] *)
Definition strip_disc_markers (title : text) : text :=
  foldl (fun acc rep => sub code_s rep.1 rep.2 acc) title DISC_MARKER_REPS.

(** [normalize_title]: underscores to spaces, runs of whitespace to one
    space, trimmed. *)
Definition normalize_title (title : text) : text :=
  let spaced := Py.replace (str "_") (str " ") title in
  let collapsed := sub code_s (plus space) (str " ") spaced in
  Py.strip collapsed.

(** [game_key_from_stem]: the grouping key and the display name. *)
Definition game_key_from_stem (stem : text) : text * text :=
  let cleaned := normalize_title (strip_disc_markers (strip_code stem)) in
  let key := Py.lower cleaned in
  (key, cleaned).

(** *** Archives *)

(** ILLEGAL_FS_CHARS_RE: one of the characters backslash, slash, colon,
    star, question mark, double quote, less, greater, bar. *)
Definition illegal_fs_char (n : N) : bool :=
  existsb (N.eqb n) [92; 47; 58; 42; 63; 34; 60; 62; 124].
Definition ILLEGAL_FS_CHARS_RE : Re.t := Chr illegal_fs_char.

(** [sanitize_filename] *)
Definition sanitize_filename (name : text) : text :=
  let sanitized := sub code_s ILLEGAL_FS_CHARS_RE (str "_") name in
  let sanitized :=
    Py.strip (Py.rstrip_by (fun c => bool_decide (c = "."%char)) sanitized) in
  match sanitized with
  | [] => str "archive"
  | _ => sanitized
  end.

(** The games found so far: by key, the display name and the files. *)
Abbreviation games_map := (gmap text (text * gset Fs.path)).

(** One turn of the loop of [collect_games]. *)
Definition collect_step (st : Fs.world * games_map) (cue : Fs.path) :
    Fs.world * games_map :=
  let w := st.1 in
  let games := st.2 in
  let bin_path := Fs.with_suffix cue (str ".bin") in
  if negb (Fs.exists_ bin_path w)
  then (Fs.print (str "[WARN] Missing BIN for " ++ Fs.name cue ++
                  str "; skipping this disc") w, games)
  else
    let key := (game_key_from_stem (Fs.stem cue)).1 in
    let display := (game_key_from_stem (Fs.stem cue)).2 in
    match key with
    | [] => (Fs.print (str "[WARN] Could not derive game key for " ++ Fs.name cue ++
                       str "; skipping") w, games)
    | _ =>
        let entry := default (display, ∅) (games !! key) in
        (w, <[key := (entry.1, {[cue; bin_path]} ∪ entry.2)]> games)
    end.

(** [collect_games]: the cue files of the directory, in order. *)
Definition collect_games (root : Fs.path) (w : Fs.world) : Fs.world * games_map :=
  foldl collect_step (w, ∅)
    (Fs.sorted (List.filter (fun p => Fs.ends_with (Fs.name p) (str ".cue"))
                            (Fs.iterdir root w))).

(** How [build_archive] ends: done, with the error of a failed command, or
    with another exception. *)
Inductive built : Type :=
| Built (w : Fs.world)
| Failed (w : Fs.world) (cmd : list text) (returncode : Z)
| Crashed (w : Fs.world).

Section Tools.
(** [shutil.which], [os.cpu_count()], the text of a [CalledProcessError], and
    the run of a command in a directory: the world it leaves and its exit
    status. *)
Variable which : text -> option text.
Variable cpu_count : option nat.
Variable error_text : list text -> Z -> text.
Variable run_command : list text -> Fs.path -> Fs.world -> Fs.world * Z.

(** [find_7z] *)
Definition find_7z (custom_path : option text) : option text :=
  if Fs.truthy custom_path
  then (if Fs.truthy (which (default [] custom_path)) then custom_path else None)
  else
    let first_found :=
      List.find (fun candidate => Fs.truthy (which candidate))
                [str "7z"; str "7zz"; str "7za"] in
    match first_found with
    | Some candidate => which candidate
    | None => None
    end.

(** [build_archive] *)
Definition build_archive (sevenzip : text) (root : Fs.path) (display_name : text)
    (files : gset Fs.path) (level threads : Z) (overwrite dry_run : bool)
    (w : Fs.world) : built :=
  let archive_name := sanitize_filename display_name ++ str ".7z" in
  let archive_path := root ++ [archive_name] in
  let rel_files := map Fs.name (Fs.sorted (elements files)) in
  if Fs.exists_ archive_path w && negb overwrite
  then Built (Fs.print (str "[SKIP] " ++ archive_name ++ str " already exists") w)
  else
    let unlinked :=
      if Fs.exists_ archive_path w && negb dry_run
      then Fs.unlink archive_path w else Some w in
    match unlinked with
    | None => Crashed w
    | Some w =>
        if dry_run
        then Built (Fs.print (str "[PLAN] " ++ archive_name ++ str " <= " ++
                              Fs.join (str ", ") rel_files) w)
        else
          let thread_flag :=
            if (0 <? threads)%Z then str "-mmt=" ++ Py.decZ threads
            else str "-mmt=on" in
          let cmd := [sevenzip; str "a"; str "-t7z"; str "-mx=" ++ Py.decZ level;
                      thread_flag; archive_name] ++ rel_files in
          let w := Fs.print (str "[RUN ] " ++ Fs.join (str " ") cmd) w in
          let ran := run_command cmd root w in
          if (ran.2 =? 0)%Z then Built ran.1 else Failed ran.1 cmd ran.2
    end.

(** The loop of [main] over the games, in the order of their keys. *)
Fixpoint build_all (sevenzip : text) (root : Fs.path) (games : games_map)
    (keys : list text) (level threads : Z) (overwrite dry_run : bool)
    (w : Fs.world) : Fs.outcome + Fs.world :=
  match keys with
  | [] => inr w
  | key :: rest =>
      let entry := default ([], ∅) (games !! key) in
      let display := entry.1 in
      let files := entry.2 in
      if bool_decide (files = ∅)
      then build_all sevenzip root games rest level threads overwrite dry_run w
      else
        match build_archive sevenzip root display files level threads
                            overwrite dry_run w with
        | Built w =>
            build_all sevenzip root games rest level threads overwrite dry_run w
        | Failed w cmd returncode =>
            inl (Fs.Return
                   (Fs.print (str "[ERROR] Failed to build archive for " ++ display ++
                              str ": " ++ error_text cmd returncode) w)
                   returncode)
        | Crashed w => inl (Fs.Raise w)
        end
  end.

(** [main], on the resolved directory and the options. *)
Definition main (root : Fs.path) (dry_run overwrite : bool)
    (sevenzip_option : option text) (level threads_option : Z)
    (w : Fs.world) : Fs.outcome :=
  if negb (Fs.is_dir root w)
  then Fs.Return (Fs.print (str "[ERROR] Not a directory: " ++ Fs.show root) w) 1
  else
    match find_7z sevenzip_option with
    | None | Some [] =>
        Fs.Return (Fs.print (str "[ERROR] 7z binary not found. Install 7z/7zz/7za or pass --sevenzip /path/to/bin.") w) 1
    | Some sevenzip =>
        let collected := collect_games root w in
        let w := collected.1 in
        let games := collected.2 in
        if bool_decide (games = ∅)
        then Fs.Return (Fs.print (str "[INFO] No BIN/CUE pairs found in " ++
                                  Fs.show root) w) 0
        else if negb (threads_option =? 0)%Z && (threads_option <? 1)%Z
        then Fs.Return (Fs.print (str "[ERROR] --threads must be >= 1 or 0 for auto") w) 1
        else
          let cpus := match cpu_count with Some (S n) => S n | _ => 1%nat end in
          let auto_threads := Z.max 1 (Z.of_nat cpus * 2) in
          let threads :=
            if (0 <? threads_option)%Z then threads_option else auto_threads in
          match build_all sevenzip root games
                  (Fs.sorted_texts (map fst (map_to_list games)))
                  level threads overwrite dry_run w with
          | inl o => o
          | inr w =>
              if dry_run then Fs.Return (Fs.print (str "[INFO] Dry run complete.") w) 0
              else Fs.Return (Fs.print (str "[INFO] Done.") w) 0
          end
    end.

End Tools.

End Pack.

(** ** Script 01: single-track BIN/CUE *)

Module Cue01.
Import Fs.

(** [s.encode("utf-8")] *)
Definition utf8 (s : text) : list byte := Py.encode_utf8 (map N_of_ascii s).

(** [find_with_depth] *)
Definition find_with_depth (root : path) (ext : text) (max_depth : nat)
    (w : world) : list path :=
  sorted (List.filter (below root max_depth ext) (entries w)).

Definition file_line (bin_base : text) : text :=
  str "FILE " ++ ["034"%char] ++ bin_base ++ ["034"%char] ++ str " BINARY" ++
  ["010"%char].
Definition index_line : text := str "    INDEX 01 00:00:00" ++ ["010"%char].

(** The [for bin_path in bins] loop of [synthesize_cue], with its variables
    [track_num] and [lines]. *)
Fixpoint tracks_loop (bins : list path) (dest_dir : path) (track_num : nat)
    (lines : list text) (w : world) : option (world * list text) :=
  match bins with
  | [] => Some (w, lines)
  | bin_path :: rest =>
      let bin_base := name bin_path in
      match copy2 bin_path (dest_dir ++ [bin_base]) w with
      | None => None
      | Some w =>
          let lines := lines ++ [file_line bin_base] in
          let lines :=
            if (track_num =? 1)%nat
            then lines ++ [str "  TRACK " ++ Py.dec02 track_num ++ str " MODE2/2352" ++ ["010"%char]]
            else lines ++ [str "  TRACK " ++ Py.dec02 track_num ++ str " AUDIO" ++ ["010"%char]] in
          let lines := lines ++ [index_line] in
          tracks_loop rest dest_dir (S track_num) lines w
      end
  end.

(** [synthesize_cue]; [None] stands for an exception of [shutil.copy2]. *)
Definition synthesize_cue (bins : list path) (dest_dir : path) (base_name : text)
    (w : world) : option (world * path) :=
  let w := mkdir_p dest_dir w in
  let cue_path := dest_dir ++ [base_name ++ str ".cue"] in
  let body :=
    match bins with
    | [bin] =>
        let bin_base := name bin in
        match copy2 bin (dest_dir ++ [bin_base]) w with
        | None => None
        | Some w =>
            Some (w, [file_line bin_base;
                      str "  TRACK 01 MODE2/2352" ++ ["010"%char];
                      index_line])
        end
    | _ =>
        let w := print (str "    Synthesizing CUE for " ++ Py.dec (length bins) ++
                        str " BINs (track1 data, rest audio; order = sorted filenames)") w in
        tracks_loop bins dest_dir 1 [] w
    end in
  match body with
  | None => None
  | Some (w, lines) => Some (write_bytes cue_path (utf8 (concat lines)) w, cue_path)
  end.

(** [locate_or_build_cue]; [tmp_name] is the name [tempfile.mkdtemp] picks. *)
Definition locate_or_build_cue (game_dir : path) (base : text) (tmp_root : path)
    (tmp_name : text) (w : world) : option (world * option path) :=
  match find_with_depth game_dir (str ".cue") 2 w with
  | cue :: _ => Some (w, Some cue)
  | [] =>
      match find_with_depth game_dir (str ".bin") 2 w with
      | [] => Some (print (str "    No CUE or BIN files found; skipping") w, None)
      | bins =>
          let tmp_assets_dir := tmp_root ++ [tmp_name] in
          let w := mkdir_p tmp_assets_dir w in
          match synthesize_cue bins tmp_assets_dir base w with
          | None => None
          | Some (w, cue) => Some (w, Some cue)
          end
      end
  end.

(** [p.parents]: the directories above [p], the nearest first. *)
Definition parents (p : path) : list path :=
  map (fun n => take n p) (rev (seq 0 (length p))).

(** [str(p)] of an absolute path, the root directory as well. *)
Definition path_text (p : path) : text :=
  match p with
  | [] => str "/"
  | _ => show p
  end.

(** [needle in hay] on [str]: [needle] starts somewhere in [hay]. *)
Fixpoint contains (needle hay : text) : bool :=
  Py.starts_with needle hay ||
  match hay with
  | [] => false
  | _ :: hay' => contains needle hay'
  end.

(** The test of the list [cues] of [process_existing_cues]:
    [out_dir not in p.parents and str(out_dir) not in str(p.parent)]. *)
Definition outside (out_dir p : path) : bool :=
  negb (bool_decide (out_dir ∈ parents p)) &&
  negb (contains (path_text out_dir) (path_text (parent p))).

(** The list [cues] of [process_existing_cues]. *)
Definition existing_cues (root out_dir : path) (w : world) : list path :=
  List.filter (outside out_dir) (find_with_depth root (str ".cue") 2 w).

End Cue01.

(** * Properties *)

(** ** Text helpers *)

Section PyFacts.

Lemma starts_with_one (a c : ascii) (s : text) :
  Py.starts_with [a] (c :: s) = bool_decide (a = c).
Proof.
  simpl. destruct (ascii_dec a c) as [->|Hne].
  - by rewrite bool_decide_eq_true_2.
  - by rewrite bool_decide_eq_false_2.
Qed.

(** Replacing a one-character [old] works character by character. *)
Lemma replace_one (a : ascii) (new s : text) :
  Py.replace [a] new s =
  flat_map (fun c => if bool_decide (a = c) then new else [c]) s.
Proof.
  unfold Py.replace. induction s as [|c s IH]; [done|].
  cbn [Py.replace_from flat_map]. rewrite starts_with_one.
  cbn [length Nat.pred]. rewrite IH. by case_bool_decide.
Qed.

End PyFacts.

(** ** C1: normalisation of a raw code *)

Module NormalizeSpec.

(** The three steps of the specification, one character at a time. *)
Definition hyphenate (c : ascii) : ascii :=
  if bool_decide (c = "_"%char) then "-"%char else c.
Definition not_dot (c : ascii) : bool := negb (bool_decide (c = "."%char)).
Definition normalize (raw : text) : text :=
  map Chars.upper (List.filter not_dot (map hyphenate raw)).

Lemma ps1_normalize raw : Ps1.normalize_code raw = normalize raw.
Proof.
  unfold Ps1.normalize_code, normalize, Py.upper. f_equal.
  change (str ".") with ["."%char]. change (str "_") with ["_"%char].
  change (str "-") with ["-"%char]. change (str "") with (@nil ascii).
  rewrite !replace_one.
  induction raw as [|c raw IH]; [done|].
  cbn [flat_map map List.filter]. rewrite flat_map_app, IH. clear IH.
  unfold hyphenate, not_dot.
  destruct (decide (c = "_"%char)) as [->|Hu]; [reflexivity|].
  rewrite (bool_decide_eq_false_2 (c = "_"%char)) by done.
  rewrite (bool_decide_eq_false_2 ("_"%char = c)) by congruence.
  cbn [flat_map app].
  destruct (decide (c = "."%char)) as [->|Hd]; [reflexivity|].
  rewrite (bool_decide_eq_false_2 (c = "."%char)) by done.
  rewrite (bool_decide_eq_false_2 ("."%char = c)) by congruence.
  done.
Qed.

Lemma ps2_normalize raw : Ps2.normalize_code raw = normalize raw.
Proof. exact (ps1_normalize raw). Qed.

Lemma upper_digit c : Chars.isdigit (Chars.upper c) = Chars.isdigit c.
Proof. by destruct c as [[] [] [] [] [] [] [] []]. Qed.

Lemma upper_of_digit c : Chars.isdigit c = true -> Chars.upper c = c.
Proof. by destruct c as [[] [] [] [] [] [] [] []]. Qed.

Lemma hyphenate_other c : c <> "_"%char -> hyphenate c = c.
Proof. intros. unfold hyphenate. by rewrite bool_decide_eq_false_2. Qed.

Lemma not_dot_other c : c <> "."%char -> not_dot c = true.
Proof. intros. unfold not_dot. by rewrite bool_decide_eq_false_2. Qed.

Lemma digits_kept raw :
  List.filter Chars.isdigit (normalize raw) = List.filter Chars.isdigit raw.
Proof.
  unfold normalize. induction raw as [|c raw IH]; [done|].
  cbn [map List.filter].
  destruct (decide (c = "_"%char)) as [->|Hu]; [exact IH|].
  rewrite (hyphenate_other c Hu).
  destruct (decide (c = "."%char)) as [->|Hd]; [exact IH|].
  rewrite (not_dot_other c Hd).
  cbn [map List.filter]. rewrite upper_digit, IH.
  destruct (Chars.isdigit c) eqn:Ec; [|done].
  by rewrite upper_of_digit.
Qed.

End NormalizeSpec.

(** C1.  For every raw code, both [normalize_code] functions turn each "_"
    into "-", drop each ".", and put the rest in upper case; the digits of
    the result are exactly the digits of the raw code, in order (nothing is
    padded); and the three codes of the specification normalise as stated. *)
Theorem C1_normalize_code :
  (forall raw : text,
      Ps1.normalize_code raw = NormalizeSpec.normalize raw /\
      Ps2.normalize_code raw = NormalizeSpec.normalize raw /\
      List.filter Chars.isdigit (Ps1.normalize_code raw) =
        List.filter Chars.isdigit raw /\
      List.filter Chars.isdigit (Ps2.normalize_code raw) =
        List.filter Chars.isdigit raw) /\
  Ps1.normalize_code (str "SLUS_005.94") = str "SLUS-00594" /\
  Ps2.normalize_code (str "SLES_509.50") = str "SLES-50950" /\
  Ps1.normalize_code (str "SCUS-94900") = str "SCUS-94900" /\
  Ps2.normalize_code (str "SLUS_005.94") = str "SLUS-00594" /\
  Ps1.normalize_code (str "SLES_509.50") = str "SLES-50950" /\
  Ps2.normalize_code (str "SCUS-94900") = str "SCUS-94900".
Proof.
  split.
  - intros raw.
    rewrite NormalizeSpec.ps1_normalize, NormalizeSpec.ps2_normalize.
    auto using NormalizeSpec.digits_kept.
  - repeat split; reflexivity.
Qed.

(** ** C7, C8: scanning file content in chunks *)

Module ScanSpec.
Import Re.

(** The [k]-th block of [size] bytes of a file. *)
Definition chunk (size k : nat) (content : list byte) : list byte :=
  take size (drop (k * size) content).

(** The first [n] blocks, in reading order. *)
Definition chunks (size n : nat) (content : list byte) : list (list byte) :=
  map (fun k => chunk size k content) (seq 0 n).

(** The first match of the first block that has one. *)
Fixpoint first_match (r : Re.t) (cs : list (list byte)) : option (list byte) :=
  match cs with
  | [] => None
  | c :: cs' =>
      match search code_b r c with
      | Some m => Some (matched m)
      | None => first_match r cs'
      end
  end.

Lemma first_match_none r cs :
  Forall (fun c => search code_b r c = None) cs -> first_match r cs = None.
Proof. induction 1 as [|c cs Hc _ IH]; [done|]. cbn. by rewrite Hc. Qed.

Lemma chunks_S size n content :
  chunks size (S n) content =
  take size content :: chunks size n (drop size content).
Proof.
  unfold chunks. cbn [seq map]. f_equal.
  rewrite <- seq_shift, map_map. apply map_ext. intros k.
  unfold chunk. rewrite drop_drop. do 2 f_equal; lia.
Qed.

Lemma chunks_nil size n : chunks size n [] = replicate n [].
Proof.
  unfold chunks. generalize 0%nat. induction n as [|n IH]; intros k; [done|].
  cbn [seq map replicate]. rewrite IH. f_equal.
  unfold chunk. by rewrite drop_nil, take_nil.
Qed.

Section Loop.
Variables (READ_CHUNK MAX_SCAN : nat) (r : Re.t) (norm : text -> text).
Hypothesis chunk_pos : (0 < READ_CHUNK)%nat.
Hypothesis no_empty_match : search code_b r [] = None.

Let result (m : list byte) : text := norm (Scan.decode_ascii_ignore m).
Let loop := Scan.scan_loop READ_CHUNK MAX_SCAN r norm.

Lemma first_match_blank n : first_match r (replicate n []) = None.
Proof using no_empty_match.
  apply first_match_none, Forall_replicate, no_empty_match.
Qed.

(** One turn of the loop, read off the definition. *)
Lemma clause_step handle (x : {c | take READ_CHUNK handle = c}) scanned :
  Scan.scan_loop_unfold_clause_1 READ_CHUNK MAX_SCAN r norm handle x scanned =
  match proj1_sig x with
  | [] => None
  | b :: bs =>
      match search code_b r (b :: bs) with
      | Some m => Some (result (matched m))
      | None =>
          if (MAX_SCAN <=? scanned + length (b :: bs))%nat then None
          else loop (drop (length (b :: bs)) handle)
                    (scanned + length (b :: bs))%nat
      end
  end.
Proof. destruct x as [[|b bs] E]; simp scan_loop; done. Qed.

Lemma loop_step handle scanned :
  loop handle scanned =
  match take READ_CHUNK handle with
  | [] => None
  | b :: bs =>
      match search code_b r (b :: bs) with
      | Some m => Some (result (matched m))
      | None =>
          if (MAX_SCAN <=? scanned + length (b :: bs))%nat then None
          else loop (drop (length (b :: bs)) handle)
                    (scanned + length (b :: bs))%nat
      end
  end.
Proof.
  unfold loop at 1. rewrite Scan.scan_loop_equation_1.
  apply clause_step.
Qed.

Lemma loop_nil scanned : loop [] scanned = None.
Proof. rewrite loop_step. by rewrite take_nil. Qed.

(** With room for [S n] more blocks below the cap, the loop returns the
    first match of the next [S n] blocks. *)
Lemma loop_first_match n : forall handle scanned,
  (scanned + S n * READ_CHUNK = MAX_SCAN)%nat ->
  loop handle scanned =
  result <$> first_match r (chunks READ_CHUNK (S n) handle).
Proof using chunk_pos no_empty_match.
  induction n as [|n IH]; intros handle scanned Hcap;
    rewrite loop_step, chunks_S; cbn [first_match];
    destruct (take READ_CHUNK handle) as [|b bs] eqn:Hread.
  - rewrite no_empty_match. done.
  - destruct (search code_b r (b :: bs)) as [m|]; [done|].
    cbn [chunks seq map first_match fmap option_fmap option_map].
    destruct (decide (length (b :: bs) = READ_CHUNK)) as [Hfull|Hpart].
    + rewrite (proj2 (Nat.leb_le _ _)) by lia. done.
    + assert (length (b :: bs) <= READ_CHUNK)%nat
        by (rewrite <- Hread, length_take; lia).
      assert (length handle = length (b :: bs))
        by (rewrite <- Hread, length_take in *; lia).
      rewrite (proj2 (Nat.leb_gt _ _)) by lia.
      rewrite drop_ge by lia. apply loop_nil.
  - rewrite no_empty_match.
    assert (handle = []) as ->.
    { destruct handle; [done|]. destruct READ_CHUNK; [lia|done]. }
    rewrite drop_nil, chunks_nil, first_match_blank. done.
  - destruct (search code_b r (b :: bs)) as [m|]; [done|].
    destruct (decide (length (b :: bs) = READ_CHUNK)) as [Hfull|Hpart].
    + rewrite (proj2 (Nat.leb_gt _ _)) by lia.
      rewrite Hfull. apply IH. lia.
    + assert (length (b :: bs) <= READ_CHUNK)%nat
        by (rewrite <- Hread, length_take; lia).
      assert (length handle = length (b :: bs))
        by (rewrite <- Hread, length_take in *; lia).
      rewrite (proj2 (Nat.leb_gt _ _)) by lia.
      rewrite !drop_ge by lia. rewrite loop_nil, chunks_nil.
      by rewrite first_match_blank.
Qed.

Lemma find_disc_code_first_match q content :
  MAX_SCAN = (S q * READ_CHUNK)%nat ->
  Scan.find_disc_code READ_CHUNK MAX_SCAN r norm content =
  result <$> first_match r (chunks READ_CHUNK (S q) content).
Proof using chunk_pos no_empty_match.
  intros Hq. unfold Scan.find_disc_code. apply loop_first_match. lia.
Qed.

End Loop.

End ScanSpec.

(** Facts on the matcher that do not depend on the pattern. *)
Module ReFacts.
Import Re.

Section Generic.
Context {A : Type} (code : A -> N).

Lemma search_skip r c s :
  match_here code r (c :: s) = None ->
  search code r (c :: s) = shift c <$> search code r s.
Proof. intros H. cbn [search]. by rewrite H. Qed.

Lemma search_here r s x :
  match_here code r s = Some x ->
  search code r s = Some (Found [] x.1 x.2).
Proof. intros H. destruct s; cbn [search]; by rewrite H. Qed.

(** A character on which no match of [r] can start. *)
Definition dead (r : Re.t) (c : A) : Prop :=
  forall s, match_here code r (c :: s) = None.

Lemma search_dead_prefix r c n s :
  dead r c ->
  search code r (replicate n c ++ s) =
  (fun f => Found (replicate n c ++ before f) (matched f) (after f))
    <$> search code r s.
Proof.
  intros Hc. induction n as [|n IH]; cbn [replicate app].
  - destruct (search code r s) as [[]|]; done.
  - rewrite search_skip, IH by apply Hc.
    destruct (search code r s) as [[]|]; done.
Qed.

Lemma search_dead r c n :
  dead r c -> search code r [] = None ->
  search code r (replicate n c) = None.
Proof.
  intros Hc Hnil. rewrite <- (app_nil_r (replicate n c)).
  rewrite search_dead_prefix by done. by rewrite Hnil.
Qed.

Lemma findall_loop_dead_prefix r c n fuel s :
  dead r c ->
  findall_loop code (n + fuel) r (replicate n c ++ s) =
  findall_loop code fuel r s.
Proof.
  intros Hc. induction n as [|n IH]; [done|].
  cbn [replicate app Nat.add findall_loop]. by rewrite Hc.
Qed.

Lemma findall_dead_prefix r c n s :
  dead r c ->
  findall code r (replicate n c ++ s) = findall code r s.
Proof.
  intros Hc. unfold findall.
  rewrite length_app, length_replicate.
  replace (S (n + length s)) with (n + S (length s))%nat by lia.
  by apply findall_loop_dead_prefix.
Qed.

End Generic.

End ReFacts.

Module ScanFacts.
Import Re ReFacts ScanSpec.

Lemma ps1_cap : Ps1.MAX_SCAN = (16 * Ps1.READ_CHUNK)%nat.
Proof. unfold Ps1.MAX_SCAN, Ps1.READ_CHUNK. lia. Qed.
Lemma ps2_cap : Ps2.MAX_SCAN = (16 * Ps2.READ_CHUNK)%nat.
Proof. unfold Ps2.MAX_SCAN, Ps2.READ_CHUNK. lia. Qed.
Lemma ps1_chunk : Ps1.READ_CHUNK = (5 + (Ps1.READ_CHUNK - 5))%nat.
Proof. unfold Ps1.READ_CHUNK. lia. Qed.
Lemma ps2_chunk : Ps2.READ_CHUNK = (5 + (Ps2.READ_CHUNK - 5))%nat.
Proof. unfold Ps2.READ_CHUNK. lia. Qed.

Lemma ps1_no_empty : search code_b Ps1.ID_BYTES_RE [] = None.
Proof. reflexivity. Qed.
Lemma ps2_no_empty : search code_b Ps2.ID_BYTES_RE [] = None.
Proof. reflexivity. Qed.

Lemma ps1_dead_zero : dead code_b Ps1.ID_BYTES_RE x00.
Proof. intros s. reflexivity. Qed.
Lemma ps2_dead_zero : dead code_b Ps2.ID_BYTES_RE x00.
Proof. intros s. reflexivity. Qed.

End ScanFacts.

Module ScanClaims.
Import Re ReFacts ScanSpec ScanFacts.

(** A file of [n] zero bytes followed by [tail]. *)
Definition padded (n : nat) (tail : string) : list byte :=
replicate n x00 ++ bytes_of tail.

Lemma chunk_of_padding size q k x tail :
  (k < q)%nat ->
  chunk size k (replicate (q * size) x ++ tail) = replicate size x.
Proof.
  intros Hk. unfold chunk.
  assert (q * size = k * size + (size + (q - S k) * size))%nat as -> by nia.
  rewrite replicate_add, <- app_assoc.
  rewrite drop_app_length' by (by rewrite length_replicate).
  rewrite replicate_add, <- app_assoc.
  by rewrite take_app_length' by (by rewrite length_replicate).
Qed.

Lemma chunks_of_padding size q x tail :
  chunks size q (replicate (q * size) x ++ tail) = replicate q (replicate size x).
Proof.
  unfold chunks.
  assert (forall n k, (k + n <= q)%nat ->
    map (fun k => chunk size k (replicate (q * size) x ++ tail)) (seq k n) =
    replicate n (replicate size x)) as H.
  { induction n as [|n IH]; intros k Hk; [done|].
    cbn [seq map replicate]. rewrite chunk_of_padding by lia.
    f_equal. apply IH. lia. }
  apply H. lia.
Qed.

Lemma first_match_padding r size q tail :
  dead code_b r x00 -> search code_b r [] = None ->
  first_match r (chunks size q (replicate (q * size) x00 ++ tail)) = None.
Proof.
  intros Hd Hn. rewrite chunks_of_padding.
  apply first_match_none, Forall_replicate. by apply search_dead.
Qed.

(** The blocks of a file whose code lies across the first block boundary. *)
Lemma chunks_straddle size n :
  (5 <= size)%nat ->
  chunks size (S (S n)) (padded (size - 5) "SLUS-00594") =
  (replicate (size - 5) x00 ++ bytes_of "SLUS-") :: bytes_of "00594" ::
  replicate n [].
Proof.
  intros Hs. rewrite !chunks_S. unfold padded.
  change (bytes_of "SLUS-00594") with (bytes_of "SLUS-" ++ bytes_of "00594").
  rewrite app_assoc.
  assert (length (replicate (size - 5) x00 ++ bytes_of "SLUS-") = size) as Hlen.
  { rewrite length_app, length_replicate. cbn. lia. }
  rewrite take_app_length', drop_app_length' by done.
  rewrite take_ge, drop_ge by (cbn; lia).
  by rewrite chunks_nil.
Qed.

Lemma ps1_find content :
  Ps1.find_disc_code content =
  (fun m => Ps1.normalize_code (Scan.decode_ascii_ignore m)) <$>
  first_match Ps1.ID_BYTES_RE (chunks Ps1.READ_CHUNK 16 content).
Proof.
  unfold Ps1.find_disc_code.
  apply find_disc_code_first_match with (q := 15%nat).
  - rewrite ps1_chunk. lia.
  - exact ps1_no_empty.
  - exact ps1_cap.
Qed.

Lemma ps2_find content :
  Ps2.find_disc_code content =
  (fun m => Ps2.normalize_code (Scan.decode_ascii_ignore m)) <$>
  first_match Ps2.ID_BYTES_RE (chunks Ps2.READ_CHUNK 16 content).
Proof.
  unfold Ps2.find_disc_code.
  apply find_disc_code_first_match with (q := 15%nat).
  - rewrite ps2_chunk. lia.
  - exact ps2_no_empty.
  - exact ps2_cap.
Qed.

End ScanClaims.

(** C7.  For every file content, [find_disc_code] (of script 02 and of script
    04) returns the normalised first match of the first 4 MiB block that has
    one, among the 16 blocks below the 64 MiB cap, and nothing when none of
    these blocks has a match; a file of 64 MiB of zero bytes followed by a
    code has a match behind the cap and yields nothing. *)
Theorem C7_find_disc_code_first_match_below_cap :
  (forall content : list byte,
      Ps1.find_disc_code content =
        (fun m => Ps1.normalize_code (Scan.decode_ascii_ignore m)) <$>
        ScanSpec.first_match Ps1.ID_BYTES_RE
          (ScanSpec.chunks Ps1.READ_CHUNK 16 content)) /\
  (forall content : list byte,
      Ps2.find_disc_code content =
        (fun m => Ps2.normalize_code (Scan.decode_ascii_ignore m)) <$>
        ScanSpec.first_match Ps2.ID_BYTES_RE
          (ScanSpec.chunks Ps2.READ_CHUNK 16 content)) /\
  (forall content : list byte,
      Forall (fun c => Re.search Re.code_b Ps1.ID_BYTES_RE c = None)
             (ScanSpec.chunks Ps1.READ_CHUNK 16 content) ->
      Ps1.find_disc_code content = None) /\
  (forall content : list byte,
      Forall (fun c => Re.search Re.code_b Ps2.ID_BYTES_RE c = None)
             (ScanSpec.chunks Ps2.READ_CHUNK 16 content) ->
      Ps2.find_disc_code content = None) /\
  (let content := ScanClaims.padded Ps1.MAX_SCAN "SLUS-00594" in
   Re.search Re.code_b Ps1.ID_BYTES_RE (drop Ps1.MAX_SCAN content) =
     Some (Re.Found [] (bytes_of "SLUS-00594") []) /\
   Ps1.find_disc_code content = None) /\
  (let content := ScanClaims.padded Ps2.MAX_SCAN "SLUS-00594" in
   Re.search Re.code_b Ps2.ID_BYTES_RE (drop Ps2.MAX_SCAN content) =
     Some (Re.Found [] (bytes_of "SLUS-00594") []) /\
   Ps2.find_disc_code content = None).
Proof.
  pose proof ScanClaims.ps1_find as H1.
  pose proof ScanClaims.ps2_find as H2.
  split; [exact H1|]. split; [exact H2|].
  split; [|split; [|split]].
  - intros content Hc. rewrite H1.
    by rewrite ScanSpec.first_match_none.
  - intros content Hc. rewrite H2.
    by rewrite ScanSpec.first_match_none.
  - cbv zeta. split.
    + unfold ScanClaims.padded.
      rewrite drop_app_length' by (by rewrite length_replicate).
      reflexivity.
    + rewrite H1. unfold ScanClaims.padded. rewrite ScanFacts.ps1_cap.
      rewrite ScanClaims.first_match_padding;
        [done | exact ScanFacts.ps1_dead_zero | exact ScanFacts.ps1_no_empty].
  - cbv zeta. split.
    + unfold ScanClaims.padded.
      rewrite drop_app_length' by (by rewrite length_replicate).
      reflexivity.
    + rewrite H2. unfold ScanClaims.padded. rewrite ScanFacts.ps2_cap.
      rewrite ScanClaims.first_match_padding;
        [done | exact ScanFacts.ps2_dead_zero | exact ScanFacts.ps2_no_empty].
Qed.

Module StraddleFacts.
Import Re ReFacts ScanSpec ScanFacts ScanClaims.

Section OnePattern.
Variables (size : nat) (r : Re.t).
Hypothesis size_ge : (5 <= size)%nat.
Hypothesis dead_zero : dead code_b r x00.
Hypothesis no_empty : search code_b r [] = None.
Hypothesis head_none : search code_b r (bytes_of "SLUS-") = None.
Hypothesis tail_none : search code_b r (bytes_of "00594") = None.
Hypothesis whole : search code_b r (bytes_of "SLUS-00594") =
                   Some (Found [] (bytes_of "SLUS-00594") []).
Hypothesis only : findall code_b r (bytes_of "SLUS-00594") =
                  [bytes_of "SLUS-00594"].

Let content := padded (size - 5) "SLUS-00594".

Lemma straddle_search :
  search code_b r content =
  Some (Found (replicate (size - 5) x00) (bytes_of "SLUS-00594") []).
Proof using dead_zero whole.
  unfold content, padded. rewrite search_dead_prefix by done.
  rewrite whole. cbn. by rewrite app_nil_r.
Qed.

Lemma straddle_findall :
  findall code_b r content = [bytes_of "SLUS-00594"].
Proof using dead_zero only.
  unfold content, padded. by rewrite findall_dead_prefix.
Qed.

Lemma straddle_first_match n :
  first_match r (chunks size (S (S n)) content) = None.
Proof using size_ge dead_zero no_empty head_none tail_none.
  unfold content. rewrite chunks_straddle by done.
  cbn [first_match].
  rewrite search_dead_prefix, head_none by done.
  cbn [fmap option_fmap option_map]. rewrite tail_none.
  apply first_match_blank, no_empty.
Qed.

End OnePattern.

End StraddleFacts.

(** C8.  There is a file whose only match of the code pattern begins before
    the end of the first 4 MiB block and ends behind it, and on which
    [find_disc_code] (of script 02 and of script 04) returns nothing. *)
Theorem C8_match_across_chunk_boundary :
  exists (content before : list byte),
    (length before < Ps1.READ_CHUNK < length before + 10)%nat /\
    Ps2.READ_CHUNK = Ps1.READ_CHUNK /\
    Re.search Re.code_b Ps1.ID_BYTES_RE content =
      Some (Re.Found before (bytes_of "SLUS-00594") []) /\
    Re.findall Re.code_b Ps1.ID_BYTES_RE content = [bytes_of "SLUS-00594"] /\
    Ps1.find_disc_code content = None /\
    Re.search Re.code_b Ps2.ID_BYTES_RE content =
      Some (Re.Found before (bytes_of "SLUS-00594") []) /\
    Re.findall Re.code_b Ps2.ID_BYTES_RE content = [bytes_of "SLUS-00594"] /\
    Ps2.find_disc_code content = None.
Proof.
  pose proof ScanClaims.ps1_find as H1.
  pose proof ScanClaims.ps2_find as H2.
  exists (ScanClaims.padded (Ps1.READ_CHUNK - 5) "SLUS-00594"),
         (replicate (Ps1.READ_CHUNK - 5) x00).
  assert (5 <= Ps1.READ_CHUNK)%nat as Hge
    by (rewrite ScanFacts.ps1_chunk; lia).
  split; [rewrite length_replicate; lia|].
  split; [reflexivity|].
  split; [|split; [|split; [|split; [|split]]]].
  - apply StraddleFacts.straddle_search;
      [exact ScanFacts.ps1_dead_zero | reflexivity].
  - apply StraddleFacts.straddle_findall;
      [exact ScanFacts.ps1_dead_zero | reflexivity].
  - rewrite H1, StraddleFacts.straddle_first_match;
      [done | done | exact ScanFacts.ps1_dead_zero | reflexivity ..].
  - apply StraddleFacts.straddle_search;
      [exact ScanFacts.ps2_dead_zero | reflexivity].
  - apply StraddleFacts.straddle_findall;
      [exact ScanFacts.ps2_dead_zero | reflexivity].
  - rewrite H2.
    change Ps2.READ_CHUNK with Ps1.READ_CHUNK.
    rewrite StraddleFacts.straddle_first_match;
      [done | done | exact ScanFacts.ps2_dead_zero | reflexivity ..].
Qed.

(** ** How runs depend on the text *)

Module ReTheory.
Import Re.

(** Some class of [r] accepts the character code [n]. *)
Fixpoint accepts (r : Re.t) (n : N) : bool :=
  match r with
  | Chr p => p n
  | Rep _ p _ _ => p n
  | Opt r1 => accepts r1 n
  | Cat r1 r2 => accepts r1 n || accepts r2 n
  | Eps | Eos => false
  end.

(** [r] looks at the end of the text. *)
Fixpoint anchored (r : Re.t) : bool :=
  match r with
  | Opt r1 => anchored r1
  | Cat r1 r2 => anchored r1 || anchored r2
  | Eos => true
  | Chr _ | Rep _ _ _ _ | Eps => false
  end.

Section Runs.
Context {A : Type} (code : A -> N).

Definition extend (t : list A) (x : list A * list A) : list A * list A :=
  (x.1, x.2 ++ t).

Lemma rep_split g p : forall s lo hi x,
  x ∈ rep code g p lo hi s -> s = x.1 ++ x.2.
Proof.
  induction s as [|a s IH]; intros lo hi x Hx; cbn [rep] in Hx.
  - destruct g, lo; cbn in Hx; set_solver.
  - assert (x ∈ match lo with O => [([], a :: s)] | S _ => [] end \/
            x ∈ (if p (code a) && room hi
                 then map (consume a) (rep code g p (Nat.pred lo) (less hi) s)
                 else [])) as [H|H]
      by (destruct g; set_solver).
    + destruct lo; set_solver.
    + destruct (p (code a) && room hi); [|set_solver].
      apply list_elem_of_fmap in H as (y & -> & Hy).
      apply IH in Hy. cbn. by f_equal.
Qed.

Lemma runs_split r : forall s x, x ∈ runs code r s -> s = x.1 ++ x.2.
Proof.
  induction r as [p|g p lo hi|r IH|r1 IH1 r2 IH2| |]; intros s x Hx;
    cbn [runs] in Hx.
  - destruct s as [|a s]; [set_solver|].
    destruct (p (code a)); set_solver.
  - by eapply rep_split.
  - apply elem_of_app in Hx as [Hx|Hx]; [by apply IH|set_solver].
  - apply list_elem_of_In, in_flat_map in Hx as (y & Hy & Hx).
    apply list_elem_of_In in Hy, Hx.
    apply list_elem_of_fmap in Hx as (z & -> & Hz).
    apply IH1 in Hy. apply IH2 in Hz. cbn.
    rewrite Hy at 1. rewrite Hz at 1. by rewrite app_assoc.
  - set_solver.
  - destruct (at_end code s); set_solver.
Qed.

Lemma match_here_split r s x :
  match_here code r s = Some x -> s = x.1 ++ x.2.
Proof.
  unfold match_here. intros H. apply (runs_split r).
  destruct (runs code r s); [done|]. cbn in H. set_solver.
Qed.

Lemma search_split r : forall s f,
  search code r s = Some f -> s = before f ++ matched f ++ after f.
Proof.
  induction s as [|a s IH]; intros f; cbn [search].
  - destruct (match_here code r []) as [x|] eqn:E; [|done].
    intros [= <-]. by apply match_here_split in E.
  - destruct (match_here code r (a :: s)) as [x|] eqn:E.
    + intros [= <-]. by apply match_here_split in E.
    + destruct (search code r s) as [f'|] eqn:E'; [|done].
      intros [= <-]. cbn. f_equal. by apply IH.
Qed.

(** *** A character no class accepts stops every run *)

Lemma rep_stop g p c t :
  p (code c) = false ->
  forall s lo hi,
    rep code g p lo hi (s ++ c :: t) =
    map (extend (c :: t)) (rep code g p lo hi s).
Proof.
  intros Hc. induction s as [|a s IH]; intros lo hi; cbn [rep app].
  - rewrite Hc. destruct g, lo; reflexivity.
  - destruct (p (code a) && room hi).
    + rewrite IH, !map_map.
      destruct g, lo; cbn [map app]; rewrite ?map_app, ?map_map; reflexivity.
    + destruct g, lo; reflexivity.
Qed.

Lemma runs_stop c t r :
  accepts r (code c) = false -> anchored r = false ->
  forall s, runs code r (s ++ c :: t) = map (extend (c :: t)) (runs code r s).
Proof.
  induction r as [p|g p lo hi|r IH|r1 IH1 r2 IH2| |];
    cbn [accepts anchored]; intros Hc Ha s; cbn [runs].
  - destruct s as [|a s]; cbn [app]; [by rewrite Hc|].
    by destruct (p (code a)).
  - by apply rep_stop.
  - rewrite IH, map_app by done. done.
  - apply orb_false_iff in Hc as [Hc1 Hc2].
    apply orb_false_iff in Ha as [Ha1 Ha2].
    rewrite IH1 by done.
    induction (runs code r1 s) as [|x l IHl]; [done|].
    cbn [map flat_map]. rewrite map_app, IHl. f_equal.
    cbn [extend snd fst]. rewrite IH2, !map_map by done. done.
  - done.
  - done.
Qed.

Lemma match_here_stop c t r s :
  accepts r (code c) = false -> anchored r = false ->
  match_here code r (s ++ c :: t) = extend (c :: t) <$> match_here code r s.
Proof.
  intros Hc Ha. unfold match_here. rewrite runs_stop by done.
  by destruct (runs code r s).
Qed.

Lemma search_stop c t r :
  accepts r (code c) = false -> anchored r = false ->
  forall s,
    search code r (s ++ c :: t) =
    match search code r s with
    | Some f => Some (Found (before f) (matched f) (after f ++ c :: t))
    | None =>
        (fun f => Found (s ++ c :: before f) (matched f) (after f))
          <$> search code r t
    end.
Proof.
  intros Hc Ha. induction s as [|a s IH].
  - pose proof (match_here_stop c t r [] Hc Ha) as H0.
    cbn [app] in *. cbn [search]. rewrite H0.
    destruct (match_here code r []) as [x|]; [done|].
    cbn. by destruct (search code r t) as [[]|].
  - pose proof (match_here_stop c t r (a :: s) Hc Ha) as H0.
    cbn [app] in *. cbn [search]. rewrite H0.
    destruct (match_here code r (a :: s)) as [x|]; [done|].
    cbn [fmap option_fmap option_map]. rewrite IH.
    destruct (search code r s) as [f|]; [done|].
    cbn. by destruct (search code r t) as [[]|].
Qed.

End Runs.

End ReTheory.

(** ** The first run of a composed pattern, and scans that need no fuel *)

Module ReFirst.
Import Re ReTheory.

Section First.
Context {A : Type} (code : A -> N).

Lemma first_cat r1 r2 s x y :
  match_here code r1 s = Some x ->
  match_here code r2 x.2 = Some y ->
  match_here code (Cat r1 r2) s = Some (x.1 ++ y.1, y.2).
Proof.
  unfold match_here. cbn [runs].
  destruct (runs code r1 s) as [|x' l]; [done|]. intros [= ->].
  cbn [flat_map]. destruct (runs code r2 x.2) as [|y' l']; [done|].
  by intros [= ->].
Qed.

Lemma none_cat r1 r2 s :
  match_here code r1 s = None -> match_here code (Cat r1 r2) s = None.
Proof.
  unfold match_here. cbn [runs]. by destruct (runs code r1 s).
Qed.

Lemma first_chr p c s :
  p (code c) = true -> match_here code (Chr p) (c :: s) = Some ([c], s).
Proof. intros H. unfold match_here. cbn. by rewrite H. Qed.

Lemma none_chr p c s :
  p (code c) = false -> match_here code (Chr p) (c :: s) = None.
Proof. intros H. unfold match_here. cbn. by rewrite H. Qed.

Lemma first_opt_some r s x :
  match_here code r s = Some x -> match_here code (Opt r) s = Some x.
Proof.
  unfold match_here. cbn [runs]. by destruct (runs code r s).
Qed.

Lemma first_opt_none r s :
  match_here code r s = None -> match_here code (Opt r) s = Some ([], s).
Proof.
  unfold match_here. cbn [runs]. by destruct (runs code r s).
Qed.

Lemma first_eps s : match_here code Eps s = Some ([], s).
Proof. done. Qed.

(** The upper bound [hi] leaves room for [n] repetitions. *)
Definition fits (n : nat) (hi : option nat) : Prop :=
  match hi with Some h => (n <= h)%nat | None => True end.

(** After [n] repetitions a greedy p{lo,hi} cannot take the next character
    of [v]. *)
Definition stops (p : N -> bool) (hi : option nat) (n : nat) (v : list A) : Prop :=
  hi = Some n \/ v = [] \/ exists c v', v = c :: v' /\ p (code c) = false.

(** A greedy repetition first takes all it can. *)
Lemma first_rep_greedy p : forall u lo hi v,
  Forall (fun a => p (code a) = true) u ->
  (lo <= length u)%nat -> fits (length u) hi -> stops p hi (length u) v ->
  match_here code (Rep true p lo hi) (u ++ v) = Some (u, v).
Proof.
  unfold match_here. cbn [runs].
  induction u as [|a u IH]; intros lo hi v Hu Hlo Hhi Hstop.
  - cbn [length] in *. assert (lo = 0%nat) as -> by lia.
    cbn [app]. destruct v as [|c v]; [done|]. cbn [rep].
    destruct Hstop as [->|[[=]|(c' & v' & [= <- <-] & Hc)]]; [|by rewrite Hc].
    cbn [room]. by rewrite andb_false_r.
  - apply Forall_cons in Hu as [Ha Hu]. cbn [app rep length] in *.
    rewrite Ha.
    assert (room hi = true) as ->.
    { destruct hi as [[|h]|]; cbn in *; [lia|done..]. }
    cbn [andb].
    specialize (IH (Nat.pred lo) (less hi) v Hu).
    destruct (rep code true p (Nat.pred lo) (less hi) (u ++ v)) as [|y l].
    + exfalso. enough (None = Some (u, v)) by done. apply IH.
      * lia.
      * destruct hi as [h|]; cbn in *; lia.
      * destruct Hstop as [->|H]; [by left|by right].
    + cbn [map app head]. f_equal.
      enough (Some y = Some (u, v)) as [= ->] by done. apply IH.
      * lia.
      * destruct hi as [h|]; cbn in *; lia.
      * destruct Hstop as [->|H]; [by left|by right].
Qed.

(** *** Fuel *)

Lemma match_here_shorter r s m rest :
  match_here code r s = Some (m, rest) -> m <> [] ->
  (length rest < length s)%nat.
Proof.
  intros H Hm. apply match_here_split in H. cbn in H. subst s.
  rewrite length_app. destruct m; [done|]. cbn. lia.
Qed.

Lemma findall_loop_fuel r : forall n s f1 f2,
  (length s <= n)%nat -> (length s < f1)%nat -> (length s < f2)%nat ->
  findall_loop code f1 r s = findall_loop code f2 r s.
Proof.
  induction n as [|n IH]; intros s f1 f2 Hn H1 H2;
    (destruct f1 as [|f1]; [lia|]); (destruct f2 as [|f2]; [lia|]);
    cbn [findall_loop];
    destruct (match_here code r s) as [[[|a m] rest]|] eqn:E;
    destruct s as [|c s]; try done; cbn [length] in *; try lia.
  - apply match_here_shorter in E; [cbn in E; lia|done].
  - f_equal. apply IH; lia.
  - apply match_here_shorter in E; [cbn in E; lia|done].
  - apply match_here_shorter in E; [|done]. cbn [length] in E.
    f_equal. apply IH; lia.
  - apply IH; lia.
Qed.

Lemma findall_loop_enough r s fuel :
  (length s < fuel)%nat -> findall_loop code fuel r s = findall code r s.
Proof. intros H. unfold findall. apply (findall_loop_fuel r (length s)); lia. Qed.

Lemma sub_loop_fuel r repl : forall n s f1 f2,
  (length s <= n)%nat -> (length s < f1)%nat -> (length s < f2)%nat ->
  sub_loop code f1 r repl s = sub_loop code f2 r repl s.
Proof.
  induction n as [|n IH]; intros s f1 f2 Hn H1 H2;
    (destruct f1 as [|f1]; [lia|]); (destruct f2 as [|f2]; [lia|]);
    cbn [sub_loop];
    destruct (match_here code r s) as [[[|a m] rest]|] eqn:E;
    destruct s as [|c s]; try done; cbn [length] in *; try lia.
  - apply match_here_shorter in E; [cbn in E; lia|done].
  - do 2 f_equal. apply IH; lia.
  - apply match_here_shorter in E; [cbn in E; lia|done].
  - apply match_here_shorter in E; [|done]. cbn [length] in E.
    f_equal. apply IH; lia.
  - f_equal. apply IH; lia.
Qed.

Lemma sub_loop_enough r repl s fuel :
  (length s < fuel)%nat -> sub_loop code fuel r repl s = sub code r repl s.
Proof. intros H. unfold sub. apply (sub_loop_fuel r repl (length s)); lia. Qed.

(** The scans, unfolded once. *)
Lemma findall_loop_S r fuel s :
  findall_loop code (S fuel) r s =
  match match_here code r s, s with
  | Some ([], _), [] => [[]]
  | Some ([], _), _ :: s' => [] :: findall_loop code fuel r s'
  | Some (m, rest), _ => m :: findall_loop code fuel r rest
  | None, [] => []
  | None, _ :: s' => findall_loop code fuel r s'
  end.
Proof. done. Qed.

Lemma sub_loop_S r repl fuel s :
  sub_loop code (S fuel) r repl s =
  match match_here code r s, s with
  | Some ([], _), [] => repl
  | Some ([], _), c :: s' => repl ++ c :: sub_loop code fuel r repl s'
  | Some (_ :: _, rest), _ => repl ++ sub_loop code fuel r repl rest
  | None, [] => []
  | None, c :: s' => c :: sub_loop code fuel r repl s'
  end.
Proof. done. Qed.

Lemma findall_none r c s :
  match_here code r (c :: s) = None ->
  findall code r (c :: s) = findall code r s.
Proof.
  intros H. unfold findall at 1. rewrite findall_loop_S, H.
  apply findall_loop_enough. cbn. lia.
Qed.

Lemma findall_some r s m rest :
  match_here code r s = Some (m, rest) -> m <> [] ->
  findall code r s = m :: findall code r rest.
Proof.
  intros H Hm. pose proof (match_here_shorter _ _ _ _ H Hm).
  unfold findall at 1. rewrite findall_loop_S, H.
  destruct m as [|a m]; [done|].
  destruct s as [|c s]; [cbn in *; lia|].
  f_equal. apply findall_loop_enough. cbn in *. lia.
Qed.

Lemma sub_none r repl c s :
  match_here code r (c :: s) = None ->
  sub code r repl (c :: s) = c :: sub code r repl s.
Proof.
  intros H. unfold sub at 1. by rewrite sub_loop_S, H.
Qed.

Lemma sub_some r repl s m rest :
  match_here code r s = Some (m, rest) -> m <> [] ->
  sub code r repl s = repl ++ sub code r repl rest.
Proof.
  intros H Hm. pose proof (match_here_shorter _ _ _ _ H Hm).
  unfold sub at 1. rewrite sub_loop_S, H.
  destruct m as [|a m]; [done|].
  destruct s as [|c s]; [cbn in *; lia|].
  f_equal. apply sub_loop_enough. cbn in *. lia.
Qed.

End First.

End ReFirst.

(** ** C5, C6: composing a tagged stem *)

Module StripFacts.

Lemma lstrip_by_split {A} (p : A -> bool) (s : list A) :
  exists w, s = w ++ Py.lstrip_by p s /\ Forall (fun c => p c = true) w.
Proof.
  induction s as [|c s (w & IH & Hw)]; [by exists []|].
  cbn [Py.lstrip_by]. destruct (p c) eqn:E.
  - exists (c :: w). split; [cbn; by f_equal|by constructor].
  - by exists [].
Qed.

Lemma rstrip_by_split {A} (p : A -> bool) (s : list A) :
  exists w, s = Py.rstrip_by p s ++ w /\ Forall (fun c => p c = true) w.
Proof.
  unfold Py.rstrip_by.
  destruct (lstrip_by_split p (rev s)) as (w & E & Hw).
  exists (rev w). split; [|by apply Forall_rev].
  rewrite <- rev_app_distr, <- E. by rewrite rev_involutive.
Qed.

Lemma rstrip_split s :
  exists w, s = Py.rstrip s ++ w /\ Forall (fun c => Chars.isspace c = true) w.
Proof. apply rstrip_by_split. Qed.

End StripFacts.

Module ReScan.
Import Re ReTheory ReFirst.

Section Scan.
Context {A : Type} (code : A -> N).

Lemma search_nil_none r :
  search code r [] = None -> match_here code r [] = None.
Proof. cbn [search]. by destruct (match_here code r []). Qed.

Lemma search_cons_none r c s :
  search code r (c :: s) = None ->
  match_here code r (c :: s) = None /\ search code r s = None.
Proof.
  cbn [search]. destruct (match_here code r (c :: s)); [done|].
  by destruct (search code r s).
Qed.

(** A text without a match has none in a prefix that ends before a
    character the pattern does not accept. *)
Lemma search_none_prefix r s c t :
  accepts r (code c) = false -> anchored r = false ->
  search code r (s ++ c :: t) = None -> search code r s = None.
Proof.
  intros Hc Ha. rewrite search_stop by done.
  by destruct (search code r s).
Qed.

Lemma findall_nil r : search code r [] = None -> findall code r [] = [].
Proof.
  intros H%search_nil_none. unfold findall. rewrite findall_loop_S. by rewrite H.
Qed.

Lemma findall_skip r c t :
  accepts r (code c) = false -> anchored r = false ->
  forall s, search code r s = None ->
  findall code r (s ++ c :: t) = findall code r t.
Proof.
  intros Hc Ha. induction s as [|a s IH]; intros Hs.
  - cbn [app]. apply findall_none.
    pose proof (match_here_stop code c t r [] Hc Ha) as H. cbn [app] in H.
    rewrite H. by rewrite search_nil_none.
  - apply search_cons_none in Hs as [Hm Hs].
    pose proof (match_here_stop code c t r (a :: s) Hc Ha) as H.
    cbn [app] in *. rewrite findall_none; [by apply IH|].
    rewrite H. by rewrite Hm.
Qed.

(** No run of [r] starts in the text before its first match. *)
Lemma search_first r : forall s f,
  search code r s = Some f ->
  forall i, (i < length (before f))%nat ->
  match_here code r (drop i s) = None.
Proof.
  induction s as [|a s IH]; intros f; cbn [search].
  - destruct (match_here code r []); [|done].
    intros [= <-] i. cbn. lia.
  - destruct (match_here code r (a :: s)) as [x|] eqn:E.
    + intros [= <-] i. cbn. lia.
    + destruct (search code r s) as [f'|] eqn:E'; [|done].
      intros [= <-] [|i] Hi; [done|].
      cbn [drop]. apply (IH f'); [done|]. cbn in Hi. lia.
Qed.

End Scan.

End ReScan.

Module ComposeTheory.
Import Re ReFacts ReTheory ReFirst ReScan StripFacts.

Section Compose.
Variable r : Re.t.
Variable canonical : text -> Prop.
Hypothesis r_plain : anchored r = false.
Hypothesis r_space : forall c, Chars.isspace c = true -> accepts r (code_s c) = false.
Hypothesis r_open : accepts r (code_s "["%char) = false.
Hypothesis r_close : accepts r (code_s "]"%char) = false.
Hypothesis r_no_empty : search code_s r [] = None.
Hypothesis canonical_match : forall code,
  canonical code -> match_here code_s r (code ++ str "]") = Some (code, str "]").
Hypothesis canonical_nonempty : forall code, canonical code -> code <> [].

Definition tagged (stem code : text) : text :=
  Py.rstrip stem ++ str " [" ++ code ++ str "]".

Lemma rstrip_no_code stem :
  search code_s r stem = None -> search code_s r (Py.rstrip stem) = None.
Proof using r_plain r_space.
  intros H. destruct (rstrip_split stem) as ([|c w] & E & Hw).
  - rewrite app_nil_r in E. by rewrite <- E.
  - rewrite E in H. apply search_none_prefix in H; [done| |done].
    apply r_space. by apply Forall_cons in Hw as [? _].
Qed.

Lemma search_tagged stem code :
  search code_s r stem = None -> canonical code ->
  search code_s r (tagged stem code) =
  Some (Found (Py.rstrip stem ++ str " [") code (str "]")).
Proof using All.
  intros Hs%rstrip_no_code Hc. unfold tagged.
  change (str " [" ++ code ++ str "]")
    with (" "%char :: ([] ++ "["%char :: (code ++ str "]"))).
  rewrite search_stop, Hs by (done || by apply r_space).
  rewrite search_stop, r_no_empty by done.
  rewrite (search_here code_s r _ (code, str "]")) by by apply canonical_match.
  cbn. do 2 f_equal.
Qed.

Lemma findall_tagged stem code :
  search code_s r stem = None -> canonical code ->
  findall code_s r (tagged stem code) = [code].
Proof using All.
  intros Hs%rstrip_no_code Hc. unfold tagged.
  change (str " [" ++ code ++ str "]")
    with (" "%char :: ([] ++ "["%char :: (code ++ str "]"))).
  rewrite findall_skip by (done || by apply r_space).
  rewrite findall_skip by done.
  rewrite (findall_some code_s r _ code (str "]"))
    by (by apply canonical_match || by apply canonical_nonempty).
  f_equal. change (str "]") with ([] ++ "]"%char :: []).
  rewrite findall_skip by done. by apply findall_nil.
Qed.

Lemma sub_first_tagged stem code :
  search code_s r stem = None -> canonical code ->
  sub_first code_s r code (tagged stem code) = tagged stem code.
Proof using All.
  intros Hs Hc. unfold sub_first. rewrite search_tagged by done.
  cbn [before after]. unfold tagged. by rewrite <- app_assoc.
Qed.

Lemma sub_first_found stem code f :
  search code_s r stem = Some f ->
  sub_first code_s r code stem = before f ++ code ++ after f.
Proof. intros H. unfold sub_first. by rewrite H. Qed.

End Compose.

End ComposeTheory.

Module CodeFacts.
Import Chars Re ReTheory ReFirst.

Definition is_AZ (c : ascii) : Prop := upper_AZ (code_s c) = true.
Definition is_digit (c : ascii) : Prop := digit (code_s c) = true.

(** A canonical code of script 04: four or five capital letters, a hyphen,
    three to five digits. *)
Definition canonical2 (code : text) : Prop :=
  exists p d, code = p ++ "-"%char :: d /\
    (4 <= length p <= 5)%nat /\ Forall is_AZ p /\
    (3 <= length d <= 5)%nat /\ Forall is_digit d.

(** A canonical code of script 02: S, then L or C, then two or three capital
    letters, a hyphen, three to five digits. *)
Definition canonical1 (code : text) : Prop :=
  exists l p d, code = "S"%char :: l :: p ++ "-"%char :: d /\
    (l = "L"%char \/ l = "C"%char) /\
    (2 <= length p <= 3)%nat /\ Forall is_AZ p /\
    (3 <= length d <= 5)%nat /\ Forall is_digit d.

Lemma ci_intro p n : p n = true -> ci p n = true.
Proof. intros H. unfold ci. by rewrite H. Qed.

Lemma Forall_ci p (s : text) :
  Forall (fun c => p (code_s c) = true) s ->
  Forall (fun c => ci p (code_s c) = true) s.
Proof. intros H. eapply Forall_impl; [exact H|]. intros c. apply ci_intro. Qed.

Lemma ps1_space c :
  isspace c = true -> accepts Ps1.NAME_CODE_RE (code_s c) = false.
Proof. destruct c as [[] [] [] [] [] [] [] []]; by vm_compute. Qed.

Lemma ps2_space c :
  isspace c = true -> accepts Ps2.NAME_CODE_RE (code_s c) = false.
Proof. destruct c as [[] [] [] [] [] [] [] []]; by vm_compute. Qed.

(** The tail of both patterns, after the letters: [-_][0-9]{3,5}(?:\.[0-9]{2})? *)
Definition tail_re : Re.t :=
  cat [Chr (ci (oneof "-_")); times (ci digit) 3 5;
       Opt (cat [Chr (ci (lit ".")); times (ci digit) 2 2])].

Lemma tail_match d :
  (3 <= length d <= 5)%nat -> Forall is_digit d ->
  match_here code_s tail_re ("-"%char :: d ++ str "]") =
  Some ("-"%char :: d, str "]").
Proof.
  intros Hlen Hd. unfold tail_re, cat, times. cbn [foldr].
  etransitivity.
  { eapply first_cat; [by apply first_chr|]. cbn [snd].
    eapply first_cat.
    { apply first_rep_greedy; [by apply Forall_ci|lia|cbn; lia|].
      right; right. by exists "]"%char, []. }
    cbn [snd]. eapply first_cat; [|apply first_eps].
    apply first_opt_none. by apply none_cat, none_chr. }
  cbn [fst snd app]. by rewrite !app_nil_r.
Qed.

Lemma ps2_canonical_match code :
  canonical2 code ->
  match_here code_s Ps2.NAME_CODE_RE (code ++ str "]") = Some (code, str "]").
Proof.
  intros (p & d & -> & Hp & HAZ & Hd & Hdig).
  rewrite <- app_assoc. cbn [app].
  change Ps2.NAME_CODE_RE with (Cat (times (ci upper_AZ) 4 5) tail_re).
  etransitivity.
  { eapply first_cat.
    { apply first_rep_greedy; [by apply Forall_ci|lia|cbn; lia|].
      right; right. by exists "-"%char, (d ++ str "]"). }
    cbn [snd]. by apply tail_match. }
  done.
Qed.

Lemma ps1_canonical_match code :
  canonical1 code ->
  match_here code_s Ps1.NAME_CODE_RE (code ++ str "]") = Some (code, str "]").
Proof.
  intros (l & p & d & -> & Hl & Hp & HAZ & Hd & Hdig).
  cbn [app]. rewrite <- app_assoc. cbn [app].
  change Ps1.NAME_CODE_RE with
    (Cat (Chr (ci (lit "S"))) (Cat (Chr (ci (oneof "LC")))
      (Cat (times (ci upper_AZ) 2 2) (Cat (Opt (Chr (ci upper_AZ))) tail_re)))).
  assert (ci (oneof "LC") (code_s l) = true) as Hl'
    by (destruct Hl as [->| ->]; reflexivity).
  destruct p as [|a [|b [|c [|e p]]]]; cbn [length] in Hp; try lia.
  - apply Forall_cons in HAZ as [Ha HAZ]. apply Forall_cons in HAZ as [Hb _].
    etransitivity.
    { eapply first_cat; [by apply first_chr|]. cbn [snd].
      eapply first_cat; [by apply first_chr|]. cbn [snd].
      eapply first_cat.
      { apply (first_rep_greedy code_s _ [a; b]);
          [by repeat constructor; apply ci_intro|cbn; lia|cbn; lia|by left]. }
      cbn [snd]. eapply first_cat.
      { apply first_opt_none. by apply none_chr. }
      cbn [snd]. by apply tail_match. }
    done.
  - apply Forall_cons in HAZ as [Ha HAZ]. apply Forall_cons in HAZ as [Hb HAZ].
    apply Forall_cons in HAZ as [Hc _].
    etransitivity.
    { eapply first_cat; [by apply first_chr|]. cbn [snd].
      eapply first_cat; [by apply first_chr|]. cbn [snd].
      eapply first_cat.
      { apply (first_rep_greedy code_s _ [a; b]);
          [by repeat constructor; apply ci_intro|cbn; lia|cbn; lia|by left]. }
      cbn [snd]. eapply first_cat.
      { apply first_opt_some. apply first_chr. by apply ci_intro. }
      cbn [snd]. by apply tail_match. }
    done.
Qed.

Lemma canonical1_nonempty code : canonical1 code -> code <> [].
Proof. by intros (l & p & d & -> & _). Qed.

Lemma canonical2_nonempty code : canonical2 code -> code <> [].
Proof. intros (p & d & -> & _). by destruct p. Qed.

End CodeFacts.

Module ComposeFacts.
Import Chars Re ReFacts ReTheory ReFirst ReScan ComposeTheory CodeFacts.

Lemma plain_char c :
  is_AZ c \/ is_digit c \/ c = "-"%char ->
  NormalizeSpec.hyphenate c = c /\ NormalizeSpec.not_dot c = true /\
  Chars.upper c = c.
Proof.
  unfold is_AZ, is_digit.
  destruct c as [[] [] [] [] [] [] [] []]; vm_compute; intuition congruence.
Qed.

Lemma normalize_plain code :
  Forall (fun c => is_AZ c \/ is_digit c \/ c = "-"%char) code ->
  NormalizeSpec.normalize code = code.
Proof.
  unfold NormalizeSpec.normalize.
  induction 1 as [|c code Hc _ IH]; [done|].
  destruct (plain_char c Hc) as (H1 & H2 & H3).
  cbn [map List.filter]. rewrite H1, H2. cbn [map]. by rewrite H3, IH.
Qed.

Lemma canonical2_plain code :
  canonical2 code -> Forall (fun c => is_AZ c \/ is_digit c \/ c = "-"%char) code.
Proof.
  intros (p & d & -> & _ & Hp & _ & Hd).
  apply Forall_app. split; [eapply Forall_impl; [exact Hp|]; by left|].
  constructor; [by right; right|].
  eapply Forall_impl; [exact Hd|]. by right; left.
Qed.

Lemma ps2_normalize_canonical code :
  canonical2 code -> Ps2.normalize_code code = code.
Proof.
  intros H. rewrite NormalizeSpec.ps2_normalize.
  by apply normalize_plain, canonical2_plain.
Qed.

Lemma ps1_tagged stem code :
  search code_s Ps1.NAME_CODE_RE stem = None -> canonical1 code ->
  search code_s Ps1.NAME_CODE_RE (tagged stem code) =
  Some (Found (Py.rstrip stem ++ str " [") code (str "]")).
Proof.
  apply search_tagged;
    auto using ps1_space, ps1_canonical_match, canonical1_nonempty.
Qed.

Lemma ps2_tagged stem code :
  search code_s Ps2.NAME_CODE_RE stem = None -> canonical2 code ->
  search code_s Ps2.NAME_CODE_RE (tagged stem code) =
  Some (Found (Py.rstrip stem ++ str " [") code (str "]")).
Proof.
  apply search_tagged;
    auto using ps2_space, ps2_canonical_match, canonical2_nonempty.
Qed.

Lemma ps1_tokens stem code :
  search code_s Ps1.NAME_CODE_RE stem = None -> canonical1 code ->
  findall code_s Ps1.NAME_CODE_RE (tagged stem code) = [code].
Proof.
  apply findall_tagged;
    auto using ps1_space, ps1_canonical_match, canonical1_nonempty.
Qed.

Lemma ps2_tokens stem code :
  search code_s Ps2.NAME_CODE_RE stem = None -> canonical2 code ->
  findall code_s Ps2.NAME_CODE_RE (tagged stem code) = [code].
Proof.
  apply findall_tagged;
    auto using ps2_space, ps2_canonical_match, canonical2_nonempty.
Qed.

Lemma ps2_again stem code :
  search code_s Ps2.NAME_CODE_RE stem = None -> canonical2 code ->
  sub_first code_s Ps2.NAME_CODE_RE code (tagged stem code) = tagged stem code.
Proof.
  apply sub_first_tagged;
    auto using ps2_space, ps2_canonical_match, canonical2_nonempty.
Qed.

End ComposeFacts.

(** ** Replacement templates without a backslash *)

Module TemplateFacts.
Import Chars Re ReTheory.

(** A text without a backslash. *)
Definition plain (repl : text) : Prop := Forall (fun c => c <> backslash) repl.

Lemma parse_plain repl : plain repl -> parse_template Plain repl = Some (map Lit repl).
Proof.
  induction 1 as [|c repl Hc _ IH]; [done|]. cbn [parse_template map].
  destruct (ascii_dec c backslash); [done|]. by rewrite IH.
Qed.

Lemma compile_plain groups repl :
  plain repl -> compile_template groups repl = Some (map Lit repl).
Proof.
  intros H. unfold compile_template. rewrite (parse_plain repl H).
  assert (forallb (fun p => match p with
                            | Group i => (i <=? groups)%nat
                            | Lit _ => true
                            end) (map Lit repl) = true) as ->; [|done].
  clear H. by induction repl.
Qed.

Lemma expand_plain repl m : expand (map Lit repl) m = repl.
Proof. unfold expand. induction repl as [|c repl IH]; [done|]. cbn. by rewrite IH. Qed.

(** A template without a backslash is put in as it is. *)
Lemma sub_first_plain r groups repl s :
  plain repl ->
  sub_first_template r groups repl s = Some (sub_first code_s r repl s).
Proof.
  intros H. unfold sub_first_template, sub_first.
  rewrite (compile_plain groups repl H).
  destruct (search code_s r s); [|done]. by rewrite expand_plain.
Qed.

(** *** What a match is made of *)

Section Accepted.
Context {A : Type} (code : A -> N).

Lemma rep_accepted g p : forall s lo hi x,
  In x (rep code g p lo hi s) -> Forall (fun a => p (code a) = true) x.1.
Proof.
  induction s as [|c s IH]; intros lo hi x; cbn [rep].
  - destruct g, lo; cbn; intros H; try done; destruct H as [<-|[]]; by constructor.
  - intros H.
    assert (In x (match lo with O => [([], c :: s)] | S _ => [] end) \/
            In x (if p (code c) && room hi
                  then map (consume c) (rep code g p (Nat.pred lo) (less hi) s)
                  else [])) as [Hx|Hx].
    { destruct g; apply in_app_or in H; tauto. }
    + destruct lo; [|done]. destruct Hx as [<-|[]]. by constructor.
    + destruct (p (code c)) eqn:Hc; [|done]. destruct (room hi); [|done].
      apply in_map_iff in Hx as (y & <- & Hy). cbn.
      constructor; [done|]. by eapply IH.
Qed.

Lemma runs_accepted : forall r s x,
  In x (runs code r s) -> Forall (fun a => accepts r (code a) = true) x.1.
Proof.
  induction r as [p|g p lo hi|r IH|r1 IH1 r2 IH2| |]; intros s x; cbn [runs accepts].
  - destruct s as [|c s]; [done|]. destruct (p (code c)) eqn:Hc; [|done].
    intros [<-|[]]. by repeat constructor.
  - apply rep_accepted.
  - intros [H|[<-|[]]]%in_app_or; [by eapply IH | by constructor].
  - intros (y & Hy & Hx)%in_flat_map. apply in_map_iff in Hx as (z & <- & Hz).
    cbn. apply Forall_app. split.
    + eapply Forall_impl; [by eapply IH1|]. cbn. intros a ->. done.
    + eapply Forall_impl; [by eapply IH2|]. cbn. intros a ->. apply orb_true_r.
  - intros [<-|[]]. by constructor.
  - destruct (at_end code s); [|done]. intros [<-|[]]. by constructor.
Qed.

Lemma search_accepted r : forall s f,
  search code r s = Some f ->
  Forall (fun a => accepts r (code a) = true) (matched f).
Proof.
  induction s as [|c s IH]; intros f; cbn [search]; unfold match_here.
  - destruct (runs code r []) as [|x l] eqn:E; [done|]. cbn. intros [= <-]. cbn.
    apply (runs_accepted r [] x). rewrite E. by left.
  - destruct (runs code r (c :: s)) as [|x l] eqn:E; cbn.
    + destruct (search code r s) as [f'|]; [|done]. cbn. intros [= <-]. cbn.
      by apply IH.
    + intros [= <-]. cbn. apply (runs_accepted r (c :: s) x). rewrite E. by left.
Qed.

End Accepted.

(** *** The codes the drivers compose with *)

Lemma normalize_keeps_plain raw : plain raw -> plain (NormalizeSpec.normalize raw).
Proof.
  unfold plain, NormalizeSpec.normalize. induction 1 as [|c raw Hc _ IH]; [done|].
  cbn [map List.filter]. destruct (NormalizeSpec.not_dot _); [|done].
  cbn [map]. constructor; [|done].
  unfold NormalizeSpec.hyphenate. intros E. apply Hc. revert E.
  destruct c as [[] [] [] [] [] [] [] []]; vm_compute; congruence.
Qed.

Lemma ps2_match_plain stem f :
  search code_s Ps2.NAME_CODE_RE stem = Some f -> plain (matched f).
Proof.
  intros H%search_accepted. eapply Forall_impl; [exact H|]. cbn.
  intros c Hc ->. by vm_compute in Hc.
Qed.

Lemma ps1_match_plain stem f :
  search code_s Ps1.NAME_CODE_RE stem = Some f -> plain (matched f).
Proof.
  intros H%search_accepted. eapply Forall_impl; [exact H|]. cbn.
  intros c Hc ->. by vm_compute in Hc.
Qed.

Lemma canonical2_is_plain code : CodeFacts.canonical2 code -> plain code.
Proof.
  intros H%ComposeFacts.canonical2_plain. eapply Forall_impl; [exact H|]. cbn.
  unfold CodeFacts.is_AZ, CodeFacts.is_digit.
  intros c Hc ->. destruct Hc as [Hc|[Hc|Hc]]; by vm_compute in Hc.
Qed.

Lemma canonical1_is_plain code : CodeFacts.canonical1 code -> plain code.
Proof.
  intros (l & p & d & -> & Hl & _ & Hp & _ & Hd). unfold plain.
  constructor; [done|]. constructor; [by destruct Hl as [->| ->]|].
  apply Forall_app. split.
  - eapply Forall_impl; [exact Hp|]. cbn. unfold CodeFacts.is_AZ.
    intros c Hc ->. by vm_compute in Hc.
  - constructor; [done|]. eapply Forall_impl; [exact Hd|]. cbn.
    unfold CodeFacts.is_digit. intros c Hc ->. by vm_compute in Hc.
Qed.

(** The stem composed with a code put in as it is. *)
Definition ps2_stem (stem code : text) (has_code : bool) : text :=
  if has_code then sub_first code_s Ps2.NAME_CODE_RE code stem
  else Py.rstrip stem ++ str " [" ++ code ++ str "]".

Definition ps1_stem (stem code : text) (code_in_name : option text) : text :=
  if Fs.truthy code_in_name
  then sub_first code_s Ps1.NAME_CODE_RE code stem
  else Ps1.build_new_base stem code.

Lemma ps2_build_plain stem code has_code :
  plain code ->
  Ps2.build_new_stem stem code has_code = Some (ps2_stem stem code has_code).
Proof.
  intros H. unfold Ps2.build_new_stem, ps2_stem. destruct has_code; [|done].
  by apply sub_first_plain.
Qed.

Lemma ps1_stem_plain stem code code_in_name :
  plain code ->
  Ps1.new_stem_for stem code code_in_name = Some (ps1_stem stem code code_in_name).
Proof.
  intros H. unfold Ps1.new_stem_for, ps1_stem.
  destruct (Fs.truthy code_in_name); [|done]. by apply sub_first_plain.
Qed.

(** Without a code in the name no template is read. *)
Lemma ps2_build_append stem code :
  Ps2.build_new_stem stem code false = Some (ps2_stem stem code false).
Proof. reflexivity. Qed.

(** What the drivers compose: with a code in the name, its normal form
    replaces it; the new stem is there, no error is raised. *)
Lemma ps2_composed stem code_from_iso :
  let code_in_name := Ps2.extract_code_from_name stem in
  let code :=
    default [] (if Fs.truthy code_in_name then Ps2.normalize_code <$> code_in_name
                else code_from_iso) in
  Ps2.build_new_stem stem code (Fs.truthy code_in_name) =
  Some (ps2_stem stem code (Fs.truthy code_in_name)).
Proof.
  cbn zeta. unfold Ps2.extract_code_from_name.
  destruct (search code_s Ps2.NAME_CODE_RE stem) as [f|] eqn:E; [|done].
  cbn [fmap option_fmap option_map]. destruct (Fs.truthy (Some (matched f))); [|done].
  apply ps2_build_plain. cbn. rewrite NormalizeSpec.ps2_normalize.
  by eapply normalize_keeps_plain, ps2_match_plain.
Qed.

Lemma ps1_composed stem code_from_bin :
  let code_in_name := Ps1.extract_code_from_name stem in
  let code :=
    default [] (if Fs.truthy code_in_name then Ps1.normalize_code <$> code_in_name
                else code_from_bin) in
  Ps1.new_stem_for stem code code_in_name =
  Some (ps1_stem stem code code_in_name).
Proof.
  cbn zeta. unfold Ps1.extract_code_from_name.
  destruct (search code_s Ps1.NAME_CODE_RE stem) as [f|] eqn:E; [|done].
  cbn [fmap option_fmap option_map].
  destruct (Fs.truthy (Some (matched f))) eqn:Et.
  - apply ps1_stem_plain. cbn. rewrite NormalizeSpec.ps1_normalize.
    by eapply normalize_keeps_plain, ps1_match_plain.
  - unfold Ps1.new_stem_for, ps1_stem. by rewrite Et.
Qed.

(** What the loops find for a file, with the new stem composed: composing
    raises nothing there, so that [proposal] is [None] only when the image
    cannot be read. *)
Definition proposal2 (w : Fs.world) (iso : Fs.path) :
    option (option (Fs.path * text)) :=
  let code_in_name := Ps2.extract_code_from_name (Fs.stem iso) in
  let scanned :=
    if negb (Fs.truthy code_in_name)
    then Ps2.find_disc_code <$> Fs.read_bytes iso w else Some None in
  match scanned with
  | None => None
  | Some code_from_iso =>
      let code :=
        if Fs.truthy code_in_name then Ps2.normalize_code <$> code_in_name
        else code_from_iso in
      if negb (Fs.truthy code) then Some None
      else
        let code := default [] code in
        let new_stem := ps2_stem (Fs.stem iso) code (Fs.truthy code_in_name) in
        let new_path := Fs.with_name iso (new_stem ++ Fs.suffix iso) in
        Some (Some (new_path, code))
  end.

Definition proposal1 (w : Fs.world) (bin : Fs.path) : option (option Ps1.work_item) :=
  let code_in_name := Ps1.extract_code_from_name (Fs.stem bin) in
  let scanned :=
    if negb (Fs.truthy code_in_name)
    then Ps1.find_disc_code <$> Fs.read_bytes bin w else Some None in
  match scanned with
  | None => None
  | Some code_from_bin =>
      let code :=
        if Fs.truthy code_in_name then Ps1.normalize_code <$> code_in_name
        else code_from_bin in
      if negb (Fs.truthy code) then Some None
      else
        let code := default [] code in
        let cue := Ps1.cue_for_bin bin w in
        let new_base := ps1_stem (Fs.stem bin) code code_in_name in
        let new_bin := Fs.with_name bin (new_base ++ Fs.suffix bin) in
        let new_cue :=
          (fun c => Fs.with_name c (new_base ++ str ".cue")) <$> cue in
        Some (Some (Ps1.Item bin cue new_bin new_cue code))
  end.

Lemma proposal2_eq w iso : Ps2.proposal w iso = proposal2 w iso.
Proof.
  unfold Ps2.proposal, proposal2. cbn zeta.
  destruct (if negb _ then _ else _) as [code_from_iso|]; [|done].
  destruct (negb (Fs.truthy _)); [done|].
  by rewrite (ps2_composed (Fs.stem iso) code_from_iso).
Qed.

Lemma proposal1_eq w bin : Ps1.proposal w bin = proposal1 w bin.
Proof.
  unfold Ps1.proposal, proposal1. cbn zeta.
  destruct (if negb _ then _ else _) as [code_from_bin|]; [|done].
  destruct (negb (Fs.truthy _)); [done|].
  by rewrite (ps1_composed (Fs.stem bin) code_from_bin).
Qed.

End TemplateFacts.

(** ** Runs next to a boundary in the text *)

Module ReLocal.
Import Re ReTheory ReFirst.

(** [r] can match the empty text. *)
Fixpoint nullable (r : Re.t) : bool :=
  match r with
  | Chr _ => false
  | Rep _ _ lo _ => match lo with O => true | S _ => false end
  | Opt _ | Eps | Eos => true
  | Cat r1 r2 => nullable r1 && nullable r2
  end.

Section Boundary.
Context {A : Type} (code : A -> N).

Lemma rep_nonempty g p lo hi s x :
  x ∈ rep code g p (S lo) hi s -> x.1 <> [].
Proof.
  destruct s as [|a s]; cbn [rep].
  - destruct g; set_solver.
  - intros H.
    assert (x ∈ (if p (code a) && room hi
                 then map (consume a) (rep code g p lo (less hi) s)
                 else [])) as H' by (destruct g; set_solver).
    destruct (p (code a) && room hi); [|set_solver].
    by apply list_elem_of_fmap in H' as (y & -> & _).
Qed.

Lemma runs_nonempty r :
  nullable r = false -> forall s x, x ∈ runs code r s -> x.1 <> [].
Proof.
  induction r as [p|g p lo hi|r IH|r1 IH1 r2 IH2| |]; cbn [nullable];
    intros Hn s x Hx; try done; cbn [runs] in Hx.
  - destruct s as [|a s]; [set_solver|].
    destruct (p (code a)); [|set_solver].
    apply list_elem_of_singleton in Hx as ->. done.
  - destruct lo; [done|]. by eapply rep_nonempty.
  - apply list_elem_of_In, in_flat_map in Hx as (y & Hy & Hx).
    apply list_elem_of_In in Hy, Hx.
    apply list_elem_of_fmap in Hx as (z & -> & Hz). cbn.
    apply andb_false_iff in Hn as [Hn|Hn].
    + apply (IH1 Hn) in Hy. by destruct y.1.
    + apply (IH2 Hn) in Hz. destruct z.1; [done|]. by destruct y.1.
Qed.

Lemma match_here_nonempty r s x :
  nullable r = false -> match_here code r s = Some x -> x.1 <> [].
Proof.
  intros Hn H. apply (runs_nonempty r Hn s). unfold match_here in H.
  destruct (runs code r s); [done|]. cbn in H. set_solver.
Qed.

Lemma search_nonempty r : nullable r = false -> forall s f,
  search code r s = Some f -> matched f <> [].
Proof.
  intros Hn. induction s as [|a s IH]; intros f; cbn [search].
  - destruct (match_here code r []) as [x|] eqn:E; [|done].
    intros [= <-]. by apply (match_here_nonempty _ _ _ Hn E).
  - destruct (match_here code r (a :: s)) as [x|] eqn:E.
    + intros [= <-]. by apply (match_here_nonempty _ _ _ Hn E).
    + destruct (search code r s) as [f'|]; [|done].
      intros [= <-]. cbn. by apply IH.
Qed.

Lemma match_here_nil r : nullable r = false -> match_here code r [] = None.
Proof.
  intros Hn. destruct (match_here code r []) as [x|] eqn:E; [|done].
  pose proof (match_here_nonempty _ _ _ Hn E) as Hx.
  apply match_here_split in E. destruct x as [[|a m] rest]; done.
Qed.

(** *** Runs that do not depend on what follows *)

(** Whatever stands before [t], the runs of [r] end before [t]. *)
Definition local (r : Re.t) (t : list A) : Prop :=
  forall u, runs code r (u ++ t) = map (extend t) (runs code r u).

Lemma local_alpha r c t :
  accepts r (code c) = false -> anchored r = false -> local r (c :: t).
Proof. intros Hc Ha u. by apply runs_stop. Qed.

Lemma flat_map_extend k t (l : list (list A * list A)) :
  local k t ->
  flat_map (fun x => map (fun y => (x.1 ++ y.1, y.2)) (runs code k x.2))
           (map (extend t) l) =
  map (extend t)
      (flat_map (fun x => map (fun y => (x.1 ++ y.1, y.2)) (runs code k x.2)) l).
Proof.
  intros Hk. induction l as [|x l IH]; [done|].
  cbn [map flat_map]. rewrite map_app, IH. f_equal.
  cbn [extend snd fst]. rewrite Hk, !map_map. done.
Qed.

Lemma local_cat r1 r2 t : local r1 t -> local r2 t -> local (Cat r1 r2) t.
Proof.
  intros H1 H2 u. cbn [runs]. rewrite H1. by apply flat_map_extend.
Qed.

Lemma local_eps t : local Eps t.
Proof. intros u. done. Qed.

(** A repetition cannot pass a character outside its class. *)
Lemma rep_blocked g p t : forall u lo hi,
  Exists (fun a => p (code a) = false) u ->
  rep code g p lo hi (u ++ t) = map (extend t) (rep code g p lo hi u).
Proof.
  induction u as [|a u IH]; intros lo hi Hu; [by apply Exists_nil in Hu|].
  cbn [app rep]. destruct (p (code a)) eqn:Ea.
  - apply Exists_cons in Hu as [Hu|Hu]; [congruence|].
    destruct (room hi); cbn [andb].
    + rewrite IH, !map_map by done.
      destruct g, lo; cbn [map app]; rewrite ?map_app, ?map_map; reflexivity.
    + destruct g, lo; reflexivity.
  - destruct g, lo; reflexivity.
Qed.

Lemma all_or_blocked (p : N -> bool) (u : list A) :
  Forall (fun a => p (code a) = true) u \/
  Exists (fun a => p (code a) = false) u.
Proof.
  induction u as [|a u [IH|IH]]; [by left| |by right; right].
  destruct (p (code a)) eqn:Ea; [left; by constructor|right; by left].
Qed.

(** A greedy star whose class holds all of [u] and the next character: the
    runs into the text behind [u] come first. *)
Lemma star_cross p c t : p (code c) = true -> forall u,
  Forall (fun a => p (code a) = true) u ->
  rep code true p 0 None (u ++ c :: t) =
  map (fun x => (u ++ c :: x.1, x.2)) (rep code true p 0 None t) ++
  map (extend (c :: t)) (rep code true p 0 None u).
Proof.
  intros Hc. induction u as [|a u IH]; intros Hu.
  - cbn [app rep]. rewrite Hc. reflexivity.
  - apply Forall_cons in Hu as [Ha Hu]. cbn [app rep]. rewrite Ha.
    cbn [andb room less Nat.pred]. rewrite IH by done.
    rewrite !map_app, !map_map, <- app_assoc. done.
Qed.

(** A leading star is passed only when all of [u] is in its class. *)
Lemma blocked_cat g p lo hi k t u :
  Exists (fun a => p (code a) = false) u -> local k t ->
  runs code (Cat (Rep g p lo hi) k) (u ++ t) =
  map (extend t) (runs code (Cat (Rep g p lo hi) k) u).
Proof.
  intros Hu Hk. cbn [runs]. rewrite rep_blocked by done.
  by apply flat_map_extend.
Qed.

(** A star that can take the head of [t] stays local when the runs that go
    on into [t] fail in what follows the star. *)
Lemma local_cat_star p k c t :
  p (code c) = true ->
  (forall x, x ∈ rep code true p 0 None t -> runs code k x.2 = []) ->
  local k (c :: t) ->
  local (Cat (Rep true p 0 None) k) (c :: t).
Proof.
  intros Hc Hdie Hk u.
  destruct (all_or_blocked p u) as [Hu|Hu]; [|by apply blocked_cat].
  cbn [runs]. rewrite star_cross by done.
  rewrite flat_map_app.
  rewrite (flat_map_extend k (c :: t)) by done.
  enough (flat_map (fun x => map (fun y => (x.1 ++ y.1, y.2)) (runs code k x.2))
            (map (fun x => (u ++ c :: x.1, x.2)) (rep code true p 0 None t)) = [])
    as -> by done.
  induction (rep code true p 0 None t) as [|x l IH]; [done|].
  cbn [map flat_map snd]. rewrite Hdie by set_solver. cbn [map app].
  apply IH. intros y Hy. apply Hdie. set_solver.
Qed.

(** *** Runs that fail whatever precedes *)

Definition dead_on (r : Re.t) (t : list A) : Prop :=
  forall u, runs code r (u ++ t) = [].

Lemma flat_map_dead k t (l : list (list A * list A)) :
  dead_on k t ->
  flat_map (fun x => map (fun y => (x.1 ++ y.1, y.2)) (runs code k x.2))
           (map (extend t) l) = [].
Proof.
  intros Hk. induction l as [|x l IH]; [done|].
  cbn [map flat_map extend snd]. by rewrite Hk, IH.
Qed.

Lemma dead_cat_local r1 r2 t : local r1 t -> dead_on r2 t -> dead_on (Cat r1 r2) t.
Proof.
  intros H1 H2 u. cbn [runs]. rewrite H1. by apply flat_map_dead.
Qed.

Lemma at_end_behind (t u : list A) :
  t <> [] -> at_end code t = false -> at_end code (u ++ t) = false.
Proof.
  intros Ht He. destruct u as [|a u]; [done|].
  cbn [app at_end]. destruct (u ++ t) eqn:E; [|done].
  by apply app_eq_nil in E as [_ ->].
Qed.

Lemma dead_eos k t : t <> [] -> at_end code t = false -> dead_on (Cat Eos k) t.
Proof.
  intros Ht He u. cbn [runs]. by rewrite at_end_behind.
Qed.

(** Where a run of a repetition on [u ++ t] ends: before [t], or in it. *)
Lemma rep_cross g p t : forall u lo hi x,
  x ∈ rep code g p lo hi (u ++ t) ->
  (exists u1, x.2 = u1 ++ t) \/
  (exists m, m <> [] /\ Forall (fun a => p (code a) = true) m /\ t = m ++ x.2).
Proof.
  assert (forall s lo hi x, x ∈ rep code g p lo hi s ->
            Forall (fun a => p (code a) = true) x.1 /\ s = x.1 ++ x.2) as Hin.
  { induction s as [|a s IH]; intros lo hi x Hx; cbn [rep] in Hx.
    - destruct g, lo; cbn in Hx; set_solver.
    - assert (x ∈ match lo with O => [([], a :: s)] | S _ => [] end \/
              x ∈ (if p (code a) && room hi
                   then map (consume a) (rep code g p (Nat.pred lo) (less hi) s)
                   else [])) as [H|H]
        by (destruct g; set_solver).
      + destruct lo; [|set_solver].
        apply list_elem_of_singleton in H as ->. by split.
      + destruct (p (code a)) eqn:Ea; cbn [andb] in H; [|set_solver].
        destruct (room hi); [|set_solver].
        apply list_elem_of_fmap in H as (y & -> & Hy).
        apply IH in Hy as [Hy1 Hy2]. cbn. split; [by constructor|by f_equal]. }
  induction u as [|a u IH]; intros lo hi x Hx.
  - cbn [app] in Hx. apply Hin in Hx as [H1 H2].
    destruct x as [[|b m] rest]; cbn in *.
    + left. by exists [].
    + right. by exists (b :: m).
  - cbn [app rep] in Hx.
    assert (x ∈ match lo with O => [([], a :: u ++ t)] | S _ => [] end \/
            x ∈ (if p (code a) && room hi
                 then map (consume a)
                        (rep code g p (Nat.pred lo) (less hi) (u ++ t))
                 else [])) as [H|H]
      by (destruct g; set_solver).
    + destruct lo; [|set_solver].
      apply list_elem_of_singleton in H as ->. left. by exists (a :: u).
    + destruct (p (code a) && room hi); [|set_solver].
      apply list_elem_of_fmap in H as (y & -> & Hy).
      by apply IH in Hy.
Qed.

Lemma dead_cat_rep g p lo hi k t :
  dead_on k t ->
  (forall m t', t = m ++ t' -> m <> [] ->
     Forall (fun a => p (code a) = true) m -> runs code k t' = []) ->
  dead_on (Cat (Rep g p lo hi) k) t.
Proof.
  intros Hk Hcross u. cbn [runs].
  assert (forall x, x ∈ rep code g p lo hi (u ++ t) -> runs code k x.2 = []) as H.
  { intros x [[u1 ->]|(m & Hm & Hp & E)]%rep_cross; [apply Hk|].
    by apply (Hcross m). }
  induction (rep code g p lo hi (u ++ t)) as [|x l IH]; [done|].
  cbn [flat_map]. rewrite H by set_solver. cbn [map app].
  apply IH. intros y Hy. apply H. set_solver.
Qed.

Lemma dead_blocked g p lo hi k t u :
  Exists (fun a => p (code a) = false) u -> dead_on k t ->
  runs code (Cat (Rep g p lo hi) k) (u ++ t) = [].
Proof.
  intros Hu Hk. cbn [runs]. rewrite rep_blocked by done.
  by apply flat_map_dead.
Qed.

(** A pattern that needs a character of class [q] behind its leading
    repetition has no run on a text without one. *)
Lemma needs_char g p lo hi q k s :
  Forall (fun a => q (code a) = false) s ->
  runs code (Cat (Rep g p lo hi) (Cat (Chr q) k)) s = [].
Proof.
  intros Hs. cbn [runs].
  assert (forall x, x ∈ rep code g p lo hi s ->
            Forall (fun a => q (code a) = false) x.2) as H.
  { intros x Hx. apply rep_split in Hx. rewrite Hx in Hs.
    by apply Forall_app in Hs as [_ ?]. }
  induction (rep code g p lo hi s) as [|x l IH]; [done|].
  cbn [flat_map]. rewrite IH by (intros y Hy; apply H; set_solver).
  assert (Forall (fun a => q (code a) = false) x.2) as Hx by (apply H; set_solver).
  destruct x.2 as [|a rest]; [done|].
  apply Forall_cons in Hx as [Ha _]. by rewrite Ha.
Qed.

End Boundary.

End ReLocal.

(** ** Substitution on a text with a known end *)

Module SubLocal.
Import Re ReTheory ReFirst ReLocal.

Section Sub.
Context {A : Type} (code : A -> N).

Lemma sub_nil r repl : nullable r = false -> sub code r repl [] = [].
Proof.
  intros Hn. unfold sub. rewrite sub_loop_S.
  by rewrite (match_here_nil code r Hn).
Qed.

Lemma sub_no_match r repl : forall s,
  (forall u1 u2, s = u1 ++ u2 -> match_here code r u2 = None) ->
  sub code r repl s = s.
Proof.
  induction s as [|c s IH]; intros H.
  - unfold sub. rewrite sub_loop_S. by rewrite (H [] []).
  - rewrite sub_none by (by apply (H [])). f_equal. apply IH.
    intros u1 u2 ->. by apply (H (c :: u1)).
Qed.

Lemma sub_dead_prefix r repl t : forall y,
  (forall u1 u2, y = u1 ++ u2 -> u2 <> [] ->
     match_here code r (u2 ++ t) = None) ->
  sub code r repl (y ++ t) = y ++ sub code r repl t.
Proof.
  induction y as [|c y IH]; intros H; [done|].
  cbn [app]. rewrite sub_none by (by apply (H [] (c :: y))).
  f_equal. apply IH. intros u1 u2 -> Hu. by apply (H (c :: u1)).
Qed.

Lemma match_here_local r t u :
  runs code r (u ++ t) = map (extend t) (runs code r u) ->
  match_here code r (u ++ t) = extend t <$> match_here code r u.
Proof. unfold match_here. intros ->. by destruct (runs code r u). Qed.

Lemma sub_app_local r repl t :
  local code r t -> nullable r = false ->
  forall base, sub code r repl (base ++ t) =
               sub code r repl base ++ sub code r repl t.
Proof.
  intros Hl Hn base.
  remember (length base) as n eqn:En.
  revert base En. induction n as [n IH] using lt_wf_ind. intros base En.
  destruct base as [|c base].
  - by rewrite sub_nil.
  - pose proof (match_here_local r t (c :: base) (Hl _)) as Hm.
    destruct (match_here code r (c :: base)) as [[m rest]|] eqn:E.
    + pose proof (match_here_nonempty code _ _ _ Hn E) as Hne.
      pose proof (match_here_shorter code _ _ _ _ E Hne) as Hlt.
      rewrite (sub_some code r repl _ m (rest ++ t)) by done.
      rewrite (sub_some code r repl (c :: base) m rest) by done.
      rewrite <- app_assoc. f_equal. apply (IH (length rest)); [lia|done].
    + cbn [app] in *. rewrite !sub_none by done.
      cbn [app]. f_equal. apply (IH (length base)); [cbn in En; lia|done].
Qed.

(** Two texts with the same beginning: when at every place of the beginning
    the runs either end within it, or the match takes all that is left of
    both texts, substitution gives the same on both. *)
Lemma sub_same_context r repl t1 t2 :
  nullable r = false ->
  (forall u,
     (u <> [] /\
      runs code r (u ++ t1) = map (extend t1) (runs code r u) /\
      runs code r (u ++ t2) = map (extend t2) (runs code r u)) \/
     (match_here code r (u ++ t1) = Some (u ++ t1, []) /\
      match_here code r (u ++ t2) = Some (u ++ t2, []))) ->
  forall base, sub code r repl (base ++ t1) = sub code r repl (base ++ t2).
Proof.
  intros Hn H base.
  remember (length base) as n eqn:En.
  revert base En. induction n as [n IH] using lt_wf_ind. intros base En.
  destruct (H base) as [(Hne & H1 & H2)|[H1 H2]].
  - destruct base as [|c base]; [done|].
    apply match_here_local in H1, H2.
    destruct (match_here code r (c :: base)) as [[m rest]|] eqn:E.
    + pose proof (match_here_nonempty code _ _ _ Hn E) as Hm.
      pose proof (match_here_shorter code _ _ _ _ E Hm) as Hlt.
      rewrite (sub_some code r repl ((c :: base) ++ t1) m (rest ++ t1)) by done.
      rewrite (sub_some code r repl ((c :: base) ++ t2) m (rest ++ t2)) by done.
      f_equal. apply (IH (length rest)); [lia|done].
    + cbn [app] in *. rewrite !sub_none by done.
      f_equal. apply (IH (length base)); [cbn in En; lia|done].
  - pose proof (match_here_nonempty code _ _ _ Hn H1) as Hm1.
    pose proof (match_here_nonempty code _ _ _ Hn H2) as Hm2.
    rewrite (sub_some code r repl _ _ _ H1 Hm1).
    rewrite (sub_some code r repl _ _ _ H2 Hm2).
    done.
Qed.

End Sub.

End SubLocal.

(** ** C2: the grouping key *)

Module PackSpec.

(** The two ways a disc number is written in a stem. *)
Inductive form : Type := Paren | Bare.

(** A disc number: one or more digits. *)
Definition is_number (n : text) : Prop :=
  n <> [] /\ Forall CodeFacts.is_digit n.

Definition marker (f : form) (n : text) : text :=
  match f with
  | Paren => str " (Disc " ++ n ++ str ")"
  | Bare => str " Disc " ++ n
  end.

(** A code as the suffix pattern of script 03 reads it (in capitals): S, then
    L or C, two or three letters, a hyphen or none, one or more digits. *)
Definition bracket_code (c : text) : Prop :=
  exists l p h d, c = "S"%char :: l :: p ++ h ++ d /\
    (l = "L"%char \/ l = "C"%char) /\
    (2 <= length p <= 3)%nat /\ Forall CodeFacts.is_AZ p /\
    (h = [] \/ h = ["-"%char]) /\
    d <> [] /\ Forall CodeFacts.is_digit d.

(** The bracketed code at the end of a stem, when there is one. *)
Definition suffix (x : option text) : text :=
  match x with
  | Some c => str " [" ++ c ++ str "]"
  | None => []
  end.

Definition suffix_ok (x : option text) : Prop :=
  match x with Some c => bracket_code c | None => True end.

End PackSpec.

Module PackFacts.
Import Chars Re ReTheory ReFirst ReLocal SubLocal CodeFacts PackSpec.

Lemma digit_classes c :
  is_digit c ->
  ci digit (code_s c) = true /\ ci space (code_s c) = false /\
  ci (lit "(") (code_s c) = false /\ ci (lit ")") (code_s c) = false /\
  ci (oneof " _-") (code_s c) = false /\ ci (lit "]") (code_s c) = false /\
  ci (lit "[") (code_s c) = false /\ ci upper_AZ (code_s c) = false /\
  ci (lit "-") (code_s c) = false /\ (code_s c =? 10) = false.
Proof.
  unfold is_digit.
  destruct c as [[] [] [] [] [] [] [] []]; vm_compute; intuition congruence.
Qed.

Lemma digits_ci n : Forall is_digit n -> Forall (fun c => ci digit (code_s c) = true) n.
Proof. intros H. eapply Forall_impl; [exact H|]. intros c Hc. by apply digit_classes. Qed.

Lemma number_head n :
  is_number n -> exists d n', n = d :: n' /\ is_digit d /\ Forall is_digit n'.
Proof.
  intros [Hne Hd]. destruct n as [|d n']; [done|].
  apply Forall_cons in Hd as [? ?]. by exists d, n'.
Qed.

(** *** The parenthesised marker *)

(** DISC_PAREN_RE behind its leading \s*, and behind the second \s*. *)
Definition paren_digits : Re.t := cat [plus (ci digit); Chr (ci (lit ")"))].
Definition paren_body : Re.t :=
  cat [Chr (ci (lit "(")); Chr (ci (lit "d")); Chr (ci (lit "i"));
       Chr (ci (lit "s")); Chr (ci (lit "c")); star (ci space); plus (ci digit);
       Chr (ci (lit ")"))].

Lemma paren_re : Pack.DISC_PAREN_RE = Cat (Rep true (ci space) 0 None) paren_body.
Proof. reflexivity. Qed.

Lemma paren_body_local n :
  local code_s paren_body (marker Paren n).
Proof.
  unfold marker.
  change (str " (Disc " ++ n ++ str ")")
    with (" "%char :: (str "(Disc " ++ n ++ str ")")).
  unfold paren_body, cat, star, plus. cbn [foldr].
  repeat (apply local_cat; [by apply local_alpha|]).
  apply local_cat_star; [reflexivity| |by apply local_alpha].
  intros x Hx. cbn in Hx. apply list_elem_of_singleton in Hx as ->. reflexivity.
Qed.

Lemma paren_takes_all u n :
  Forall (fun c => ci space (code_s c) = true) u -> is_number n ->
  match_here code_s Pack.DISC_PAREN_RE (u ++ marker Paren n) =
  Some (u ++ marker Paren n, []).
Proof.
  intros Hu Hn. destruct (number_head n Hn) as (d & n' & -> & Hd & Hn').
  destruct Hn as [_ Hn].
  rewrite paren_re. unfold marker, paren_body, cat, star, plus. cbn [foldr].
  change (str " (Disc " ++ (d :: n') ++ str ")")
    with ([" "%char] ++ (str "(Disc" ++ [" "%char] ++ (d :: n') ++ str ")")).
  rewrite (app_assoc u).
  etransitivity.
  { eapply first_cat.
    { apply first_rep_greedy; [|lia|done|].
      - apply Forall_app. split; [done|by repeat constructor].
      - right; right. by eexists _, _. }
    cbn [snd app].
    do 5 (eapply first_cat; [by apply first_chr|]; cbn [snd]).
    eapply first_cat.
    { apply (first_rep_greedy code_s _ [" "%char]);
        [by repeat constructor|cbn; lia|done|].
      right; right. exists d, (n' ++ str ")"). split; [done|].
      by apply digit_classes. }
    cbn [snd]. eapply first_cat.
    { apply (first_rep_greedy code_s _ (d :: n'));
        [by apply digits_ci|cbn; lia|done|].
      right; right. by exists ")"%char, []. }
    cbn [snd]. eapply first_cat; [by apply first_chr|apply first_eps]. }
  reflexivity.
Qed.

Lemma paren_sub_same base n1 n2 :
  is_number n1 -> is_number n2 ->
  sub code_s Pack.DISC_PAREN_RE [] (base ++ marker Paren n1) =
  sub code_s Pack.DISC_PAREN_RE [] (base ++ marker Paren n2).
Proof.
  intros H1 H2. apply sub_same_context; [reflexivity|].
  intros u. destruct (all_or_blocked code_s (ci space) u) as [Hu|Hu].
  - right. split; by apply paren_takes_all.
  - left. split; [by destruct Hu|].
    rewrite paren_re. split; apply blocked_cat; try done; apply paren_body_local.
Qed.

(** *** The bare marker *)

(** DISC_BARE_RE behind its leading [ _-]*. *)
Definition bare_body : Re.t :=
  cat [Chr (ci (lit "d")); Chr (ci (lit "i")); Chr (ci (lit "s"));
       Chr (ci (lit "c")); Opt (Chr (ci (oneof "_-")));
       star (ci space); plus (ci digit)].

Lemma bare_re :
  Pack.DISC_BARE_RE = Cat (Rep true (ci (oneof " _-")) 0 None) bare_body.
Proof. reflexivity. Qed.

Lemma bare_body_local n : local code_s bare_body (marker Bare n).
Proof.
  unfold marker.
  change (str " Disc " ++ n) with (" "%char :: (str "Disc " ++ n)).
  unfold bare_body, cat, star, plus. cbn [foldr].
  repeat (apply local_cat; [by apply local_alpha|]).
  apply local_cat_star; [reflexivity| |by apply local_alpha].
  intros x Hx. cbn in Hx. apply list_elem_of_singleton in Hx as ->. reflexivity.
Qed.

Lemma bare_takes_all u n :
  Forall (fun c => ci (oneof " _-") (code_s c) = true) u -> is_number n ->
  match_here code_s Pack.DISC_BARE_RE (u ++ marker Bare n) =
  Some (u ++ marker Bare n, []).
Proof.
  intros Hu Hn. destruct (number_head n Hn) as (d & n' & -> & Hd & Hn').
  destruct Hn as [_ Hn].
  rewrite bare_re. unfold marker, bare_body, cat, star, plus. cbn [foldr].
  change (str " Disc " ++ d :: n')
    with ([" "%char] ++ (str "Disc" ++ [" "%char] ++ (d :: n'))).
  rewrite (app_assoc u). rewrite <- (app_nil_r (d :: n')).
  etransitivity.
  { eapply first_cat.
    { apply first_rep_greedy; [|lia|done|].
      - apply Forall_app. split; [done|by repeat constructor].
      - right; right. by eexists _, _. }
    cbn [snd app].
    do 4 (eapply first_cat; [by apply first_chr|]; cbn [snd]).
    eapply first_cat; [apply first_opt_none; by apply none_chr|]. cbn [snd].
    eapply first_cat.
    { apply (first_rep_greedy code_s _ [" "%char]);
        [by repeat constructor|cbn; lia|done|].
      right; right. exists d, (n' ++ []). split; [done|].
      by apply digit_classes. }
    cbn [snd]. eapply first_cat; [|apply first_eps].
    apply (first_rep_greedy code_s _ (d :: n'));
      [by apply digits_ci|cbn; lia|done|].
    right; by left. }
  cbn [fst snd]. by rewrite !app_nil_r.
Qed.

Lemma bare_sub_same base n1 n2 :
  is_number n1 -> is_number n2 ->
  sub code_s Pack.DISC_BARE_RE [] (base ++ marker Bare n1) =
  sub code_s Pack.DISC_BARE_RE [] (base ++ marker Bare n2).
Proof.
  intros H1 H2. apply sub_same_context; [reflexivity|].
  intros u. destruct (all_or_blocked code_s (ci (oneof " _-")) u) as [Hu|Hu].
  - right. split; by apply bare_takes_all.
  - left. split; [by destruct Hu|].
    rewrite bare_re. split; apply blocked_cat; try done; apply bare_body_local.
Qed.

(** The parenthesised pattern on a stem with a bare marker. *)
Lemma paren_local_bare n : local code_s Pack.DISC_PAREN_RE (marker Bare n).
Proof.
  rewrite paren_re. unfold marker.
  change (str " Disc " ++ n) with (" "%char :: (str "Disc " ++ n)).
  apply local_cat_star; [reflexivity| |].
  - intros x Hx. cbn in Hx. apply list_elem_of_singleton in Hx as ->. reflexivity.
  - unfold paren_body, cat, star, plus. cbn [foldr].
    repeat (apply local_cat; [by apply local_alpha|]).
    apply local_cat_star; [reflexivity| |by apply local_alpha].
    intros x Hx. cbn in Hx. apply list_elem_of_singleton in Hx as ->. reflexivity.
Qed.

Lemma paren_none_in_bare n :
  is_number n ->
  sub code_s Pack.DISC_PAREN_RE [] (marker Bare n) = marker Bare n.
Proof.
  intros [_ Hn]. apply sub_no_match. intros u1 u2 E.
  unfold match_here. rewrite paren_re.
  unfold paren_body, cat. cbn [foldr]. rewrite needs_char; [done|].
  assert (Forall (fun c => ci (lit "(") (code_s c) = false) (marker Bare n)) as H.
  { unfold marker. apply Forall_app. split; [by repeat constructor|].
    eapply Forall_impl; [exact Hn|]. intros c Hc. by apply digit_classes. }
  rewrite E in H. by apply Forall_app in H as [_ ?].
Qed.

Lemma paren_sub_bare base n :
  is_number n ->
  sub code_s Pack.DISC_PAREN_RE [] (base ++ marker Bare n) =
  sub code_s Pack.DISC_PAREN_RE [] base ++ marker Bare n.
Proof.
  intros Hn. rewrite sub_app_local; [|apply paren_local_bare|reflexivity].
  by rewrite paren_none_in_bare.
Qed.

(** *** The bracketed code at the end *)

Lemma digit_letters c :
  is_digit c ->
  ci (lit "S") (code_s c) = false /\ ci (oneof "LC") (code_s c) = false.
Proof.
  unfold is_digit.
  destruct c as [[] [] [] [] [] [] [] []]; vm_compute; intuition congruence.
Qed.

(** CODE_SUFFIX_RE behind its leading \s*, and its end. *)
Definition suffix_end : Re.t := cat [star (ci space); Eos].
Definition suffix_close : Re.t := Cat (Chr (ci (lit "]"))) suffix_end.
Definition suffix_body : Re.t :=
  cat [Chr (ci (lit "[")); Chr (ci (lit "S")); Chr (ci (oneof "LC"));
       times (ci upper_AZ) 2 2; Opt (Chr (ci upper_AZ));
       Opt (Chr (ci (lit "-"))); plus (ci digit); Chr (ci (lit "]"));
       star (ci space); Eos].

Lemma suffix_re :
  Pack.CODE_SUFFIX_RE = Cat (Rep true (ci space) 0 None) suffix_body.
Proof. reflexivity. Qed.

Lemma suffix_body_dead c : dead_on code_s suffix_body (suffix (Some c)).
Proof.
  unfold suffix.
  change (str " [" ++ c ++ str "]") with (" "%char :: "["%char :: (c ++ str "]")).
  unfold suffix_body, cat, star, plus, times. cbn [foldr].
  repeat (apply dead_cat_local; [by apply local_alpha|]).
  apply dead_cat_rep.
  - by apply dead_eos.
  - intros [|a [|b m]] t' E Hm Hws; [done| |].
    + injection E as _ <-. cbn. by destruct c.
    + injection E as _ <- _. apply Forall_cons in Hws as [_ Hws].
      by apply Forall_cons in Hws as [Hb _].
Qed.

Lemma suffix_dead u c :
  Exists (fun a => ci space (code_s a) = false) u ->
  match_here code_s Pack.CODE_SUFFIX_RE (u ++ suffix (Some c)) = None.
Proof.
  intros Hu. unfold match_here. rewrite suffix_re.
  rewrite dead_blocked; [done|done|apply suffix_body_dead].
Qed.

Lemma suffix_close_dead z :
  ci space (code_s z) = false -> ci (lit "]") (code_s z) = false ->
  (code_s z =? 10) = false ->
  dead_on code_s suffix_close [z].
Proof.
  intros Hws Hcl Hnl. unfold suffix_close, suffix_end, cat, star. cbn [foldr].
  apply dead_cat_local; [by apply local_alpha|].
  apply dead_cat_local; [by apply local_alpha|].
  apply dead_eos; [done|]. cbn. by rewrite Hnl.
Qed.

(** No match of the suffix pattern in a text that ends with ")". *)
Lemma suffix_none_paren u :
  match_here code_s Pack.CODE_SUFFIX_RE (u ++ [")"%char]) = None.
Proof.
  unfold match_here.
  enough (dead_on code_s Pack.CODE_SUFFIX_RE [")"%char]) as -> by done.
  unfold Pack.CODE_SUFFIX_RE, cat, star, plus, times. cbn [foldr].
  repeat (apply dead_cat_local; [by apply local_alpha|]).
  by apply dead_eos.
Qed.

(** No match of the suffix pattern in a text that ends with a digit. *)
Lemma suffix_none_digit u z :
  is_digit z ->
  match_here code_s Pack.CODE_SUFFIX_RE (u ++ [z]) = None.
Proof.
  intros Hz. pose proof (digit_classes z Hz) as (_ & ? & _ & _ & _ & ? & ? & ? & ? & ?).
  pose proof (digit_letters z Hz) as [? ?].
  unfold match_here.
  enough (dead_on code_s Pack.CODE_SUFFIX_RE [z]) as -> by done.
  unfold Pack.CODE_SUFFIX_RE, cat, star, plus, times. cbn [foldr].
  do 7 (apply dead_cat_local; [by apply local_alpha|]).
  apply dead_cat_rep.
  - by apply suffix_close_dead.
  - intros [|a [|b m]] t' E Hm _; [done| |done].
    by injection E as _ <-.
Qed.

Lemma snoc_suffix {A} (y0 : list A) z u1 u2 :
  y0 ++ [z] = u1 ++ u2 -> u2 = [] \/ exists u', u2 = u' ++ [z].
Proof.
  revert u1. induction u2 as [|a u2 IH] using rev_ind; intros u1 E; [by left|].
  right. rewrite app_assoc in E. apply app_inj_tail in E as [_ ->].
  by exists u2.
Qed.

(** A stem that ends with ")" or with a digit has no code suffix to strip. *)
Lemma strip_code_none y0 z :
  z = ")"%char \/ is_digit z -> Pack.strip_code (y0 ++ [z]) = y0 ++ [z].
Proof.
  intros Hz. unfold Pack.strip_code. apply sub_no_match.
  intros u1 u2 [->|[u' ->]]%snoc_suffix; [reflexivity|].
  destruct Hz as [->|Hz]; [apply suffix_none_paren|by apply suffix_none_digit].
Qed.

(** The suffix pattern takes a bracketed code whole. *)
Lemma suffix_takes_all c :
  bracket_code c ->
  match_here code_s Pack.CODE_SUFFIX_RE (suffix (Some c)) = Some (suffix (Some c), []).
Proof.
  intros (l & p & h & d & -> & Hl & Hp & HAZ & Hh & Hd & Hdig).
  destruct d as [|d0 d]; [done|]. apply Forall_cons in Hdig as [Hd0 Hdig].
  pose proof (digit_classes d0 Hd0) as (_ & _ & _ & _ & _ & _ & _ & ? & ? & _).
  assert (ci (oneof "LC") (code_s l) = true) as Hl'
    by (destruct Hl as [->| ->]; reflexivity).
  assert (match_here code_s (cat [plus (ci digit); Chr (ci (lit "]"));
                                  star (ci space); Eos])
            ((d0 :: d) ++ str "]") = Some ((d0 :: d) ++ str "]", [])) as Htail.
  { unfold cat, plus, star. cbn [foldr]. etransitivity.
    { eapply first_cat.
      { apply (first_rep_greedy code_s _ (d0 :: d));
          [by apply digits_ci; constructor|cbn; lia|done|].
        right; right. by exists "]"%char, []. }
      cbn [snd]. eapply first_cat; [by apply first_chr|]. cbn [snd].
      eapply first_cat.
      { apply (first_rep_greedy code_s _ [] _ _ []); [done|done|done|by right; left]. }
      cbn [snd]. reflexivity. }
    cbn [fst snd]. by rewrite !app_nil_r. }
  rewrite suffix_re. unfold suffix, suffix_body, cat, star, plus, times in *.
  cbn [foldr] in *.
  change (str " [" ++ ("S"%char :: l :: p ++ h ++ d0 :: d) ++ str "]")
    with ([" "%char] ++ "["%char :: "S"%char :: l :: (p ++ h ++ d0 :: d) ++ str "]").
  destruct p as [|a [|b [|e [|e' p]]]]; cbn [length] in Hp; try lia;
    repeat (apply Forall_cons in HAZ as [?%ci_intro HAZ]);
    (destruct Hh as [->| ->]);
    (etransitivity;
     [ eapply first_cat;
       [ apply (first_rep_greedy code_s _ [" "%char]);
           [by repeat constructor|cbn; lia|done|];
         right; right; by eexists _, _ |];
       cbn [snd app];
       do 3 (eapply first_cat; [by apply first_chr|]; cbn [snd]);
       eapply first_cat;
       [ apply (first_rep_greedy code_s _ [a; b]);
           [by repeat constructor|cbn; lia|cbn; lia|by left] |];
       cbn [snd];
       eapply first_cat;
       [ first [ apply first_opt_some; by apply first_chr
               | apply first_opt_none; by apply none_chr ] |];
       cbn [snd];
       eapply first_cat;
       [ first [ apply first_opt_some; by apply first_chr
               | apply first_opt_none; by apply none_chr ] |];
       cbn [snd]; exact Htail
     | cbn [fst snd app]; reflexivity ]).
Qed.

Lemma strip_code_suffix y0 z c :
  ci space (code_s z) = false -> bracket_code c ->
  Pack.strip_code ((y0 ++ [z]) ++ suffix (Some c)) = y0 ++ [z].
Proof.
  intros Hz Hc. unfold Pack.strip_code.
  rewrite sub_dead_prefix.
  - pose proof (suffix_takes_all c Hc) as H.
    rewrite (sub_some code_s _ _ _ _ _ H) by (by destruct c).
    rewrite sub_nil by reflexivity. by rewrite !app_nil_r.
  - intros u1 u2 [->|[u' ->]]%snoc_suffix Hne; [done|].
    apply suffix_dead. apply Exists_app. right. by left.
Qed.

End PackFacts.

Module PackClaims.
Import Chars Re CodeFacts PackSpec PackFacts.

Lemma marker_last f base n :
  is_number n ->
  exists y0 z, base ++ marker f n = y0 ++ [z] /\ (z = ")"%char \/ is_digit z).
Proof.
  intros [Hne Hd]. destruct f; unfold marker.
  - exists (base ++ str " (Disc " ++ n), ")"%char.
    split; [by rewrite <- !app_assoc|by left].
  - destruct n as [|z n _] using rev_ind; [done|].
    apply Forall_app in Hd as [_ [Hz _]%Forall_cons].
    exists (base ++ str " Disc " ++ n), z.
    split; [by rewrite <- !app_assoc|by right].
Qed.

Lemma strip_code_stem f base n x :
  is_number n -> suffix_ok x ->
  Pack.strip_code (base ++ marker f n ++ suffix x) = base ++ marker f n.
Proof.
  intros Hn Hx. rewrite app_assoc.
  destruct (marker_last f base n Hn) as (y0 & z & -> & Hz).
  destruct x as [c|]; cbn [suffix suffix_ok] in *.
  - apply strip_code_suffix; [|done].
    destruct Hz as [->|Hz]; [done|by apply digit_classes].
  - rewrite app_nil_r. by apply strip_code_none.
Qed.

Lemma strip_disc_markers_eq s :
  Pack.strip_disc_markers s =
  sub code_s Pack.DISC_BARE_RE [] (sub code_s Pack.DISC_PAREN_RE [] s).
Proof. reflexivity. Qed.

Lemma markers_same f base n1 n2 :
  is_number n1 -> is_number n2 ->
  Pack.strip_disc_markers (base ++ marker f n1) =
  Pack.strip_disc_markers (base ++ marker f n2).
Proof.
  intros H1 H2. rewrite !strip_disc_markers_eq. destruct f.
  - by rewrite (paren_sub_same base n1 n2).
  - rewrite !paren_sub_bare by done. by apply bare_sub_same.
Qed.

Lemma game_key_same f base n1 n2 x1 x2 :
  is_number n1 -> is_number n2 -> suffix_ok x1 -> suffix_ok x2 ->
  Pack.game_key_from_stem (base ++ marker f n1 ++ suffix x1) =
  Pack.game_key_from_stem (base ++ marker f n2 ++ suffix x2).
Proof.
  intros H1 H2 Hx1 Hx2. unfold Pack.game_key_from_stem.
  rewrite !strip_code_stem by done.
  by rewrite (markers_same f base n1 n2).
Qed.

End PackClaims.

(** ** C3, C4: the synthesised cue sheet *)

Module CueSpec.
Import Fs Cue01.

Inductive mode : Type := Data | Audio.

(** A track descriptor of a cue sheet. *)
Record track : Type := Track {
  number : nat;
  mode_of : mode;
  file : text;
  index : text
}.

(** The sheet of a list of track files: numbered from 1 in the order of the
    list, the first one data, the others audio, all starting at 00:00:00. *)
Definition descriptors (bins : list path) : list track :=
  imap (fun i bin =>
          Track (S i) (match i with O => Data | S _ => Audio end)
                (name bin) (str "00:00:00")) bins.

Definition mode_text (m : mode) : text :=
  match m with Data => str "MODE2/2352" | Audio => str "AUDIO" end.

(** The three lines of a track in the cue text. *)
Definition render (t : track) : list text :=
  [file_line (file t);
   str "  TRACK " ++ Py.dec02 (number t) ++ str " " ++ mode_text (mode_of t) ++ ["010"%char];
   str "    INDEX 01 " ++ index t ++ ["010"%char]].

Definition cue_text (ts : list track) : text := concat (flat_map render ts).

(** Every track file is there and is not already its own copy. *)
Definition copyable (bins : list path) (dest_dir : path) (w : world) : Prop :=
  Forall (fun bin => is_Some (files w !! bin) /\ bin <> dest_dir ++ [name bin]) bins.

(** The tracks from number [S k] on. *)
Definition descriptors_from (k : nat) (bins : list path) : list track :=
  imap (fun i bin =>
          Track (S (k + i)) (match (k + i)%nat with O => Data | S _ => Audio end)
                (name bin) (str "00:00:00")) bins.

Lemma descriptors_from_0 bins : descriptors_from 0 bins = descriptors bins.
Proof. done. Qed.

Lemma descriptors_from_cons k bin bins :
  descriptors_from k (bin :: bins) =
  Track (S k) (match k with O => Data | S _ => Audio end) (name bin) (str "00:00:00")
  :: descriptors_from (S k) bins.
Proof.
  unfold descriptors_from. cbn [imap]. rewrite Nat.add_0_r. f_equal.
  apply imap_ext. intros i b _. cbn. by rewrite Nat.add_succ_r.
Qed.

Lemma copyable_after_copy bin bins dest_dir w w1 :
  copyable bins dest_dir w ->
  copy2 bin (dest_dir ++ [name bin]) w = Some w1 ->
  copyable bins dest_dir w1 /\ out w1 = out w.
Proof.
  unfold copy2, copyable. case_decide as Hsame; [done|].
  destruct (files w !! bin) as [content|]; [|done].
  intros Hall [= <-]. split; [|done].
  eapply Forall_impl; [exact Hall|]. intros b [[c Hc] Hne]. split; [|done].
  cbn. destruct (decide (dest_dir ++ [name bin] = b)) as [<-|Hd].
  - rewrite lookup_insert_eq. by eexists.
  - rewrite lookup_insert_ne by done. by eexists.
Qed.

Lemma copy2_ok bin dest_dir w :
  is_Some (files w !! bin) -> bin <> dest_dir ++ [name bin] ->
  exists w1, copy2 bin (dest_dir ++ [name bin]) w = Some w1.
Proof.
  intros [c Hc] Hne. unfold copy2. rewrite decide_False by done.
  rewrite Hc. by eexists.
Qed.

(** The loop adds the lines of the tracks it numbers. *)
Lemma tracks_loop_lines dest_dir : forall bins k lines w,
  copyable bins dest_dir w ->
  exists w', tracks_loop bins dest_dir (S k) lines w =
               Some (w', lines ++ flat_map render (descriptors_from k bins)) /\
             out w' = out w.
Proof.
  induction bins as [|bin bins IH]; intros k lines w Hc.
  - exists w. cbn. by rewrite app_nil_r.
  - apply Forall_cons in Hc as [[Hbin Hne] Hc].
    destruct (copy2_ok bin dest_dir w Hbin Hne) as [w1 Hw1].
    destruct (copyable_after_copy bin bins dest_dir w w1 Hc Hw1) as [Hc1 Ho1].
    cbn [tracks_loop]. rewrite Hw1.
    destruct (IH (S k)
      ((if (S k =? 1)%nat
        then (lines ++ [file_line (name bin)]) ++
             [str "  TRACK " ++ Py.dec02 (S k) ++ str " MODE2/2352" ++ ["010"%char]]
        else (lines ++ [file_line (name bin)]) ++
             [str "  TRACK " ++ Py.dec02 (S k) ++ str " AUDIO" ++ ["010"%char]]) ++
       [index_line]) w1 Hc1) as (w' & Hw' & Ho').
    exists w'. split; [|congruence].
    rewrite Hw'. f_equal. f_equal.
    rewrite descriptors_from_cons. cbn [flat_map render number mode_of file index].
    destruct k as [|k]; cbn [Nat.eqb mode_text]; rewrite <- !app_assoc; reflexivity.
Qed.

Lemma numbers_from bins : forall k,
  map number (descriptors_from k bins) = seq (S k) (length bins).
Proof.
  induction bins as [|b bins IH]; intros k; [done|].
  rewrite descriptors_from_cons. cbn [map number length seq]. by rewrite IH.
Qed.

Lemma numbers_of bins : map number (descriptors bins) = seq 1 (length bins).
Proof. rewrite <- descriptors_from_0. apply numbers_from. Qed.

Lemma files_from bins : forall k,
  map file (descriptors_from k bins) = map name bins.
Proof.
  induction bins as [|b bins IH]; intros k; [done|].
  rewrite descriptors_from_cons. cbn [map file]. by rewrite IH.
Qed.

Lemma files_of bins : map file (descriptors bins) = map name bins.
Proof. rewrite <- descriptors_from_0. apply files_from. Qed.

Lemma track_shape bins t :
  t ∈ descriptors bins ->
  mode_of t = (if (number t =? 1)%nat then Data else Audio) /\
  index t = str "00:00:00".
Proof.
  unfold descriptors. intros (i & b & -> & _)%elem_of_lookup_imap.
  by destruct i.
Qed.

End CueSpec.

Module CueFacts.
Import Fs Cue01 CueSpec.

Lemma synthesize_cue_sheet bins dest_dir base_name w :
  bins <> [] -> copyable bins dest_dir w ->
  exists w',
    synthesize_cue bins dest_dir base_name w =
      Some (w', dest_dir ++ [base_name ++ str ".cue"]) /\
    files w' !! (dest_dir ++ [base_name ++ str ".cue"]) =
      Some (utf8 (cue_text (descriptors bins))).
Proof.
  intros Hne Hc.
  assert (copyable bins dest_dir (mkdir_p dest_dir w)) as Hc' by exact Hc.
  unfold synthesize_cue. generalize dependent (mkdir_p dest_dir w). clear Hc.
  intros w0 Hc.
  destruct bins as [|b1 [|b2 bins]]; [done| |].
  - apply Forall_cons in Hc as [[Hb Hd] _].
    destruct (copy2_ok b1 dest_dir w0 Hb Hd) as [w1 Hw1].
    rewrite Hw1. eexists. split; [reflexivity|].
    cbn [files write_bytes]. by rewrite lookup_insert_eq.
  - set (w1 := print (str "    Synthesizing CUE for " ++
                      Py.dec (length (b1 :: b2 :: bins)) ++
                      str " BINs (track1 data, rest audio; order = sorted filenames)") w0).
    assert (copyable (b1 :: b2 :: bins) dest_dir w1) as Hc1 by exact Hc.
    destruct (tracks_loop_lines dest_dir _ 0 [] w1 Hc1) as (w' & Hw' & _).
    rewrite Hw'. eexists. split; [reflexivity|].
    cbn [files write_bytes]. by rewrite lookup_insert_eq.
Qed.

Lemma text_compare_flip a : forall b,
  text_compare b a = CompOpp (text_compare a b).
Proof.
  induction a as [|x a IH]; intros [|y b]; try done. cbn.
  rewrite (N.compare_antisym (N_of_ascii x) (N_of_ascii y)).
  destruct (N_of_ascii x ?= N_of_ascii y); cbn; [apply IH|done..].
Qed.

Lemma path_compare_flip p : forall q,
  path_compare q p = CompOpp (path_compare p q).
Proof.
  induction p as [|x p IH]; intros [|y q]; try done. cbn.
  rewrite (text_compare_flip x y).
  destruct (text_compare x y); cbn; [apply IH|done..].
Qed.

#[local] Instance path_le_total : Total path_le.
Proof.
  intros p q. unfold path_le. rewrite (path_compare_flip p q).
  destruct (path_compare p q); cbn; auto.
Qed.

(** The track files come in the order of their paths. *)
Lemma find_with_depth_sorted root ext max_depth w :
  Sorted path_le (find_with_depth root ext max_depth w).
Proof. apply Sorted_merge_sort. apply _. Qed.

End CueFacts.

Module CueClaims.
Import Fs Cue01.

(** Synthesis over no track fails, as the specification has it. *)
Definition fails_without_tracks : Prop :=
  forall dest_dir base_name w, synthesize_cue [] dest_dir base_name w = None.

(** A disc with three track files. *)
Definition three_tracks : world :=
  World (list_to_map [([str "disc"; str "a.bin"], bytes_of "A");
                      ([str "disc"; str "b.bin"], bytes_of "B");
                      ([str "disc"; str "c.bin"], bytes_of "C")])
        {[ [str "disc"] ]} [].

Definition three_bins : list path :=
  [[str "disc"; str "a.bin"]; [str "disc"; str "b.bin"]; [str "disc"; str "c.bin"]].

End CueClaims.

(** C3, as stated, fails: on an empty list of track files [synthesize_cue]
    does not fail; it writes a cue file with no text and returns its path. *)
Lemma C3_empty_tracks_counterexample :
  (exists w',
     Cue01.synthesize_cue [] [str "tmp"] (str "Game") (Fs.World ∅ ∅ []) =
       Some (w', [str "tmp"; str "Game.cue"]) /\
     Fs.files w' !! [str "tmp"; str "Game.cue"] = Some []) /\
  ~ CueClaims.fails_without_tracks.
Proof.
  split.
  - eexists. split; [reflexivity|]. vm_compute. reflexivity.
  - intros H. specialize (H [str "tmp"] (str "Game") (Fs.World ∅ ∅ [])).
    vm_compute in H. discriminate H.
Qed.

(** C3, amended.  When a disc has no cue file and no track file,
    [locate_or_build_cue] prints that it skips the disc and returns no cue
    path; no file is written or changed, and [synthesize_cue] is not
    reached. *)
Theorem C3_no_tracks_skipped (game_dir : Fs.path) (base : text)
    (tmp_root : Fs.path) (tmp_name : text) (w : Fs.world) :
  Cue01.find_with_depth game_dir (str ".cue") 2 w = [] ->
  Cue01.find_with_depth game_dir (str ".bin") 2 w = [] ->
  exists w',
    Cue01.locate_or_build_cue game_dir base tmp_root tmp_name w = Some (w', None) /\
    Fs.files w' = Fs.files w /\ Fs.dirs w' = Fs.dirs w /\
    Fs.out w' = Fs.out w ++ [str "    No CUE or BIN files found; skipping"].
Proof.
  intros Hcue Hbin. unfold Cue01.locate_or_build_cue. rewrite Hcue, Hbin.
  by eexists.
Qed.

(** A directory without files, put through C3. *)
Lemma C3_no_tracks_witness :
  exists w',
    Cue01.locate_or_build_cue [str "other"] (str "Game") [str "tmp"] (str "t1")
      CueClaims.three_tracks = Some (w', None) /\
    Fs.files w' = Fs.files CueClaims.three_tracks /\
    Fs.dirs w' = Fs.dirs CueClaims.three_tracks /\
    Fs.out w' = Fs.out CueClaims.three_tracks ++
                [str "    No CUE or BIN files found; skipping"].
Proof.
  apply (C3_no_tracks_skipped [str "other"] (str "Game") [str "tmp"] (str "t1")
           CueClaims.three_tracks); vm_compute; reflexivity.
Defined.

(** C4.  For every non-empty list of track files that can be copied,
    [synthesize_cue] returns the path of the cue file and writes, as its
    text, the sheet of the list: the tracks are numbered 1, 2, ... in the
    order of the list and carry the names of its files, track 1 is
    MODE2/2352 and every other track AUDIO, every index is 00:00:00; a list
    of one file gives one data track.  (The list [locate_or_build_cue]
    passes is in the order of the paths.) *)
Theorem C4_synthesized_tracks (bins : list Fs.path) (dest_dir : Fs.path)
    (base_name : text) (w : Fs.world) :
  bins <> [] -> CueSpec.copyable bins dest_dir w ->
  (exists w',
     Cue01.synthesize_cue bins dest_dir base_name w =
       Some (w', dest_dir ++ [base_name ++ str ".cue"]) /\
     Fs.files w' !! (dest_dir ++ [base_name ++ str ".cue"]) =
       Some (Cue01.utf8 (CueSpec.cue_text (CueSpec.descriptors bins)))) /\
  map CueSpec.number (CueSpec.descriptors bins) = seq 1 (length bins) /\
  map CueSpec.file (CueSpec.descriptors bins) = map Fs.name bins /\
  (forall t, t ∈ CueSpec.descriptors bins ->
     CueSpec.mode_of t =
       (if (CueSpec.number t =? 1)%nat then CueSpec.Data else CueSpec.Audio) /\
     CueSpec.index t = str "00:00:00") /\
  (forall bin, bins = [bin] ->
     CueSpec.descriptors bins =
       [CueSpec.Track 1 CueSpec.Data (Fs.name bin) (str "00:00:00")]) /\
  (forall root ext depth, Sorted Fs.path_le (Cue01.find_with_depth root ext depth w)).
Proof.
  intros Hne Hc. split; [by apply CueFacts.synthesize_cue_sheet|].
  split; [apply CueSpec.numbers_of|]. split; [apply CueSpec.files_of|].
  split; [apply CueSpec.track_shape|]. split; [by intros bin ->|].
  intros root ext depth. apply CueFacts.find_with_depth_sorted.
Qed.

(** The three files a.bin, b.bin, c.bin, put through C4: the cue text. *)
Lemma C4_three_tracks_witness :
  exists w',
    Cue01.synthesize_cue CueClaims.three_bins [str "tmp"] (str "Game")
      CueClaims.three_tracks = Some (w', [str "tmp"; str "Game.cue"]) /\
    Fs.files w' !! [str "tmp"; str "Game.cue"] =
      Some (Cue01.utf8
        (Cue01.file_line (str "a.bin") ++ str "  TRACK 01 MODE2/2352" ++ ["010"%char] ++
         Cue01.index_line ++
         Cue01.file_line (str "b.bin") ++ str "  TRACK 02 AUDIO" ++ ["010"%char] ++
         Cue01.index_line ++
         Cue01.file_line (str "c.bin") ++ str "  TRACK 03 AUDIO" ++ ["010"%char] ++
         Cue01.index_line)).
Proof.
  refine (proj1 (C4_synthesized_tracks CueClaims.three_bins [str "tmp"] (str "Game")
                   CueClaims.three_tracks _ _)).
  - discriminate.
  - repeat constructor; try (vm_compute; by eexists); discriminate.
Defined.

(** ** C5, C6: the claims *)

(** ** Replacing the code of a stem *)

Module ReplaceTheory.
Import Chars Re ReFacts ReTheory ReFirst ReScan ReLocal SubLocal.

Section Cross.
Context {A : Type} (code : A -> N).

(** [r] cannot take [z] and go on with [c]: it begins with parts that have
    no class for [z], and what follows them has no class for [c]. *)
Fixpoint split_ok (r : Re.t) (z c : N) : bool :=
  negb (accepts r c) ||
  match r with
  | Cat r1 r2 => negb (accepts r1 z) && split_ok r2 z c
  | _ => false
  end.

Lemma split_ok_reject r z c : accepts r c = false -> split_ok r z c = true.
Proof. intros H. destruct r; cbn [split_ok]; by rewrite H. Qed.

Lemma cross : forall r z c,
  split_ok r (code z) (code c) = true -> anchored r = false ->
  forall v t,
    runs code r ((v ++ [z]) ++ c :: t) =
    map (extend (c :: t)) (runs code r (v ++ [z])).
Proof.
  induction r as [p|g p lo hi|r IH|r1 IH1 r2 IH2| |]; intros z c Hs Ha v t;
    cbn [split_ok] in Hs; apply orb_true_iff in Hs as [Hs|Hs];
    try (apply negb_true_iff in Hs; by apply (local_alpha code _ c t Hs Ha));
    try done.
  apply andb_true_iff in Hs as [Hz Hs]. apply negb_true_iff in Hz.
  cbn [anchored] in Ha. apply orb_false_iff in Ha as [Ha1 Ha2].
  cbn [runs]. rewrite <- app_assoc. cbn [app].
  rewrite (local_alpha code r1 z (c :: t) Hz Ha1 v).
  rewrite (local_alpha code r1 z [] Hz Ha1 v).
  induction (runs code r1 v) as [|[x1 x2] l IHl]; [done|].
  cbn [map flat_map]. rewrite map_app, IHl. f_equal.
  change ((extend (z :: c :: t) (x1, x2)).2) with (x2 ++ z :: c :: t).
  change ((extend (z :: c :: t) (x1, x2)).1) with x1.
  change ((extend [z] (x1, x2)).2) with (x2 ++ [z]).
  change ((extend [z] (x1, x2)).1) with x1.
  replace (x2 ++ z :: c :: t) with ((x2 ++ [z]) ++ c :: t)
    by (by rewrite <- app_assoc).
  rewrite (IH2 z c Hs Ha2 x2 t), !map_map. apply map_ext. by intros [y1 y2].
Qed.

(** Where [search] finds its match, a match starts. *)
Lemma search_at r : forall s f,
  search code r s = Some f ->
  match_here code r (matched f ++ after f) = Some (matched f, after f).
Proof.
  induction s as [|a s IH]; intros f; cbn [search].
  - destruct (match_here code r []) as [[m rest]|] eqn:E; [|done].
    intros [= <-]. cbn [matched after fst snd].
    pose proof (match_here_split code r [] (m, rest) E) as H.
    cbn [fst snd] in H. by rewrite <- H.
  - destruct (match_here code r (a :: s)) as [[m rest]|] eqn:E.
    + intros [= <-]. cbn [matched after fst snd].
      pose proof (match_here_split code r (a :: s) (m, rest) E) as H.
      cbn [fst snd] in H. by rewrite <- H.
    + destruct (search code r s) as [f'|] eqn:E'; [|done].
      cbn [fmap option_fmap option_map]. intros [= <-].
      cbn [matched after shift]. by apply IH.
Qed.

(** The matches [findall] lists: the one [search] finds, and those behind
    it. *)
Lemma findall_search r : forall s f,
  search code r s = Some f -> matched f <> [] ->
  findall code r s = matched f :: findall code r (after f).
Proof.
  induction s as [|a s IH]; intros f; cbn [search].
  - destruct (match_here code r []) as [[m rest]|] eqn:E; [|done].
    intros [= <-]. cbn [matched after fst snd]. intros Hm. by apply findall_some.
  - destruct (match_here code r (a :: s)) as [[m rest]|] eqn:E.
    + intros [= <-]. cbn [matched after fst snd]. intros Hm. by apply findall_some.
    + destruct (search code r s) as [f'|] eqn:E'; [|done].
      cbn [fmap option_fmap option_map]. intros [= <-].
      cbn [matched after shift]. intros Hm. rewrite findall_none by done.
      by apply IH.
Qed.

(** A beginning in which no match starts is passed over. *)
Lemma findall_before r t : forall b,
  (forall i, (i < length b)%nat -> match_here code r (drop i (b ++ t)) = None) ->
  findall code r (b ++ t) = findall code r t.
Proof.
  induction b as [|a b IH]; intros H; [done|]. cbn [app].
  rewrite findall_none by (apply (H 0%nat); cbn; lia).
  apply IH. intros i Hi. apply (H (S i)). cbn. lia.
Qed.

End Cross.

(** What may follow a code: nothing, or a character that is neither a digit
    nor a dot. *)
Definition follows_ok (rest : text) : Prop :=
  match rest with
  | [] => True
  | a :: _ => isdigit a = false /\ a <> "."%char
  end.

Section Replace.
Variable r : Re.t.
Variable canonical : text -> Prop.
Variable letter : ascii -> bool.
Hypothesis r_plain : anchored r = false.
Hypothesis r_split : forall z c,
  letter z = false -> letter c = true -> split_ok r (code_s z) (code_s c) = true.
Hypothesis r_head : forall s x,
  match_here code_s r s = Some x -> exists c m, x.1 = c :: m /\ letter c = true.
Hypothesis canonical_head : forall code,
  canonical code -> exists c m, code = c :: m /\ letter c = true.
Hypothesis canonical_match : forall code rest,
  canonical code -> follows_ok rest ->
  match_here code_s r (code ++ rest) = Some (code, rest).

(** The text before the code does not end with a letter. *)
Definition ends_plain (b : text) : Prop :=
  forall z, last b = Some z -> letter z = false.

Lemma before_cross b c t i :
  ends_plain b -> letter c = true -> (i < length b)%nat ->
  match_here code_s r (drop i (b ++ c :: t)) =
  extend (c :: t) <$> match_here code_s r (drop i b).
Proof using r_plain r_split.
  intros Hb Hc Hi. rewrite drop_app_le by lia.
  assert (exists v z, drop i b = v ++ [z] /\ letter z = false) as (v & z & -> & Hz).
  { destruct (drop i b) as [|a u] eqn:E using rev_ind.
    - apply (f_equal length) in E. rewrite length_drop in E. cbn in E. lia.
    - exists u, a. split; [done|]. apply Hb.
      rewrite <- (take_drop i b), E, app_assoc. apply last_snoc. }
  apply match_here_local. apply cross; [by apply r_split | done].
Qed.

(** In a stem with one code, whose code stands free, the given code stands
    alone once it has replaced it. *)
Lemma one_token stem code f :
  search code_s r stem = Some f -> canonical code ->
  findall code_s r stem = [matched f] ->
  ends_plain (before f) -> follows_ok (after f) ->
  findall code_s r (before f ++ code ++ after f) = [code].
Proof using All.
  intros Hf Hc Hone Hb Ha.
  pose proof (search_at code_s r stem f Hf) as Hat.
  destruct (r_head _ _ Hat) as (c0 & m0 & Hm & Hc0). cbn [fst] in Hm.
  destruct (canonical_head code Hc) as (c1 & m1 & -> & Hc1).
  assert (findall code_s r (after f) = []) as Hafter.
  { rewrite (findall_search code_s r stem f Hf) in Hone by (by rewrite Hm).
    by injection Hone. }
  rewrite findall_before.
  - rewrite (findall_some code_s r _ (c1 :: m1) (after f)); [by rewrite Hafter| |done].
    by apply canonical_match.
  - intros i Hi. cbn [app]. rewrite (before_cross (before f) c1 _ i) by done.
    pose proof (search_first code_s r stem f Hf i Hi) as Hnone.
    rewrite (search_split code_s r stem f Hf), Hm in Hnone. cbn [app] in Hnone.
    rewrite (before_cross (before f) c0 _ i) in Hnone by done.
    by destruct (match_here code_s r (drop i (before f))).
Qed.

End Replace.

End ReplaceTheory.

Module ReplaceFacts.
Import Chars Re ReTheory ReFirst ReLocal CodeFacts ReplaceTheory.

(** A letter, capital or small. *)
Definition letter (c : ascii) : bool := ci upper_AZ (code_s c).

Lemma follows_classes rest :
  follows_ok rest ->
  rest = [] \/ exists a v, rest = a :: v /\ ci digit (code_s a) = false /\
                           ci (lit ".") (code_s a) = false.
Proof.
  destruct rest as [|a v]; [by left|]. intros [Hd Hdot]. right.
  exists a, v. split; [done|]. revert Hd Hdot. unfold isdigit.
  destruct a as [[] [] [] [] [] [] [] []]; vm_compute; intuition congruence.
Qed.

Lemma tail_match_rest d rest :
  (3 <= length d <= 5)%nat -> Forall is_digit d -> follows_ok rest ->
  match_here code_s tail_re ("-"%char :: d ++ rest) = Some ("-"%char :: d, rest).
Proof.
  intros Hlen Hd Hrest. unfold tail_re, cat, times. cbn [foldr].
  apply follows_classes in Hrest.
  etransitivity.
  { eapply first_cat; [by apply first_chr|]. cbn [snd].
    eapply first_cat.
    { apply first_rep_greedy; [by apply Forall_ci|lia|cbn; lia|].
      right. destruct Hrest as [->|(a & v & -> & Ha & _)]; [by left|].
      right. by exists a, v. }
    cbn [snd]. eapply first_cat; [|apply first_eps].
    apply first_opt_none. apply none_cat.
    destruct Hrest as [->|(a & v & -> & _ & Ha)]; [done | by apply none_chr]. }
  cbn [fst snd app]. by rewrite !app_nil_r.
Qed.

Lemma ps2_canonical_rest code rest :
  canonical2 code -> follows_ok rest ->
  match_here code_s Ps2.NAME_CODE_RE (code ++ rest) = Some (code, rest).
Proof.
  intros (p & d & -> & Hp & HAZ & Hd & Hdig) Hrest.
  rewrite <- app_assoc. cbn [app].
  change Ps2.NAME_CODE_RE with (Cat (times (ci upper_AZ) 4 5) tail_re).
  etransitivity.
  { eapply first_cat.
    { apply first_rep_greedy; [by apply Forall_ci|lia|cbn; lia|].
      right; right. by exists "-"%char, (d ++ rest). }
    cbn [snd]. by apply tail_match_rest. }
  done.
Qed.

Lemma ps1_canonical_rest code rest :
  canonical1 code -> follows_ok rest ->
  match_here code_s Ps1.NAME_CODE_RE (code ++ rest) = Some (code, rest).
Proof.
  intros (l & p & d & -> & Hl & Hp & HAZ & Hd & Hdig) Hrest.
  cbn [app]. rewrite <- app_assoc. cbn [app].
  change Ps1.NAME_CODE_RE with
    (Cat (Chr (ci (lit "S"))) (Cat (Chr (ci (oneof "LC")))
      (Cat (times (ci upper_AZ) 2 2) (Cat (Opt (Chr (ci upper_AZ))) tail_re)))).
  assert (ci (oneof "LC") (code_s l) = true) as Hl'
    by (destruct Hl as [->| ->]; reflexivity).
  destruct p as [|a [|b [|c [|e p]]]]; cbn [length] in Hp; try lia.
  - apply Forall_cons in HAZ as [Ha HAZ]. apply Forall_cons in HAZ as [Hb _].
    etransitivity.
    { eapply first_cat; [by apply first_chr|]. cbn [snd].
      eapply first_cat; [by apply first_chr|]. cbn [snd].
      eapply first_cat.
      { apply (first_rep_greedy code_s _ [a; b]);
          [by repeat constructor; apply ci_intro|cbn; lia|cbn; lia|by left]. }
      cbn [snd]. eapply first_cat.
      { apply first_opt_none. by apply none_chr. }
      cbn [snd]. by apply tail_match_rest. }
    done.
  - apply Forall_cons in HAZ as [Ha HAZ]. apply Forall_cons in HAZ as [Hb HAZ].
    apply Forall_cons in HAZ as [Hc _].
    etransitivity.
    { eapply first_cat; [by apply first_chr|]. cbn [snd].
      eapply first_cat; [by apply first_chr|]. cbn [snd].
      eapply first_cat.
      { apply (first_rep_greedy code_s _ [a; b]);
          [by repeat constructor; apply ci_intro|cbn; lia|cbn; lia|by left]. }
      cbn [snd]. eapply first_cat.
      { apply first_opt_some. apply first_chr. by apply ci_intro. }
      cbn [snd]. by apply tail_match_rest. }
    done.
Qed.

Lemma tail_no_letter c : letter c = true -> accepts tail_re (code_s c) = false.
Proof. unfold letter. destruct c as [[] [] [] [] [] [] [] []]; by vm_compute. Qed.

Lemma ps2_split z c :
  letter z = false -> letter c = true ->
  split_ok Ps2.NAME_CODE_RE (code_s z) (code_s c) = true.
Proof.
  intros Hz Hc.
  change Ps2.NAME_CODE_RE with (Cat (times (ci upper_AZ) 4 5) tail_re).
  cbn [split_ok]. unfold times at 2. cbn [accepts].
  unfold letter in Hz. rewrite Hz. cbn [negb andb].
  rewrite (split_ok_reject tail_re _ _ (tail_no_letter c Hc)). apply orb_true_r.
Qed.

Lemma ps1_split z c :
  letter z = false -> letter c = true ->
  split_ok Ps1.NAME_CODE_RE (code_s z) (code_s c) = true.
Proof.
  intros Hz Hc.
  change Ps1.NAME_CODE_RE with
    (Cat (Chr (ci (lit "S"))) (Cat (Chr (ci (oneof "LC")))
      (Cat (times (ci upper_AZ) 2 2) (Cat (Opt (Chr (ci upper_AZ))) tail_re)))).
  assert (ci (lit "S") (code_s z) = false /\ ci (oneof "LC") (code_s z) = false /\
          ci upper_AZ (code_s z) = false) as (H1 & H2 & H3).
  { revert Hz. unfold letter.
    destruct z as [[] [] [] [] [] [] [] []]; vm_compute; intuition congruence. }
  pose proof (split_ok_reject tail_re (code_s z) _ (tail_no_letter c Hc)) as Ht.
  cbn [split_ok]. unfold times. cbn [accepts].
  rewrite H1, H2, H3, Ht. cbn [negb andb]. by rewrite !orb_true_r.
Qed.

Lemma ps2_head s x :
  match_here code_s Ps2.NAME_CODE_RE s = Some x ->
  exists c m, x.1 = c :: m /\ letter c = true.
Proof.
  unfold match_here.
  change Ps2.NAME_CODE_RE with (Cat (times (ci upper_AZ) 4 5) tail_re).
  destruct (runs code_s _ s) as [|x' l] eqn:E; [done|]. intros [= ->].
  assert (In x (runs code_s (Cat (times (ci upper_AZ) 4 5) tail_re) s)) as Hin
    by (rewrite E; by left).
  cbn [runs] in Hin. apply in_flat_map in Hin as (y & Hy & Hx).
  apply in_map_iff in Hx as (z & <- & _). cbn [fst].
  pose proof (TemplateFacts.rep_accepted code_s _ _ _ _ _ _ Hy) as Hall.
  assert (y.1 <> []) as Hne.
  { apply list_elem_of_In in Hy. unfold times in Hy. cbn [runs] in Hy.
    by eapply rep_nonempty. }
  destruct y.1 as [|c m]; [done|]. apply Forall_cons in Hall as [Hc _].
  by exists c, (m ++ z.1).
Qed.

Lemma ps1_head s x :
  match_here code_s Ps1.NAME_CODE_RE s = Some x ->
  exists c m, x.1 = c :: m /\ letter c = true.
Proof.
  unfold match_here.
  change Ps1.NAME_CODE_RE with
    (Cat (Chr (ci (lit "S"))) (Cat (Chr (ci (oneof "LC")))
      (Cat (times (ci upper_AZ) 2 2) (Cat (Opt (Chr (ci upper_AZ))) tail_re)))).
  destruct (runs code_s _ s) as [|x' l] eqn:E; [done|]. intros [= ->].
  assert (In x (runs code_s
    (Cat (Chr (ci (lit "S"))) (Cat (Chr (ci (oneof "LC")))
      (Cat (times (ci upper_AZ) 2 2) (Cat (Opt (Chr (ci upper_AZ))) tail_re)))) s))
    as Hin by (rewrite E; by left).
  cbn [runs] in Hin. apply in_flat_map in Hin as (y & Hy & Hx).
  apply in_map_iff in Hx as (z & <- & _). cbn [fst].
  destruct s as [|c s]; [done|].
  destruct (ci (lit "S") (code_s c)) eqn:Hc; [|done].
  destruct Hy as [<-|[]]. cbn. exists c, z.1. split; [done|].
  revert Hc. unfold letter.
  destruct c as [[] [] [] [] [] [] [] []]; vm_compute; congruence.
Qed.

Lemma canonical2_head code :
  canonical2 code -> exists c m, code = c :: m /\ letter c = true.
Proof.
  intros (p & d & -> & Hp & HAZ & _). destruct p as [|c p]; [cbn in Hp; lia|].
  apply Forall_cons in HAZ as [Hc _]. exists c, (p ++ "-"%char :: d).
  split; [done|]. by apply ci_intro.
Qed.

Lemma canonical1_head code :
  canonical1 code -> exists c m, code = c :: m /\ letter c = true.
Proof. intros (l & p & d & -> & _). by eexists _, _. Qed.

(** The code of a stem, replaced by a canonical code, stands alone when it
    stood alone and free. *)
Lemma ps2_one_token stem code f :
  search code_s Ps2.NAME_CODE_RE stem = Some f -> canonical2 code ->
  findall code_s Ps2.NAME_CODE_RE stem = [matched f] ->
  ends_plain letter (before f) -> follows_ok (after f) ->
  findall code_s Ps2.NAME_CODE_RE (before f ++ code ++ after f) = [code].
Proof.
  apply (one_token Ps2.NAME_CODE_RE canonical2 letter eq_refl ps2_split ps2_head
           canonical2_head ps2_canonical_rest).
Qed.

Lemma ps1_one_token stem code f :
  search code_s Ps1.NAME_CODE_RE stem = Some f -> canonical1 code ->
  findall code_s Ps1.NAME_CODE_RE stem = [matched f] ->
  ends_plain letter (before f) -> follows_ok (after f) ->
  findall code_s Ps1.NAME_CODE_RE (before f ++ code ++ after f) = [code].
Proof.
  apply (one_token Ps1.NAME_CODE_RE canonical1 letter eq_refl ps1_split ps1_head
           canonical1_head ps1_canonical_rest).
Qed.

End ReplaceFacts.

Module ComposeClaims.
Import Re.

(** The code tokens of a stem: the matches [findall] lists. *)
Definition tokens1 (s : text) : list text := findall code_s Ps1.NAME_CODE_RE s.
Definition tokens2 (s : text) : list text := findall code_s Ps2.NAME_CODE_RE s.

(** The stem with two codes that the claim of one token fails on. *)
Definition two_codes : text := str "SLUS_00001 SLUS-00002".

(** Exactly one token in every composed stem, as the specification has it. *)
Definition one_token_always : Prop :=
  forall stem code raw,
    Ps2.extract_code_from_name stem = Some raw ->
    code = Ps2.normalize_code raw ->
    exists new_stem,
      Ps2.build_new_stem stem code true = Some new_stem /\
      length (tokens2 new_stem) = 1%nat.

(** The code found at [f] stands free: no letter right before it, and
    neither a digit nor a dot right behind it. *)
Definition stands_free (f : found) : Prop :=
  ReplaceTheory.ends_plain ReplaceFacts.letter (before f) /\
  ReplaceTheory.follows_ok (after f).

End ComposeClaims.




(** C6.  For a stem without a code and a canonical code, script 04 composes
    a stem (no error is raised) from which it extracts the code it was
    composed with; this code is its own normal form, and composing the
    composed stem with it again returns the composed stem: nothing changes. *)
Theorem C6_compose_extract_round_trip (stem code : text) :
  Ps2.extract_code_from_name stem = None ->
  CodeFacts.canonical2 code ->
  exists new_stem,
    Ps2.build_new_stem stem code false = Some new_stem /\
    Ps2.extract_code_from_name new_stem = Some code /\
    Ps2.normalize_code code = code /\
    Ps2.build_new_stem new_stem code true = Some new_stem.
Proof.
  intros Hs Hc.
  assert (Re.search Re.code_s Ps2.NAME_CODE_RE stem = None) as Hs'
    by (unfold Ps2.extract_code_from_name in Hs;
        by destruct (Re.search Re.code_s Ps2.NAME_CODE_RE stem)).
  exists (ComposeTheory.tagged stem code).
  split; [reflexivity|]. split; [|split].
  - unfold Ps2.extract_code_from_name.
    by rewrite (ComposeFacts.ps2_tagged stem code Hs' Hc).
  - by apply ComposeFacts.ps2_normalize_canonical.
  - rewrite (TemplateFacts.ps2_build_plain _ code true)
      by (by apply TemplateFacts.canonical2_is_plain).
    f_equal. by apply ComposeFacts.ps2_again.
Qed.

(** The round trip on "Game" and SLUS-00001. *)
Lemma C6_round_trip_witness :
  exists new_stem,
    Ps2.build_new_stem (str "Game") (str "SLUS-00001") false = Some new_stem /\
    Ps2.extract_code_from_name new_stem = Some (str "SLUS-00001") /\
    Ps2.normalize_code (str "SLUS-00001") = str "SLUS-00001" /\
    Ps2.build_new_stem new_stem (str "SLUS-00001") true = Some new_stem.
Proof.
  apply (C6_compose_extract_round_trip (str "Game") (str "SLUS-00001")).
  - reflexivity.
  - exists (str "SLUS"), (str "00001").
    repeat split; try (cbn; lia); repeat constructor.
Defined.

(** * The drivers and the file system *)

(** ** Worlds that differ in the printed lines only *)
Module FsFacts.
Import Fs.

(** [reported w w']: from [w] to [w'] lines were printed, and no file or
    directory was touched. *)
Definition reported (w w' : world) : Prop :=
  files w' = files w /\ dirs w' = dirs w /\ exists lines, out w' = out w ++ lines.

Lemma reported_refl w : reported w w.
Proof. repeat split. exists []. by rewrite app_nil_r. Qed.

Lemma reported_trans w1 w2 w3 : reported w1 w2 -> reported w2 w3 -> reported w1 w3.
Proof.
  intros (Hf1 & Hd1 & l1 & Ho1) (Hf2 & Hd2 & l2 & Ho2).
  repeat split; [congruence | congruence |].
  exists (l1 ++ l2). by rewrite Ho2, Ho1, app_assoc.
Qed.

Lemma reported_print line w : reported w (print line w).
Proof. repeat split. by exists [line]. Qed.

Lemma reported_print_trans line w w' : reported w w' -> reported w (print line w').
Proof. intros H. eapply reported_trans; [exact H | apply reported_print]. Qed.

Lemma reported_line line w w' : reported w w' -> line ∈ out w -> line ∈ out w'.
Proof. intros (_ & _ & l & ->) H. apply elem_of_app. by left. Qed.

Lemma print_line line w : line ∈ out (print line w).
Proof. cbn. apply elem_of_app. right. by apply list_elem_of_singleton. Qed.

Lemma exists_same p w w' :
  files w' = files w -> dirs w' = dirs w -> exists_ p w' = exists_ p w.
Proof. intros Hf Hd. unfold exists_. by rewrite Hf, Hd. Qed.

Lemma is_dir_same p w w' : dirs w' = dirs w -> is_dir p w' = is_dir p w.
Proof. intros Hd. unfold is_dir. by rewrite Hd. Qed.

End FsFacts.

Create HintDb fs.
#[global] Hint Resolve FsFacts.reported_refl FsFacts.reported_print
  FsFacts.reported_print_trans : fs.

(** ** A dry run *)
Module DryRun.
Import Fs FsFacts.

(** *** Script 04 *)

Lemma ps2_plan_step_reports st iso st' :
  Ps2.plan_step st iso = Some st' -> reported st.1 st'.1.
Proof.
  unfold Ps2.plan_step. destruct (Ps2.proposal st.1 iso) as [[[new code]|]|]; [| |done].
  - destruct (_ && _); intros [= <-]; cbn; auto with fs.
  - intros [= <-]; cbn; auto with fs.
Qed.

Lemma ps2_plan_all_reports isos : forall st,
  match Ps2.plan_all isos st with
  | inl st' => reported st.1 st'.1
  | inr w' => reported st.1 w'
  end.
Proof.
  induction isos as [|iso isos IH]; intros st; cbn; [auto with fs|].
  destruct (Ps2.plan_step st iso) as [st1|] eqn:E; [|auto with fs].
  apply ps2_plan_step_reports in E. specialize (IH st1).
  destruct (Ps2.plan_all isos st1); eapply reported_trans; eauto.
Qed.

Lemma ps2_main_reports root w : reported w (final (Ps2.main root true w)).
Proof.
  unfold Ps2.main. destruct (negb (is_dir root w)); [cbn; auto with fs|].
  destruct (Ps2.iso_files root w) as [|iso isos]; [cbn; auto with fs|].
  pose proof (ps2_plan_all_reports (iso :: isos) (w, [])) as H.
  destruct (Ps2.plan_all (iso :: isos) (w, [])) as [[wp items]|wp]; [|exact H].
  destruct items; cbn; auto with fs.
Qed.

(** *** Script 02 *)

Lemma ps1_plan_step_reports st bin st' :
  Ps1.plan_step st bin = Some st' -> reported st.1 st'.1.
Proof.
  unfold Ps1.plan_step. destruct (Ps1.proposal st.1 bin) as [[it|]|]; [| |done].
  - destruct (Ps1.bin_conflict it st.1); [intros [= <-]; cbn; auto with fs|].
    destruct (Ps1.cue_conflict it st.1); intros [= <-]; cbn; auto with fs.
  - intros [= <-]; cbn; auto with fs.
Qed.

Lemma ps1_plan_all_reports bins : forall st,
  match Ps1.plan_all bins st with
  | inl st' => reported st.1 st'.1
  | inr w' => reported st.1 w'
  end.
Proof.
  induction bins as [|bin bins IH]; intros st; cbn; [auto with fs|].
  destruct (Ps1.plan_step st bin) as [st1|] eqn:E; [|auto with fs].
  apply ps1_plan_step_reports in E. specialize (IH st1).
  destruct (Ps1.plan_all bins st1); eapply reported_trans; eauto.
Qed.

Lemma ps1_main_reports decode root w : reported w (final (Ps1.main decode root true w)).
Proof.
  unfold Ps1.main. destruct (negb (is_dir root w)); [cbn; auto with fs|].
  destruct (Ps1.bin_files root w) as [|bin bins]; [cbn; auto with fs|].
  pose proof (ps1_plan_all_reports (bin :: bins) (w, [])) as H.
  destruct (Ps1.plan_all (bin :: bins) (w, [])) as [[wp items]|wp]; [|exact H].
  destruct items; cbn; auto with fs.
Qed.

(** A dry run does not read the cue files. *)
Lemma ps1_dry_no_decode decode decode' root w :
  Ps1.main decode root true w = Ps1.main decode' root true w.
Proof.
  unfold Ps1.main. destruct (negb (is_dir root w)); [done|].
  destruct (Ps1.bin_files root w) as [|bin bins]; [done|].
  destruct (Ps1.plan_all (bin :: bins) (w, [])) as [[wp items]|wp]; [|done].
  by destruct items.
Qed.

(** *** Script 03 *)

Lemma collect_step_reports st cue : reported st.1 (Pack.collect_step st cue).1.
Proof.
  unfold Pack.collect_step. destruct (negb _); [cbn; auto with fs|].
  destruct ((Pack.game_key_from_stem (stem cue)).1); cbn; auto with fs.
Qed.

Lemma collect_fold_reports cues : forall st,
  reported st.1 (foldl Pack.collect_step st cues).1.
Proof.
  induction cues as [|cue cues IH]; intros st; cbn; [auto with fs|].
  eapply reported_trans; [apply collect_step_reports | apply IH].
Qed.

Lemma collect_games_reports root w : reported w (Pack.collect_games root w).1.
Proof. apply (collect_fold_reports _ (w, ∅)). Qed.

Section Tools.
Variable which : text -> option text.
Variable cpu_count : option nat.
Variable error_text : list text -> Z -> text.
Variable run_command : list text -> path -> world -> world * Z.

Lemma build_archive_dry sevenzip root display files level threads overwrite w :
  exists w',
    Pack.build_archive run_command sevenzip root display files level threads
                       overwrite true w = Pack.Built w' /\
    reported w w' /\
    forall run_command',
      Pack.build_archive run_command' sevenzip root display files level threads
                         overwrite true w = Pack.Built w'.
Proof.
  unfold Pack.build_archive.
  destruct (exists_ _ w && negb overwrite).
  - eexists; split; [reflexivity | split; auto with fs].
  - rewrite andb_false_r. eexists; split; [reflexivity | split; auto with fs].
Qed.

Lemma build_all_dry sevenzip root games level threads overwrite keys : forall w,
  exists w',
    Pack.build_all error_text run_command sevenzip root games keys level threads
                   overwrite true w = inr w' /\
    reported w w' /\
    forall run_command',
      Pack.build_all error_text run_command' sevenzip root games keys level threads
                     overwrite true w = inr w'.
Proof.
  induction keys as [|key keys IH]; intros w; cbn -[Pack.build_archive].
  - exists w. auto with fs.
  - destruct (bool_decide _); [apply IH|].
    destruct (build_archive_dry sevenzip root (default ([], ∅) (games !! key)).1
                (default ([], ∅) (games !! key)).2 level threads overwrite w)
      as (w1 & E & R & I).
    rewrite E. destruct (IH w1) as (w2 & E2 & R2 & I2).
    exists w2. split; [exact E2 | split; [by eapply reported_trans|]].
    intros run'. by rewrite I, I2.
Qed.

Lemma pack_main_dry root overwrite sevenzip_option level threads_option w :
  exists w' code,
    Pack.main which cpu_count error_text run_command root true overwrite
              sevenzip_option level threads_option w = Return w' code /\
    reported w w' /\
    forall run_command',
      Pack.main which cpu_count error_text run_command' root true overwrite
                sevenzip_option level threads_option w = Return w' code.
Proof.
  unfold Pack.main. destruct (negb (is_dir root w)).
  { eexists _, _; split; [reflexivity | split; auto with fs]. }
  destruct (Pack.find_7z which sevenzip_option) as [[|c sevenzip]|];
    [eexists _, _; split; [reflexivity | split; auto with fs] | |
     eexists _, _; split; [reflexivity | split; auto with fs]].
  pose proof (collect_games_reports root w) as Hc.
  destruct (bool_decide _).
  { eexists _, _; split; [reflexivity | split; auto with fs]. }
  destruct (_ && _).
  { eexists _, _; split; [reflexivity | split; auto with fs]. }
  match goal with
  | |- context [Pack.build_all _ _ ?sz ?r ?g ?ks ?lv ?th ?ov true ?w0] =>
      destruct (build_all_dry sz r g lv th ov ks w0) as (w1 & E & R & I)
  end.
  rewrite E. eexists _, _; split; [reflexivity | split].
  - apply reported_print_trans. eapply reported_trans; eauto.
  - intros run'. by rewrite I.
Qed.

End Tools.

End DryRun.

(** C10: a run with the flag [--dry-run] touches no file and no directory,
    it only prints.  This holds for the two tagging drivers (scripts 02 and
    04), however the planning ends, and for the driver of the archives
    (script 03) and its [build_archive], which then return, leave an archive
    that is there in place and never run the 7z command: the result does not
    depend on what that command would do. *)
Theorem C10_dry_run_reports_only :
  (forall decode root w,
     FsFacts.reported w (Fs.final (Ps1.main decode root true w)) /\
     forall decode', Ps1.main decode' root true w = Ps1.main decode root true w) /\
  (forall root w, FsFacts.reported w (Fs.final (Ps2.main root true w))) /\
  (forall run_command sevenzip root display files level threads overwrite w,
     exists w',
       Pack.build_archive run_command sevenzip root display files level threads
                          overwrite true w = Pack.Built w' /\
       FsFacts.reported w w' /\
       forall run_command',
         Pack.build_archive run_command' sevenzip root display files level threads
                            overwrite true w = Pack.Built w') /\
  (forall which cpu_count error_text run_command root overwrite sevenzip_option
          level threads_option w,
     exists w' code,
       Pack.main which cpu_count error_text run_command root true overwrite
                 sevenzip_option level threads_option w = Fs.Return w' code /\
       FsFacts.reported w w' /\
       forall run_command',
         Pack.main which cpu_count error_text run_command' root true overwrite
                   sevenzip_option level threads_option w = Fs.Return w' code).
Proof.
  split; [|split; [|split]].
  - intros decode root w. split; [apply DryRun.ps1_main_reports|].
    intros decode'. apply DryRun.ps1_dry_no_decode.
  - apply DryRun.ps2_main_reports.
  - intros. apply DryRun.build_archive_dry.
  - intros. apply DryRun.pack_main_dry.
Qed.

(** ** What a run may change *)
Module FrameFacts.
Import Fs FsFacts.

(** From [w] to [w'] only the files at the paths of [touched] changed, no
    directory did, and lines were printed. *)
Definition changes_only (touched : path -> Prop) (w w' : world) : Prop :=
  dirs w' = dirs w /\
  (exists lines, out w' = out w ++ lines) /\
  forall p, ~ touched p -> files w' !! p = files w !! p.

Lemma changes_refl touched w : changes_only touched w w.
Proof. repeat split. exists []. by rewrite app_nil_r. Qed.

Lemma changes_trans touched w1 w2 w3 :
  changes_only touched w1 w2 -> changes_only touched w2 w3 ->
  changes_only touched w1 w3.
Proof.
  intros (Hd1 & [l1 Ho1] & Hf1) (Hd2 & [l2 Ho2] & Hf2).
  split; [congruence|]. split.
  - exists (l1 ++ l2). by rewrite Ho2, Ho1, app_assoc.
  - intros p Hp. by rewrite Hf2, Hf1.
Qed.

Lemma changes_mono (t1 t2 : path -> Prop) w w' :
  (forall p, t1 p -> t2 p) -> changes_only t1 w w' -> changes_only t2 w w'.
Proof.
  intros Hsub (Hd & Ho & Hf). repeat split; [done | done |].
  intros p Hp. apply Hf. intros H. apply Hp, Hsub, H.
Qed.

Lemma reported_changes touched w w' : reported w w' -> changes_only touched w w'.
Proof. intros (Hf & Hd & Ho). repeat split; [done | done |]. intros. by rewrite Hf. Qed.

Lemma changes_print touched line w w' :
  changes_only touched w w' -> changes_only touched w (print line w').
Proof.
  intros H. eapply changes_trans; [exact H|].
  apply reported_changes, reported_print.
Qed.

Lemma changes_line touched line w w' :
  changes_only touched w w' -> line ∈ out w -> line ∈ out w'.
Proof. intros (_ & [l ->] & _) H. apply elem_of_app. by left. Qed.

(** A file that is renamed: the two paths are all that changes. *)
Lemma rename_changes old new w w' :
  old ∉ dirs w -> rename old new w = Some w' ->
  changes_only (fun p => p = old \/ p = new) w w'.
Proof.
  intros Hold. unfold rename. destruct (files w !! old) as [content|] eqn:E.
  - destruct (bool_decide (new ∈ dirs w)); [done|]. intros [= <-].
    split; [done|]. split; [exists []; cbn; by rewrite app_nil_r|].
    intros p Hp. cbn.
    rewrite lookup_insert_ne by (intros ->; apply Hp; by right).
    rewrite lookup_delete_ne by (intros ->; apply Hp; by left). done.
  - by rewrite bool_decide_eq_false_2.
Qed.

(** The world a loop leaves, through or not. *)
Definition settled (r : world + world) : world :=
  match r with inl w => w | inr w => w end.

(** *** Paths *)

Lemma sorted_elem p ps : p ∈ sorted ps <-> p ∈ ps.
Proof. unfold sorted. by rewrite merge_sort_Permutation. Qed.

Lemma exists_elem p w :
  exists_ p w = true <-> is_Some (files w !! p) \/ p ∈ dirs w.
Proof. unfold exists_. by rewrite orb_true_iff, !bool_decide_eq_true. Qed.

Lemma is_file_elem p w :
  is_file p w = true <-> is_Some (files w !! p) /\ p ∉ dirs w.
Proof.
  unfold is_file.
  by rewrite andb_true_iff, negb_true_iff, bool_decide_eq_true, bool_decide_eq_false.
Qed.

Lemma name_with_name p n : name (with_name p n) = n.
Proof. unfold with_name, name. apply last_last. Qed.

End FrameFacts.

(** ** The plan of script 04 *)
Module Ps2Plan.
Import Fs FsFacts FrameFacts.

(** The entry the loop adds for [iso], if it adds one. *)
Definition planned_of (w : world) (iso : path) : list Ps2.work_item :=
  match Ps2.proposal w iso with
  | Some (Some (new_path, code)) =>
      if exists_ new_path w && negb (bool_decide (new_path = iso)) then []
      else [(iso, new_path, code)]
  | _ => []
  end.

Definition conflict_line (iso new_path : path) : text :=
  str "[WARN] Target already exists (" ++ name new_path ++ str "); skipping " ++
  name iso.

Lemma ps2_proposal_same w w' iso :
  files w' = files w -> Ps2.proposal w' iso = Ps2.proposal w iso.
Proof. intros Hf. unfold Ps2.proposal, read_bytes. by rewrite Hf. Qed.

Lemma ps2_proposal_file w iso :
  is_Some (files w !! iso) -> Ps2.proposal w iso <> None.
Proof.
  intros [content E]. rewrite TemplateFacts.proposal2_eq.
  unfold TemplateFacts.proposal2, read_bytes. rewrite E.
  destruct (negb _); cbn; by destruct (negb _).
Qed.

(** One turn of the loop, read on the files as they were at the start. *)
Lemma ps2_plan_step_spec w st iso :
  reported w st.1 -> is_Some (files w !! iso) ->
  exists wp,
    Ps2.plan_step st iso = Some (wp, st.2 ++ planned_of w iso) /\
    reported st.1 wp /\
    forall new_path code,
      Ps2.proposal w iso = Some (Some (new_path, code)) ->
      exists_ new_path w = true -> new_path <> iso ->
      conflict_line iso new_path ∈ out wp.
Proof.
  intros (Hf & Hd & _) Hfile. unfold Ps2.plan_step, planned_of.
  rewrite (ps2_proposal_same w st.1 iso Hf).
  destruct (Ps2.proposal w iso) as [[[new_path code]|]|] eqn:E;
    [| | by apply ps2_proposal_file in E].
  - rewrite (exists_same new_path w st.1 Hf Hd).
    destruct (exists_ new_path w && negb (bool_decide (new_path = iso))) eqn:C.
    + eexists. split; [by rewrite app_nil_r|]. split; [auto with fs|].
      intros ? ? [= <- <-] _ _. apply print_line.
    + eexists. split; [done|]. split; [auto with fs|].
      intros ? ? [= <- <-] He Hne. rewrite He in C. cbn in C.
      by rewrite bool_decide_eq_false_2 in C.
  - eexists. split; [by rewrite app_nil_r|]. split; [auto with fs|]. done.
Qed.

(** The planning loop. *)
Lemma ps2_plan_all_spec w isos : forall st,
  reported w st.1 -> (forall iso, iso ∈ isos -> is_Some (files w !! iso)) ->
  exists wp,
    Ps2.plan_all isos st = inl (wp, st.2 ++ flat_map (planned_of w) isos) /\
    reported st.1 wp /\
    forall iso new_path code,
      iso ∈ isos -> Ps2.proposal w iso = Some (Some (new_path, code)) ->
      exists_ new_path w = true -> new_path <> iso ->
      conflict_line iso new_path ∈ out wp.
Proof.
  induction isos as [|iso isos IH]; intros st Hst Hfiles; cbn.
  - exists st.1. split; [rewrite app_nil_r; by destruct st|].
    split; [auto with fs|]. intros ? ? ? H. by apply elem_of_nil in H.
  - destruct (ps2_plan_step_spec w st iso Hst) as (w1 & E1 & R1 & L1).
    { apply Hfiles. by left. }
    rewrite E1.
    destruct (IH (w1, st.2 ++ planned_of w iso)) as (wp & E & R & L).
    { cbn. by eapply reported_trans. }
    { intros ? ?. apply Hfiles. by right. }
    exists wp. cbn in E, R. split; [by rewrite E, app_assoc|].
    split; [by eapply reported_trans|].
    intros iso' new_path code Hin Hp He Hne.
    apply elem_of_cons in Hin as [->|Hin]; [|by eapply L].
    eapply reported_line; [exact R|]. by eapply L1.
Qed.

Lemma ps2_planned_elem w isos (it : Ps2.work_item) :
  it ∈ flat_map (planned_of w) isos <->
  it.1.1 ∈ isos /\ it ∈ planned_of w it.1.1.
Proof.
  rewrite list_elem_of_In, in_flat_map. split.
  - intros (iso & Hin & Hit). apply list_elem_of_In in Hin, Hit.
    assert (it.1.1 = iso) as ->; [|done].
    unfold planned_of in Hit.
    destruct (Ps2.proposal w iso) as [[[new_path code]|]|];
      [|by apply elem_of_nil in Hit..].
    destruct (_ && _); [by apply elem_of_nil in Hit|].
    by apply list_elem_of_singleton in Hit as ->.
  - intros [Hin Hit]. exists it.1.1. by rewrite <- !list_elem_of_In.
Qed.

(** The loop of renames changes the planned paths only. *)
Lemma rename_all_changes items : forall w,
  (forall it : Ps2.work_item, it ∈ items -> it.1.1 ∉ dirs w) ->
  changes_only (fun p => exists it : Ps2.work_item,
                           it ∈ items /\ (p = it.1.1 \/ p = it.1.2))
               w (settled (Ps2.rename_all items w)).
Proof.
  induction items as [|[[old new] code] items IH]; intros w Hd; cbn.
  - apply changes_refl.
  - destruct (rename old new w) as [w1|] eqn:E; [|apply changes_refl].
    apply rename_changes in E; [|apply (Hd (old, new, code)); by left].
    eapply changes_trans.
    + eapply changes_mono; [|apply changes_print, E].
      intros p Hp. exists (old, new, code). split; [by left | done].
    + eapply changes_mono; [|apply IH].
      * intros p (it & Hin & Hp). exists it. split; [by right | done].
      * intros it Hin. cbn. destruct E as (-> & _). apply Hd. by right.
Qed.

(** A run, from the completed plan. *)
Lemma ps2_main_changes root dry_run w wp items :
  is_dir root w = true ->
  Ps2.plan_all (Ps2.iso_files root w) (w, []) = inl (wp, items) ->
  reported w wp ->
  (forall it : Ps2.work_item, it ∈ items -> it.1.1 ∉ dirs w) ->
  changes_only (fun p => exists it : Ps2.work_item,
                           it ∈ items /\ (p = it.1.1 \/ p = it.1.2))
               wp (final (Ps2.main root dry_run w)).
Proof.
  intros Hdir E R Hd. unfold Ps2.main. rewrite Hdir. cbn [negb].
  destruct (Ps2.iso_files root w) as [|iso isos] eqn:Eisos.
  { cbn in E. injection E as <- <-. cbn. apply changes_print, changes_refl. }
  rewrite E. destruct items as [|it items].
  { cbn. apply changes_print, changes_refl. }
  destruct dry_run. { cbn. apply changes_print, changes_refl. }
  pose proof (rename_all_changes (it :: items) wp) as H.
  destruct (Ps2.rename_all (it :: items) wp) as [wf|wf]; cbn in H |- *.
  - apply changes_print, H. intros ? ?. destruct R as (_ & -> & _). by apply Hd.
  - apply H. intros ? ?. destruct R as (_ & -> & _). by apply Hd.
Qed.

End Ps2Plan.

(** ** The collision policy of script 04 *)
Module Ps2Policy.
Import Fs FsFacts FrameFacts Ps2Plan.

(** The images of the directory are regular files. *)
Definition regular (root : path) (w : world) : bool :=
  forallb (fun iso => is_file iso w) (Ps2.iso_files root w).

(** What a run of [main] on the directory [root] keeps to, with the plan
    [items] it draws up:
    - a file whose new path is there already and is another path is warned
      about, gets no entry in the plan and stays as it is;
    - a file whose new path is its own path, or is free, is planned;
    - so every planned rename goes to the path of the file itself or to a
      path that was free;
    - and a file that is not the source of a planned rename is there, with
      what it held, when the run ends, however it ends. *)
Definition policy (root : path) (dry_run : bool) (w : world) : Prop :=
  let o := Ps2.main root dry_run w in
  exists wp items,
    Ps2.plan_all (Ps2.iso_files root w) (w, []) = inl (wp, items) /\
    (forall iso new_path code,
       iso ∈ Ps2.iso_files root w ->
       Ps2.proposal w iso = Some (Some (new_path, code)) ->
       (exists_ new_path w = true -> new_path <> iso ->
        conflict_line iso new_path ∈ out (final o) /\
        (forall it : Ps2.work_item, it ∈ items -> it.1.1 <> iso) /\
        files (final o) !! iso = files w !! iso) /\
       (new_path = iso \/ exists_ new_path w = false ->
        (iso, new_path, code) ∈ items)) /\
    (forall old new code,
       (old, new, code) ∈ items -> new = old \/ exists_ new w = false) /\
    (forall p,
       is_Some (files w !! p) ->
       (forall it : Ps2.work_item, it ∈ items -> it.1.1 <> p) ->
       files (final o) !! p = files w !! p) /\
    dirs (final o) = dirs w.

Lemma regular_iso root w iso :
  regular root w = true -> iso ∈ Ps2.iso_files root w ->
  is_Some (files w !! iso) /\ iso ∉ dirs w.
Proof.
  unfold regular. rewrite forallb_forall. intros H Hin.
  by apply list_elem_of_In, H, is_file_elem in Hin.
Qed.

Lemma ps2_planned_free w (it : Ps2.work_item) iso :
  it ∈ planned_of w iso ->
  it.1.1 = iso /\ (it.1.2 = it.1.1 \/ exists_ it.1.2 w = false).
Proof.
  unfold planned_of.
  destruct (Ps2.proposal w iso) as [[[new_path code]|]|];
    [|intros H; by apply elem_of_nil in H..].
  destruct (exists_ new_path w) eqn:He; cbn.
  - destruct (bool_decide (new_path = iso)) eqn:Hb; cbn.
    + apply bool_decide_eq_true in Hb as ->.
      intros ->%list_elem_of_singleton. cbn. auto.
    + intros H. by apply elem_of_nil in H.
  - intros ->%list_elem_of_singleton. cbn. auto.
Qed.

Lemma ps2_policy_holds root dry_run w :
  is_dir root w = true -> regular root w = true -> policy root dry_run w.
Proof.
  intros Hdir Honly. unfold policy.
  assert (forall iso, iso ∈ Ps2.iso_files root w ->
                      is_Some (files w !! iso) /\ iso ∉ dirs w) as Hentry.
  { intros iso Hin. by eapply regular_iso. }
  destruct (ps2_plan_all_spec w (Ps2.iso_files root w) (w, [])) as (wp & E & R & L).
  { cbn. apply reported_refl. }
  { intros iso Hin. by apply Hentry. }
  cbn in E, R. set (items := flat_map (planned_of w) (Ps2.iso_files root w)) in *.
  assert (forall it : Ps2.work_item, it ∈ items ->
            it.1.1 ∈ Ps2.iso_files root w /\
            (it.1.2 = it.1.1 \/ exists_ it.1.2 w = false)) as Hitems.
  { intros it Hin. apply ps2_planned_elem in Hin as [Hin Hit].
    split; [done|]. by apply ps2_planned_free in Hit as [_ H]. }
  pose proof (ps2_main_changes root dry_run w wp items Hdir E R) as Hrun.
  assert (changes_only (fun p => exists it : Ps2.work_item,
                                   it ∈ items /\ (p = it.1.1 \/ p = it.1.2))
                       wp (final (Ps2.main root dry_run w))) as Hch.
  { apply Hrun. intros it Hin. apply Hitems in Hin as [Hin _]. by apply Hentry. }
  clear Hrun.
  assert (forall p, is_Some (files w !! p) ->
            (forall it : Ps2.work_item, it ∈ items -> it.1.1 <> p) ->
            files (final (Ps2.main root dry_run w)) !! p = files w !! p) as Hkept.
  { intros p Hp Hsrc. destruct Hch as (_ & _ & Hf). destruct R as (<- & _ & _).
    apply Hf. intros (it & Hin & [->| ->]); [by apply (Hsrc it)|].
    destruct (Hitems it Hin) as [_ [Heq|Hfree]].
    - apply (Hsrc it Hin). by rewrite Heq.
    - assert (exists_ it.1.2 w = true) as Hex by (apply exists_elem; by left).
      congruence. }
  exists wp, items. split; [exact E|]. split; [|split; [|split]].
  - intros iso new_path code Hin Hprop. split.
    + intros Hex Hne.
      assert (forall it : Ps2.work_item, it ∈ items -> it.1.1 <> iso) as Hnot.
      { intros it Hit Heq. apply ps2_planned_elem in Hit as [_ Hit]. rewrite Heq in Hit.
        unfold planned_of in Hit. rewrite Hprop, Hex in Hit. cbn in Hit.
        rewrite bool_decide_eq_false_2 in Hit by done. by apply elem_of_nil in Hit. }
      split; [|split; [exact Hnot|]].
      * eapply changes_line; [exact Hch|]. by eapply L.
      * apply Hkept; [by apply Hentry | exact Hnot].
    + intros Hfree. apply (ps2_planned_elem w _ (iso, new_path, code)). cbn.
      split; [done|]. unfold planned_of. rewrite Hprop.
      destruct Hfree as [->|Hfree].
      * rewrite bool_decide_eq_true_2 by done. rewrite andb_false_r. by left.
      * rewrite Hfree. by left.
  - intros old new code Hin. by destruct (Hitems _ Hin) as [_ H].
  - exact Hkept.
  - destruct Hch as (-> & _). by destruct R as (_ & -> & _).
Qed.

End Ps2Policy.

(** ** The plan of script 02 *)
Module Ps1Plan.
Import Fs FsFacts FrameFacts.

(** The entry the loop adds for [bin], if it adds one. *)
Definition planned_of (w : world) (bin : path) : list Ps1.work_item :=
  match Ps1.proposal w bin with
  | Some (Some it) =>
      if Ps1.bin_conflict it w || Ps1.cue_conflict it w then [] else [it]
  | _ => []
  end.

Definition bin_conflict_line (bin new_bin : path) : text :=
  str "[WARN] Target BIN already exists (" ++ name new_bin ++ str "); skipping " ++
  name bin.

Definition cue_conflict_line (bin new_cue : path) : text :=
  str "[WARN] Target CUE already exists (" ++ name new_cue ++ str "); skipping " ++
  name bin.

(** The paths an entry of the plan is about. *)
Definition source_of (it : Ps1.work_item) (p : path) : Prop :=
  p = Ps1.bin_path it \/ Ps1.cue_path it = Some p.
Definition touched_by (it : Ps1.work_item) (p : path) : Prop :=
  source_of it p \/ p = Ps1.new_bin it \/ Ps1.new_cue it = Some p.

Lemma ps1_proposal_same w w' bin :
  files w' = files w -> dirs w' = dirs w ->
  Ps1.proposal w' bin = Ps1.proposal w bin.
Proof.
  intros Hf Hd. unfold Ps1.proposal, Ps1.cue_for_bin, read_bytes.
  by rewrite Hf, (exists_same _ w w' Hf Hd).
Qed.

Lemma bin_conflict_same w w' it :
  files w' = files w -> dirs w' = dirs w ->
  Ps1.bin_conflict it w' = Ps1.bin_conflict it w.
Proof. intros Hf Hd. unfold Ps1.bin_conflict. by rewrite (exists_same _ w w' Hf Hd). Qed.

Lemma cue_conflict_same w w' it :
  files w' = files w -> dirs w' = dirs w ->
  Ps1.cue_conflict it w' = Ps1.cue_conflict it w.
Proof.
  intros Hf Hd. unfold Ps1.cue_conflict.
  destruct (Ps1.new_cue it); [|done]. by rewrite (exists_same _ w w' Hf Hd).
Qed.

Lemma ps1_proposal_file w bin :
  is_Some (files w !! bin) -> Ps1.proposal w bin <> None.
Proof.
  intros [content E]. rewrite TemplateFacts.proposal1_eq.
  unfold TemplateFacts.proposal1, read_bytes. rewrite E.
  destruct (negb _); cbn; by destruct (negb _).
Qed.

(** What is proposed for [bin]: its cue file is the one beside it, if it is
    there, and the new paths are beside the old ones. *)
Lemma proposal_item w bin it :
  Ps1.proposal w bin = Some (Some it) ->
  Ps1.bin_path it = bin /\
  (forall c, Ps1.cue_path it = Some c ->
             c = with_suffix bin (str ".cue") /\ exists_ c w = true) /\
  (exists n, Ps1.new_bin it = with_name bin n) /\
  (forall nc, Ps1.new_cue it = Some nc ->
              exists c n, Ps1.cue_path it = Some c /\ nc = with_name c n).
Proof.
  rewrite TemplateFacts.proposal1_eq. unfold TemplateFacts.proposal1.
  destruct (if negb _ then _ else _) as [code_from_bin|]; [|done].
  destruct (negb (truthy _)); [done|]. intros [= <-]. cbn.
  split; [done|]. unfold Ps1.cue_for_bin. split; [|split].
  - intros c. destruct (exists_ _ w) eqn:He; [|done]. by intros [= <-].
  - by eexists.
  - intros nc. destruct (exists_ _ w); [|done]. cbn. intros [= <-]. by eexists _, _.
Qed.

(** One turn of the loop, read on the files as they were at the start. *)
Lemma ps1_plan_step_spec w st bin :
  reported w st.1 -> is_Some (files w !! bin) ->
  exists wp,
    Ps1.plan_step st bin = Some (wp, st.2 ++ planned_of w bin) /\
    reported st.1 wp /\
    forall it,
      Ps1.proposal w bin = Some (Some it) ->
      (Ps1.bin_conflict it w = true ->
       bin_conflict_line bin (Ps1.new_bin it) ∈ out wp) /\
      (Ps1.bin_conflict it w = false -> Ps1.cue_conflict it w = true ->
       cue_conflict_line bin (default [] (Ps1.new_cue it)) ∈ out wp).
Proof.
  intros (Hf & Hd & _) Hfile. unfold Ps1.plan_step, planned_of.
  rewrite (ps1_proposal_same w st.1 bin Hf Hd).
  destruct (Ps1.proposal w bin) as [[it|]|] eqn:E;
    [| | by apply ps1_proposal_file in E].
  - rewrite (bin_conflict_same w st.1 it Hf Hd), (cue_conflict_same w st.1 it Hf Hd).
    destruct (Ps1.bin_conflict it w) eqn:Cb; cbn.
    + eexists. split; [by rewrite app_nil_r|]. split; [auto with fs|].
      intros ? [= <-]. rewrite Cb. split; [intros _; apply print_line | done].
    + destruct (Ps1.cue_conflict it w) eqn:Cc.
      * eexists. split; [by rewrite app_nil_r|]. split; [auto with fs|].
        intros ? [= <-]. rewrite Cb, Cc. split; [done | intros _ _; apply print_line].
      * eexists. split; [done|]. split; [auto with fs|].
        intros ? [= <-]. rewrite Cb, Cc. done.
  - eexists. split; [by rewrite app_nil_r|]. split; [auto with fs|]. done.
Qed.

(** The planning loop. *)
Lemma ps1_plan_all_spec w bins : forall st,
  reported w st.1 -> (forall bin, bin ∈ bins -> is_Some (files w !! bin)) ->
  exists wp,
    Ps1.plan_all bins st = inl (wp, st.2 ++ flat_map (planned_of w) bins) /\
    reported st.1 wp /\
    forall bin it,
      bin ∈ bins -> Ps1.proposal w bin = Some (Some it) ->
      (Ps1.bin_conflict it w = true ->
       bin_conflict_line bin (Ps1.new_bin it) ∈ out wp) /\
      (Ps1.bin_conflict it w = false -> Ps1.cue_conflict it w = true ->
       cue_conflict_line bin (default [] (Ps1.new_cue it)) ∈ out wp).
Proof.
  induction bins as [|bin bins IH]; intros st Hst Hfiles; cbn.
  - exists st.1. split; [rewrite app_nil_r; by destruct st|].
    split; [auto with fs|]. intros ? ? H. by apply elem_of_nil in H.
  - destruct (ps1_plan_step_spec w st bin Hst) as (w1 & E1 & R1 & L1).
    { apply Hfiles. by left. }
    rewrite E1.
    destruct (IH (w1, st.2 ++ planned_of w bin)) as (wp & E & R & L).
    { cbn. by eapply reported_trans. }
    { intros ? ?. apply Hfiles. by right. }
    exists wp. cbn in E, R. split; [by rewrite E, app_assoc|].
    split; [by eapply reported_trans|].
    intros bin' it Hin Hp.
    apply elem_of_cons in Hin as [->|Hin]; [|by eapply L].
    destruct (L1 it Hp) as [Lb Lc].
    split; intros; (eapply reported_line; [exact R|]); auto.
Qed.

Lemma ps1_planned_elem w bins (it : Ps1.work_item) :
  it ∈ flat_map (planned_of w) bins <->
  Ps1.bin_path it ∈ bins /\ it ∈ planned_of w (Ps1.bin_path it).
Proof.
  rewrite list_elem_of_In, in_flat_map. split.
  - intros (bin & Hin & Hit). apply list_elem_of_In in Hin, Hit.
    assert (Ps1.bin_path it = bin) as ->; [|done].
    unfold planned_of in Hit.
    destruct (Ps1.proposal w bin) as [[it'|]|] eqn:E;
      [|by apply elem_of_nil in Hit..].
    destruct (_ || _); [by apply elem_of_nil in Hit|].
    apply list_elem_of_singleton in Hit as ->.
    by apply proposal_item in E as [-> _].
  - intros [Hin Hit]. exists (Ps1.bin_path it). by rewrite <- !list_elem_of_In.
Qed.

Section Apply.
Variable decode_utf8_replace : list byte -> list N.

Lemma update_cue_changes cue new_bin_name w w' changed :
  Ps1.update_cue_file decode_utf8_replace cue new_bin_name w = Some (w', changed) ->
  changes_only (fun p => p = cue) w w'.
Proof.
  unfold Ps1.update_cue_file. destruct (files w !! cue); [|done].
  destruct (existsb _ _); intros [= <- <-]; [|apply changes_refl].
  split; [done|]. split; [exists []; cbn; by rewrite app_nil_r|].
  intros p Hp. cbn. by rewrite lookup_insert_ne by (intros ->; by apply Hp).
Qed.

(** One turn of the loop over the plan changes the paths of its entry
    only. *)
Lemma apply_item_changes it w w' :
  (forall p, source_of it p -> p ∉ dirs w) ->
  Ps1.apply_item decode_utf8_replace it w = Some w' ->
  changes_only (touched_by it) w w'.
Proof.
  intros Hd. unfold Ps1.apply_item.
  match goal with
  | |- match ?u with _ => _ end = _ -> _ => set (updated := u)
  end.
  assert ((exists w1, changes_only (touched_by it) w w1 /\ updated = Some w1) \/
          updated = None) as Hup.
  { subst updated. destruct (Ps1.cue_path it) as [cue|] eqn:Ec.
    - destruct (Ps1.update_cue_file _ cue _ w) as [[w1 changed]|] eqn:Eu; [|by right].
      apply update_cue_changes in Eu.
      assert (changes_only (touched_by it) w w1) as C.
      { eapply changes_mono; [|exact Eu]. intros p ->. left. by right. }
      left. destruct changed; eexists; (split; [|reflexivity]); [done|].
      by apply changes_print.
    - left. exists w. split; [apply changes_refl | done]. }
  destruct Hup as [(w1 & C1 & ->) | ->]; [|done].
  destruct (rename (Ps1.bin_path it) (Ps1.new_bin it) w1) as [w2|] eqn:E2; [|done].
  apply rename_changes in E2;
    [|destruct C1 as (-> & _); apply Hd; by left].
  assert (changes_only (touched_by it) w w2) as C2.
  { eapply changes_trans; [exact C1|]. eapply changes_mono; [|exact E2].
    intros p [->| ->]; [left; by left | right; by left]. }
  destruct (Ps1.cue_path it) as [cue|] eqn:Ec.
  - destruct (Ps1.new_cue it) as [nc|] eqn:En.
    + destruct (rename cue nc w2) as [w3|] eqn:E3; [|done].
      intros [= <-]. apply changes_print.
      apply rename_changes in E3;
        [|destruct C2 as (-> & _); apply Hd; by right].
      eapply changes_trans; [exact C2|]. eapply changes_mono; [|exact E3].
      intros p [->| ->]; [left; by right | right; by right].
    + intros [= <-]. by apply changes_print.
  - intros [= <-]. by apply changes_print.
Qed.

Lemma apply_all_changes items : forall w,
  (forall it p, it ∈ items -> source_of it p -> p ∉ dirs w) ->
  changes_only (fun p => exists it, it ∈ items /\ touched_by it p)
               w (settled (Ps1.apply_all decode_utf8_replace items w)).
Proof.
  induction items as [|it items IH]; intros w Hd; cbn.
  - apply changes_refl.
  - destruct (Ps1.apply_item _ it w) as [w1|] eqn:E; [|apply changes_refl].
    apply apply_item_changes in E; [|intros p; apply Hd; by left].
    eapply changes_trans.
    + eapply changes_mono; [|exact E].
      intros p Hp. exists it. split; [by left | done].
    + eapply changes_mono; [|apply IH].
      * intros p (it' & Hin & Hp). exists it'. split; [by right | done].
      * intros it' p Hin. destruct E as (-> & _). apply Hd. by right.
Qed.

(** A run, from the completed plan. *)
Lemma ps1_main_changes root dry_run w wp items :
  is_dir root w = true ->
  Ps1.plan_all (Ps1.bin_files root w) (w, []) = inl (wp, items) ->
  reported w wp ->
  (forall it p, it ∈ items -> source_of it p -> p ∉ dirs w) ->
  changes_only (fun p => exists it, it ∈ items /\ touched_by it p)
               wp (final (Ps1.main decode_utf8_replace root dry_run w)).
Proof.
  intros Hdir E R Hd. unfold Ps1.main. rewrite Hdir. cbn [negb].
  destruct (Ps1.bin_files root w) as [|bin bins] eqn:Ebins.
  { cbn in E. injection E as <- <-. cbn. apply changes_print, changes_refl. }
  rewrite E. destruct items as [|it items].
  { cbn. apply changes_print, changes_refl. }
  destruct dry_run. { cbn. apply changes_print, changes_refl. }
  pose proof (apply_all_changes (it :: items) wp) as H.
  destruct (Ps1.apply_all _ (it :: items) wp) as [wf|wf]; cbn in H |- *.
  - apply changes_print, H. intros ? ? ? ?. destruct R as (_ & -> & _). by eapply Hd.
  - apply H. intros ? ? ? ?. destruct R as (_ & -> & _). by eapply Hd.
Qed.

End Apply.

End Ps1Plan.

(** ** The collision policy of script 02 *)
Module Ps1Policy.
Import Fs FsFacts FrameFacts Ps1Plan.

(** The images of the directory and their cue files are regular files. *)
Definition regular (root : path) (w : world) : bool :=
  forallb (fun bin =>
             is_file bin w &&
             match Ps1.cue_for_bin bin w with
             | Some cue => is_file cue w
             | None => true
             end)
          (Ps1.bin_files root w).

(** What a run of [main] on the directory [root] keeps to, with the plan
    [items] it draws up:
    - an image whose new path, or the new path of whose cue file, is there
      already and is another path is warned about, gets no entry in the plan
      and stays as it is;
    - an image without such a collision is planned, also when the new paths
      are the old ones;
    - so every planned rename goes to the path of the file itself or to a
      path that was free;
    - and a file that is not the image or the cue file of an entry of the
      plan is there, with what it held, when the run ends, however it
      ends. *)
Definition policy (decode_utf8_replace : list byte -> list N)
    (root : path) (dry_run : bool) (w : world) : Prop :=
  let o := Ps1.main decode_utf8_replace root dry_run w in
  exists wp items,
    Ps1.plan_all (Ps1.bin_files root w) (w, []) = inl (wp, items) /\
    (forall bin it,
       bin ∈ Ps1.bin_files root w ->
       Ps1.proposal w bin = Some (Some it) ->
       let skipped :=
         (forall it', it' ∈ items -> Ps1.bin_path it' <> bin) /\
         files (final o) !! bin = files w !! bin in
       (exists_ (Ps1.new_bin it) w = true -> Ps1.new_bin it <> bin ->
        bin_conflict_line bin (Ps1.new_bin it) ∈ out (final o) /\ skipped) /\
       (forall nc,
          Ps1.new_cue it = Some nc -> exists_ nc w = true ->
          Some nc <> Ps1.cue_path it ->
          (bin_conflict_line bin (Ps1.new_bin it) ∈ out (final o) \/
           cue_conflict_line bin nc ∈ out (final o)) /\ skipped) /\
       (Ps1.new_bin it = bin \/ exists_ (Ps1.new_bin it) w = false ->
        (forall nc, Ps1.new_cue it = Some nc ->
                    Some nc = Ps1.cue_path it \/ exists_ nc w = false) ->
        it ∈ items)) /\
    (forall it,
       it ∈ items ->
       (Ps1.new_bin it = Ps1.bin_path it \/ exists_ (Ps1.new_bin it) w = false) /\
       (forall nc, Ps1.new_cue it = Some nc ->
                   Some nc = Ps1.cue_path it \/ exists_ nc w = false)) /\
    (forall p,
       is_Some (files w !! p) ->
       (forall it, it ∈ items -> ~ source_of it p) ->
       files (final o) !! p = files w !! p) /\
    dirs (final o) = dirs w.

Lemma bin_conflict_true it w :
  Ps1.bin_conflict it w = true <->
  exists_ (Ps1.new_bin it) w = true /\ Ps1.new_bin it <> Ps1.bin_path it.
Proof.
  unfold Ps1.bin_conflict.
  by rewrite andb_true_iff, negb_true_iff, bool_decide_eq_false.
Qed.

Lemma cue_conflict_true it w :
  Ps1.cue_conflict it w = true <->
  exists nc, Ps1.new_cue it = Some nc /\ exists_ nc w = true /\
             Some nc <> Ps1.cue_path it.
Proof.
  unfold Ps1.cue_conflict. destruct (Ps1.new_cue it) as [nc|].
  - rewrite andb_true_iff, negb_true_iff, bool_decide_eq_false. split.
    + intros [? ?]. by exists nc.
    + by intros (? & [= <-] & ? & ?).
  - split; [done | by intros (? & ? & _)].
Qed.

Lemma bin_suffix root w bin :
  bin ∈ Ps1.bin_files root w -> Py.lower (suffix bin) = str ".bin".
Proof.
  unfold Ps1.bin_files. rewrite sorted_elem, list_elem_of_In, filter_In.
  intros [_ Hs]. by apply bool_decide_eq_true in Hs.
Qed.

Lemma regular_bin root w bin :
  regular root w = true -> bin ∈ Ps1.bin_files root w ->
  (is_Some (files w !! bin) /\ bin ∉ dirs w) /\
  forall cue, Ps1.cue_for_bin bin w = Some cue -> cue ∉ dirs w.
Proof.
  unfold regular. rewrite forallb_forall. intros H Hin.
  apply list_elem_of_In, H, andb_true_iff in Hin as [Hb Hc].
  split; [by apply is_file_elem|]. intros cue E. rewrite E in Hc.
  by apply is_file_elem in Hc as [_ ?].
Qed.

(** A name that ends with ".cue" has that suffix or none. *)
Lemma split_cue s :
  split_last_dot (s ++ str ".cue") = Some (s, str "cue").
Proof.
  induction s as [|c s IH]; [reflexivity|].
  cbn [app split_last_dot]. by rewrite IH.
Qed.

Lemma cue_is_no_bin bin :
  Py.lower (suffix (with_suffix bin (str ".cue"))) <> str ".bin".
Proof.
  unfold suffix, with_suffix. rewrite name_with_name.
  unfold suffix_of. rewrite split_cue. by destruct (stem bin).
Qed.

Lemma ps1_planned_free w it bin :
  it ∈ planned_of w bin ->
  (Ps1.new_bin it = Ps1.bin_path it \/ exists_ (Ps1.new_bin it) w = false) /\
  (forall nc, Ps1.new_cue it = Some nc ->
              Some nc = Ps1.cue_path it \/ exists_ nc w = false).
Proof.
  unfold planned_of.
  destruct (Ps1.proposal w bin) as [[it'|]|];
    [|intros H; by apply elem_of_nil in H..].
  destruct (Ps1.bin_conflict it' w) eqn:Cb; [intros H; by apply elem_of_nil in H|].
  destruct (Ps1.cue_conflict it' w) eqn:Cc; [intros H; by apply elem_of_nil in H|].
  cbn. intros ->%list_elem_of_singleton. split.
  - unfold Ps1.bin_conflict in Cb. destruct (exists_ _ w); [|by right].
    cbn in Cb. apply negb_false_iff, bool_decide_eq_true in Cb. by left.
  - intros nc Hnc. unfold Ps1.cue_conflict in Cc. rewrite Hnc in Cc.
    destruct (exists_ nc w); [|by right].
    cbn in Cc. apply negb_false_iff, bool_decide_eq_true in Cc. by left.
Qed.

Lemma ps1_policy_holds decode_utf8_replace root dry_run w :
  is_dir root w = true -> regular root w = true ->
  policy decode_utf8_replace root dry_run w.
Proof.
  intros Hdir Honly. unfold policy.
  assert (forall bin, bin ∈ Ps1.bin_files root w ->
                      is_Some (files w !! bin) /\ bin ∉ dirs w) as Hentry.
  { intros bin Hin. by eapply regular_bin. }
  destruct (ps1_plan_all_spec w (Ps1.bin_files root w) (w, [])) as (wp & E & R & L).
  { cbn. apply reported_refl. }
  { intros bin Hin. by apply Hentry. }
  cbn in E, R. set (items := flat_map (planned_of w) (Ps1.bin_files root w)) in *.
  assert (forall it, it ∈ items ->
            Ps1.bin_path it ∈ Ps1.bin_files root w /\
            Ps1.proposal w (Ps1.bin_path it) = Some (Some it) /\
            (Ps1.new_bin it = Ps1.bin_path it \/
             exists_ (Ps1.new_bin it) w = false) /\
            (forall nc, Ps1.new_cue it = Some nc ->
                        Some nc = Ps1.cue_path it \/ exists_ nc w = false))
    as Hitems.
  { intros it Hin. apply ps1_planned_elem in Hin as [Hin Hit].
    split; [done|]. split; [|by eapply ps1_planned_free].
    unfold planned_of in Hit.
    destruct (Ps1.proposal w (Ps1.bin_path it)) as [[it'|]|];
      [|by apply elem_of_nil in Hit..].
    destruct (_ || _); [by apply elem_of_nil in Hit|].
    by apply list_elem_of_singleton in Hit as ->. }
  assert (forall it p, it ∈ items -> source_of it p ->
            (p ∉ dirs w) /\
            (p = Ps1.bin_path it \/
             p = with_suffix (Ps1.bin_path it) (str ".cue"))) as Hsource.
  { intros it p Hin Hp. destruct (Hitems it Hin) as (Hbin & Hprop & _).
    destruct (regular_bin root w _ Honly Hbin) as [[_ Hnd] Hcd].
    destruct Hp as [->|Hc]; [by auto|].
    apply proposal_item in Hprop as (_ & Hcue & _).
    destruct (Hcue p Hc) as [-> Hex]. split; [|by right].
    apply Hcd. unfold Ps1.cue_for_bin. by rewrite Hex. }
  pose proof (ps1_main_changes decode_utf8_replace root dry_run w wp items Hdir E R)
    as Hrun.
  assert (changes_only (fun p => exists it, it ∈ items /\ touched_by it p)
                       wp (final (Ps1.main decode_utf8_replace root dry_run w)))
    as Hch.
  { apply Hrun. intros it p Hin Hp. by destruct (Hsource it p Hin Hp) as [? _]. }
  clear Hrun.
  assert (forall p, is_Some (files w !! p) ->
            (forall it, it ∈ items -> ~ source_of it p) ->
            files (final (Ps1.main decode_utf8_replace root dry_run w)) !! p =
            files w !! p) as Hkept.
  { intros p Hp Hsrc. destruct Hch as (_ & _ & Hf). destruct R as (<- & _ & _).
    assert (exists_ p w = true) as Hex by (apply exists_elem; by left).
    apply Hf. intros (it & Hin & [Hs | [-> | Hnc]]); [by apply (Hsrc it)| |].
    - destruct (Hitems it Hin) as (_ & _ & [Heq|Hfree] & _); [|congruence].
      apply (Hsrc it Hin). left. done.
    - destruct (Hitems it Hin) as (_ & _ & _ & Hc).
      destruct (Hc p Hnc) as [Heq|Hfree]; [|congruence].
      apply (Hsrc it Hin). by right. }
  assert (forall bin it,
            bin ∈ Ps1.bin_files root w ->
            Ps1.proposal w bin = Some (Some it) ->
            Ps1.bin_conflict it w || Ps1.cue_conflict it w = true ->
            (forall it', it' ∈ items -> Ps1.bin_path it' <> bin) /\
            files (final (Ps1.main decode_utf8_replace root dry_run w)) !! bin =
            files w !! bin) as Hskip.
  { intros bin it Hin Hprop Hc.
    assert (forall it', it' ∈ items -> Ps1.bin_path it' <> bin) as Hnot.
    { intros it' Hit Heq. apply ps1_planned_elem in Hit as [_ Hit]. rewrite Heq in Hit.
      unfold planned_of in Hit. rewrite Hprop, Hc in Hit.
      by apply elem_of_nil in Hit. }
    split; [exact Hnot|]. apply Hkept; [by apply Hentry|].
    intros it' Hit Hs. destruct (Hsource it' bin Hit Hs) as [_ [->| Hcue]].
    - by apply (Hnot it' Hit).
    - apply bin_suffix in Hin as Hsuffix. rewrite Hcue in Hsuffix.
      by apply cue_is_no_bin in Hsuffix. }
  exists wp, items. split; [exact E|]. split; [|split; [|split]].
  - intros bin it Hin Hprop.
    pose proof (proposal_item w bin it Hprop) as (Hbin & _).
    destruct (L bin it Hin Hprop) as [Lb Lc]. cbn zeta. split; [|split].
    + intros Hex Hne.
      assert (Ps1.bin_conflict it w = true) as Cb.
      { apply bin_conflict_true. by rewrite Hbin. }
      split; [eapply changes_line; [exact Hch | by apply Lb]|].
      apply (Hskip bin it Hin Hprop). by rewrite Cb.
    + intros nc Hnc Hex Hne.
      assert (Ps1.cue_conflict it w = true) as Cc.
      { apply cue_conflict_true. by exists nc. }
      split; [|apply (Hskip bin it Hin Hprop); by rewrite Cc, orb_true_r].
      destruct (Ps1.bin_conflict it w) eqn:Cb.
      * left. eapply changes_line; [exact Hch | by apply Lb].
      * right. eapply changes_line; [exact Hch|].
        specialize (Lc eq_refl Cc). by rewrite Hnc in Lc.
    + intros Hfree Hcfree. apply (ps1_planned_elem w _ it). rewrite Hbin.
      split; [done|]. unfold planned_of. rewrite Hprop.
      assert (Ps1.bin_conflict it w = false) as ->.
      { apply not_true_is_false. intros [Hex Hne]%bin_conflict_true.
        rewrite Hbin in Hne. destruct Hfree; congruence. }
      assert (Ps1.cue_conflict it w = false) as ->.
      { apply not_true_is_false. intros (nc & Hnc & Hex & Hne)%cue_conflict_true.
        destruct (Hcfree nc Hnc); congruence. }
      by left.
  - intros it Hin. by destruct (Hitems it Hin) as (_ & _ & ? & ?).
  - exact Hkept.
  - destruct Hch as (-> & _). by destruct R as (_ & -> & _).
Qed.

End Ps1Policy.

(** ** A directory of images *)
Module Shelf.
Import Fs.

Definition root : path := [str "roms"].

(** Two images of script 02 whose code is in the data, one of them with its
    new name taken; one image named with its code already; the same for
    script 04; and a directory beside them. *)
Definition shelf : world :=
  World (list_to_map [
    (root ++ [str "Crash.bin"], bytes_of "....SCUS_949.00;1....");
    (root ++ [str "Crash.cue"], bytes_of "FILE Crash.bin BINARY");
    (root ++ [str "Crash [SCUS-94900].bin"], bytes_of "another image");
    (root ++ [str "Tekken.bin"], bytes_of "BOOT=cdrom:\SLUS_004.02;1");
    (root ++ [str "Tekken.cue"], bytes_of "REM no FILE line");
    (root ++ [str "Spyro [scus_942.28].bin"], bytes_of "spyro");
    (root ++ [str "Ico.iso"], bytes_of "BOOT2 = cdrom0:\SCUS_971.13;1");
    (root ++ [str "Ico [SCUS-97113].iso"], bytes_of "another iso");
    (root ++ [str "Okami.iso"], bytes_of "BOOT2 = cdrom0:\SLUS_214.10;1")])
    {[ root; root ++ [str "saves"] ]} [].

(** A decoder for cue files in ASCII. *)
Definition decode_ascii (bs : list byte) : list N := map Re.code_b bs.

(** Two images that get the same new name. *)
Definition twins : world :=
  World (list_to_map [
    (root ++ [str "Ico.iso"], bytes_of "first SCUS_971.13");
    (root ++ [str "Ico .iso"], bytes_of "second SCUS_971.13")])
    {[ root ]} [].

Definition listing (w : world) : list (text * list byte) :=
  merge_sort (fun a b => text_le a.1 b.1)
             (map (fun kv => (name kv.1, kv.2)) (map_to_list (files w))).

End Shelf.

Module ShelfFacts.
Import Fs Shelf.

(** Script 04 on the shelf: [Ico.iso] is warned about and stays, the file
    that has its new name keeps what it holds, [Okami.iso] is renamed. *)
Example ps2_on_the_shelf :
  let o := Ps2.main root false shelf in
  out (final o) =
    [str "[PLAN] Ico [SCUS-97113].iso -> Ico [SCUS-97113].iso";
     str "[WARN] Target already exists (Ico [SCUS-97113].iso); skipping Ico.iso";
     str "[PLAN] Okami.iso -> Okami [SLUS-21410].iso";
     str "[DONE] Ico [SCUS-97113].iso -> Ico [SCUS-97113].iso [SCUS-97113]";
     str "[DONE] Okami.iso -> Okami [SLUS-21410].iso [SLUS-21410]";
     str "[INFO] Renamed 2 ISO(s)."] /\
  files (final o) !! (root ++ [str "Ico.iso"]) =
    Some (bytes_of "BOOT2 = cdrom0:\SCUS_971.13;1") /\
  files (final o) !! (root ++ [str "Ico [SCUS-97113].iso"]) =
    Some (bytes_of "another iso") /\
  files (final o) !! (root ++ [str "Okami.iso"]) = None /\
  files (final o) !! (root ++ [str "Okami [SLUS-21410].iso"]) =
    Some (bytes_of "BOOT2 = cdrom0:\SLUS_214.10;1").
Proof. vm_compute. repeat split; reflexivity. Qed.

(** Script 02 on the shelf. *)
Example ps1_on_the_shelf :
  let o := Ps1.main decode_ascii root false shelf in
  out (final o) =
    [str "[PLAN] Crash [SCUS-94900].bin -> Crash [SCUS-94900].bin";
     str "[WARN] Target BIN already exists (Crash [SCUS-94900].bin); skipping Crash.bin";
     str "[PLAN] Spyro [scus_942.28].bin -> Spyro [SCUS-94228].bin";
     str "[PLAN] Tekken.bin -> Tekken [SLUS-00402].bin";
     str "[DONE] Crash [SCUS-94900].bin -> Crash [SCUS-94900].bin [SCUS-94900]";
     str "[DONE] Spyro [scus_942.28].bin -> Spyro [SCUS-94228].bin [SCUS-94228]";
     str "[WARN] No FILE line updated in Tekken.cue; check manually";
     str "[DONE] Tekken.bin -> Tekken [SLUS-00402].bin [SLUS-00402]";
     str "[INFO] Renamed 3 BIN/CUE pair(s)."] /\
  files (final o) !! (root ++ [str "Crash.bin"]) =
    Some (bytes_of "....SCUS_949.00;1....") /\
  files (final o) !! (root ++ [str "Crash [SCUS-94900].bin"]) =
    Some (bytes_of "another image") /\
  files (final o) !! (root ++ [str "Tekken [SLUS-00402].cue"]) =
    Some (bytes_of "REM no FILE line").
Proof. vm_compute. repeat split; reflexivity. Qed.

(** Two images with one new name: when the plan is drawn up neither is in
    the way of the other, and the second rename replaces the file that the
    first one made.  The policy is about the files that are there when the
    plan is made. *)
Example ps2_twins :
  let o := Ps2.main root false twins in
  out (final o) =
    [str "[PLAN] Ico .iso -> Ico [SCUS-97113].iso";
     str "[PLAN] Ico.iso -> Ico [SCUS-97113].iso";
     str "[DONE] Ico .iso -> Ico [SCUS-97113].iso [SCUS-97113]";
     str "[DONE] Ico.iso -> Ico [SCUS-97113].iso [SCUS-97113]";
     str "[INFO] Renamed 2 ISO(s)."] /\
  listing (final o) =
    [(str "Ico [SCUS-97113].iso", bytes_of "first SCUS_971.13")].
Proof. vm_compute. repeat split; reflexivity. Qed.

End ShelfFacts.



(** * Further properties of the scripts *)

(** ** The scan of an image *)
Module ScanMore.
Import Re ScanSpec ScanFacts.

(** Only the part of the file below the cap is cut into blocks. *)
Lemma chunks_take size n content :
  chunks size n (take (n * size) content) = chunks size n content.
Proof.
  unfold chunks. apply map_ext_in. intros k Hk%in_seq. unfold chunk.
  rewrite !take_drop_commute, take_take. do 2 f_equal.
  destruct Hk as [_ Hk]. cbn in Hk. nia.
Qed.

(** A file of one block. *)
Lemma chunks_short size n content :
  (length content <= size)%nat ->
  chunks size (S n) content = content :: replicate n [].
Proof.
  intros Hlen. rewrite chunks_S, take_ge, drop_ge by lia. by rewrite chunks_nil.
Qed.

Lemma first_match_short r size n content :
  search code_b r [] = None -> (length content <= size)%nat ->
  first_match r (chunks size (S n) content) =
  matched <$> search code_b r content.
Proof.
  intros Hnil Hlen. rewrite chunks_short by done. cbn [first_match].
  destruct (search code_b r content); [done|].
  by apply first_match_none, Forall_replicate.
Qed.

End ScanMore.

(** X1.  The scan never depends on what lies behind the first 64 MiB of the
    file: [find_disc_code] (of script 02 and of script 04) gives on a file
    what it gives on its first [MAX_SCAN] bytes. *)
Theorem X1_scan_stops_at_cap (content : list byte) :
  Ps1.find_disc_code content = Ps1.find_disc_code (take Ps1.MAX_SCAN content) /\
  Ps2.find_disc_code content = Ps2.find_disc_code (take Ps2.MAX_SCAN content).
Proof.
  rewrite !ScanClaims.ps1_find, !ScanClaims.ps2_find.
  rewrite ScanFacts.ps1_cap, ScanFacts.ps2_cap.
  by rewrite !ScanMore.chunks_take.
Qed.

(** X2.  On a file of at most one block (4 MiB) the scan is exact:
    [find_disc_code] returns the normal form of the leftmost match of the
    pattern in the file, and nothing when the file has no match. *)
Theorem X2_scan_of_a_small_file (content : list byte) :
  (length content <= Ps1.READ_CHUNK)%nat ->
  Ps1.find_disc_code content =
    (fun f => Ps1.normalize_code (Scan.decode_ascii_ignore (Re.matched f))) <$>
    Re.search Re.code_b Ps1.ID_BYTES_RE content /\
  Ps2.find_disc_code content =
    (fun f => Ps2.normalize_code (Scan.decode_ascii_ignore (Re.matched f))) <$>
    Re.search Re.code_b Ps2.ID_BYTES_RE content.
Proof.
  intros Hlen. rewrite ScanClaims.ps1_find, ScanClaims.ps2_find.
  rewrite !ScanMore.first_match_short;
    [|exact ScanFacts.ps2_no_empty|exact Hlen|exact ScanFacts.ps1_no_empty|exact Hlen].
  split; by destruct (Re.search _ _ content).
Qed.

(** An image with its code in the second line. *)
Lemma X2_small_file_witness :
  Ps1.find_disc_code (bytes_of "BOOT = cdrom:\SLUS_005.94;1") =
    Some (str "SLUS-00594") /\
  Ps2.find_disc_code (bytes_of "BOOT = cdrom:\SLUS_005.94;1") =
    Some (str "SLUS-00594").
Proof.
  destruct (X2_scan_of_a_small_file (bytes_of "BOOT = cdrom:\SLUS_005.94;1"))
    as [H1 H2].
  - assert (length (bytes_of "BOOT = cdrom:\SLUS_005.94;1") = 27%nat) as ->
      by reflexivity.
    unfold Ps1.READ_CHUNK. lia.
  - rewrite H1, H2. split; vm_compute; reflexivity.
Defined.

(** ** Codes in normal form *)
Module NormalForm.
Import NormalizeSpec.

(** A character of a normalised code: no underscore, no dot, no small
    letter. *)
Definition clean (c : ascii) : Prop :=
  c <> "_"%char /\ c <> "."%char /\ Chars.upper c = c.

Lemma normalize_cons c raw :
  normalize (c :: raw) =
  (if bool_decide (c = "."%char) then [] else [Chars.upper (hyphenate c)]) ++
  normalize raw.
Proof.
  unfold normalize. cbn [map List.filter]. unfold not_dot at 1.
  destruct (decide (c = "_"%char)) as [->|Hu]; [done|].
  rewrite (hyphenate_other c Hu). by case_bool_decide.
Qed.

Lemma normalize_app a b : normalize (a ++ b) = normalize a ++ normalize b.
Proof. unfold normalize. by rewrite map_app, List.filter_app, map_app. Qed.

Lemma upper_clean c : c <> "."%char -> clean (Chars.upper (hyphenate c)).
Proof.
  intros Hd. destruct c as [[] [] [] [] [] [] [] []];
    solve [done | by repeat split].
Qed.

Lemma normalize_is_clean raw : Forall clean (normalize raw).
Proof.
  induction raw as [|c raw IH]; [by constructor|].
  rewrite normalize_cons. case_bool_decide; [done|].
  constructor; [by apply upper_clean | done].
Qed.

Lemma normalize_of_clean s : Forall clean s -> normalize s = s.
Proof.
  induction 1 as [|c s (Hu & Hd & Hup) _ IH]; [done|].
  rewrite normalize_cons, IH, bool_decide_eq_false_2 by done.
  by rewrite (hyphenate_other c Hu), Hup.
Qed.

End NormalForm.

(** X3.  [normalize_code] (of script 02 and of script 04) gives a normal
    form: its result has no underscore, no dot and no small letter, and
    normalising it again changes nothing. *)
Theorem X3_normalize_code_normal_form (raw : text) :
  Forall NormalForm.clean (Ps1.normalize_code raw) /\
  Ps1.normalize_code (Ps1.normalize_code raw) = Ps1.normalize_code raw /\
  Forall NormalForm.clean (Ps2.normalize_code raw) /\
  Ps2.normalize_code (Ps2.normalize_code raw) = Ps2.normalize_code raw.
Proof.
  rewrite ?NormalizeSpec.ps1_normalize, ?NormalizeSpec.ps2_normalize.
  pose proof (NormalForm.normalize_is_clean raw) as H.
  by rewrite (NormalForm.normalize_of_clean _ H).
Qed.

(** ** What a pattern can match *)
Module ReLang.
Import Re ReTheory ReFirst.

Section Lang.
Context {A : Type} (code : A -> N).

(** The texts of the pattern [r]. *)
Fixpoint lang (r : Re.t) (m : list A) : Prop :=
  match r with
  | Chr p => exists c, m = [c] /\ p (code c) = true
  | Rep _ p lo hi =>
      Forall (fun c => p (code c) = true) m /\ (lo <= length m)%nat /\
      fits (length m) hi
  | Opt r1 => m = [] \/ lang r1 m
  | Cat r1 r2 => exists m1 m2, m = m1 ++ m2 /\ lang r1 m1 /\ lang r2 m2
  | Eps | Eos => m = []
  end.

Lemma rep_sound g p : forall s lo hi x,
  x ∈ rep code g p lo hi s ->
  Forall (fun c => p (code c) = true) x.1 /\ (lo <= length x.1)%nat /\
  fits (length x.1) hi.
Proof.
  induction s as [|a s IH]; intros lo hi x Hx; cbn [rep] in Hx.
  - assert (x ∈ match lo with O => [([], @nil A)] | S _ => [] end) as H
      by (destruct g; set_solver).
    destruct lo; [|set_solver]. apply list_elem_of_singleton in H as ->.
    cbn. repeat split; [done | lia | destruct hi; cbn; lia].
  - assert (x ∈ match lo with O => [([], a :: s)] | S _ => [] end \/
            x ∈ (if p (code a) && room hi
                 then map (consume a) (rep code g p (Nat.pred lo) (less hi) s)
                 else [])) as [H|H]
      by (destruct g; set_solver).
    + destruct lo; [|set_solver]. apply list_elem_of_singleton in H as ->.
      cbn. repeat split; [done | lia | destruct hi; cbn; lia].
    + destruct (p (code a)) eqn:Ha; [|set_solver].
      destruct (room hi) eqn:Hr; [|set_solver]. cbn in H.
      apply list_elem_of_fmap in H as (y & -> & Hy).
      apply IH in Hy as (Hall & Hlo & Hhi). cbn.
      split; [by constructor|]. split; [lia|].
      destruct hi as [[|h]|]; cbn in *; [done | lia | done].
Qed.

(** Every run of the matcher consumes a text of the pattern. *)
Lemma runs_sound r : forall s x, x ∈ runs code r s -> lang r x.1.
Proof.
  induction r as [p|g p lo hi|r IH|r1 IH1 r2 IH2| |]; intros s x Hx;
    cbn [runs lang] in *.
  - destruct s as [|c s]; [set_solver|].
    destruct (p (code c)) eqn:Hc; [|set_solver].
    apply list_elem_of_singleton in Hx as ->. by exists c.
  - by eapply rep_sound.
  - apply elem_of_app in Hx as [Hx|Hx]; [right; by eapply IH|].
    apply list_elem_of_singleton in Hx as ->. by left.
  - apply list_elem_of_In, in_flat_map in Hx as (y & Hy & Hx).
    apply list_elem_of_In in Hy, Hx.
    apply list_elem_of_fmap in Hx as (z & -> & Hz).
    exists y.1, z.1. split; [done|]. split; [by eapply IH1 | by eapply IH2].
  - by apply list_elem_of_singleton in Hx as ->.
  - destruct (at_end code s); [|set_solver].
    by apply list_elem_of_singleton in Hx as ->.
Qed.

Lemma match_here_sound r s x : match_here code r s = Some x -> lang r x.1.
Proof.
  unfold match_here. intros H. apply (runs_sound r s).
  destruct (runs code r s); [done|]. injection H as ->. by left.
Qed.

Lemma search_sound r : forall s f, search code r s = Some f -> lang r (matched f).
Proof.
  induction s as [|c s IH]; intros f; cbn [search];
    destruct (match_here code r _) as [x|] eqn:E.
  - intros [= <-]. by eapply match_here_sound.
  - done.
  - intros [= <-]. by eapply match_here_sound.
  - destruct (search code r s) as [f'|]; [|done]. cbn. intros [= <-]. cbn.
    by apply IH.
Qed.

(** The characters of a text of the pattern are characters of its
    classes. *)
Lemma lang_accepts r : forall m,
  lang r m -> Forall (fun c => accepts r (code c) = true) m.
Proof.
  induction r as [p|g p lo hi|r IH|r1 IH1 r2 IH2| |]; intros m; cbn [lang accepts].
  - intros (c & -> & Hc). by constructor.
  - by intros (H & _).
  - intros [->|H]; [done | by apply IH].
  - intros (m1 & m2 & -> & H1 & H2). apply Forall_app. split.
    + eapply Forall_impl; [by apply IH1|]. cbn. by intros c ->.
    + eapply Forall_impl; [by apply IH2|]. cbn. intros c ->. by rewrite orb_true_r.
  - by intros ->.
  - by intros ->.
Qed.

End Lang.

(** The same texts, read through a translation of the characters. *)
Lemma lang_map {A B : Type} (f : A -> B) (codeA : A -> N) (codeB : B -> N) r :
  (forall a, codeB (f a) = codeA a) ->
  forall m, lang codeA r m -> lang codeB r (map f m).
Proof.
  intros Hf.
  induction r as [p|g p lo hi|r IH|r1 IH1 r2 IH2| |]; intros m; cbn [lang].
  - intros (c & -> & Hc). exists (f c). by rewrite Hf.
  - intros (H & Hlo & Hhi). rewrite length_map. split; [|done].
    apply Forall_fmap. eapply Forall_impl; [exact H|]. cbn. intros a.
    by rewrite Hf.
  - intros [->|H]; [by left | right; by apply IH].
  - intros (m1 & m2 & -> & H1 & H2). exists (map f m1), (map f m2).
    rewrite map_app. auto.
  - by intros ->.
  - by intros ->.
Qed.

(** A pattern of the same build with wider classes. *)
Fixpoint wider (r r' : Re.t) : Prop :=
  match r, r' with
  | Chr p, Chr q => forall n, p n = true -> q n = true
  | Rep _ p lo hi, Rep _ q lo' hi' =>
      (forall n, p n = true -> q n = true) /\ lo = lo' /\ hi = hi'
  | Opt r1, Opt r1' => wider r1 r1'
  | Cat r1 r2, Cat r1' r2' => wider r1 r1' /\ wider r2 r2'
  | Eps, Eps | Eos, Eos => True
  | _, _ => False
  end.

Lemma lang_wider {A : Type} (code : A -> N) r : forall r' m,
  wider r r' -> lang code r m -> lang code r' m.
Proof.
  induction r as [p|g p lo hi|r IH|r1 IH1 r2 IH2| |];
    intros [q|g' q lo' hi'|r'|r1' r2'| |] m; cbn [wider lang]; try done.
  - intros Hw (c & -> & Hc). exists c. auto.
  - intros (Hw & <- & <-) (H & Hlo & Hhi). split; [|done].
    eapply Forall_impl; [exact H|]. cbn. auto.
  - intros Hw [->|H]; [by left | right; by eapply IH].
  - intros [Hw1 Hw2] (m1 & m2 & -> & H1 & H2). exists m1, m2.
    split; [done|]. split; [by eapply IH1 | by eapply IH2].
Qed.

End ReLang.

(** ** The form of the codes the scripts work with *)
Module CodeShape.
Import Chars Re ReTheory ReLang NormalizeSpec NormalForm CodeFacts.

(** A code of script 02: S, then L or C, then two or three capital letters,
    a hyphen, three to seven digits. *)
Definition ps1_code (code : text) : Prop :=
  exists l p d, code = "S"%char :: l :: p ++ "-"%char :: d /\
    (l = "L"%char \/ l = "C"%char) /\
    (2 <= length p <= 3)%nat /\ Forall is_AZ p /\
    (3 <= length d <= 7)%nat /\ Forall is_digit d.

(** A code of script 04: four or five capital letters, a hyphen, three to
    seven digits. *)
Definition ps2_code (code : text) : Prop :=
  exists p d, code = p ++ "-"%char :: d /\
    (4 <= length p <= 5)%nat /\ Forall is_AZ p /\
    (3 <= length d <= 7)%nat /\ Forall is_digit d.

(** The normal form of one character of each class of the patterns. *)
Lemma norm_S c :
  ci (lit "S") (code_s c) = true -> normalize [c] = ["S"%char].
Proof.
  destruct c as [[] [] [] [] [] [] [] []]; intros H; vm_compute in H;
    solve [discriminate H | reflexivity].
Qed.

Lemma norm_LC c :
  ci (oneof "LC") (code_s c) = true ->
  exists l, normalize [c] = [l] /\ (l = "L"%char \/ l = "C"%char).
Proof.
  destruct c as [[] [] [] [] [] [] [] []]; intros H; vm_compute in H;
    solve [discriminate H | eexists; split; [reflexivity|]; auto].
Qed.

Lemma norm_letter c :
  ci upper_AZ (code_s c) = true -> exists c', normalize [c] = [c'] /\ is_AZ c'.
Proof.
  destruct c as [[] [] [] [] [] [] [] []]; intros H; vm_compute in H;
    solve [discriminate H | eexists; split; reflexivity].
Qed.

Lemma norm_digit c :
  ci digit (code_s c) = true -> normalize [c] = [c] /\ is_digit c.
Proof.
  destruct c as [[] [] [] [] [] [] [] []]; intros H; vm_compute in H;
    solve [discriminate H | split; reflexivity].
Qed.

Lemma norm_sep c :
  ci (oneof "-_") (code_s c) = true -> normalize [c] = ["-"%char].
Proof.
  destruct c as [[] [] [] [] [] [] [] []]; intros H; vm_compute in H;
    solve [discriminate H | reflexivity].
Qed.

Lemma norm_dot c : ci (lit ".") (code_s c) = true -> normalize [c] = [].
Proof.
  destruct c as [[] [] [] [] [] [] [] []]; intros H; vm_compute in H;
    solve [discriminate H | reflexivity].
Qed.

Lemma norm_letters u :
  Forall (fun c => ci upper_AZ (code_s c) = true) u ->
  exists u', normalize u = u' /\ length u' = length u /\ Forall is_AZ u'.
Proof.
  induction 1 as [|c u Hc _ (u' & Hu & Hlen & HAZ)]; [by exists []|].
  apply norm_letter in Hc as (c' & Hc & Hc').
  exists (c' :: u'). change (c :: u) with ([c] ++ u).
  rewrite normalize_app, Hc, Hu. cbn. split; [done|]. split; [lia|].
  by constructor.
Qed.

Lemma norm_digits d :
  Forall (fun c => ci digit (code_s c) = true) d ->
  normalize d = d /\ Forall is_digit d.
Proof.
  induction 1 as [|c d Hc _ [Hd Hdig]]; [done|].
  apply norm_digit in Hc as [Hc Hc'].
  change (c :: d) with ([c] ++ d). rewrite normalize_app, Hc, Hd.
  split; [done | by constructor].
Qed.

(** The tail of the patterns: separator, digits, and the optional dot and
    two digits. *)
Lemma tail_shape m :
  lang code_s tail_re m ->
  exists d, normalize m = "-"%char :: d /\
            (3 <= length d <= 7)%nat /\ Forall is_digit d.
Proof.
  unfold tail_re, cat, times. cbn [foldr lang].
  intros (m1 & m2 & -> & (c & -> & Hc) & m3 & m4 & -> & (Hd & Hlo & Hhi) &
          m5 & m6 & -> & Ht & ->).
  apply norm_sep in Hc. apply norm_digits in Hd as [Hd Hdig].
  rewrite !normalize_app, Hc, Hd, app_nil_r. cbn in Hhi.
  destruct Ht as [->|(m7 & m8 & -> & (c' & -> & Hdot) & m9 & m10 & -> &
                      (Hd2 & Hlo2 & Hhi2) & ->)].
  - exists m3. rewrite app_nil_r. repeat split; [lia | lia | done].
  - apply norm_dot in Hdot. apply norm_digits in Hd2 as [Hd2 Hdig2].
    rewrite !normalize_app, Hdot, Hd2, app_nil_r. cbn in Hhi2.
    exists (m3 ++ m9). rewrite length_app.
    repeat split; [lia | lia | by apply Forall_app].
Qed.

Lemma ps2_name_shape raw :
  lang code_s Ps2.NAME_CODE_RE raw -> ps2_code (normalize raw).
Proof.
  change Ps2.NAME_CODE_RE with (Cat (times (ci upper_AZ) 4 5) tail_re).
  unfold times. cbn [lang].
  intros (m1 & m2 & -> & (Hp & Hlo & Hhi) & Ht). cbn in Hhi.
  apply norm_letters in Hp as (p & Hp & Hlen & HAZ).
  apply tail_shape in Ht as (d & Hd & Hdlen & Hdig).
  exists p, d. rewrite normalize_app, Hp, Hd.
  repeat split; [lia | lia | done | lia | lia | done].
Qed.

Lemma ps1_name_shape raw :
  lang code_s Ps1.NAME_CODE_RE raw -> ps1_code (normalize raw).
Proof.
  change Ps1.NAME_CODE_RE with
    (Cat (Chr (ci (lit "S"))) (Cat (Chr (ci (oneof "LC")))
      (Cat (times (ci upper_AZ) 2 2) (Cat (Opt (Chr (ci upper_AZ))) tail_re)))).
  unfold times. cbn [lang].
  intros (m1 & m2 & -> & (c1 & -> & H1) & m3 & m4 & -> & (c2 & -> & H2) &
          m5 & m6 & -> & (Hp & Hlo & Hhi) & m7 & m8 & -> & Ho & Ht).
  cbn in Hhi. apply norm_S in H1. apply norm_LC in H2 as (l & H2 & Hl).
  apply norm_letters in Hp as (p & Hp & Hlen & HAZ).
  apply tail_shape in Ht as (d & Hd & Hdlen & Hdig).
  rewrite !normalize_app, H1, H2, Hp, Hd.
  destruct Ho as [->|(c & -> & Hc)].
  - exists l, p, d. change (normalize []) with (@nil ascii). cbn [app].
    repeat split; [done | lia | lia | done | lia | lia | done].
  - apply norm_letter in Hc as (c' & Hc & Hc'). rewrite Hc.
    exists l, (p ++ [c']), d. cbn [app]. rewrite <- !app_assoc. cbn [app].
    rewrite length_app. cbn [length].
    repeat split; [done | lia | lia | | lia | lia | done].
    apply Forall_app. split; [done | by constructor].
Qed.

(** *** From bytes to text *)

Lemma code_of_byte b : code_s (ascii_of_byte b) = code_b b.
Proof. by destruct b. Qed.

Lemma ps1_byte_ascii b :
  accepts Ps1.ID_BYTES_RE (code_b b) = true -> (Byte.to_N b <? 128)%N = true.
Proof. destruct b; intros H; vm_compute in H; solve [discriminate H | reflexivity]. Qed.

Lemma ps2_byte_ascii b :
  accepts Ps2.ID_BYTES_RE (code_b b) = true -> (Byte.to_N b <? 128)%N = true.
Proof. destruct b; intros H; vm_compute in H; solve [discriminate H | reflexivity]. Qed.

Lemma decode_all m :
  Forall (fun b => (Byte.to_N b <? 128)%N = true) m ->
  Scan.decode_ascii_ignore m = map ascii_of_byte m.
Proof.
  intros H. unfold Scan.decode_ascii_ignore. f_equal.
  induction H as [|b m Hb _ IH]; [done|]. cbn. by rewrite Hb, IH.
Qed.

Lemma ps1_wider : wider Ps1.ID_BYTES_RE Ps1.NAME_CODE_RE.
Proof.
  unfold Ps1.ID_BYTES_RE, Ps1.NAME_CODE_RE, cat, times. cbn [foldr wider].
  repeat split; try done; intros n; apply ci_intro.
Qed.

Lemma ps2_wider : wider Ps2.ID_BYTES_RE Ps2.NAME_CODE_RE.
Proof.
  unfold Ps2.ID_BYTES_RE, Ps2.NAME_CODE_RE, cat, times. cbn [foldr wider].
  repeat split; try done; intros n; apply ci_intro.
Qed.

Lemma ps1_match_shape m :
  lang code_b Ps1.ID_BYTES_RE m ->
  ps1_code (Ps1.normalize_code (Scan.decode_ascii_ignore m)).
Proof.
  intros H. rewrite ps1_normalize, decode_all.
  - apply ps1_name_shape. apply (lang_wider _ _ _ _ ps1_wider).
    by apply (lang_map ascii_of_byte code_b code_s _ code_of_byte).
  - eapply Forall_impl; [by apply lang_accepts|]. apply ps1_byte_ascii.
Qed.

Lemma ps2_match_shape m :
  lang code_b Ps2.ID_BYTES_RE m ->
  ps2_code (Ps2.normalize_code (Scan.decode_ascii_ignore m)).
Proof.
  intros H. rewrite ps2_normalize, decode_all.
  - apply ps2_name_shape. apply (lang_wider _ _ _ _ ps2_wider).
    by apply (lang_map ascii_of_byte code_b code_s _ code_of_byte).
  - eapply Forall_impl; [by apply lang_accepts|]. apply ps2_byte_ascii.
Qed.

Lemma first_match_sound r cs m :
  ScanSpec.first_match r cs = Some m -> lang code_b r m.
Proof.
  induction cs as [|c cs IH]; [done|]. cbn.
  destruct (search code_b r c) as [f|] eqn:E; [|exact IH].
  intros [= <-]. by eapply search_sound.
Qed.

Lemma ps1_scan_shape content code :
  Ps1.find_disc_code content = Some code -> ps1_code code.
Proof.
  rewrite ScanClaims.ps1_find.
  destruct (ScanSpec.first_match _ _) as [m|] eqn:E; [|done].
  intros [= <-]. apply ps1_match_shape. by eapply first_match_sound.
Qed.

Lemma ps2_scan_shape content code :
  Ps2.find_disc_code content = Some code -> ps2_code code.
Proof.
  rewrite ScanClaims.ps2_find.
  destruct (ScanSpec.first_match _ _) as [m|] eqn:E; [|done].
  intros [= <-]. apply ps2_match_shape. by eapply first_match_sound.
Qed.

Lemma ps1_extract_shape stem raw :
  Ps1.extract_code_from_name stem = Some raw -> ps1_code (Ps1.normalize_code raw).
Proof.
  unfold Ps1.extract_code_from_name.
  destruct (search code_s Ps1.NAME_CODE_RE stem) as [f|] eqn:E; [|done].
  intros [= <-]. rewrite ps1_normalize. apply ps1_name_shape.
  by eapply search_sound.
Qed.

Lemma ps2_extract_shape stem raw :
  Ps2.extract_code_from_name stem = Some raw -> ps2_code (Ps2.normalize_code raw).
Proof.
  unfold Ps2.extract_code_from_name.
  destruct (search code_s Ps2.NAME_CODE_RE stem) as [f|] eqn:E; [|done].
  intros [= <-]. rewrite ps2_normalize. apply ps2_name_shape.
  by eapply search_sound.
Qed.

End CodeShape.

(** X4.  A code that [find_disc_code] returns is in canonical form: for
    script 02 an S, an L or a C, two or three capital letters, a hyphen and
    three to seven digits; for script 04 four or five capital letters, a
    hyphen and three to seven digits. *)
Theorem X4_scanned_code_is_canonical (content : list byte) (code : text) :
  (Ps1.find_disc_code content = Some code -> CodeShape.ps1_code code) /\
  (Ps2.find_disc_code content = Some code -> CodeShape.ps2_code code).
Proof.
  split; [apply CodeShape.ps1_scan_shape | apply CodeShape.ps2_scan_shape].
Qed.

(** The code of an image whose boot line names SCES_123.45. *)
Lemma X4_scanned_code_witness :
  CodeShape.ps1_code (str "SCES-12345") /\ CodeShape.ps2_code (str "SCES-12345").
Proof.
  destruct (X4_scanned_code_is_canonical (bytes_of "cdrom:\SCES_123.45;1")
              (str "SCES-12345")) as [H1 H2].
  split; [apply H1 | apply H2]; vm_compute; reflexivity.
Defined.

(** ** Renames, seen from one path *)
Module RenameFacts.
Import Fs FsFacts FrameFacts.

(** A file that is renamed, seen from a path [p] that the rename may leave
    but does not go to from elsewhere: [p] holds what it held, or the file
    went away from [p]. *)
Lemma rename_at p old new w w' :
  old ∉ dirs w -> rename old new w = Some w' -> (new = p -> old = p) ->
  files w' !! p = files w !! p \/
  (old = p /\ new <> p /\ files w' !! p = None).
Proof.
  intros Hold. unfold rename. destruct (files w !! old) as [content|] eqn:E.
  - destruct (bool_decide (new ∈ dirs w)); [done|]. intros [= <-] Hnew. cbn.
    destruct (decide (new = p)) as [->|Hne].
    + left. rewrite lookup_insert_eq. rewrite (Hnew eq_refl) in E. by rewrite E.
    + rewrite lookup_insert_ne by done.
      destruct (decide (old = p)) as [->|Hne'].
      * right. by rewrite lookup_delete_eq.
      * left. by rewrite lookup_delete_ne.
  - by rewrite bool_decide_eq_false_2.
Qed.

Lemma rename_dirs old new w w' :
  old ∉ dirs w -> rename old new w = Some w' -> dirs w' = dirs w.
Proof. intros Hold E. by apply rename_changes in E as (? & _). Qed.

(** A rename of a file that is there, to a path that is no directory, goes
    through. *)
Lemma rename_file old new w content :
  files w !! old = Some content -> new ∉ dirs w ->
  rename old new w =
  Some (World (<[new := content]> (delete old (files w))) (dirs w) (out w)).
Proof. intros E Hn. unfold rename. by rewrite E, bool_decide_eq_false_2. Qed.

End RenameFacts.

(** ** Script 04: what a run does to the files *)
Module Ps2Run.
Import Fs FsFacts FrameFacts RenameFacts Ps2Plan Ps2Policy.

(** The loop of renames, seen from a path that no rename goes to from
    elsewhere. *)
Lemma rename_all_at p items : forall w,
  (forall it : Ps2.work_item, it ∈ items -> it.1.1 ∉ dirs w) ->
  (forall it : Ps2.work_item, it ∈ items -> it.1.2 = p -> it.1.1 = p) ->
  files (settled (Ps2.rename_all items w)) !! p = files w !! p \/
  (files (settled (Ps2.rename_all items w)) !! p = None /\
   exists it : Ps2.work_item, it ∈ items /\ it.1.1 = p /\ it.1.2 <> p).
Proof.
  induction items as [|[[old new] code] items IH]; intros w Hd Hp; cbn.
  - by left.
  - destruct (rename old new w) as [w1|] eqn:E; [|by left].
    assert (dirs w1 = dirs w) as Hd1.
    { eapply rename_dirs; [|exact E]. apply (Hd (old, new, code)). by left. }
    apply (rename_at p) in E;
      [|apply (Hd (old, new, code)); by left|apply (Hp (old, new, code)); by left].
    destruct (IH (print (str "[DONE] " ++ name old ++ str " -> " ++ name new ++
                         str " [" ++ code ++ str "]") w1)) as [IH1|[IH1 IH2]].
    + intros it Hin. cbn. rewrite Hd1. apply Hd. by right.
    + intros it Hin. apply Hp. by right.
    + cbn in IH1. destruct E as [E|(-> & Hne & E)].
      * left. by rewrite IH1.
      * right. split; [by rewrite IH1|].
        exists (p, new, code). split; [by left | done].
    + right. split; [done|]. destruct IH2 as (it & Hin & H).
      exists it. split; [by right | done].
Qed.

(** A run, from the completed plan: it ends on the world of the plan or,
    without [--dry-run], on the world the loop of renames leaves, with
    lines printed. *)
Lemma ps2_main_final root dry_run w wp items :
  is_dir root w = true ->
  Ps2.plan_all (Ps2.iso_files root w) (w, []) = inl (wp, items) ->
  reported wp (final (Ps2.main root dry_run w)) \/
  (dry_run = false /\
   reported (settled (Ps2.rename_all items wp)) (final (Ps2.main root dry_run w))).
Proof.
  intros Hdir E. unfold Ps2.main. rewrite Hdir. cbn [negb].
  destruct (Ps2.iso_files root w) as [|iso isos] eqn:Eisos.
  { cbn in E. injection E as <- <-. left. cbn. auto with fs. }
  rewrite E. destruct items as [|it items]; [left; cbn; auto with fs|].
  destruct dry_run; [left; cbn; auto with fs|]. right. split; [done|].
  destruct (Ps2.rename_all (it :: items) wp) as [wf|wf]; cbn; auto with fs.
Qed.

(** The plan of a directory of regular files. *)
Lemma ps2_plan_of root w :
  regular root w = true ->
  exists wp,
    Ps2.plan_all (Ps2.iso_files root w) (w, []) =
      inl (wp, flat_map (planned_of w) (Ps2.iso_files root w)) /\
    reported w wp.
Proof.
  intros Hreg.
  destruct (ps2_plan_all_spec w (Ps2.iso_files root w) (w, [])) as (wp & E & R & _).
  { cbn. apply reported_refl. }
  { intros iso Hin. by eapply regular_iso. }
  exists wp. by split.
Qed.

(** An entry of the plan: what was proposed for its file, and the new path
    is the old one or was free. *)
Lemma ps2_planned_item w isos (it : Ps2.work_item) :
  it ∈ flat_map (planned_of w) isos ->
  it.1.1 ∈ isos /\
  Ps2.proposal w it.1.1 = Some (Some (it.1.2, it.2)) /\
  (it.1.2 = it.1.1 \/ exists_ it.1.2 w = false).
Proof.
  intros Hin. apply ps2_planned_elem in Hin as [Hin Hit]. split; [done|].
  split; [|by apply ps2_planned_free in Hit as [_ ?]].
  unfold planned_of in Hit.
  destruct (Ps2.proposal w it.1.1) as [[[new_path code]|]|];
    [|by apply elem_of_nil in Hit..].
  destruct (_ && _); [by apply elem_of_nil in Hit|].
  by apply list_elem_of_singleton in Hit as ->.
Qed.

End Ps2Run.

(** ** Script 04: no file is replaced *)
Module Ps2Kept.

(** A file is kept, or it is a planned image that was renamed. *)
Lemma ps2_kept_or_moved (root : Fs.path) (dry_run : bool) (w : Fs.world)
    (p : Fs.path) :
  Fs.is_dir root w = true -> Ps2Policy.regular root w = true ->
  is_Some (Fs.files w !! p) ->
  let o := Ps2.main root dry_run w in
  Fs.files (Fs.final o) !! p = Fs.files w !! p \/
  (Fs.files (Fs.final o) !! p = None /\ dry_run = false /\
   p ∈ Ps2.iso_files root w /\
   exists new_path code,
     Ps2.proposal w p = Some (Some (new_path, code)) /\
     new_path <> p /\ Fs.exists_ new_path w = false).
Proof.
  intros Hdir Hreg Hp o. subst o.
  destruct (Ps2Run.ps2_plan_of root w Hreg) as (wp & E & R).
  set (items := flat_map (Ps2Plan.planned_of w) (Ps2.iso_files root w)) in *.
  destruct (Ps2Run.ps2_main_final root dry_run w wp items Hdir E)
    as [Rf|[-> Rf]].
  - left. destruct Rf as (-> & _). by destruct R as (-> & _).
  - destruct Rf as (-> & _).
    destruct (Ps2Run.rename_all_at p items wp) as [H|(H & it & Hin & Hold & Hnew)].
    + intros it Hin. destruct R as (_ & -> & _).
      apply Ps2Run.ps2_planned_item in Hin as (Hin & _).
      by eapply Ps2Policy.regular_iso.
    + intros it Hin Hnew.
      apply Ps2Run.ps2_planned_item in Hin as (_ & _ & [Heq|Hfree]); [congruence|].
      assert (Fs.exists_ it.1.2 w = true) as Hex.
      { rewrite Hnew. apply FrameFacts.exists_elem. by left. }
      congruence.
    + left. rewrite H. by destruct R as (-> & _).
    + right. split; [done|]. split; [done|].
      apply Ps2Run.ps2_planned_item in Hin as (Hin & Hprop & Hfree).
      rewrite Hold in *. split; [done|]. exists it.1.2, it.2.
      split; [done|]. split; [done|]. by destruct Hfree.
Qed.


End Ps2Kept.

(** X5.  A run of script 04 on a directory whose images are regular files
    never puts something else where a file is: whatever the flag, and
    whether the run returns or raises, a path that holds a file at the start
    holds the same content at the end, or holds nothing, and this only
    without [--dry-run] for an image whose proposed new path is another
    path that was free when the plan was made (the image was renamed). *)
Theorem X5_ps2_no_file_replaced (root : Fs.path) (dry_run : bool) (w : Fs.world)
    (p : Fs.path) :
  Fs.is_dir root w = true -> Ps2Policy.regular root w = true ->
  is_Some (Fs.files w !! p) ->
  let o := Ps2.main root dry_run w in
  Fs.files (Fs.final o) !! p = Fs.files w !! p \/
  (Fs.files (Fs.final o) !! p = None /\ dry_run = false /\
   p ∈ Ps2.iso_files root w /\
   exists new_path code,
     Ps2.proposal w p = Some (Some (new_path, code)) /\
     new_path <> p /\ Fs.exists_ new_path w = false).
Proof. apply Ps2Kept.ps2_kept_or_moved. Qed.

(** On the shelf: the image that stood in the way keeps what it held. *)
Lemma X5_ps2_shelf_witness :
  let p := Shelf.root ++ [str "Ico [SCUS-97113].iso"] in
  let o := Ps2.main Shelf.root false Shelf.shelf in
  Fs.files (Fs.final o) !! p = Fs.files Shelf.shelf !! p \/
  (Fs.files (Fs.final o) !! p = None /\ false = false /\
   p ∈ Ps2.iso_files Shelf.root Shelf.shelf /\
   exists new_path code,
     Ps2.proposal Shelf.shelf p = Some (Some (new_path, code)) /\
     new_path <> p /\ Fs.exists_ new_path Shelf.shelf = false).
Proof.
  apply (X5_ps2_no_file_replaced Shelf.root false Shelf.shelf
           (Shelf.root ++ [str "Ico [SCUS-97113].iso"])).
  - vm_compute. reflexivity.
  - vm_compute. reflexivity.
  - vm_compute. by eexists.
Defined.

(** ** Script 02: what a run does to the files *)
Module Ps1Run.
Import Fs FsFacts FrameFacts RenameFacts Ps1Plan Ps1Policy.

Section Apply.
Variable decode_utf8_replace : list byte -> list N.

(** One turn of the loop over the plan, seen from a path that is not the
    cue file of the entry and that no rename of the entry goes to from
    elsewhere. *)
Lemma apply_item_at p it w w' :
  (forall q, source_of it q -> q ∉ dirs w) ->
  Ps1.apply_item decode_utf8_replace it w = Some w' ->
  Ps1.cue_path it <> Some p -> Ps1.new_cue it <> Some p ->
  (Ps1.new_bin it = p -> Ps1.bin_path it = p) ->
  files w' !! p = files w !! p \/
  (Ps1.bin_path it = p /\ Ps1.new_bin it <> p /\ files w' !! p = None).
Proof.
  intros Hd. unfold Ps1.apply_item.
  match goal with
  | |- match ?u with _ => _ end = _ -> _ => set (updated := u)
  end.
  intros E Hcue Hnc Hnew.
  assert (forall w1, updated = Some w1 ->
            dirs w1 = dirs w /\ files w1 !! p = files w !! p) as Hup.
  { subst updated. intros w1. destruct (Ps1.cue_path it) as [cue|] eqn:Ec.
    - destruct (Ps1.update_cue_file _ cue _ w) as [[w2 changed]|] eqn:Eu; [|done].
      apply update_cue_changes in Eu as (Hd2 & _ & Hf2).
      assert (files w2 !! p = files w !! p) as Hf
        by (apply Hf2; intros ->; by apply Hcue).
      by destruct changed; intros [= <-].
    - by intros [= <-]. }
  destruct updated as [w1|]; [|done].
  destruct (Hup w1 eq_refl) as [Hd1 Hf1]. clear Hup.
  destruct (rename (Ps1.bin_path it) (Ps1.new_bin it) w1) as [w2|] eqn:E2; [|done].
  assert (Ps1.bin_path it ∉ dirs w1) as Hb by (rewrite Hd1; apply Hd; by left).
  pose proof (rename_dirs _ _ _ _ Hb E2) as Hd2.
  apply (rename_at p) in E2; [|done..].
  assert (forall w3, match Ps1.cue_path it, Ps1.new_cue it with
                     | Some cue, Some nc => rename cue nc w2
                     | _, _ => Some w2
                     end = Some w3 -> files w3 !! p = files w2 !! p) as Hren.
  { intros w3. destruct (Ps1.cue_path it) as [cue|] eqn:Ec; [|by intros [= <-]].
    destruct (Ps1.new_cue it) as [nc|] eqn:En; [|by intros [= <-]].
    intros E3. apply rename_changes in E3 as (_ & _ & Hf3).
    - apply Hf3. intros [->| ->]; [by apply Hcue | by apply Hnc].
    - rewrite Hd2, Hd1. apply Hd. by right. }
  destruct (match Ps1.cue_path it, Ps1.new_cue it with
            | Some cue, Some nc => rename cue nc w2
            | _, _ => Some w2
            end) as [w3|]; [|done].
  injection E as <-. cbn. rewrite (Hren w3 eq_refl).
  destruct E2 as [E2|(E2 & Hne & E3)]; [left; congruence | by right].
Qed.

Lemma apply_item_dirs it w w' :
  (forall q, source_of it q -> q ∉ dirs w) ->
  Ps1.apply_item decode_utf8_replace it w = Some w' -> dirs w' = dirs w.
Proof. intros Hd E. by apply apply_item_changes in E as (? & _). Qed.

Lemma apply_all_at p items : forall w,
  (forall it q, it ∈ items -> source_of it q -> q ∉ dirs w) ->
  (forall it, it ∈ items ->
     Ps1.cue_path it <> Some p /\ Ps1.new_cue it <> Some p /\
     (Ps1.new_bin it = p -> Ps1.bin_path it = p)) ->
  files (settled (Ps1.apply_all decode_utf8_replace items w)) !! p = files w !! p \/
  (files (settled (Ps1.apply_all decode_utf8_replace items w)) !! p = None /\
   exists it, it ∈ items /\ Ps1.bin_path it = p /\ Ps1.new_bin it <> p).
Proof.
  induction items as [|it items IH]; intros w Hd Hp; cbn.
  - by left.
  - destruct (Ps1.apply_item _ it w) as [w1|] eqn:E; [|by left].
    assert (dirs w1 = dirs w) as Hd1.
    { eapply apply_item_dirs; [|exact E]. intros q. apply Hd. by left. }
    destruct (Hp it) as (Hc & Hn & Hb); [by left|].
    apply (apply_item_at p) in E; [|intros q; apply Hd; by left|done..].
    destruct (IH w1) as [IH1|[IH1 IH2]].
    + intros it' q Hin. rewrite Hd1. apply Hd. by right.
    + intros it' Hin. apply Hp. by right.
    + destruct E as [E|(Hb' & Hne & E)].
      * left. by rewrite IH1.
      * right. split; [by rewrite IH1|]. exists it. split; [by left | done].
    + right. split; [done|]. destruct IH2 as (it' & Hin & H).
      exists it'. split; [by right | done].
Qed.

Lemma ps1_main_final root dry_run w wp items :
  is_dir root w = true ->
  Ps1.plan_all (Ps1.bin_files root w) (w, []) = inl (wp, items) ->
  reported wp (final (Ps1.main decode_utf8_replace root dry_run w)) \/
  (dry_run = false /\
   reported (settled (Ps1.apply_all decode_utf8_replace items wp))
            (final (Ps1.main decode_utf8_replace root dry_run w))).
Proof.
  intros Hdir E. unfold Ps1.main. rewrite Hdir. cbn [negb].
  destruct (Ps1.bin_files root w) as [|bin bins] eqn:Ebins.
  { cbn in E. injection E as <- <-. left. cbn. auto with fs. }
  rewrite E. destruct items as [|it items]; [left; cbn; auto with fs|].
  destruct dry_run; [left; cbn; auto with fs|]. right. split; [done|].
  destruct (Ps1.apply_all _ (it :: items) wp) as [wf|wf]; cbn; auto with fs.
Qed.

End Apply.

(** The plan of a directory of regular files. *)
Lemma ps1_plan_of root w :
  regular root w = true ->
  exists wp,
    Ps1.plan_all (Ps1.bin_files root w) (w, []) =
      inl (wp, flat_map (planned_of w) (Ps1.bin_files root w)) /\
    reported w wp.
Proof.
  intros Hreg.
  destruct (ps1_plan_all_spec w (Ps1.bin_files root w) (w, [])) as (wp & E & R & _).
  { cbn. apply reported_refl. }
  { intros bin Hin. by eapply regular_bin. }
  exists wp. by split.
Qed.

(** An entry of the plan: what was proposed for its image, without a
    collision. *)
Lemma ps1_planned_item w bins it :
  it ∈ flat_map (planned_of w) bins ->
  Ps1.bin_path it ∈ bins /\
  Ps1.proposal w (Ps1.bin_path it) = Some (Some it) /\
  (Ps1.new_bin it = Ps1.bin_path it \/ exists_ (Ps1.new_bin it) w = false) /\
  (forall nc, Ps1.new_cue it = Some nc ->
              Some nc = Ps1.cue_path it \/ exists_ nc w = false).
Proof.
  intros Hin. apply ps1_planned_elem in Hin as [Hin Hit]. split; [done|].
  split; [|by eapply ps1_planned_free].
  unfold planned_of in Hit.
  destruct (Ps1.proposal w (Ps1.bin_path it)) as [[it'|]|];
    [|by apply elem_of_nil in Hit..].
  destruct (_ || _); [by apply elem_of_nil in Hit|].
  by apply list_elem_of_singleton in Hit as ->.
Qed.

(** The cue file of an entry is the cue file of its image. *)
Lemma item_cue w bin it :
  Ps1.proposal w bin = Some (Some it) -> Ps1.cue_path it = Ps1.cue_for_bin bin w.
Proof.
  rewrite TemplateFacts.proposal1_eq. unfold TemplateFacts.proposal1.
  destruct (if negb _ then _ else _) as [code_from_bin|]; [|done].
  destruct (negb (truthy _)); [done|]. by intros [= <-].
Qed.

(** No source of the plan of a directory of regular files is a
    directory. *)
Lemma sources_regular root w it q :
  regular root w = true ->
  it ∈ flat_map (planned_of w) (Ps1.bin_files root w) ->
  source_of it q -> q ∉ dirs w.
Proof.
  intros Hreg Hin Hq. apply ps1_planned_item in Hin as (Hin & Hprop & _).
  destruct (regular_bin root w _ Hreg Hin) as [[_ Hnd] Hcd].
  destruct Hq as [->|Hc]; [done|].
  apply Hcd. by rewrite <- (item_cue _ _ _ Hprop).
Qed.

End Ps1Run.

(** X6.  A run of script 02 on a directory whose images and cue files are
    regular files never replaces an existing file other than the cue files
    it rewrites: whatever the flag, and whether the run returns or raises, a
    path that holds a file at the start and is not the cue file of an image
    holds the same content at the end, or holds nothing, and this only
    without [--dry-run] for an image whose proposed new path is another path
    that was free when the plan was made (the image was renamed). *)
Theorem X6_ps1_no_file_replaced (decode_utf8_replace : list byte -> list N)
    (root : Fs.path) (dry_run : bool) (w : Fs.world) (p : Fs.path) :
  Fs.is_dir root w = true -> Ps1Policy.regular root w = true ->
  is_Some (Fs.files w !! p) ->
  (forall bin, bin ∈ Ps1.bin_files root w -> Ps1.cue_for_bin bin w <> Some p) ->
  let o := Ps1.main decode_utf8_replace root dry_run w in
  Fs.files (Fs.final o) !! p = Fs.files w !! p \/
  (Fs.files (Fs.final o) !! p = None /\ dry_run = false /\
   p ∈ Ps1.bin_files root w /\
   exists it,
     Ps1.proposal w p = Some (Some it) /\
     Ps1.new_bin it <> p /\ Fs.exists_ (Ps1.new_bin it) w = false).
Proof.
  intros Hdir Hreg Hp Hnocue o. subst o.
  destruct (Ps1Run.ps1_plan_of root w Hreg) as (wp & E & R).
  set (items := flat_map (Ps1Plan.planned_of w) (Ps1.bin_files root w)) in *.
  assert (Fs.exists_ p w = true) as Hex by (apply FrameFacts.exists_elem; by left).
  destruct (Ps1Run.ps1_main_final decode_utf8_replace root dry_run w wp items Hdir E)
    as [Rf|[-> Rf]].
  - left. destruct Rf as (-> & _). by destruct R as (-> & _).
  - destruct Rf as (-> & _).
    destruct (Ps1Run.apply_all_at decode_utf8_replace p items wp)
      as [H|(H & it & Hin & Hold & Hnew)].
    + intros it q Hin Hq. destruct R as (_ & -> & _).
      by eapply Ps1Run.sources_regular.
    + intros it Hin.
      apply Ps1Run.ps1_planned_item in Hin as (Hin & Hprop & Hbfree & Hcfree).
      assert (Ps1.cue_path it <> Some p) as Hc.
      { rewrite (Ps1Run.item_cue _ _ _ Hprop). by apply Hnocue. }
      split; [exact Hc|]. split.
      * intros Hn. destruct (Hcfree p Hn) as [Heq|Hfree]; congruence.
      * intros Hn. destruct Hbfree as [Heq|Hfree]; congruence.
    + left. rewrite H. by destruct R as (-> & _).
    + right. split; [done|]. split; [done|].
      apply Ps1Run.ps1_planned_item in Hin as (Hin & Hprop & Hbfree & _).
      rewrite Hold in *. split; [done|]. exists it.
      split; [done|]. split; [done|]. by destruct Hbfree.
Qed.

(** On the shelf: the image that stood in the way keeps what it held. *)
Lemma X6_ps1_shelf_witness :
  let p := Shelf.root ++ [str "Crash [SCUS-94900].bin"] in
  let o := Ps1.main Shelf.decode_ascii Shelf.root false Shelf.shelf in
  Fs.files (Fs.final o) !! p = Fs.files Shelf.shelf !! p \/
  (Fs.files (Fs.final o) !! p = None /\ false = false /\
   p ∈ Ps1.bin_files Shelf.root Shelf.shelf /\
   exists it,
     Ps1.proposal Shelf.shelf p = Some (Some it) /\
     Ps1.new_bin it <> p /\ Fs.exists_ (Ps1.new_bin it) Shelf.shelf = false).
Proof.
  apply (X6_ps1_no_file_replaced Shelf.decode_ascii Shelf.root false Shelf.shelf
           (Shelf.root ++ [str "Crash [SCUS-94900].bin"])).
  - vm_compute. reflexivity.
  - vm_compute. reflexivity.
  - vm_compute. by eexists.
  - intros bin Hin Hc. unfold Ps1.cue_for_bin in Hc.
    destruct (Fs.exists_ _ _); [|done]. injection Hc as Hc.
    apply (f_equal Fs.suffix) in Hc.
    apply (f_equal Py.lower) in Hc.
    by apply Ps1Policy.cue_is_no_bin in Hc.
Defined.

(** ** Script 04: a run that goes through *)
Module Ps2Done.
Import Fs FsFacts FrameFacts RenameFacts Ps2Plan Ps2Policy Ps2Run.

(** The loop of renames over entries with different new paths, whose files
    are there, and none of which goes to the place of another: every rename
    goes through and every file arrives. *)
Lemma rename_all_ok items : forall w,
  NoDup (map (fun it : Ps2.work_item => it.1.2) items) ->
  (forall it : Ps2.work_item, it ∈ items ->
     is_Some (files w !! it.1.1) /\ (it.1.1 ∉ dirs w) /\ (it.1.2 ∉ dirs w)) ->
  (forall it it' : Ps2.work_item, it ∈ items -> it' ∈ items ->
     it.1.2 = it'.1.1 -> it.1.2 = it.1.1) ->
  (forall it it' : Ps2.work_item, it ∈ items -> it' ∈ items ->
     it.1.1 = it'.1.1 -> it.1.2 = it'.1.2) ->
  exists w',
    Ps2.rename_all items w = inl w' /\ dirs w' = dirs w /\
    (forall it : Ps2.work_item, it ∈ items ->
       files w' !! it.1.2 = files w !! it.1.1 /\
       (it.1.2 <> it.1.1 -> files w' !! it.1.1 = None)) /\
    (forall p, (forall it : Ps2.work_item, it ∈ items ->
                  p <> it.1.1 /\ p <> it.1.2) ->
               files w' !! p = files w !! p).
Proof.
  induction items as [|[[old new] code] items IH]; intros w Hnd Hb Hc Hf.
  { exists w. cbn. split; [done|]. split; [done|]. split; [|done].
    intros it H. by apply elem_of_nil in H. }
  cbn [map] in Hnd. apply NoDup_cons in Hnd as [Hnew Hnd]. cbn in Hnew.
  destruct (Hb (old, new, code)) as ([content E] & Hod & Hnewd); [by left|].
  cbn in E, Hod, Hnewd. cbn [Ps2.rename_all].
  rewrite (rename_file old new w content E Hnewd).
  set (w1 := print _ _).
  assert (forall it : Ps2.work_item, it ∈ items ->
            it.1.1 <> old /\ it.1.1 <> new /\ it.1.2 <> new /\ it.1.2 <> old)
    as Hfresh.
  { intros it Hin.
    assert (it.1.2 <> new) as Hn.
    { intros Heq. apply Hnew. rewrite <- Heq.
      apply list_elem_of_fmap. by exists it. }
    assert (it.1.1 <> old) as Ho.
    { intros Heq. apply Hn.
      apply (Hf it (old, new, code)); [by right | by left | done]. }
    split; [done|]. split; [|split; [done|]].
    - intros Heq. apply Ho. rewrite Heq.
      apply (Hc (old, new, code) it); [by left | by right | done].
    - intros Heq. apply Ho. rewrite <- Heq. symmetry.
      apply (Hc it (old, new, code)); [by right | by left | done]. }
  assert (forall p, p <> old -> p <> new -> files w1 !! p = files w !! p) as Hw1.
  { intros p Ho Hn. cbn. by rewrite lookup_insert_ne, lookup_delete_ne. }
  destruct (IH w1) as (w' & E' & Hd' & Hitems & Hframe).
  - done.
  - intros it Hin. destruct (Hfresh it Hin) as (Ho & Hn & _).
    destruct (Hb it) as (Hs & Hd1 & Hd2); [by right|].
    rewrite Hw1 by done. done.
  - intros it it' Hin Hin'. apply Hc; by right.
  - intros it it' Hin Hin'. apply Hf; by right.
  - exists w'. split; [done|]. split; [done|]. split.
    + intros it [->|Hin]%elem_of_cons.
      * cbn [fst snd]. split.
        -- rewrite Hframe.
           ++ cbn. by rewrite lookup_insert_eq.
           ++ intros it Hin. destruct (Hfresh it Hin) as (_ & ? & ? & _).
              split; congruence.
        -- intros Hne. rewrite Hframe.
           ++ cbn. by rewrite lookup_insert_ne, lookup_delete_eq.
           ++ intros it Hin. destruct (Hfresh it Hin) as (? & _ & _ & ?).
              split; congruence.
      * destruct (Hitems it Hin) as [H1 H2].
        destruct (Hfresh it Hin) as (Ho & Hn & _).
        rewrite Hw1 in H1 by done. done.
    + intros p Hp. destruct (Hp (old, new, code)) as [Ho Hn]; [by left|].
      cbn in Ho, Hn. rewrite Hframe, Hw1; [done..|].
      intros it Hin. apply Hp. by right.
Qed.

End Ps2Done.

(** X7.  When the plan of script 04 for a directory of regular images sends
    no two images to the same new path, the run without [--dry-run] goes
    through and returns 0, and every planned image arrives: its new path
    holds what the image held, and its old path, when it is another one,
    holds nothing. *)
Theorem X7_ps2_run_renames_all (root : Fs.path) (w wp : Fs.world)
    (items : list Ps2.work_item) :
  Fs.is_dir root w = true -> Ps2Policy.regular root w = true ->
  Ps2.plan_all (Ps2.iso_files root w) (w, []) = inl (wp, items) ->
  NoDup (map (fun it : Ps2.work_item => it.1.2) items) ->
  exists w',
    Ps2.main root false w = Fs.Return w' 0 /\
    forall old new code,
      (old, new, code) ∈ items ->
      Fs.files w' !! new = Fs.files w !! old /\
      (new <> old -> Fs.files w' !! old = None).
Proof.
  intros Hdir Hreg E Hnd.
  destruct (Ps2Run.ps2_plan_of root w Hreg) as (wp' & E' & R).
  rewrite E in E'. injection E' as <- Hitems.
  assert (forall it : Ps2.work_item, it ∈ items ->
            it.1.1 ∈ Ps2.iso_files root w /\
            Ps2.proposal w it.1.1 = Some (Some (it.1.2, it.2)) /\
            (it.1.2 = it.1.1 \/ Fs.exists_ it.1.2 w = false)) as Hit.
  { intros it Hin. rewrite Hitems in Hin. by apply Ps2Run.ps2_planned_item. }
  assert (forall it : Ps2.work_item, it ∈ items ->
            is_Some (Fs.files w !! it.1.1) /\ it.1.1 ∉ Fs.dirs w) as Hsrc.
  { intros it Hin. apply Hit in Hin as (Hin & _).
    by eapply Ps2Policy.regular_iso. }
  destruct (Ps2Done.rename_all_ok items wp Hnd) as (w' & Eall & Hd & Hall & _).
  - intros it Hin. destruct (Hsrc it Hin) as [Hs Hd].
    destruct R as (-> & -> & _). split; [done|]. split; [done|].
    destruct (Hit it Hin) as (_ & _ & [->|Hfree]); [done|].
    intros Hdir'. assert (Fs.exists_ it.1.2 w = true); [|congruence].
    apply FrameFacts.exists_elem. by right.
  - intros it it' Hin Hin' Heq.
    destruct (Hit it Hin) as (_ & _ & [Hself|Hfree]); [done|].
    assert (Fs.exists_ it.1.2 w = true); [|congruence].
    rewrite Heq. apply FrameFacts.exists_elem. left. by apply Hsrc.
  - intros it it' Hin Hin' Heq.
    destruct (Hit it Hin) as (_ & Hp & _). destruct (Hit it' Hin') as (_ & Hp' & _).
    rewrite Heq in Hp. congruence.
  - unfold Ps2.main. rewrite Hdir. cbn [negb].
    destruct (Ps2.iso_files root w) as [|iso isos] eqn:Eisos.
    { cbn in E. injection E as <- <-. eexists. split; [reflexivity|].
      intros old new code H. by apply elem_of_nil in H. }
    rewrite E. destruct items as [|it items'] eqn:Eitems.
    { eexists. split; [reflexivity|].
      intros old new code H. by apply elem_of_nil in H. }
    rewrite Eall. eexists. split; [reflexivity|].
    intros old new code Hin. cbn. destruct R as (<- & _).
    apply (Hall (old, new, code) Hin).
Qed.

(** On the shelf: Okami.iso arrives under its new name. *)
Lemma X7_ps2_shelf_witness :
  exists w',
    Ps2.main Shelf.root false Shelf.shelf = Fs.Return w' 0 /\
    Fs.files w' !! (Shelf.root ++ [str "Okami [SLUS-21410].iso"]) =
      Fs.files Shelf.shelf !! (Shelf.root ++ [str "Okami.iso"]) /\
    Fs.files w' !! (Shelf.root ++ [str "Okami.iso"]) = None.
Proof.
  destruct (X7_ps2_run_renames_all Shelf.root Shelf.shelf
              (Fs.final (match Ps2.plan_all (Ps2.iso_files Shelf.root Shelf.shelf)
                                 (Shelf.shelf, []) with
                         | inl st => Fs.Return st.1 0
                         | inr w => Fs.Raise w
                         end))
              [(Shelf.root ++ [str "Ico [SCUS-97113].iso"],
                Shelf.root ++ [str "Ico [SCUS-97113].iso"], str "SCUS-97113");
               (Shelf.root ++ [str "Okami.iso"],
                Shelf.root ++ [str "Okami [SLUS-21410].iso"], str "SLUS-21410")])
    as (w' & E & H).
  - vm_compute. reflexivity.
  - vm_compute. reflexivity.
  - vm_compute. reflexivity.
  - apply (bool_decide_unpack _). vm_compute. exact I.
  - exists w'. split; [exact E|].
    destruct (H (Shelf.root ++ [str "Okami.iso"])
                (Shelf.root ++ [str "Okami [SLUS-21410].iso"]) (str "SLUS-21410"))
      as [H1 H2].
    + right. by left.
    + split; [exact H1|]. apply H2. discriminate.
Defined.

(** X8.  Two images with one new name.  When a directory holds two images
    [a] and [b], in this order, for which script 04 proposes the same new
    path [n], free at the start, neither is warned about: both renames are
    planned and made, the run returns 0, and at the end [n] holds what [b]
    held; what [a] held is lost. *)
Theorem X8_ps2_same_new_path (root a b n : Fs.path) (ca cb : text)
    (xa xb : list byte) (w : Fs.world) :
  Fs.is_dir root w = true ->
  Ps2.iso_files root w = [a; b] -> a <> b ->
  Fs.files w !! a = Some xa -> Fs.files w !! b = Some xb ->
  Ps2.proposal w a = Some (Some (n, ca)) ->
  Ps2.proposal w b = Some (Some (n, cb)) ->
  Fs.exists_ n w = false ->
  exists w',
    Ps2.main root false w = Fs.Return w' 0 /\
    Fs.out w' = Fs.out w ++
      [str "[PLAN] " ++ Fs.name a ++ str " -> " ++ Fs.name n;
       str "[PLAN] " ++ Fs.name b ++ str " -> " ++ Fs.name n;
       str "[DONE] " ++ Fs.name a ++ str " -> " ++ Fs.name n ++
         str " [" ++ ca ++ str "]";
       str "[DONE] " ++ Fs.name b ++ str " -> " ++ Fs.name n ++
         str " [" ++ cb ++ str "]";
       str "[INFO] Renamed 2 ISO(s)."] /\
    forall p,
      Fs.files w' !! p =
      if decide (p = n) then Some xb
      else if decide (p = a \/ p = b) then None
      else Fs.files w !! p.
Proof.
  intros Hdir Hisos Hab Ha Hb Hpa Hpb Hfree.
  assert ((n ∉ Fs.dirs w) /\ Fs.files w !! n = None) as [Hnd Hnf].
  { unfold Fs.exists_ in Hfree. apply orb_false_iff in Hfree as [H1 H2].
    apply bool_decide_eq_false in H1, H2. split; [done|].
    destruct (Fs.files w !! n) eqn:E; [|done]. exfalso. apply H1. by eexists. }
  assert (n <> a) as Hna by (intros ->; congruence).
  assert (n <> b) as Hnb by (intros ->; congruence).
  unfold Ps2.main. rewrite Hdir, Hisos. cbn [negb Ps2.plan_all].
  unfold Ps2.plan_step at 1. cbn [fst snd]. rewrite Hpa, Hfree. cbn [andb].
  set (w1 := Fs.print _ w).
  unfold Ps2.plan_step at 1. cbn [fst snd].
  rewrite (Ps2Plan.ps2_proposal_same w w1 b eq_refl), Hpb.
  rewrite (FsFacts.exists_same n w w1 eq_refl eq_refl), Hfree.
  cbn [andb app Ps2.rename_all].
  rewrite (RenameFacts.rename_file a n _ xa) by done.
  rewrite (RenameFacts.rename_file b n _ xb);
    [|cbn; by rewrite lookup_insert_ne, lookup_delete_ne|done].
  eexists. split; [reflexivity|]. split.
  { cbn. by rewrite <- !app_assoc. }
  intros p. cbn.
  destruct (decide (p = n)) as [->|Hpn]; [by rewrite lookup_insert_eq|].
  rewrite lookup_insert_ne by done.
  destruct (decide (p = b)) as [->|Hpb'].
  { rewrite lookup_delete_eq. by rewrite decide_True by auto. }
  rewrite lookup_delete_ne, lookup_insert_ne by done.
  destruct (decide (p = a)) as [->|Hpa'].
  { rewrite lookup_delete_eq. by rewrite decide_True by auto. }
  rewrite lookup_delete_ne by done. rewrite decide_False; [done|].
  by intros [|].
Qed.

(** The twins Ico .iso and Ico.iso. *)
Lemma X8_ps2_twins_witness :
  exists w',
    Ps2.main Shelf.root false Shelf.twins = Fs.Return w' 0 /\
    Fs.files w' !! (Shelf.root ++ [str "Ico [SCUS-97113].iso"]) =
      Some (bytes_of "first SCUS_971.13") /\
    Fs.files w' !! (Shelf.root ++ [str "Ico .iso"]) = None /\
    Fs.files w' !! (Shelf.root ++ [str "Ico.iso"]) = None.
Proof.
  destruct (X8_ps2_same_new_path Shelf.root
              (Shelf.root ++ [str "Ico .iso"]) (Shelf.root ++ [str "Ico.iso"])
              (Shelf.root ++ [str "Ico [SCUS-97113].iso"])
              (str "SCUS-97113") (str "SCUS-97113")
              (bytes_of "second SCUS_971.13") (bytes_of "first SCUS_971.13")
              Shelf.twins) as (w' & E & _ & H);
    try (vm_compute; reflexivity); [discriminate|].
  exists w'. split; [exact E|]. rewrite !H. vm_compute. auto.
Defined.

(** ** Names, stems and suffixes *)
Module PathFacts.
Import Fs.

Definition dot : ascii := "."%char.

Lemma split_none n : split_last_dot n = None -> dot ∉ n.
Proof.
  induction n as [|c n IH]; [intros _ H; by apply elem_of_nil in H|].
  cbn. destruct (split_last_dot n) as [[a b]|]; [done|].
  destruct (ascii_dec c ".") as [|Hc]; [done|].
  intros _ [Heq|H]%elem_of_cons; [by apply Hc | by apply IH].
Qed.

Lemma split_some n : forall a b,
  split_last_dot n = Some (a, b) -> n = a ++ dot :: b /\ dot ∉ b.
Proof.
  induction n as [|c n IH]; intros a b; [done|]. cbn.
  destruct (split_last_dot n) as [[a' b']|] eqn:E.
  - intros [= <- <-]. destruct (IH a' b' eq_refl) as [-> Hb]. by split.
  - destruct (ascii_dec c ".") as [->|]; [|done]. intros [= <- <-].
    split; [done|]. by apply split_none.
Qed.

Lemma split_no_dot n : dot ∉ n -> split_last_dot n = None.
Proof.
  intros Hn. destruct (split_last_dot n) as [[a b]|] eqn:E; [|done].
  apply split_some in E as [-> _]. exfalso. apply Hn.
  apply elem_of_app. right. by left.
Qed.

Lemma split_app a b : dot ∉ b -> split_last_dot (a ++ dot :: b) = Some (a, b).
Proof.
  intros Hb. induction a as [|c a IH].
  - cbn. by rewrite (split_no_dot b Hb).
  - cbn [app split_last_dot]. by rewrite IH.
Qed.

(** A name is its stem followed by its suffix. *)
Lemma stem_suffix n : stem_of n ++ suffix_of n = n.
Proof.
  unfold stem_of, suffix_of.
  destruct (split_last_dot n) as [[a b]|] eqn:E; [|by rewrite app_nil_r].
  apply split_some in E as [-> _].
  destruct a as [|c a]; [by rewrite app_nil_r|].
  destruct b as [|d b]; [by rewrite app_nil_r|]. done.
Qed.

(** A suffix that is there: a dot and a text without a dot. *)
Lemma suffix_shape n :
  suffix_of n <> [] -> exists b, suffix_of n = dot :: b /\ b <> [] /\ dot ∉ b.
Proof.
  unfold suffix_of. destruct (split_last_dot n) as [[a b]|] eqn:E; [|done].
  apply split_some in E as [-> Hb].
  destruct a as [|c a]; [done|]. destruct b as [|d b]; [done|].
  intros _. by exists (d :: b).
Qed.

(** The stem of a name put together from a stem and a suffix. *)
Lemma stem_of_app base b :
  base <> [] -> b <> [] -> dot ∉ b -> stem_of (base ++ dot :: b) = base.
Proof.
  intros Hbase Hb Hdot. unfold stem_of. rewrite split_app by done.
  destruct base; [done|]. by destruct b.
Qed.

Lemma suffix_of_app base b :
  base <> [] -> b <> [] -> dot ∉ b -> suffix_of (base ++ dot :: b) = dot :: b.
Proof.
  intros Hbase Hb Hdot. unfold suffix_of. rewrite split_app by done.
  destruct base; [done|]. by destruct b.
Qed.

Lemma parent_with_name p n : parent (with_name p n) = parent p.
Proof. unfold with_name, parent. apply removelast_last. Qed.

Lemma name_of_with_name p n : name (with_name p n) = n.
Proof. unfold with_name, name. apply last_last. Qed.

Lemma with_name_twice p n m : with_name (with_name p n) m = with_name p m.
Proof. unfold with_name at 1. by rewrite parent_with_name. Qed.

Lemma with_suffix_with_name p n s :
  with_suffix (with_name p n) s = with_name p (stem_of n ++ s).
Proof.
  unfold with_suffix, stem. by rewrite with_name_twice, name_of_with_name.
Qed.

(** A path that is not empty is its parent with its name. *)
Lemma with_own_name p : p <> [] -> with_name p (name p) = p.
Proof.
  intros Hp. unfold with_name, parent, name. symmetry.
  by apply app_removelast_last.
Qed.

End PathFacts.

(** ** What is proposed for a file *)
Module ProposalFacts.
Import Fs PathFacts CodeShape.

Lemma truthy_some (x : option text) :
  truthy x = true -> exists c r, x = Some (c :: r).
Proof. destruct x as [[|c r]|]; [done| |done]. intros _. by exists c, r. Qed.

(** The new stem of script 04 holds the code. *)
Lemma ps2_stem_holds stem code has_code :
  (has_code = true -> is_Some (Ps2.extract_code_from_name stem)) ->
  exists a b, TemplateFacts.ps2_stem stem code has_code = a ++ code ++ b.
Proof.
  unfold TemplateFacts.ps2_stem, Ps2.extract_code_from_name, Re.sub_first.
  destruct has_code.
  - intros H. destruct (H eq_refl) as [raw E].
    destruct (Re.search _ _ stem) as [f|]; [|done].
    by exists (Re.before f), (Re.after f).
  - intros _. exists (Py.rstrip stem ++ str " ["), (str "]").
    by rewrite <- !app_assoc.
Qed.

(** What script 04 proposes for a file. *)
Lemma ps2_proposed w iso new_path code :
  Ps2.proposal w iso = Some (Some (new_path, code)) ->
  exists has_code,
    new_path = with_name iso (TemplateFacts.ps2_stem (stem iso) code has_code ++
                              suffix iso) /\
    (has_code = true -> is_Some (Ps2.extract_code_from_name (stem iso))) /\
    ps2_code code.
Proof.
  rewrite TemplateFacts.proposal2_eq. unfold TemplateFacts.proposal2. cbn zeta.
  destruct (truthy (Ps2.extract_code_from_name (stem iso))) eqn:T; cbn [negb].
  - apply truthy_some in T as (c & r & E). rewrite E. cbn [fmap option_fmap option_map].
    destruct (negb (truthy _)); [done|]. intros [= <- <-]. exists true.
    split; [done|]. split; [by eexists|]. cbn [default].
    by apply (ps2_extract_shape (stem iso)).
  - destruct (read_bytes iso w) as [content|]; [|done].
    cbn [fmap option_fmap option_map].
    destruct (truthy (Ps2.find_disc_code content)) eqn:T2; [|done]. cbn [negb].
    apply truthy_some in T2 as (c & r & E). rewrite E.
    intros [= <- <-]. exists false. split; [done|]. split; [done|]. cbn [default].
    by apply (ps2_scan_shape content).
Qed.

(** The new stem of script 02 holds the code. *)
Lemma ps1_stem_holds stem code :
  exists a b,
    TemplateFacts.ps1_stem stem code (Ps1.extract_code_from_name stem) =
      a ++ code ++ b.
Proof.
  unfold TemplateFacts.ps1_stem, Ps1.extract_code_from_name, Re.sub_first,
    Ps1.build_new_base.
  destruct (Re.search _ _ stem) as [f|]; cbn [fmap option_fmap option_map].
  - destruct (truthy _).
    + by exists (Re.before f), (Re.after f).
    + exists (Py.rstrip stem ++ str " ["), (str "]"). by rewrite <- !app_assoc.
  - exists (Py.rstrip stem ++ str " ["), (str "]"). by rewrite <- !app_assoc.
Qed.

(** What script 02 proposes for an image. *)
Lemma ps1_proposed w bin it :
  Ps1.proposal w bin = Some (Some it) ->
  let base := TemplateFacts.ps1_stem (stem bin) (Ps1.code_of it)
                (Ps1.extract_code_from_name (stem bin)) in
  Ps1.bin_path it = bin /\
  Ps1.cue_path it = Ps1.cue_for_bin bin w /\
  Ps1.new_bin it = with_name bin (base ++ suffix bin) /\
  Ps1.new_cue it =
    (fun c => with_name c (base ++ str ".cue")) <$> Ps1.cue_for_bin bin w /\
  ps1_code (Ps1.code_of it).
Proof.
  rewrite TemplateFacts.proposal1_eq. unfold TemplateFacts.proposal1. cbn zeta.
  destruct (truthy (Ps1.extract_code_from_name (stem bin))) eqn:T; cbn [negb].
  - apply truthy_some in T as (c & r & E). rewrite E. cbn [fmap option_fmap option_map].
    destruct (negb (truthy _)); [done|]. intros [= <-].
    cbn [Ps1.bin_path Ps1.cue_path Ps1.new_bin Ps1.new_cue Ps1.code_of default].
    do 4 (split; [done|]). by apply (ps1_extract_shape (stem bin)).
  - destruct (read_bytes bin w) as [content|]; [|done].
    cbn [fmap option_fmap option_map].
    destruct (truthy (Ps1.find_disc_code content)) eqn:T2; [|done]. cbn [negb].
    apply truthy_some in T2 as (c & r & E). rewrite E.
    intros [= <-].
    cbn [Ps1.bin_path Ps1.cue_path Ps1.new_bin Ps1.new_cue Ps1.code_of default].
    do 4 (split; [done|]). by apply (ps1_scan_shape content).
Qed.

(** A canonical code is not empty. *)
Lemma ps1_code_not_nil code : ps1_code code -> code <> [].
Proof. by intros (l & p & d & -> & _). Qed.

Lemma ps2_code_not_nil code : ps2_code code -> code <> [].
Proof. intros (p & d & -> & _). by destruct p. Qed.

End ProposalFacts.

(** X9.  What script 04 proposes for a file is a rename within the
    directory that keeps the suffix of the name and puts a canonical code
    (four or five capital letters, a hyphen, three to seven digits) into
    it. *)
Theorem X9_ps2_proposed_name (w : Fs.world) (iso new_path : Fs.path) (code : text) :
  Ps2.proposal w iso = Some (Some (new_path, code)) ->
  CodeShape.ps2_code code /\
  Fs.parent new_path = Fs.parent iso /\
  exists a b, Fs.name new_path = a ++ code ++ b ++ Fs.suffix iso.
Proof.
  intros H. apply ProposalFacts.ps2_proposed in H as (has_code & -> & Hc & Hcode).
  split; [done|]. split; [apply PathFacts.parent_with_name|].
  rewrite PathFacts.name_of_with_name.
  destruct (ProposalFacts.ps2_stem_holds (Fs.stem iso) code has_code Hc)
    as (a & b & ->).
  exists a, b. by rewrite <- !app_assoc.
Qed.

(** On the shelf: what is proposed for Okami.iso. *)
Lemma X9_ps2_okami_witness :
  CodeShape.ps2_code (str "SLUS-21410") /\
  Fs.parent (Shelf.root ++ [str "Okami [SLUS-21410].iso"]) =
    Fs.parent (Shelf.root ++ [str "Okami.iso"]) /\
  exists a b,
    Fs.name (Shelf.root ++ [str "Okami [SLUS-21410].iso"]) =
    a ++ str "SLUS-21410" ++ b ++ Fs.suffix (Shelf.root ++ [str "Okami.iso"]).
Proof.
  apply (X9_ps2_proposed_name Shelf.shelf). vm_compute. reflexivity.
Defined.

(** X10.  What script 02 proposes for an image with a suffix is a rename
    within the directory that keeps the suffix and puts a canonical code (S,
    L or C, two or three capital letters, a hyphen, three to seven digits)
    into the name; the cue file beside the image, when there is one, gets the
    same new stem, so that it is again the cue file of the renamed image. *)
Theorem X10_ps1_proposed_pair (w : Fs.world) (bin : Fs.path) (it : Ps1.work_item) :
  Ps1.proposal w bin = Some (Some it) -> Fs.suffix bin <> [] ->
  CodeShape.ps1_code (Ps1.code_of it) /\
  Fs.parent (Ps1.new_bin it) = Fs.parent bin /\
  (exists a b,
     Fs.name (Ps1.new_bin it) = a ++ Ps1.code_of it ++ b ++ Fs.suffix bin) /\
  (forall cue, Ps1.cue_path it = Some cue ->
     cue = Fs.with_suffix bin (str ".cue") /\
     Ps1.new_cue it = Some (Fs.with_suffix (Ps1.new_bin it) (str ".cue"))) /\
  (Ps1.cue_path it = None -> Ps1.new_cue it = None).
Proof.
  intros H Hsuffix.
  apply ProposalFacts.ps1_proposed in H as (Hbin & Hcue & Hnew & Hnc & Hcode).
  cbn zeta in *. set (code := Ps1.code_of it) in *.
  destruct (ProposalFacts.ps1_stem_holds (Fs.stem bin) code) as (a & b & Hbase).
  split; [done|]. rewrite Hnew.
  split; [apply PathFacts.parent_with_name|]. split; [|split].
  - rewrite PathFacts.name_of_with_name, Hbase. exists a, b.
    by rewrite <- !app_assoc.
  - intros cue Hc. rewrite Hcue in Hc. rewrite Hnc, Hc. cbn.
    unfold Ps1.cue_for_bin in Hc. destruct (Fs.exists_ _ w); [|done].
    injection Hc as <-. split; [done|]. f_equal.
    rewrite PathFacts.with_suffix_with_name.
    unfold Fs.with_suffix at 1. rewrite PathFacts.with_name_twice.
    do 2 f_equal. unfold Fs.suffix in *.
    destruct (PathFacts.suffix_shape _ Hsuffix) as (sfx & -> & Hne & Hdot).
    rewrite PathFacts.stem_of_app; [done| |done..].
    rewrite Hbase. intros Hnil. apply app_eq_nil in Hnil as [_ Hnil].
    apply app_eq_nil in Hnil as [Hnil _].
    by apply ProposalFacts.ps1_code_not_nil in Hcode.
  - intros Hc. rewrite Hcue in Hc. by rewrite Hnc, Hc.
Qed.

(** On the shelf: Tekken.bin and its cue file. *)
Lemma X10_ps1_tekken_witness :
  exists it,
    Ps1.proposal Shelf.shelf (Shelf.root ++ [str "Tekken.bin"]) = Some (Some it) /\
    Ps1.new_cue it =
      Some (Fs.with_suffix (Ps1.new_bin it) (str ".cue")) /\
    Ps1.new_cue it = Some (Shelf.root ++ [str "Tekken [SLUS-00402].cue"]).
Proof.
  destruct (Ps1.proposal Shelf.shelf (Shelf.root ++ [str "Tekken.bin"]))
    as [[it|]|] eqn:E; [|vm_compute in E; discriminate E..].
  exists it. split; [done|].
  destruct (X10_ps1_proposed_pair Shelf.shelf _ it E) as (_ & _ & _ & Hcue & _).
  - vm_compute. discriminate.
  - assert (Ps1.cue_path it = Some (Shelf.root ++ [str "Tekken.cue"])) as Hc.
    { vm_compute in E. injection E as <-. reflexivity. }
    destruct (Hcue _ Hc) as [_ Hn]. split; [exact Hn|].
    vm_compute in E. injection E as <-. reflexivity.
Defined.

(** ** Names that hold their code already *)
Module Tagged.
Import Fs PathFacts.

(** An image of the directory of script 04. *)
Lemma iso_file_entry root w iso :
  iso ∈ Ps2.iso_files root w -> iso <> [] /\ parent iso = root.
Proof.
  unfold Ps2.iso_files, iterdir, children.
  rewrite FrameFacts.sorted_elem, list_elem_of_In, filter_In, filter_In.
  intros [(_ & H) _]. apply andb_true_iff in H as [H1 H2].
  apply bool_decide_eq_true in H1. apply negb_true_iff, bool_decide_eq_false in H2.
  done.
Qed.

(** Replacing the first code of a stem by itself. *)
Lemma ps2_same_stem stem f :
  Re.search Re.code_s Ps2.NAME_CODE_RE stem = Some f ->
  TemplateFacts.ps2_stem stem (Re.matched f) true = stem.
Proof.
  intros E. unfold TemplateFacts.ps2_stem, Re.sub_first. rewrite E.
  symmetry. by apply ReTheory.search_split in E.
Qed.

(** A name whose first code is in normal form is proposed to stay. *)
Lemma ps2_proposed_itself w iso f :
  iso <> [] ->
  Re.search Re.code_s Ps2.NAME_CODE_RE (stem iso) = Some f ->
  Ps2.normalize_code (Re.matched f) = Re.matched f ->
  Ps2.proposal w iso = Some (Some (iso, Re.matched f)).
Proof.
  intros Hne E Hnorm.
  assert (CodeShape.ps2_code (Re.matched f)) as Hcode.
  { rewrite <- Hnorm. apply (CodeShape.ps2_extract_shape (stem iso)).
    unfold Ps2.extract_code_from_name. by rewrite E. }
  apply ProposalFacts.ps2_code_not_nil in Hcode.
  rewrite TemplateFacts.proposal2_eq.
  unfold TemplateFacts.proposal2, Ps2.extract_code_from_name. rewrite E.
  cbn [fmap option_fmap option_map]. rewrite Hnorm.
  destruct (Re.matched f) as [|c m] eqn:Em; [done|].
  cbn [truthy negb default]. unfold id. rewrite <- Em, ps2_same_stem by done.
  unfold stem, suffix. by rewrite stem_suffix, with_own_name.
Qed.

End Tagged.

(** X11.  An image of script 04 whose name holds a code in normal form as
    its first code is left alone: what is proposed for it is its own path
    with that code, and after the run, with or without [--dry-run], its path
    holds what it held. *)
Theorem X11_ps2_tagged_image_stays (root : Fs.path) (dry_run : bool)
    (w : Fs.world) (iso : Fs.path) (f : Re.found) :
  Fs.is_dir root w = true -> Ps2Policy.regular root w = true ->
  iso ∈ Ps2.iso_files root w ->
  Re.search Re.code_s Ps2.NAME_CODE_RE (Fs.stem iso) = Some f ->
  Ps2.normalize_code (Re.matched f) = Re.matched f ->
  Ps2.proposal w iso = Some (Some (iso, Re.matched f)) /\
  Fs.files (Fs.final (Ps2.main root dry_run w)) !! iso = Fs.files w !! iso.
Proof.
  intros Hdir Hreg Hin E Hnorm.
  destruct (Tagged.iso_file_entry root w iso Hin) as [Hne _].
  pose proof (Tagged.ps2_proposed_itself w iso f Hne E Hnorm) as Hprop.
  split; [exact Hprop|].
  destruct (Ps2Kept.ps2_kept_or_moved root dry_run w iso Hdir Hreg)
    as [H|(_ & _ & _ & new_path & code & Hp & Hnew & _)]; [|done|].
  - by eapply Ps2Policy.regular_iso.
  - rewrite Hprop in Hp. injection Hp as <- _. done.
Qed.

(** On the shelf: Ico [SCUS-97113].iso. *)
Lemma X11_ps2_tagged_witness :
  Ps2.proposal Shelf.shelf (Shelf.root ++ [str "Ico [SCUS-97113].iso"]) =
    Some (Some (Shelf.root ++ [str "Ico [SCUS-97113].iso"], str "SCUS-97113")) /\
  Fs.files (Fs.final (Ps2.main Shelf.root false Shelf.shelf)) !!
    (Shelf.root ++ [str "Ico [SCUS-97113].iso"]) =
  Fs.files Shelf.shelf !! (Shelf.root ++ [str "Ico [SCUS-97113].iso"]).
Proof.
  apply (X11_ps2_tagged_image_stays Shelf.root false Shelf.shelf
           (Shelf.root ++ [str "Ico [SCUS-97113].iso"])
           (Re.Found (str "Ico [") (str "SCUS-97113") (str "]"))).
  - vm_compute. reflexivity.
  - vm_compute. reflexivity.
  - apply (bool_decide_unpack _). vm_compute. exact I.
  - vm_compute. reflexivity.
  - vm_compute. reflexivity.
Defined.

(** ** The FILE lines of a cue file *)
Module CueLine.
Import Chars Re ReFirst Ps1.

(** *** Stripping *)

Lemma lstrip_app {A} (p : A -> bool) (a b : list A) :
  Py.lstrip_by p (a ++ b) =
  match Py.lstrip_by p a with
  | [] => Py.lstrip_by p b
  | r => r ++ b
  end.
Proof.
  induction a as [|c a IH]; [done|]. cbn [app Py.lstrip_by].
  by destruct (p c).
Qed.

Lemma rstrip_cons {A} (p : A -> bool) (c : A) (s : list A) :
  Py.rstrip_by p (c :: s) =
  match Py.rstrip_by p s with
  | [] => if p c then [] else [c]
  | r => c :: r
  end.
Proof.
  unfold Py.rstrip_by. cbn [rev]. rewrite lstrip_app.
  destruct (Py.lstrip_by p (rev s)) as [|d r] eqn:E.
  - cbn. by destruct (p c).
  - cbn [rev]. rewrite rev_app_distr. cbn.
    destruct (rev r ++ [d]) eqn:E'; [by destruct (rev r)|done].
Qed.

(** [strip] takes no notice of white space taken off at the left before. *)
Lemma strip_lstrip {A} (p : A -> bool) (s : list A) :
  Py.lstrip_by p (Py.rstrip_by p (Py.lstrip_by p s)) =
  Py.lstrip_by p (Py.rstrip_by p s).
Proof.
  induction s as [|c s IH]; [done|]. cbn [Py.lstrip_by].
  destruct (p c) eqn:Hc; [|done]. rewrite IH, rstrip_cons, Hc.
  destruct (Py.rstrip_by p s) as [|d r]; [done|].
  cbn [Py.lstrip_by]. by rewrite Hc.
Qed.

(** *** The end of a line *)

Lemma ends_with_app (s e : list N) : ends_with_points (s ++ e) e = true.
Proof.
  induction s as [|c s IH].
  - destruct e; cbn; by rewrite decide_True.
  - cbn [app ends_with_points]. by destruct (decide _).
Qed.

Lemma ends_with_suffix (s e : list N) :
  ends_with_points s e = true -> exists a, s = a ++ e.
Proof.
  induction s as [|c s IH]; cbn [ends_with_points].
  - destruct (decide ([] = e)) as [<-|]; [by exists []|done].
  - destruct (decide (c :: s = e)) as [<-|]; [by exists []|].
    intros (a & ->)%IH. by exists (c :: a).
Qed.

(** The line ends that [retarget_line] tells apart. *)
Definition line_end (core eol : list N) : Prop :=
  eol = [] \/ eol = [13; 10] \/ (eol = [10] /\ last core <> Some 13).

(** The two parts [retarget_line] cuts a line into. *)
Definition cut (line : list N) : list N * list N :=
  if ends_with_points line [13; 10]
  then (take (length line - 2) line, [13; 10])
  else if ends_with_points line [10]
  then (take (length line - 1) line, [10])
  else (line, []).

Lemma cut_line core eol :
  Forall (fun n => n <> 10) core -> line_end core eol ->
  cut (core ++ eol) = (core, eol).
Proof.
  intros Hcore [->|[->|[-> Hlast]]]; unfold cut.
  - rewrite app_nil_r.
    destruct (ends_with_points core [13; 10]) eqn:E1.
    { apply ends_with_suffix in E1 as (a & ->).
      apply Forall_app in Hcore as [_ H]. by inversion H as [|? ? _ H']; inversion H'. }
    destruct (ends_with_points core [10]) eqn:E2; [|done].
    apply ends_with_suffix in E2 as (a & ->).
    apply Forall_app in Hcore as [_ H]. by inversion H.
  - rewrite ends_with_app, length_app. cbn [length].
    replace (length core + 2 - 2)%nat with (length core) by lia.
    by rewrite take_app_length.
  - destruct (ends_with_points (core ++ [10]) [13; 10]) eqn:E1.
    { apply ends_with_suffix in E1 as (a & E).
      change [13; 10] with ([13] ++ [10]) in E. rewrite app_assoc in E.
      apply app_inj_tail in E as [-> _]. by rewrite last_snoc in Hlast. }
    rewrite ends_with_app, length_app. cbn [length].
    replace (length core + 1 - 1)%nat with (length core) by lia.
    by rewrite take_app_length.
Qed.

(** *** The first run of the pattern *)

Lemma first_lazy_one (p : N -> bool) (c : N) (s : list N) :
  p c = true ->
  match_here code_p (Rep false p 1 None) (c :: s) = Some ([c], s).
Proof.
  intros Hc. unfold match_here. cbn [runs rep]. unfold code_p at 1.
  rewrite Hc. cbn. by destruct s.
Qed.

Lemma first_eos_nil : match_here code_p Eos [] = Some ([], []).
Proof. reflexivity. Qed.

Lemma first_rest (s : list N) :
  Forall (fun n => n <> 10) s ->
  match_here code_p FILE_LINE_REST s = Some (s, []).
Proof.
  intros Hs. unfold FILE_LINE_REST, cat, star. cbn [foldr].
  rewrite <- (app_nil_r s) at 1.
  etransitivity.
  { eapply first_cat.
    { apply (first_rep_greedy code_p _ s 0%nat None []); [|lia|done|by right; left].
      eapply Forall_impl; [exact Hs|]. intros n Hn. unfold neg, lit, code_p.
      apply negb_true_iff, N.eqb_neq. exact Hn. }
    cbn [snd]. eapply first_cat; [apply first_eos_nil | apply first_eps]. }
  cbn [fst snd app]. by rewrite app_nil_r.
Qed.

(** What follows an optional double quote. *)
Definition unquote (s : list N) : list N :=
  match s with
  | 34 :: s' => s'
  | _ => s
  end.

Lemma first_quote (s : list N) :
  exists m, match_here code_p (Opt (Chr (lit "034"))) s = Some (m, unquote s) /\
            s = m ++ unquote s.
Proof.
  destruct s as [|c s]; [by exists []|].
  destruct (decide (c = 34)) as [->|Hc].
  - exists [34]. split; [|done]. apply first_opt_some. by apply first_chr.
  - exists []. split.
    + rewrite first_opt_none.
      * cbn. f_equal. f_equal. unfold unquote.
        destruct c as [|p]; [done|]. repeat (destruct p as [p|p|]; try done).
      * apply none_chr. unfold lit, code_p. by apply N.eqb_neq.
    + unfold unquote. destruct c as [|p]; [done|].
      repeat (destruct p as [p|p|]; try done).
Qed.

Lemma lstrip_head {A} (p : A -> bool) (s : list A) c s' :
  Py.lstrip_by p s = c :: s' -> p c = false.
Proof.
  induction s as [|d s IH]; [done|]. cbn [Py.lstrip_by].
  destruct (p d) eqn:Hd; [exact IH|]. by intros [= <- _].
Qed.

Lemma lstrip_Forall {A} (P : A -> Prop) (p : A -> bool) (s : list A) :
  Forall P s -> Forall P (Py.lstrip_by p s).
Proof.
  induction 1 as [|c s Hc Hs IH]; [done|]. cbn [Py.lstrip_by].
  destruct (p c); [done | by constructor].
Qed.

Lemma unquote_Forall (P : N -> Prop) (s : list N) :
  Forall P s -> Forall P (unquote s).
Proof.
  intros H. destruct (first_quote s) as (m & _ & E). rewrite E in H.
  by apply Forall_app in H as [_ ?].
Qed.

(** The first run of the pattern up to group 2, on a line that begins with
    FILE, white space, a double quote or none, and a character [c]: it ends
    behind [c], one double quote and white space. *)
Lemma first_head (ws : list N) (quoted : bool) (c : N) (after : list N) :
  ws <> [] -> Forall (fun n => uspace n = true) ws ->
  c <> 34 -> (quoted = false -> uspace c = false) ->
  exists m,
    match_here code_p FILE_LINE_HEAD
      (points (str "FILE") ++ ws ++ (if quoted then [34] else []) ++ c :: after) =
    Some (m, Py.lstrip_by uspace (unquote after)).
Proof.
  intros Hws Hspace Hc Hq.
  destruct (first_quote after) as (m1 & Hm1 & _).
  destruct (StripFacts.lstrip_by_split uspace (unquote after)) as (sp & Hsp & Hall).
  eexists. unfold FILE_LINE_HEAD, cat, plus, star. cbn [foldr].
  change (points (str "FILE")) with [70; 73; 76; 69]. cbn [app].
  etransitivity.
  { eapply first_cat; [by apply first_chr|]. cbn [snd].
    eapply first_cat; [by apply first_chr|]. cbn [snd].
    eapply first_cat; [by apply first_chr|]. cbn [snd].
    eapply first_cat; [by apply first_chr|]. cbn [snd].
    eapply first_cat.
    { apply (first_rep_greedy code_p uspace ws 1%nat None).
      - exact Hspace.
      - destruct ws; [done | cbn; lia].
      - done.
      - right; right. destruct quoted.
        + by exists 34, (c :: after).
        + exists c, after. split; [done|]. by apply Hq. }
    cbn [snd]. eapply first_cat.
    { instantiate (1 := (if quoted then [34] else [], c :: after)).
      destruct quoted.
      - apply first_opt_some. by apply first_chr.
      - apply first_opt_none, none_chr. unfold lit, code_p. by apply N.eqb_neq. }
    cbn [snd]. eapply first_cat.
    { apply first_lazy_one. unfold neg, lit.
      by apply negb_true_iff, N.eqb_neq. }
    cbn [snd]. eapply first_cat; [exact Hm1|]. cbn [snd].
    eapply first_cat; [|apply first_eps].
    rewrite Hsp at 1.
    apply (first_rep_greedy code_p uspace sp 0%nat None); [done | lia | done |].
    destruct (Py.lstrip_by uspace (unquote after)) as [|d r] eqn:E;
      [by right; left|].
    right; right. exists d, r. split; [done|]. by apply lstrip_head in E. }
  cbn [fst snd]. reflexivity.
Qed.

(** FILE_LINE_RE on such a line: group 2. *)
Lemma rest_of_line (ws : list N) (quoted : bool) (c : N) (after : list N) :
  ws <> [] -> Forall (fun n => uspace n = true) ws ->
  c <> 34 -> (quoted = false -> uspace c = false) ->
  Forall (fun n => n <> 10) after ->
  file_line_rest
    (points (str "FILE") ++ ws ++ (if quoted then [34] else []) ++ c :: after) =
  Some (Py.lstrip_by uspace (unquote after)).
Proof.
  intros Hws Hspace Hc Hq Hafter.
  destruct (first_head ws quoted c after Hws Hspace Hc Hq) as (m & Hm).
  assert (match_here code_p FILE_LINE_REST (Py.lstrip_by uspace (unquote after)) =
          Some (Py.lstrip_by uspace (unquote after), [])) as Hrest.
  { apply first_rest. by apply lstrip_Forall, unquote_Forall. }
  unfold file_line_rest. unfold match_here in Hm, Hrest.
  destruct (runs code_p FILE_LINE_HEAD _) as [|x l]; [done|].
  injection Hm as ->. cbn [flat_map fst snd].
  destruct (runs code_p FILE_LINE_REST _) as [|y l']; [done|].
  injection Hrest as ->. done.
Qed.

(** A blank and the rest of the line, if there is one. *)
Definition spaced (rest : list N) : list N :=
  match rest with
  | [] => []
  | _ => 32 :: rest
  end.

(** The new line for a FILE line, cut by [retarget_line] into [core] and
    [eol]. *)
Lemma retarget_file_line (new_bin_name : text) (ws : list N)
    (quoted : bool) (c : N) (after eol : list N) :
  let core :=
    points (str "FILE") ++ ws ++ (if quoted then [34] else []) ++ c :: after in
  ws <> [] -> Forall (fun n => uspace n = true) ws ->
  c <> 34 -> (quoted = false -> uspace c = false) ->
  Forall (fun n => n <> 10) (ws ++ c :: after) ->
  line_end core eol ->
  retarget_line new_bin_name (core ++ eol) =
  Some (points (str "FILE ") ++ [34] ++ points new_bin_name ++ [34] ++
        spaced (Py.lstrip_by uspace (Py.rstrip_by uspace (unquote after))) ++
        eol).
Proof.
  intros core Hws Hspace Hc Hq Hlf Hend.
  apply Forall_app in Hlf as [Hlf1 Hlf2].
  apply Forall_cons in Hlf2 as [Hlf2 Hlf3].
  assert (Forall (fun n => n <> 10) core) as Hcore.
  { subst core. apply Forall_app. split; [by repeat constructor|].
    apply Forall_app. split; [done|]. apply Forall_app.
    split; [destruct quoted; by repeat constructor | by constructor]. }
  unfold retarget_line.
  change (if ends_with_points (core ++ eol) [13; 10]
          then (take (length (core ++ eol) - 2) (core ++ eol), [13; 10])
          else if ends_with_points (core ++ eol) [10]
               then (take (length (core ++ eol) - 1) (core ++ eol), [10])
               else (core ++ eol, [])) with (cut (core ++ eol)).
  rewrite (cut_line core eol Hcore Hend). cbn [fst snd].
  subst core. rewrite rest_of_line by done.
  rewrite strip_lstrip. unfold spaced.
  destruct (Py.lstrip_by _ (Py.rstrip_by _ _)) as [|d r].
  - f_equal. by rewrite <- !app_assoc.
  - f_equal. by rewrite <- !app_assoc.
Qed.

(** *** The lines [read_text] and [splitlines] hand to the loop *)

(** The end of the line [eol] before [tail], as it stands in the file: LF,
    CR LF, a CR alone, or none at the end of the file. *)
Definition file_end (eol tail : list N) : Prop :=
  eol = [10] \/ eol = [13; 10] \/ (eol = [13] /\ head tail <> Some 10) \/
  (eol = [] /\ tail = []).

(** The same end as the loop gets it. *)
Definition read_end (eol : list N) : list N :=
  match eol with
  | [] => []
  | _ => [10]
  end.

(** The text of a file after the loop: each line replaced by its new line,
    if it has one. *)
Definition rewritten (new_bin_name : text) (s : list N) : list N :=
  concat (map (fun line => default line (retarget_line new_bin_name line))
              (splitlines [] (universal_newlines s))).

Lemma linebreak_cr n : linebreak n = false -> (n =? 13) = false.
Proof. intros H. destruct (N.eqb_spec n 13) as [->|]; [by vm_compute in H|done]. Qed.

Lemma universal_clean (a b : list N) :
  Forall (fun n => n <> 13) a ->
  universal_newlines (a ++ b) = a ++ universal_newlines b.
Proof.
  induction 1 as [|c a Hc _ IH]; [done|]. cbn [app universal_newlines].
  apply N.eqb_neq in Hc. by rewrite Hc, IH.
Qed.

Lemma universal_cr (d : N) (s : list N) :
  d <> 10 -> universal_newlines (13 :: d :: s) = 10 :: universal_newlines (d :: s).
Proof.
  intros Hd. change (universal_newlines (13 :: d :: s)) with
    (match d :: s with
     | 10 :: s'' => 10 :: universal_newlines s''
     | _ => 10 :: universal_newlines (d :: s)
     end).
  destruct d as [|p]; [done|].
  do 4 (try destruct p as [p|p|]; try done).
Qed.

Lemma last_cons_cons {A} (a b : A) (s : list A) : last (a :: b :: s) = last (b :: s).
Proof. reflexivity. Qed.

Lemma universal_app_le (n : nat) : forall a b : list N,
  (length a <= n)%nat -> last a <> Some 13 ->
  universal_newlines (a ++ b) = universal_newlines a ++ universal_newlines b.
Proof.
  induction n as [|n IH]; intros a b Hlen Hlast.
  { destruct a; [done|cbn in Hlen; lia]. }
  destruct a as [|c a]; [done|].
  destruct (N.eqb_spec c 13) as [->|Hc].
  - destruct a as [|d a]; [done|].
    destruct (N.eqb_spec d 10) as [->|Hd].
    + change (universal_newlines ((13 :: 10 :: a) ++ b)) with
        (10 :: universal_newlines (a ++ b)).
      change (universal_newlines (13 :: 10 :: a)) with (10 :: universal_newlines a).
      cbn [app]. f_equal. apply IH; [cbn in Hlen; lia|].
      destruct a; [done|]. by rewrite !last_cons_cons in Hlast.
    + cbn [app]. rewrite !universal_cr by done. cbn [app]. f_equal.
      apply (IH (d :: a) b); [cbn in Hlen |- *; lia|].
      by rewrite last_cons_cons in Hlast.
  - cbn [app universal_newlines]. apply N.eqb_neq in Hc. rewrite Hc.
    cbn [app]. f_equal. apply IH; [cbn in Hlen; lia|].
    destruct a; [done|]. by rewrite last_cons_cons in Hlast.
Qed.

Lemma universal_app (a b : list N) :
  last a <> Some 13 ->
  universal_newlines (a ++ b) = universal_newlines a ++ universal_newlines b.
Proof. by apply (universal_app_le (length a)). Qed.

(** No CR is left in what is read. *)
Lemma universal_no_cr_le (n : nat) : forall s : list N,
  (length s <= n)%nat -> Forall (fun n => n <> 13) (universal_newlines s).
Proof.
  induction n as [|n IH]; intros s Hlen.
  { destruct s; [constructor|cbn in Hlen; lia]. }
  destruct s as [|c s]; [constructor|].
  destruct (N.eqb_spec c 13) as [->|Hc].
  - destruct s as [|d s]; [by repeat constructor|].
    destruct (N.eqb_spec d 10) as [->|Hd].
    + change (universal_newlines (13 :: 10 :: s)) with (10 :: universal_newlines s).
      constructor; [done|]. apply IH. cbn in Hlen. lia.
    + rewrite universal_cr by done. constructor; [done|]. apply IH.
      cbn in Hlen |- *. lia.
  - cbn [universal_newlines]. pose proof Hc as Hc'. apply N.eqb_neq in Hc'.
    rewrite Hc'. constructor; [done|]. apply IH. cbn in Hlen. lia.
Qed.

Lemma universal_no_cr (s : list N) : Forall (fun n => n <> 13) (universal_newlines s).
Proof. by apply (universal_no_cr_le (length s)). Qed.

(** A text that ends with LF is read as one. *)
Lemma universal_last (s : list N) :
  last s = Some 10 -> last (universal_newlines s) = Some 10.
Proof.
  intros Hlast.
  assert (exists a, s = a ++ [10]) as (a & ->).
  { destruct s as [|c s] using rev_ind; [done|].
    rewrite last_snoc in Hlast. injection Hlast as ->. by exists s. }
  clear Hlast.
  assert (forall n (a : list N), (length a <= n)%nat ->
            exists u, universal_newlines (a ++ [10]) = u ++ [10]) as H.
  { clear a. induction n as [|n IH]; intros a Hlen.
    { destruct a; [by exists []|cbn in Hlen; lia]. }
    destruct a as [|c a]; [by exists []|].
    destruct (N.eqb_spec c 13) as [->|Hc].
    - destruct a as [|d a]; [by exists []|].
      destruct (N.eqb_spec d 10) as [->|Hd].
      + destruct (IH a) as (u & Hu); [cbn in Hlen; lia|].
        exists (10 :: u). cbn [app].
        change (universal_newlines (13 :: 10 :: a ++ [10])) with
          (10 :: universal_newlines (a ++ [10])). by rewrite Hu.
      + destruct (IH (d :: a)) as (u & Hu); [cbn in Hlen |- *; lia|].
        exists (10 :: u). cbn [app]. rewrite universal_cr by done.
        cbn [app] in Hu. by rewrite Hu.
    - destruct (IH a) as (u & Hu); [cbn in Hlen; lia|].
      exists (c :: u). cbn [app universal_newlines]. apply N.eqb_neq in Hc.
      by rewrite Hc, Hu. }
  destruct (H (length a) a) as (u & ->); [done|]. apply last_snoc.
Qed.

(** The end of a line, read. *)
Lemma universal_end (eol tail : list N) :
  file_end eol tail ->
  universal_newlines (eol ++ tail) = read_end eol ++ universal_newlines tail.
Proof.
  intros [->|[->|[[-> Hd]|[-> ->]]]]; try reflexivity.
  destruct tail as [|d tail]; [reflexivity|].
  cbn [app]. rewrite universal_cr; [done|]. intros ->. by apply Hd.
Qed.

(** [splitlines] on what is read. *)
Lemma split_whole_lines (h x : list N) : forall cur,
  Forall (fun n => n <> 13) h -> last h = Some 10 ->
  splitlines cur (h ++ x) = splitlines cur h ++ splitlines [] x.
Proof.
  induction h as [|c h IH]; intros cur Hcr Hlast; [done|].
  apply Forall_cons in Hcr as [Hc Hcr]. apply N.eqb_neq in Hc.
  cbn [app splitlines]. rewrite Hc.
  destruct h as [|d h].
  - injection Hlast as ->. reflexivity.
  - rewrite last_cons_cons in Hlast.
    destruct (linebreak c); [cbn [app]; f_equal|]; by apply IH.
Qed.

Lemma split_line (core x : list N) : forall cur,
  Forall (fun n => linebreak n = false) core ->
  splitlines cur (core ++ 10 :: x) = (cur ++ core ++ [10]) :: splitlines [] x.
Proof.
  induction core as [|c core IH]; intros cur Hcore; [reflexivity|].
  apply Forall_cons in Hcore as [Hc Hcore].
  cbn [app splitlines]. rewrite (linebreak_cr c Hc), Hc, IH by done.
  by rewrite <- !app_assoc.
Qed.

Lemma split_last_line (core : list N) : forall cur,
  Forall (fun n => linebreak n = false) core -> cur ++ core <> [] ->
  splitlines cur core = [cur ++ core].
Proof.
  induction core as [|c core IH]; intros cur Hcore Hne.
  - rewrite app_nil_r in *. cbn. by destruct cur.
  - apply Forall_cons in Hcore as [Hc Hcore].
    cbn [splitlines]. rewrite (linebreak_cr c Hc), Hc, IH; [|done|].
    + by rewrite <- app_assoc.
    + rewrite <- app_assoc. by destruct cur.
Qed.

(** The lines of a file around one of its lines. *)
Lemma lines_around (head core eol tail : list N) :
  head = [] \/ last head = Some 10 ->
  core <> [] -> Forall (fun n => linebreak n = false) core ->
  file_end eol tail ->
  splitlines [] (universal_newlines (head ++ core ++ eol ++ tail)) =
  splitlines [] (universal_newlines head) ++
  (core ++ read_end eol) :: splitlines [] (universal_newlines tail).
Proof.
  intros Hhead Hne Hcore Hend.
  assert (Forall (fun n => n <> 13) core) as Hcr.
  { eapply Forall_impl; [exact Hcore|]. cbn. intros n Hn ->. by vm_compute in Hn. }
  assert (splitlines [] (universal_newlines (core ++ eol ++ tail)) =
          (core ++ read_end eol) :: splitlines [] (universal_newlines tail)) as Hline.
  { rewrite (universal_clean core) by done. rewrite (universal_end eol tail Hend).
    destruct Hend as [->|[->|[[-> _]|[-> ->]]]]; cbn [read_end app].
    1-3: rewrite split_line by done; reflexivity.
    cbn [universal_newlines splitlines]. rewrite !app_nil_r.
    rewrite split_last_line; done. }
  destruct Hhead as [->|Hlast]; [exact Hline|].
  rewrite universal_app by (rewrite Hlast; discriminate).
  rewrite split_whole_lines, Hline;
    [done | apply universal_no_cr | by apply universal_last].
Qed.

Lemma zip_default {A} (f : A -> option A) (l : list A) :
  zip_with (fun x r => default x r) l (map f l) = map (fun x => default x (f x)) l.
Proof. induction l as [|x l IH]; [done|]. cbn. by rewrite IH. Qed.

End CueLine.



(** ** Script 03: the name of an archive *)
Module Sanitize.
Import Chars Re ReFirst.

(** Replacing the characters of a class. *)
Lemma sub_chr {A} (code : A -> N) (p : N -> bool) (repl : list A) : forall s,
  sub code (Chr p) repl s =
  flat_map (fun c => if p (code c) then repl else [c]) s.
Proof.
  induction s as [|c s IH]; [reflexivity|]. cbn [flat_map].
  destruct (p (code c)) eqn:Hc.
  - rewrite (sub_some code (Chr p) repl (c :: s) [c] s); [by rewrite IH| |done].
    by apply first_chr.
  - rewrite sub_none; [by rewrite IH|]. by apply none_chr.
Qed.

Lemma rstrip_Forall {A} (P : A -> Prop) (p : A -> bool) (s : list A) :
  Forall P s -> Forall P (Py.rstrip_by p s).
Proof.
  intros H. destruct (StripFacts.rstrip_by_split p s) as (w & E & _).
  rewrite E in H. by apply Forall_app in H as [? _].
Qed.

Lemma rstrip_last {A} (p : A -> bool) (s : list A) c :
  last (Py.rstrip_by p s) = Some c -> p c = false.
Proof.
  induction s as [|d s IH]; [done|]. rewrite CueLine.rstrip_cons.
  destruct (Py.rstrip_by p s) as [|e r].
  - destruct (p d) eqn:Hd; [done|]. by intros [= <-].
  - exact IH.
Qed.

Lemma rstrip_snoc {A} (p : A -> bool) (s : list A) c :
  Py.rstrip_by p (s ++ [c]) = if p c then Py.rstrip_by p s else s ++ [c].
Proof.
  unfold Py.rstrip_by. rewrite rev_app_distr. cbn [rev app Py.lstrip_by].
  destruct (p c); [done|]. cbn [rev]. by rewrite rev_involutive.
Qed.

(** What is left of a text after stripping at the left ends as the text
    does. *)
Lemma lstrip_last {A} (p : A -> bool) (s : list A) :
  Py.lstrip_by p s <> [] -> last (Py.lstrip_by p s) = last s.
Proof.
  intros Hne. destruct (StripFacts.lstrip_by_split p s) as (w & E & _).
  rewrite E at 2. destruct (Py.lstrip_by p s) as [|c r] eqn:El; [done|].
  by rewrite last_app_cons.
Qed.

Lemma strip_ends (s : text) :
  (forall c r, Py.strip s = c :: r -> isspace c = false) /\
  (forall c, last (Py.strip s) = Some c -> isspace c = false).
Proof.
  unfold Py.strip, Py.lstrip, Py.rstrip. split.
  - intros c r. apply CueLine.lstrip_head.
  - intros c Hc.
    destruct (Py.lstrip_by isspace (Py.rstrip_by isspace s)) eqn:E; [done|].
    rewrite <- E, lstrip_last in Hc by (by rewrite E).
    by apply rstrip_last in Hc.
Qed.

(** A character that may stand in a file name. *)
Definition legal (c : ascii) : Prop := Pack.illegal_fs_char (code_s c) = false.

Lemma underscore_legal : legal "_"%char.
Proof. reflexivity. Qed.

Lemma replaced_legal name :
  Forall legal (sub code_s Pack.ILLEGAL_FS_CHARS_RE (str "_") name).
Proof.
  unfold Pack.ILLEGAL_FS_CHARS_RE. rewrite sub_chr.
  induction name as [|c name IH]; [done|]. cbn [flat_map].
  apply Forall_app. split; [|done].
  destruct (Pack.illegal_fs_char (code_s c)) eqn:Hc; by repeat constructor.
Qed.

Lemma replaced_same name :
  Forall legal name ->
  sub code_s Pack.ILLEGAL_FS_CHARS_RE (str "_") name = name.
Proof.
  unfold Pack.ILLEGAL_FS_CHARS_RE. rewrite sub_chr.
  induction 1 as [|c name Hc _ IH]; [done|]. cbn [flat_map].
  unfold legal in Hc. by rewrite Hc, IH.
Qed.

End Sanitize.

(** X13.  [sanitize_filename] gives a name that can be used: it is never
    empty, it holds none of the characters backslash, slash, colon, star,
    question mark, double quote, less, greater and bar, and it neither
    begins nor ends with white space.  It can still end with a dot: the dots
    at the end are taken off before the white space is, so that a legal name
    followed by a dot and a blank keeps the dot. *)
Theorem X13_sanitize_filename_usable (name : text) :
  let r := Pack.sanitize_filename name in
  r <> [] /\
  Forall Sanitize.legal r /\
  (forall c r', r = c :: r' -> Chars.isspace c = false) /\
  (forall c, last r = Some c -> Chars.isspace c = false) /\
  (forall c s,
     Forall Sanitize.legal (c :: s) -> Chars.isspace c = false ->
     Pack.sanitize_filename (c :: s ++ str ". ") = c :: s ++ str ".").
Proof.
  cbn zeta. unfold Pack.sanitize_filename.
  set (replaced := Re.sub Re.code_s Pack.ILLEGAL_FS_CHARS_RE (str "_") name).
  set (undotted := Py.rstrip_by (fun c => bool_decide (c = "."%char)) replaced).
  assert (Forall Sanitize.legal (Py.strip undotted)) as Hlegal.
  { unfold Py.strip, Py.lstrip, Py.rstrip.
    apply CueLine.lstrip_Forall, Sanitize.rstrip_Forall, Sanitize.rstrip_Forall.
    apply Sanitize.replaced_legal. }
  destruct (Sanitize.strip_ends undotted) as [Hfirst Hlast].
  split; [|split; [|split; [|split]]].
  - by destruct (Py.strip undotted).
  - destruct (Py.strip undotted); [by repeat constructor | done].
  - destruct (Py.strip undotted) as [|d r] eqn:E.
    + by intros c r' [= <- _].
    + intros c r' [= <- _]. by eapply Hfirst.
  - destruct (Py.strip undotted) as [|d r] eqn:E.
    + by intros c [= <-].
    + exact Hlast.
  - intros c s Hcs Hc.
    assert (c :: s ++ str ". " = ((c :: s) ++ ["."%char]) ++ [" "%char]) as ->.
    { cbn [app]. by rewrite <- app_assoc. }
    rewrite Sanitize.replaced_same.
    2:{ rewrite !Forall_app. split; [split|]; [done | |]; by repeat constructor. }
    rewrite Sanitize.rstrip_snoc. cbn [bool_decide decide_rel].
    rewrite bool_decide_eq_false_2 by done.
    unfold Py.strip, Py.lstrip, Py.rstrip. rewrite Sanitize.rstrip_snoc.
    change (Chars.isspace " "%char) with true. cbn iota.
    rewrite Sanitize.rstrip_snoc. change (Chars.isspace "."%char) with false. cbn iota.
    cbn [app Py.lstrip_by]. by rewrite Hc.
Qed.

Lemma X13_okami_witness :
  Pack.sanitize_filename (str "Okami. ") = str "Okami.".
Proof.
  apply (proj2 (proj2 (proj2 (proj2 (X13_sanitize_filename_usable []))))
           "O"%char (str "kami")); [by repeat constructor | reflexivity].
Defined.

(** ** Script 03: the discs of a game *)
Module Collect.
Import Fs.

Definition bin_of (cue : path) : path := with_suffix cue (str ".bin").
Definition key_of (cue : path) : text := (Pack.game_key_from_stem (stem cue)).1.
Definition display_of (cue : path) : text := (Pack.game_key_from_stem (stem cue)).2.

(** The cue sheets [collect_games] looks at, in its order. *)
Definition cues (root : path) (w : world) : list path :=
  sorted (List.filter (fun p => ends_with (name p) (str ".cue")) (iterdir root w)).

(** A cue sheet that counts for the game [key]: its image is there and its
    stem gives that key. *)
Definition packs (w : world) (key : text) (cue : path) : bool :=
  exists_ (bin_of cue) w && bool_decide (key_of cue = key).

(** What the games hold for [key] once the cue sheets [done] are through. *)
Definition grouped (w : world) (done : list path) (games : Pack.games_map)
    (key : text) : Prop :=
  match games !! key with
  | Some (display, files) =>
      key <> [] /\
      (exists cue, List.find (packs w key) done = Some cue /\
                   display = display_of cue) /\
      (forall p, p ∈ files <->
         exists cue, cue ∈ done /\ packs w key cue = true /\
                     (p = cue \/ p = bin_of cue))
  | None => key = [] \/ forall cue, cue ∈ done -> packs w key cue = false
  end.

Lemma find_snoc {A} (f : A -> bool) (l : list A) (x : A) :
  List.find f (l ++ [x]) =
  match List.find f l with
  | Some y => Some y
  | None => if f x then Some x else None
  end.
Proof. induction l as [|a l IH]; cbn; [done|]. by destruct (f a). Qed.

Lemma find_nothing {A} (f : A -> bool) (l : list A) :
  (forall x, x ∈ l -> f x = false) -> List.find f l = None.
Proof.
  induction l as [|a l IH]; [done|]. intros H. cbn.
  rewrite (H a) by apply list_elem_of_here. apply IH. intros x Hx.
  apply H. by apply list_elem_of_further.
Qed.

Lemma grouped_skip w done games key cue :
  (key <> [] -> packs w key cue = false) ->
  grouped w done games key -> grouped w (done ++ [cue]) games key.
Proof.
  unfold grouped. intros Hskip. destruct (games !! key) as [[display files]|].
  - intros (Hne & (c & Hc & Hd) & Hfiles). split; [done|]. split.
    + exists c. by rewrite find_snoc, Hc.
    + intros p. rewrite Hfiles. split.
      * intros (c' & Hin & Hp & Hor). exists c'. split; [|done].
        apply elem_of_app. by left.
      * intros (c' & Hin & Hp & Hor). exists c'. split; [|done].
        apply elem_of_app in Hin as [Hin|Hin]; [done|].
        apply list_elem_of_singleton in Hin as ->.
        rewrite Hskip in Hp; done.
  - intros [->|Hnone]; [by left|].
    destruct (decide (key = [])) as [->|Hne]; [by left|]. right.
    intros c' Hin. apply elem_of_app in Hin as [Hin|Hin]; [by apply Hnone|].
    apply list_elem_of_singleton in Hin as ->. by apply Hskip.
Qed.

Lemma grouped_add w done games key cue :
  exists_ (bin_of cue) w = true -> key_of cue <> [] ->
  grouped w done games key ->
  grouped w (done ++ [cue])
    (<[key_of cue :=
         ((default (display_of cue, ∅) (games !! key_of cue)).1,
          {[cue; bin_of cue]} ∪ (default (display_of cue, ∅) (games !! key_of cue)).2)]>
       games) key.
Proof.
  intros Hbin Hkey H.
  assert (packs w (key_of cue) cue = true) as Hcue.
  { unfold packs. by rewrite Hbin, bool_decide_eq_true_2. }
  destruct (decide (key = key_of cue)) as [->|Hne].
  - unfold grouped in *. rewrite lookup_insert_eq.
    destruct (games !! key_of cue) as [[display files]|]; cbn [default fst snd id].
    + destruct H as (_ & (c & Hc & Hd) & Hfiles). split; [done|]. split.
      { exists c. by rewrite find_snoc, Hc. }
      intros p. rewrite elem_of_union, Hfiles. split.
      * intros [Hp|(c' & Hin & Hp & Hor)].
        -- exists cue. split; [apply elem_of_app; right; by apply list_elem_of_singleton|].
           split; [done|]. apply elem_of_union in Hp as [Hp|Hp];
             apply elem_of_singleton in Hp; [by left | by right].
        -- exists c'. split; [|done]. apply elem_of_app. by left.
      * intros (c' & Hin & Hp & Hor).
        apply elem_of_app in Hin as [Hin|Hin].
        -- right. by exists c'.
        -- apply list_elem_of_singleton in Hin as ->. left.
           destruct Hor as [->| ->]; set_solver.
    + destruct H as [H|Hnone]; [done|]. split; [done|]. split.
      { exists cue. by rewrite find_snoc, (find_nothing _ _ Hnone), Hcue. }
      intros p. split.
      * intros Hp. exists cue.
        split; [apply elem_of_app; right; by apply list_elem_of_singleton|].
        split; [done|]. set_solver.
      * intros (c' & Hin & Hp & Hor).
        apply elem_of_app in Hin as [Hin|Hin].
        -- by rewrite (Hnone c' Hin) in Hp.
        -- apply list_elem_of_singleton in Hin as ->.
           destruct Hor as [->| ->]; set_solver.
  - assert (grouped w (done ++ [cue]) games key) as H'.
    { apply grouped_skip; [|done]. intros _. unfold packs.
      rewrite (bool_decide_eq_false_2 (key_of cue = key)) by done.
      apply andb_false_r. }
    unfold grouped in *. by rewrite lookup_insert_ne.
Qed.

(** One turn of the loop keeps the games grouped and only prints. *)
Lemma collect_step_grouped w done st cue :
  FsFacts.reported w st.1 -> (forall key, grouped w done st.2 key) ->
  FsFacts.reported w (Pack.collect_step st cue).1 /\
  forall key, grouped w (done ++ [cue]) (Pack.collect_step st cue).2 key.
Proof.
  destruct st as [w1 games]. cbn [fst snd]. intros Hrep Hinv.
  assert (exists_ (bin_of cue) w1 = exists_ (bin_of cue) w) as Hsame.
  { destruct Hrep as (Hf & Hd & _). by apply FsFacts.exists_same. }
  unfold Pack.collect_step. cbn zeta. cbn [fst snd].
  change (with_suffix cue (str ".bin")) with (bin_of cue).
  change (Pack.game_key_from_stem (stem cue)).1 with (key_of cue).
  change (Pack.game_key_from_stem (stem cue)).2 with (display_of cue).
  rewrite Hsame. destruct (exists_ (bin_of cue) w) eqn:Hbin; cbn [negb].
  - destruct (key_of cue) as [|a k] eqn:Hkey.
    + cbn [fst snd]. split; [by apply FsFacts.reported_print_trans|].
      intros key. apply grouped_skip; [|done]. intros Hne. unfold packs.
      rewrite Hkey, bool_decide_eq_false_2 by done. apply andb_false_r.
    + cbn [fst snd]. split; [done|]. intros key. rewrite <- Hkey.
      apply grouped_add; [done | by rewrite Hkey | done].
  - cbn [fst snd]. split; [by apply FsFacts.reported_print_trans|].
    intros key. apply grouped_skip; [|done]. intros _. unfold packs.
    by rewrite Hbin.
Qed.

Lemma collect_fold_grouped w : forall l done st,
  FsFacts.reported w st.1 -> (forall key, grouped w done st.2 key) ->
  FsFacts.reported w (foldl Pack.collect_step st l).1 /\
  forall key, grouped w (done ++ l) (foldl Pack.collect_step st l).2 key.
Proof.
  induction l as [|cue l IH]; intros done st Hrep Hinv.
  - by rewrite app_nil_r.
  - cbn [foldl].
    destruct (collect_step_grouped w done st cue Hrep Hinv) as [Hrep' Hinv'].
    replace (done ++ cue :: l) with ((done ++ [cue]) ++ l)
      by (by rewrite <- app_assoc).
    by apply IH.
Qed.

Lemma collect_games_grouped root w :
  FsFacts.reported w (Pack.collect_games root w).1 /\
  forall key, grouped w (cues root w) (Pack.collect_games root w).2 key.
Proof.
  unfold Pack.collect_games. apply (collect_fold_grouped w _ [] (w, ∅)).
  - apply FsFacts.reported_refl.
  - intros key. unfold grouped. cbn [snd]. rewrite lookup_empty. right.
    intros cue Hin. by apply elem_of_nil in Hin.
Qed.

Lemma key_is_lower cue : key_of cue = Py.lower (display_of cue).
Proof. reflexivity. Qed.

End Collect.

(** X14.  [collect_games] only prints, and groups the cue sheets of the
    directory by their key.  A game it returns has a key that is not empty
    and a set of files that is not empty; the files are exactly the cue
    sheets of the directory whose image exists and whose stem gives the key,
    each with its image; the display name is the one of the first such cue
    sheet in sorted order, and its lower case is the key.  A key it does not
    return is empty or the key of no cue sheet with an image. *)
Theorem X14_collect_games_groups (root : Fs.path) (w : Fs.world) (key : text) :
  FsFacts.reported w (Pack.collect_games root w).1 /\
  match (Pack.collect_games root w).2 !! key with
  | Some (display, files) =>
      key <> [] /\ files <> ∅ /\ Py.lower display = key /\
      (exists cue, List.find (Collect.packs w key) (Collect.cues root w) = Some cue /\
                   display = (Pack.game_key_from_stem (Fs.stem cue)).2) /\
      (forall p, p ∈ files <->
         exists cue,
           (cue ∈ Fs.iterdir root w /\ Fs.ends_with (Fs.name cue) (str ".cue") = true) /\
           (Fs.exists_ (Fs.with_suffix cue (str ".bin")) w = true /\
            (Pack.game_key_from_stem (Fs.stem cue)).1 = key) /\
           (p = cue \/ p = Fs.with_suffix cue (str ".bin")))
  | None =>
      key = [] \/
      forall cue, cue ∈ Fs.iterdir root w ->
        Fs.ends_with (Fs.name cue) (str ".cue") = true ->
        Fs.exists_ (Fs.with_suffix cue (str ".bin")) w = true ->
        (Pack.game_key_from_stem (Fs.stem cue)).1 <> key
  end.
Proof.
  destruct (Collect.collect_games_grouped root w) as [Hrep Hinv].
  split; [done|]. specialize (Hinv key). unfold Collect.grouped in Hinv.
  assert (forall cue, cue ∈ Collect.cues root w <->
            cue ∈ Fs.iterdir root w /\ Fs.ends_with (Fs.name cue) (str ".cue") = true)
    as Hcues.
  { intros cue. unfold Collect.cues.
    by rewrite FrameFacts.sorted_elem, list_elem_of_In, filter_In, <- list_elem_of_In. }
  assert (forall cue, Collect.packs w key cue = true <->
            Fs.exists_ (Fs.with_suffix cue (str ".bin")) w = true /\
            (Pack.game_key_from_stem (Fs.stem cue)).1 = key) as Hpacks.
  { intros cue. unfold Collect.packs.
    by rewrite andb_true_iff, bool_decide_eq_true. }
  destruct ((Pack.collect_games root w).2 !! key) as [[display files]|].
  - destruct Hinv as (Hne & (c & Hc & Hd) & Hfiles).
    assert (forall p, p ∈ files <->
         exists cue,
           (cue ∈ Fs.iterdir root w /\ Fs.ends_with (Fs.name cue) (str ".cue") = true) /\
           (Fs.exists_ (Fs.with_suffix cue (str ".bin")) w = true /\
            (Pack.game_key_from_stem (Fs.stem cue)).1 = key) /\
           (p = cue \/ p = Fs.with_suffix cue (str ".bin"))) as Hfiles'.
    { intros p. rewrite Hfiles. split; intros (cue & H1 & H2 & H3); exists cue.
      - by rewrite <- Hcues, <- Hpacks.
      - by rewrite Hcues, Hpacks. }
    destruct (find_some _ _ Hc) as [Hin Hp].
    apply list_elem_of_In in Hin. apply Hpacks in Hp as [Hbin Hkey].
    split; [done|]. split; [|split; [|split; [by exists c | done]]].
    + intros ->. apply (not_elem_of_empty (C := gset Fs.path) c), Hfiles'.
      exists c. split; [by apply Hcues|]. split; [done | by left].
    + by rewrite Hd, <- Hkey.
  - destruct Hinv as [->|Hnone]; [by left | right].
    intros cue Hin Hcue Hbin Hkey.
    assert (Collect.packs w key cue = true) as Hp by (by apply Hpacks).
    rewrite Hnone in Hp; [done | by apply Hcues].
Qed.

(** ** Script 03: a run that makes archives *)
Module PackRun.
Import Fs.

(** Nothing that was there is lost or altered: the directories are the same
    and every file holds what it held. *)
Definition kept (w w' : world) : Prop :=
  dirs w' = dirs w /\
  forall p content, files w !! p = Some content -> files w' !! p = Some content.

Lemma kept_refl w : kept w w.
Proof. by split. Qed.

Lemma kept_trans w1 w2 w3 : kept w1 w2 -> kept w2 w3 -> kept w1 w3.
Proof.
  intros [Hd1 Hf1] [Hd2 Hf2]. split; [congruence|].
  intros p content Hp. by apply Hf2, Hf1.
Qed.

Lemma reported_kept w w' : FsFacts.reported w w' -> kept w w'.
Proof. intros (Hf & Hd & _). split; [done|]. by rewrite Hf. Qed.

Lemma kept_print line w : kept w (print line w).
Proof. apply reported_kept, FsFacts.reported_print. Qed.

Section Tools.
Variable which : text -> option text.
Variable cpu_count : option nat.
Variable error_text : list text -> Z -> text.
Variable run_command : list text -> path -> world -> world * Z.

(** The 7z command writes the archive it is told to, the sixth word of its
    command line, in its working directory, and no other file. *)
Definition archive_only : Prop :=
  forall cmd cwd w archive_name,
    cmd !! 5%nat = Some archive_name ->
    FrameFacts.changes_only (fun p => p = cwd ++ [archive_name]) w
                            (run_command cmd cwd w).1.

Hypothesis tool : archive_only.

Lemma build_archive_kept sevenzip root display files level threads dry_run w :
  match Pack.build_archive run_command sevenzip root display files level threads
                           false dry_run w with
  | Pack.Built w' | Pack.Failed w' _ _ => kept w w'
  | Pack.Crashed _ => False
  end.
Proof using tool.
  unfold Pack.build_archive. cbn zeta.
  set (archive_name := Pack.sanitize_filename display ++ str ".7z").
  destruct (exists_ (root ++ [archive_name]) w) eqn:Hex; cbn [andb negb].
  { apply kept_print. }
  destruct dry_run; [apply kept_print|].
  match goal with
  | |- context [run_command ?cmd root ?v] =>
      pose proof (tool cmd root v archive_name eq_refl) as (Hd & _ & Hf);
      assert (kept w (run_command cmd root v).1) as Hkept
  end.
  { split; [by rewrite Hd|]. intros p content Hp. rewrite Hf; [done|].
    intros ->.
    assert (exists_ (root ++ [archive_name]) w = true) as Hthere
      by (apply FrameFacts.exists_elem; left; by rewrite Hp).
    by rewrite Hex in Hthere. }
  match goal with |- context [(?c =? 0)%Z] => by destruct (c =? 0)%Z end.
Qed.

Lemma build_all_kept sevenzip root games level threads dry_run :
  forall keys w,
    match Pack.build_all error_text run_command sevenzip root games keys level
                         threads false dry_run w with
    | inl o => (exists code, o = Return (final o) code) /\ kept w (final o)
    | inr w' => kept w w'
    end.
Proof using tool.
  induction keys as [|key keys IH]; intros w; cbn [Pack.build_all].
  { apply kept_refl. }
  cbn zeta. destruct (bool_decide _); [apply IH|].
  pose proof (build_archive_kept sevenzip root
                (default ([], ∅) (games !! key)).1
                (default ([], ∅) (games !! key)).2 level threads dry_run w) as H.
  destruct (Pack.build_archive _ _ _ _ _ _ _ _ _ _) as [w'|w' cmd code|w'];
    [| |done].
  - specialize (IH w').
    destruct (Pack.build_all _ _ _ _ _ _ _ _ _ _ _) as [o|w''].
    + destruct IH as [Hret Hk]. split; [done|]. by eapply kept_trans.
    + by eapply kept_trans.
  - cbn [final]. split; [by eexists|].
    eapply kept_trans; [exact H | apply kept_print].
Qed.

Lemma main_kept root dry_run sevenzip_option level threads_option w :
  let o := Pack.main which cpu_count error_text run_command root dry_run false
                     sevenzip_option level threads_option w in
  (exists code, o = Return (final o) code) /\ kept w (final o).
Proof using tool.
  cbn zeta. unfold Pack.main.
  destruct (negb (is_dir root w)).
  { cbn [final]. split; [by eexists | apply kept_print]. }
  destruct (Pack.find_7z which sevenzip_option) as [[|a sevenzip]|];
    [cbn [final]; split; [by eexists | apply kept_print] |
    |cbn [final]; split; [by eexists | apply kept_print]].
  cbn zeta.
  destruct (Collect.collect_games_grouped root w) as [Hrep _].
  apply reported_kept in Hrep.
  destruct (bool_decide _).
  { cbn [final]. split; [by eexists|].
    eapply kept_trans; [exact Hrep | apply kept_print]. }
  destruct (negb _ && _).
  { cbn [final]. split; [by eexists|].
    eapply kept_trans; [exact Hrep | apply kept_print]. }
  match goal with
  | |- context [Pack.build_all ?e ?r ?s ?ro ?g ?k ?l ?t false ?d ?v] =>
      pose proof (build_all_kept s ro g l t d k v) as H;
      destruct (Pack.build_all e r s ro g k l t false d v) as [o|w']
  end.
  - destruct H as [Hret Hk]. split; [done|]. by eapply kept_trans.
  - destruct dry_run; cbn [final]; (split; [by eexists|]);
      (eapply kept_trans; [exact Hrep|]);
      (eapply kept_trans; [exact H | apply kept_print]).
Qed.

End Tools.

(** A 7z command that writes an empty archive and succeeds. *)
Definition seven_zip (cmd : list text) (cwd : path) (w : world) : world * Z :=
  match cmd !! 5%nat with
  | Some archive_name => (write_bytes (cwd ++ [archive_name]) [] w, 0%Z)
  | None => (w, 2%Z)
  end.

Lemma seven_zip_archive_only : archive_only seven_zip.
Proof.
  intros cmd cwd w archive_name E. unfold seven_zip. rewrite E. cbn [fst].
  split; [done|]. split; [exists []; by rewrite app_nil_r|].
  intros p Hp. cbn. by rewrite lookup_insert_ne.
Qed.

End PackRun.

(** X15.  A run of script 03 without [--overwrite] loses nothing.  Let the 7z
    command write the archive named on its command line and no other file.
    Then the run ends with an exit status, never with an exception; the
    directories are the same afterwards; and every file that was there when
    it started holds what it held, the archives of earlier runs among them. *)
Theorem X15_pack_keeps_what_was_there
    (which : text -> option text) (cpu_count : option nat)
    (error_text : list text -> Z -> text)
    (run_command : list text -> Fs.path -> Fs.world -> Fs.world * Z)
    (root : Fs.path) (dry_run : bool) (sevenzip_option : option text)
    (level threads_option : Z) (w : Fs.world) :
  PackRun.archive_only run_command ->
  let o := Pack.main which cpu_count error_text run_command root dry_run false
                     sevenzip_option level threads_option w in
  (exists code, o = Fs.Return (Fs.final o) code) /\
  Fs.dirs (Fs.final o) = Fs.dirs w /\
  forall p content,
    Fs.files w !! p = Some content -> Fs.files (Fs.final o) !! p = Some content.
Proof.
  intros tool.
  destruct (PackRun.main_kept which cpu_count error_text run_command tool root
              dry_run sevenzip_option level threads_option w) as [Hret [Hd Hf]].
  by cbn zeta.
Qed.

Lemma X15_shelf_witness :
  PackRun.archive_only PackRun.seven_zip /\
  Fs.files
    (Fs.final (Pack.main (fun _ => Some (str "/usr/bin/7z")) (Some 4%nat)
                 (fun _ _ => str "failed") PackRun.seven_zip Shelf.root false false
                 None 9 0 Shelf.shelf))
    !! (Shelf.root ++ [str "Crash.bin"]) = Some (bytes_of "....SCUS_949.00;1....").
Proof.
  split; [exact PackRun.seven_zip_archive_only|].
  apply (X15_pack_keeps_what_was_there (fun _ => Some (str "/usr/bin/7z"))
           (Some 4%nat) (fun _ _ => str "failed") PackRun.seven_zip Shelf.root
           false None 9 0 Shelf.shelf PackRun.seven_zip_archive_only).
  vm_compute. reflexivity.
Defined.

(** ** Script 01: the copies of the track files *)
Module Copies.
Import Fs Cue01.

(** What copying the files [bins] into [dest_dir] under their names leaves:
    every source is there and untouched, a place that is no destination is
    untouched, and a destination holds the last file of its name. *)
Definition copied (dest_dir : path) (bins : list path) (w w' : world) : Prop :=
  dirs w' = dirs w /\
  Forall (fun bin => is_Some (files w !! bin) /\ bin <> dest_dir ++ [name bin] /\
                     files w' !! bin = files w !! bin) bins /\
  (forall p, (forall bin, bin ∈ bins -> p <> dest_dir ++ [name bin]) ->
     files w' !! p = files w !! p) /\
  (forall i bin, bins !! i = Some bin ->
     (forall j b, (i < j)%nat -> bins !! j = Some b -> name b <> name bin) ->
     files w' !! (dest_dir ++ [name bin]) = files w !! bin).

Lemma name_snoc (d : path) (n : text) : name (d ++ [n]) = n.
Proof. unfold name. apply last_last. Qed.

(** A source is no destination of another file: it would be its own. *)
Lemma source_apart (dest_dir bin : path) (n : text) :
  bin <> dest_dir ++ [name bin] -> dest_dir ++ [n] <> bin.
Proof. intros Hne <-. by rewrite name_snoc in Hne. Qed.

Lemma tracks_loop_copied dest_dir : forall bins k lines w w' lines',
  tracks_loop bins dest_dir k lines w = Some (w', lines') ->
  copied dest_dir bins w w'.
Proof.
  induction bins as [|b bins IH]; intros k lines w w' lines' E.
  - injection E as <- _. repeat split; [done|]. intros i bin Hi. done.
  - cbn [tracks_loop] in E. cbn zeta in E.
    destruct (copy2 b (dest_dir ++ [name b]) w) as [w1|] eqn:Hc; [|done].
    apply IH in E as (Hd & Hsrc & Hframe & Hlast).
    unfold copy2 in Hc. case_decide as Hself; [done|].
    destruct (files w !! b) as [content|] eqn:Hb; [|done].
    injection Hc as <-. cbn [files dirs write_bytes] in *.
    assert (forall p, p <> dest_dir ++ [name b] ->
              <[dest_dir ++ [name b] := content]> (files w) !! p = files w !! p)
      as Hw1 by (intros p Hp; by rewrite lookup_insert_ne).
    assert (Forall (fun bin => is_Some (files w !! bin) /\
                               bin <> dest_dir ++ [name bin] /\
                               files w' !! bin = files w !! bin) bins) as Hsrc'.
    { eapply Forall_impl; [exact Hsrc|]. cbn beta. intros bin (Hs & Hne & Hk).
      assert (bin <> dest_dir ++ [name b]) as Hap
        by (intros Heq; by apply (source_apart dest_dir bin (name b))).
      rewrite Hw1 in Hs, Hk by done. done. }
    split; [done|]. split; [|split].
    + constructor; [|done]. split; [by eexists|]. split; [done|].
      rewrite Hframe; [by rewrite Hw1, Hb|].
      intros bin Hin Heq. by apply (source_apart dest_dir b (name bin)).
    + intros p Hp. rewrite Hframe.
      * apply Hw1, Hp. apply list_elem_of_here.
      * intros bin Hin. apply Hp. by apply list_elem_of_further.
    + intros [|i] bin Hi Hlater.
      * injection Hi as ->. rewrite Hframe.
        -- by rewrite lookup_insert_eq.
        -- intros b' Hin Heq. apply app_inv_head in Heq. injection Heq as Heq.
           apply list_elem_of_lookup in Hin as [j Hj].
           by apply (Hlater (S j) b'); [lia | |].
      * cbn in Hi. rewrite (Hlast i bin Hi).
        -- apply Hw1. rewrite Forall_forall in Hsrc'.
           destruct (Hsrc' bin) as (_ & Hne & _);
             [by eapply list_elem_of_lookup_2|].
           intros Heq. by apply (source_apart dest_dir bin (name b)).
        -- intros j b' Hij Hj. apply (Hlater (S j) b'); [lia | done].
Qed.

Lemma copied_same_files dest_dir bins w1 w2 w' :
  files w2 = files w1 -> dirs w2 = dirs w1 ->
  copied dest_dir bins w2 w' -> copied dest_dir bins w1 w'.
Proof. unfold copied. intros -> ->. done. Qed.

(** The copies [synthesize_cue] has made when it writes the cue file. *)
Lemma synthesize_cue_copied bins dest_dir base_name w w' cue :
  synthesize_cue bins dest_dir base_name w = Some (w', cue) ->
  cue = dest_dir ++ [base_name ++ str ".cue"] /\
  exists w2 body,
    copied dest_dir bins (mkdir_p dest_dir w) w2 /\
    w' = write_bytes cue body w2.
Proof.
  unfold synthesize_cue. cbn zeta.
  assert (forall v,
    files v = files (mkdir_p dest_dir w) -> dirs v = dirs (mkdir_p dest_dir w) ->
    forall r,
    match r with
    | Some (w2, lines) =>
        Some (write_bytes (dest_dir ++ [base_name ++ str ".cue"])
                          (utf8 (concat lines)) w2,
              dest_dir ++ [base_name ++ str ".cue"])
    | None => None
    end = Some (w', cue) ->
    (forall w2 lines, r = Some (w2, lines) -> copied dest_dir bins v w2) ->
    cue = dest_dir ++ [base_name ++ str ".cue"] /\
    exists w2 body,
      copied dest_dir bins (mkdir_p dest_dir w) w2 /\
      w' = write_bytes cue body w2) as Hend.
  { intros v Hf Hd [[w2 lines]|] E Hr; [|done]. injection E as <- <-.
    split; [done|]. exists w2, (utf8 (concat lines)). split; [|done].
    eapply copied_same_files; [exact Hf | exact Hd | by eapply Hr]. }
  destruct bins as [|b [|b' bins]]; intros E.
  - match type of E with
    | match tracks_loop ?bs ?d ?k ?l ?v with _ => _ end = _ =>
        apply (Hend v eq_refl eq_refl (tracks_loop bs d k l v) E)
    end.
    intros w2 lines Hr. by eapply tracks_loop_copied.
  - match type of E with
    | match ?r with _ => _ end = _ =>
        apply (Hend (mkdir_p dest_dir w) eq_refl eq_refl r E)
    end.
    intros w2 lines Hr. apply (tracks_loop_copied dest_dir [b] 1 [] _ w2 lines).
    cbn [tracks_loop]. cbn zeta.
    destruct (copy2 b (dest_dir ++ [name b]) (mkdir_p dest_dir w)); [|done].
    injection Hr as <- <-. reflexivity.
  - match type of E with
    | match tracks_loop ?bs ?d ?k ?l ?v with _ => _ end = _ =>
        apply (Hend v eq_refl eq_refl (tracks_loop bs d k l v) E)
    end.
    intros w2 lines Hr. by eapply tracks_loop_copied.
Qed.

(** Two discs of a game whose track files have one name. *)
Definition two_discs : world :=
  World (list_to_map [([str "game"; str "cd1"; str "track.bin"], bytes_of "first disc");
                      ([str "game"; str "cd2"; str "track.bin"], bytes_of "second disc")])
        {[ [str "game"]; [str "game"; str "cd1"]; [str "game"; str "cd2"] ]} [].

End Copies.

(** X16.  What [synthesize_cue] leaves when it returns.  The cue file is
    [base_name] with the suffix .cue in the destination directory.  Every
    track file it was given is there and holds what it held; so does every
    file that is neither the cue file nor the copy of a track file.  The copy
    of a track file holds what the track file holds when no later file of the
    list has its name: of two track files with one name, in two directories,
    only the later one is copied, and the cue sheet names that copy twice. *)
Theorem X16_synthesize_cue_copies (bins : list Fs.path) (dest_dir : Fs.path)
    (base_name : text) (w w' : Fs.world) (cue : Fs.path) :
  Cue01.synthesize_cue bins dest_dir base_name w = Some (w', cue) ->
  cue = dest_dir ++ [base_name ++ str ".cue"] /\
  Fs.dirs w' = Fs.dirs (Fs.mkdir_p dest_dir w) /\
  (forall bin, bin ∈ bins ->
     is_Some (Fs.files w !! bin) /\ Fs.files w' !! bin = Fs.files w !! bin) /\
  (forall p, p <> cue ->
     (forall bin, bin ∈ bins -> p <> dest_dir ++ [Fs.name bin]) ->
     Fs.files w' !! p = Fs.files w !! p) /\
  (forall i bin, bins !! i = Some bin ->
     Fs.name bin <> base_name ++ str ".cue" ->
     (forall j b, (i < j)%nat -> bins !! j = Some b -> Fs.name b <> Fs.name bin) ->
     Fs.files w' !! (dest_dir ++ [Fs.name bin]) = Fs.files w !! bin).
Proof.
  intros E.
  apply Copies.synthesize_cue_copied in E
    as (-> & w2 & body & (Hd & Hsrc & Hframe & Hlast) & ->).
  split; [done|]. split; [done|]. rewrite Forall_forall in Hsrc.
  split; [|split].
  - intros bin Hin. destruct (Hsrc bin Hin) as (Hs & Hne & Hk).
    split; [done|]. cbn. rewrite lookup_insert_ne; [done|].
    by apply Copies.source_apart.
  - intros p Hp Hbins. cbn. rewrite lookup_insert_ne by done. by apply Hframe.
  - intros i bin Hi Hname Hlater. cbn. rewrite lookup_insert_ne.
    + by apply (Hlast i).
    + intros Heq. apply app_inv_head in Heq. by injection Heq as Heq.
Qed.

Lemma X16_two_discs_witness :
  exists w',
    Cue01.synthesize_cue (Cue01.find_with_depth [str "game"] (str ".bin") 2 Copies.two_discs)
      [str "tmp"] (str "Game") Copies.two_discs = Some (w', [str "tmp"; str "Game.cue"]) /\
    Fs.files w' !! [str "tmp"; str "track.bin"] = Some (bytes_of "second disc").
Proof.
  eexists. split; [vm_compute; reflexivity|].
  refine (proj2 (proj2 (proj2 (proj2
    (X16_synthesize_cue_copies
       (Cue01.find_with_depth [str "game"] (str ".bin") 2 Copies.two_discs)
       [str "tmp"] (str "Game") Copies.two_discs _ _ _)))) 1%nat
    [str "game"; str "cd2"; str "track.bin"] _ _ _).
  - vm_compute. reflexivity.
  - vm_compute. reflexivity.
  - discriminate.
  - intros [|[|[|j]]] b Hj; [lia..| |]; vm_compute; discriminate.
Defined.

(** ** Script 01: the cue file of a disc *)
Module PathOrder.
Import Fs.

(** The order of lists, first difference first, over an order of their
    elements. *)
Section Lex.
Context {A : Type} (cmp : A -> A -> comparison).
Hypothesis cmp_eq : forall x y, cmp x y = Eq -> x = y.
Hypothesis cmp_refl : forall x, cmp x x = Eq.
Hypothesis cmp_lt : forall x y z, cmp x y = Lt -> cmp y z = Lt -> cmp x z = Lt.

Fixpoint lex (a b : list A) : comparison :=
  match a, b with
  | [], [] => Eq
  | [], _ :: _ => Lt
  | _ :: _, [] => Gt
  | x :: a', y :: b' =>
      match cmp x y with
      | Eq => lex a' b'
      | c => c
      end
  end.

Lemma lex_eq : forall a b, lex a b = Eq -> a = b.
Proof using cmp_eq.
  induction a as [|x a IH]; intros [|y b]; cbn; try done.
  destruct (cmp x y) eqn:E; try done. intros H.
  by rewrite (cmp_eq x y E), (IH b H).
Qed.

Lemma lex_refl : forall a, lex a a = Eq.
Proof using cmp_refl.
  induction a as [|x a IH]; [done|]. cbn. by rewrite cmp_refl.
Qed.

Lemma lex_lt : forall a b c, lex a b = Lt -> lex b c = Lt -> lex a c = Lt.
Proof using cmp_eq cmp_lt.
  induction a as [|x a IH]; intros [|y b] [|z c]; cbn; try done.
  destruct (cmp x y) eqn:Exy; try done; destruct (cmp y z) eqn:Eyz; try done.
  - apply cmp_eq in Exy as ->. rewrite Eyz. apply IH.
  - apply cmp_eq in Exy as ->. by rewrite Eyz.
  - apply cmp_eq in Eyz as <-. by rewrite Exy.
  - by rewrite (cmp_lt x y z).
Qed.

Lemma lex_le : forall a b c, lex a b <> Gt -> lex b c <> Gt -> lex a c <> Gt.
Proof using cmp_eq cmp_refl cmp_lt.
  intros a b c Hab Hbc.
  destruct (lex a b) eqn:Eab; [| |done].
  - by apply lex_eq in Eab as ->.
  - destruct (lex b c) eqn:Ebc; [| |done].
    + apply lex_eq in Ebc as <-. by rewrite Eab.
    + by rewrite (lex_lt a b c).
Qed.

End Lex.

Definition code_compare (x y : ascii) : comparison :=
  N.compare (N_of_ascii x) (N_of_ascii y).

Lemma text_compare_lex : forall a b, text_compare a b = lex code_compare a b.
Proof.
  induction a as [|x a IH]; intros [|y b]; cbn; try done;
    unfold code_compare; by rewrite IH.
Qed.

Lemma path_compare_lex : forall p q, path_compare p q = lex text_compare p q.
Proof.
  induction p as [|x p IH]; intros [|y q]; cbn; try done; by rewrite IH.
Qed.

Lemma code_compare_eq x y : code_compare x y = Eq -> x = y.
Proof.
  unfold code_compare. intros H. apply N.compare_eq in H.
  by rewrite <- (ascii_N_embedding x), H, ascii_N_embedding.
Qed.

Lemma code_compare_refl x : code_compare x x = Eq.
Proof. apply N.compare_refl. Qed.

Lemma code_compare_lt x y z :
  code_compare x y = Lt -> code_compare y z = Lt -> code_compare x z = Lt.
Proof. unfold code_compare. rewrite !N.compare_lt_iff. lia. Qed.

Lemma text_compare_eq a b : text_compare a b = Eq -> a = b.
Proof. rewrite text_compare_lex. apply lex_eq, code_compare_eq. Qed.

Lemma text_compare_refl a : text_compare a a = Eq.
Proof. rewrite text_compare_lex. apply lex_refl, code_compare_refl. Qed.

Lemma text_compare_lt a b c :
  text_compare a b = Lt -> text_compare b c = Lt -> text_compare a c = Lt.
Proof.
  rewrite !text_compare_lex.
  apply lex_lt; [apply code_compare_eq | apply code_compare_lt].
Qed.

Lemma path_le_refl p : path_le p p.
Proof.
  unfold path_le. rewrite path_compare_lex, lex_refl; [done|].
  apply text_compare_refl.
Qed.

Lemma path_le_trans p q r : path_le p q -> path_le q r -> path_le p r.
Proof.
  unfold path_le. rewrite !path_compare_lex.
  apply lex_le; [apply text_compare_eq | apply text_compare_refl |
                 apply text_compare_lt].
Qed.

(** Two paths that come before each other are one path. *)
Lemma path_le_antisym p q : path_le p q -> path_le q p -> p = q.
Proof.
  unfold path_le. rewrite (CueFacts.path_compare_flip p q).
  destruct (path_compare p q) eqn:E; cbn; [|done..].
  intros _ _. rewrite path_compare_lex in E.
  by apply (lex_eq text_compare text_compare_eq).
Qed.

#[local] Existing Instance CueFacts.path_le_total.

#[local] Instance path_le_transitive : Transitive path_le.
Proof. intros p q r. apply path_le_trans. Qed.

(** The first of a sorted list comes before all of it. *)
Lemma sorted_head ps p rest :
  sorted ps = p :: rest -> forall q, q ∈ ps -> path_le p q.
Proof.
  intros E q Hq. apply FrameFacts.sorted_elem in Hq.
  assert (StronglySorted path_le (sorted ps)) as Hs.
  { apply Sorted_StronglySorted; [apply _|]. unfold sorted.
    apply Sorted_merge_sort. apply _. }
  rewrite E in Hs, Hq. apply StronglySorted_inv in Hs as [_ Hall].
  apply elem_of_cons in Hq as [->|Hq]; [apply path_le_refl|].
  rewrite Forall_forall in Hall. by apply Hall.
Qed.

End PathOrder.

Module Locate.
Import Fs Cue01.

(** The paths that are there are the files and the directories. *)
Lemma entries_elem p w : p ∈ entries w <-> exists_ p w = true.
Proof.
  unfold entries. rewrite elem_of_app, FrameFacts.exists_elem, elem_of_elements.
  apply or_iff_compat_r. rewrite list_elem_of_In, in_map_iff. split.
  - intros ([k v] & <- & Hin). apply list_elem_of_In, elem_of_map_to_list in Hin.
    by eexists.
  - intros [v Hv]. exists (p, v). split; [done|].
    by apply list_elem_of_In, elem_of_map_to_list.
Qed.

(** What [find_with_depth] lists. *)
Lemma find_with_depth_elem root ext max_depth w p :
  p ∈ find_with_depth root ext max_depth w <->
  exists_ p w = true /\ below root max_depth ext p = true.
Proof.
  unfold find_with_depth.
  by rewrite FrameFacts.sorted_elem, list_elem_of_In, filter_In,
     <- list_elem_of_In, entries_elem.
Qed.

End Locate.

(** X17.  When the directory of a game holds a path, at most two levels
    down, whose name ends with .cue, [locate_or_build_cue] returns the first
    such path in the order of paths, a file or a directory alike, and does
    nothing else: no directory is made, no track file is looked for or
    copied, nothing is printed. *)
Theorem X17_locate_takes_first_cue (game_dir : Fs.path) (base : text)
    (tmp_root : Fs.path) (tmp_name : text) (w : Fs.world) (q : Fs.path) :
  Fs.exists_ q w = true -> Fs.below game_dir 2 (str ".cue") q = true ->
  exists cue,
    Cue01.locate_or_build_cue game_dir base tmp_root tmp_name w =
      Some (w, Some cue) /\
    Fs.exists_ cue w = true /\ Fs.below game_dir 2 (str ".cue") cue = true /\
    forall q', Fs.exists_ q' w = true ->
               Fs.below game_dir 2 (str ".cue") q' = true -> Fs.path_le cue q'.
Proof.
  intros Hq Hbelow. unfold Cue01.locate_or_build_cue.
  assert (q ∈ Cue01.find_with_depth game_dir (str ".cue") 2 w) as Hin
    by (by apply Locate.find_with_depth_elem).
  destruct (Cue01.find_with_depth game_dir (str ".cue") 2 w) as [|cue rest] eqn:E.
  { by apply elem_of_nil in Hin. }
  exists cue. split; [done|].
  assert (cue ∈ Cue01.find_with_depth game_dir (str ".cue") 2 w) as Hcue
    by (rewrite E; apply list_elem_of_here).
  apply Locate.find_with_depth_elem in Hcue as [Hthere Hcue].
  split; [done|]. split; [done|]. intros q' Hq' Hbelow'.
  unfold Cue01.find_with_depth in E.
  apply (PathOrder.sorted_head _ _ _ E).
  by rewrite list_elem_of_In, filter_In, <- list_elem_of_In, Locate.entries_elem.
Qed.

Lemma X17_two_cues_witness :
  exists cue,
    Cue01.locate_or_build_cue [str "game"] (str "Game") [str "tmp"] (str "t1")
      (Fs.World (list_to_map [([str "game"; str "cd2"; str "b.cue"], []);
                              ([str "game"; str "cd1"; str "a.cue"], []);
                              ([str "game"; str "cd1"; str "a.bin"], [])])
                {[ [str "game"]; [str "game"; str "cd1"]; [str "game"; str "cd2"] ]} []) =
      Some (Fs.World (list_to_map [([str "game"; str "cd2"; str "b.cue"], []);
                                   ([str "game"; str "cd1"; str "a.cue"], []);
                                   ([str "game"; str "cd1"; str "a.bin"], [])])
                     {[ [str "game"]; [str "game"; str "cd1"]; [str "game"; str "cd2"] ]} [],
            Some cue) /\
    Fs.path_le cue [str "game"; str "cd2"; str "b.cue"].
Proof.
  destruct (X17_locate_takes_first_cue [str "game"] (str "Game") [str "tmp"] (str "t1")
              (Fs.World (list_to_map [([str "game"; str "cd2"; str "b.cue"], []);
                                      ([str "game"; str "cd1"; str "a.cue"], []);
                                      ([str "game"; str "cd1"; str "a.bin"], [])])
                        {[ [str "game"]; [str "game"; str "cd1"]; [str "game"; str "cd2"] ]} [])
              [str "game"; str "cd2"; str "b.cue"])
    as (cue & E & _ & _ & Hleast).
  - vm_compute. reflexivity.
  - vm_compute. reflexivity.
  - exists cue. split; [exact E|]. apply Hleast; vm_compute; reflexivity.
Defined.

(** ** Script 03: the key of a game and the case of letters *)
Module CaseBlind.
Import Chars Re.

(** A pattern seen through a change of characters that no class of the
    pattern tells from the identity. *)
Section Mapped.
Context {A : Type} (code : A -> N) (f : A -> A) (h : N -> N).
Hypothesis code_f : forall c, code (f c) = h (code c).
Hypothesis h_newline : forall n, (h n =? 10) = (n =? 10).

Definition run_map (x : list A * list A) : list A * list A :=
  (map f x.1, map f x.2).

Fixpoint respects (r : Re.t) : Prop :=
  match r with
  | Chr p | Rep _ p _ _ => forall n, p (h n) = p n
  | Opt r1 => respects r1
  | Cat r1 r2 => respects r1 /\ respects r2
  | Eps | Eos => True
  end.

Lemma rep_map greedy p : (forall n, p (h n) = p n) ->
  forall s lo hi,
    rep code greedy p lo hi (map f s) = map run_map (rep code greedy p lo hi s).
Proof using code_f.
  intros Hp. induction s as [|c s IH]; intros lo hi; cbn [rep map].
  - by destruct greedy, lo.
  - rewrite code_f, Hp, IH. rewrite !map_map.
    destruct (p (code c) && room hi), greedy, lo; cbn [app map];
      rewrite ?map_app, ?map_map; reflexivity.
Qed.

Lemma flat_map_runs (G G' : list A * list A -> list (list A * list A)) :
  (forall x, G (run_map x) = map run_map (G' x)) ->
  forall l, flat_map G (map run_map l) = map run_map (flat_map G' l).
Proof.
  intros H. induction l as [|x l IH]; [done|]. cbn [map flat_map].
  by rewrite map_app, IH, H.
Qed.

Lemma runs_map : forall r, respects r ->
  forall s, runs code r (map f s) = map run_map (runs code r s).
Proof using code_f h_newline.
  induction r as [p|greedy p lo hi|r IH|r1 IH1 r2 IH2| |]; intros Hr s.
  - destruct s as [|c s]; [done|]. cbn [runs map]. cbn in Hr.
    rewrite code_f, Hr. by destruct (p (code c)).
  - by apply rep_map.
  - cbn [runs]. by rewrite (IH Hr), map_app.
  - destruct Hr as [Hr1 Hr2]. cbn [runs]. rewrite (IH1 Hr1).
    apply flat_map_runs. intros x. cbn [run_map snd fst].
    rewrite (IH2 Hr2), !map_map. apply map_ext. intros y.
    unfold run_map. cbn [fst snd]. by rewrite map_app.
  - done.
  - cbn [runs]. assert (at_end code (map f s) = at_end code s) as ->.
    { destruct s as [|c [|d s]]; [done| |done]. cbn. by rewrite code_f, h_newline. }
    by destruct (at_end code s).
Qed.

Lemma sub_loop_map r repl : respects r ->
  forall fuel s,
    sub_loop code fuel r (map f repl) (map f s) =
    map f (sub_loop code fuel r repl s).
Proof using code_f h_newline.
  intros Hr. induction fuel as [|fuel IH]; intros s; [done|].
  cbn [sub_loop]. unfold match_here. rewrite (runs_map r Hr).
  destruct (runs code r s) as [|[m rest] l]; cbn [map head run_map fst snd].
  - destruct s as [|c s]; [done|]. cbn [map]. by rewrite IH.
  - destruct m as [|a m]; cbn [map].
    + destruct s as [|c s]; [done|]. cbn [map]. by rewrite IH, map_app.
    + by rewrite IH, map_app.
Qed.

Lemma sub_map r repl s : respects r ->
  sub code r (map f repl) (map f s) = map f (sub code r repl s).
Proof using code_f h_newline.
  intros Hr. unfold sub. rewrite length_map. by apply sub_loop_map.
Qed.

End Mapped.

(** *** Lower case *)

Lemma code_lower c : code_s (Chars.lower c) = to_lower (code_s c).
Proof. destruct c as [[] [] [] [] [] [] [] []]; reflexivity. Qed.

Ltac ranges :=
  unfold range in *;
  repeat rewrite ?andb_true_iff, ?andb_false_iff, ?orb_true_iff, ?orb_false_iff,
                 ?N.leb_le, ?N.leb_gt, ?N.eqb_eq, ?N.eqb_neq in *;
  lia.

Lemma lower_newline n : (to_lower n =? 10) = (n =? 10).
Proof.
  unfold to_lower. destruct (range 65 90 n) eqn:E; [|done].
  assert ((n + 32 =? 10) = false) as -> by ranges.
  symmetry. ranges.
Qed.

(** No class under [re.IGNORECASE] tells a letter from its lower case. *)
Lemma ci_blind p n : ci p (to_lower n) = ci p n.
Proof.
  unfold to_lower at 1. destruct (range 65 90 n) eqn:E; [|done].
  unfold ci, to_lower, to_upper. rewrite E.
  assert (range 65 90 (n + 32) = false) as -> by ranges.
  assert (range 97 122 (n + 32) = true) as -> by ranges.
  assert (range 97 122 n = false) as -> by ranges.
  assert (n + 32 - 32 = n) as -> by lia.
  by destruct (p n), (p (n + 32)).
Qed.

Lemma space_blind n : space (to_lower n) = space n.
Proof.
  unfold to_lower. destruct (range 65 90 n) eqn:E; [|done]. unfold space.
  assert (range 9 13 (n + 32) = false) as -> by ranges.
  assert (range 28 32 (n + 32) = false) as -> by ranges.
  assert (range 9 13 n = false) as -> by ranges.
  assert (range 28 32 n = false) as -> by ranges.
  done.
Qed.

Lemma sub_lower r repl s : Py.lower repl = repl -> respects to_lower r ->
  sub code_s r repl (Py.lower s) = Py.lower (sub code_s r repl s).
Proof.
  intros E Hr. rewrite <- E at 1.
  by apply (sub_map code_s Chars.lower to_lower code_lower lower_newline).
Qed.

Lemma replace_underscore s :
  Py.replace (str "_") (str " ") s =
  map (fun c => if ascii_dec "_" c then " "%char else c) s.
Proof.
  unfold Py.replace. induction s as [|c s IH]; [done|].
  cbn -[ascii_dec] in *. destruct (ascii_dec "_" c); by rewrite IH.
Qed.

Lemma replace_lower s :
  Py.replace (str "_") (str " ") (Py.lower s) =
  Py.lower (Py.replace (str "_") (str " ") s).
Proof.
  rewrite !replace_underscore. unfold Py.lower. rewrite !map_map.
  apply map_ext. intros c. by destruct c as [[] [] [] [] [] [] [] []].
Qed.

Lemma isspace_lower c : isspace (Chars.lower c) = isspace c.
Proof. unfold isspace. fold (code_s (Chars.lower c)). by rewrite code_lower, space_blind. Qed.

Lemma lstrip_lower s :
  Py.lstrip_by isspace (Py.lower s) = Py.lower (Py.lstrip_by isspace s).
Proof.
  induction s as [|c s IH]; [done|]. cbn [Py.lower map Py.lstrip_by].
  rewrite isspace_lower. by destruct (isspace c).
Qed.

Lemma strip_lower s : Py.strip (Py.lower s) = Py.lower (Py.strip s).
Proof.
  unfold Py.strip, Py.lstrip, Py.rstrip, Py.rstrip_by.
  unfold Py.lower at 1. rewrite <- map_rev. fold (Py.lower (rev s)).
  rewrite lstrip_lower. unfold Py.lower at 1. rewrite <- map_rev.
  fold (Py.lower (rev (Py.lstrip_by isspace (rev s)))). apply lstrip_lower.
Qed.

Lemma lower_lower s : Py.lower (Py.lower s) = Py.lower s.
Proof.
  unfold Py.lower. rewrite map_map. apply map_ext. intros c.
  by destruct c as [[] [] [] [] [] [] [] []].
Qed.

Lemma code_suffix_respects : respects to_lower Pack.CODE_SUFFIX_RE.
Proof. cbn. repeat split; intros n; apply ci_blind. Qed.

Lemma disc_paren_respects : respects to_lower Pack.DISC_PAREN_RE.
Proof. cbn. repeat split; intros n; apply ci_blind. Qed.

Lemma disc_bare_respects : respects to_lower Pack.DISC_BARE_RE.
Proof. cbn. repeat split; intros n; apply ci_blind. Qed.

(** The display name of the lower case of a stem is the lower case of its
    display name. *)
Lemma cleaned_lower stem :
  (Pack.game_key_from_stem (Py.lower stem)).2 =
  Py.lower (Pack.game_key_from_stem stem).2.
Proof.
  unfold Pack.game_key_from_stem. cbn [snd].
  unfold Pack.normalize_title, Pack.strip_disc_markers, Pack.strip_code.
  cbn [foldl Pack.DISC_MARKER_REPS fst snd].
  rewrite (sub_lower Pack.CODE_SUFFIX_RE (str "") stem eq_refl code_suffix_respects).
  rewrite (sub_lower Pack.DISC_PAREN_RE (str "") _ eq_refl disc_paren_respects).
  rewrite (sub_lower Pack.DISC_BARE_RE (str "") _ eq_refl disc_bare_respects).
  rewrite replace_lower.
  rewrite (sub_lower (plus space) (str " ") _ eq_refl space_blind).
  apply strip_lower.
Qed.

End CaseBlind.



(** ** Script 03: titles *)
Module Tidy.
Import Chars Re ReFirst.

(** [re.sub(r"\s+", " ", text)] *)
Definition collapse (s : text) : text := sub code_s (plus space) (str " ") s.

(** No two white-space characters side by side. *)
Fixpoint spaced_once (t : text) : bool :=
  match t with
  | a :: (b :: _) as t' => negb (isspace a && isspace b) && spaced_once t'
  | _ => true
  end.

(** A title in its normal form: no underscore, no white space but single
    blanks, and none of them at an end. *)
Definition tidy (r : text) : Prop :=
  Forall (fun c => c <> "_"%char) r /\
  Forall (fun c => isspace c = true -> c = " "%char) r /\
  spaced_once r = true /\
  (forall c r', r = c :: r' -> isspace c = false) /\
  (forall c, last r = Some c -> isspace c = false).

Lemma spaced_once_cons a b t :
  spaced_once (a :: b :: t) = negb (isspace a && isspace b) && spaced_once (b :: t).
Proof. reflexivity. Qed.

Lemma lstrip_stops (s : text) :
  Py.lstrip_by isspace s = [] \/
  exists c v, Py.lstrip_by isspace s = c :: v /\ isspace c = false.
Proof.
  destruct (Py.lstrip_by isspace s) as [|c v] eqn:E; [by left|right].
  exists c, v. split; [done|]. by apply (CueLine.lstrip_head isspace s c v).
Qed.

Lemma collapse_space c s :
  isspace c = true ->
  collapse (c :: s) = " "%char :: collapse (Py.lstrip_by isspace s).
Proof.
  intros Hc. destruct (StripFacts.lstrip_by_split isspace s) as (w & E & Hw).
  unfold collapse.
  rewrite (sub_some code_s (plus space) (str " ") (c :: s) (c :: w)
             (Py.lstrip_by isspace s)); [done| |done].
  rewrite E at 1. change (c :: w ++ Py.lstrip_by isspace s)
    with ((c :: w) ++ Py.lstrip_by isspace s).
  apply first_rep_greedy.
  - by constructor.
  - cbn. lia.
  - done.
  - right. destruct (lstrip_stops s) as [->|(d & v & -> & Hd)]; [by left|].
    right. by exists d, v.
Qed.

Lemma collapse_other c s :
  isspace c = false -> collapse (c :: s) = c :: collapse s.
Proof.
  intros Hc. unfold collapse. apply sub_none.
  unfold match_here, plus. cbn [runs rep].
  change (space (code_s c)) with (isspace c). by rewrite Hc.
Qed.

Lemma lstrip_length {A} (p : A -> bool) (s : list A) :
  (length (Py.lstrip_by p s) <= length s)%nat.
Proof.
  induction s as [|c s IH]; [done|]. cbn [Py.lstrip_by].
  destruct (p c); cbn [length]; lia.
Qed.

(** The cases of [collapse]. *)
Lemma collapse_cases (P : text -> text -> Prop) :
  P [] [] ->
  (forall c s, isspace c = true ->
     P (Py.lstrip_by isspace s) (collapse (Py.lstrip_by isspace s)) ->
     P (c :: s) (" "%char :: collapse (Py.lstrip_by isspace s))) ->
  (forall c s, isspace c = false -> P s (collapse s) ->
     P (c :: s) (c :: collapse s)) ->
  forall s, P s (collapse s).
Proof.
  intros Hnil Hspace Hother s.
  remember (length s) as n eqn:Hn. revert s Hn.
  induction n as [n IH] using lt_wf_ind. intros [|c s] Hn; [done|].
  cbn [length] in Hn. destruct (isspace c) eqn:Hc.
  - rewrite collapse_space by done. apply Hspace; [done|].
    apply (IH (length (Py.lstrip_by isspace s))); [|done].
    pose proof (lstrip_length isspace s). lia.
  - rewrite collapse_other by done. apply Hother; [done|].
    apply (IH (length s)); [lia | done].
Qed.

Lemma lstrip_subset {A} (p : A -> bool) (s : list A) c :
  c ∈ Py.lstrip_by p s -> c ∈ s.
Proof.
  destruct (StripFacts.lstrip_by_split p s) as (w & E & _). intros H.
  rewrite E. apply elem_of_app. by right.
Qed.

Lemma collapse_Forall (Q : ascii -> Prop) :
  Q " "%char ->
  forall s, (forall c, c ∈ s -> isspace c = false -> Q c) -> Forall Q (collapse s).
Proof.
  intros Hblank. apply (collapse_cases (fun s t =>
    (forall c, c ∈ s -> isspace c = false -> Q c) -> Forall Q t)).
  - by constructor.
  - intros c s Hc IH H. constructor; [done|]. apply IH. intros d Hd.
    apply H. apply list_elem_of_further. by apply lstrip_subset in Hd.
  - intros c s Hc IH H. constructor.
    + apply H; [apply list_elem_of_here | done].
    + apply IH. intros d Hd. apply H. by apply list_elem_of_further.
Qed.

Lemma collapse_head c s t :
  collapse (c :: s) = t -> isspace c = false -> exists t', t = c :: t'.
Proof. intros <- Hc. rewrite collapse_other by done. by eexists. Qed.

Lemma collapse_spaced_once : forall s, spaced_once (collapse s) = true.
Proof.
  apply (collapse_cases (fun _ t => spaced_once t = true)); [done| |].
  - intros c s Hc IH.
    destruct (lstrip_stops s) as [E|(d & v & E & Hd)]; rewrite E in *; [done|].
    rewrite collapse_other in * by done.
    rewrite spaced_once_cons, Hd, andb_false_r. exact IH.
  - intros c s Hc IH. destruct (collapse s) as [|b t]; [done|].
    rewrite spaced_once_cons, Hc. exact IH.
Qed.

Lemma spaced_once_app a b :
  spaced_once (a ++ b) = true -> spaced_once a = true /\ spaced_once b = true.
Proof.
  induction a as [|x a IH]; [done|]. destruct a as [|y a].
  - cbn [app]. destruct b as [|z b]; [done|]. rewrite spaced_once_cons.
    intros [_ H]%andb_true_iff. done.
  - cbn [app] in *. rewrite !spaced_once_cons. intros [H1 H2]%andb_true_iff.
    destruct (IH H2) as [Ha Hb]. by rewrite H1, Ha.
Qed.

Lemma strip_spaced_once s : spaced_once s = true -> spaced_once (Py.strip s) = true.
Proof.
  intros H. unfold Py.strip, Py.lstrip, Py.rstrip.
  destruct (StripFacts.rstrip_by_split isspace s) as (w & E & _).
  rewrite E in H. apply spaced_once_app in H as [H _].
  destruct (StripFacts.lstrip_by_split isspace (Py.rstrip_by isspace s))
    as (w' & E' & _).
  rewrite E' in H. by apply spaced_once_app in H as [_ H].
Qed.

Lemma strip_Forall (Q : ascii -> Prop) s : Forall Q s -> Forall Q (Py.strip s).
Proof.
  intros H. unfold Py.strip, Py.lstrip, Py.rstrip.
  by apply CueLine.lstrip_Forall, Sanitize.rstrip_Forall.
Qed.

Lemma normalize_title_tidy title : tidy (Pack.normalize_title title).
Proof.
  unfold Pack.normalize_title. cbn zeta. fold (collapse (Py.replace (str "_") (str " ") title)).
  rewrite CaseBlind.replace_underscore.
  set (spaced := map (fun c => if ascii_dec "_" c then " "%char else c) title).
  split; [|split; [|split]].
  - apply strip_Forall, collapse_Forall; [done|]. intros c Hc _.
    unfold spaced in Hc. apply list_elem_of_fmap in Hc as (d & -> & _).
    destruct (ascii_dec "_" d); [done | congruence].
  - apply strip_Forall, collapse_Forall; [done|]. intros c _ Hc. by rewrite Hc.
  - apply strip_spaced_once, collapse_spaced_once.
  - apply Sanitize.strip_ends.
Qed.

(** *** Tidy titles stay *)

Lemma collapse_tidy : forall r,
  Forall (fun c => isspace c = true -> c = " "%char) r ->
  spaced_once r = true -> collapse r = r.
Proof.
  induction r as [|c r IH]; [done|]. intros Hall Hs.
  apply Forall_cons in Hall as [Hc Hall].
  assert (spaced_once r = true) as Hr.
  { destruct r as [|b r]; [done|]. rewrite spaced_once_cons in Hs.
    by apply andb_true_iff in Hs as [_ Hs]. }
  destruct (isspace c) eqn:Ec.
  - rewrite collapse_space by done. rewrite (Hc eq_refl). f_equal.
    destruct r as [|b r]; [done|]. rewrite spaced_once_cons in Hs.
    rewrite Ec in Hs. cbn [andb] in Hs.
    destruct (isspace b) eqn:Eb; [done|]. cbn [Py.lstrip_by]. rewrite Eb.
    by apply IH.
  - rewrite collapse_other by done. f_equal. by apply IH.
Qed.

Lemma rstrip_same {A} (p : A -> bool) (s : list A) :
  (forall c, last s = Some c -> p c = false) -> Py.rstrip_by p s = s.
Proof.
  destruct s as [|c s _] using rev_ind; [done|]. intros H.
  rewrite Sanitize.rstrip_snoc, (H c); [done|]. by rewrite last_snoc.
Qed.

Lemma strip_tidy r :
  (forall c r', r = c :: r' -> isspace c = false) ->
  (forall c, last r = Some c -> isspace c = false) -> Py.strip r = r.
Proof.
  intros Hfirst Hlast. unfold Py.strip, Py.lstrip, Py.rstrip.
  rewrite rstrip_same by done. destruct r as [|c r]; [done|].
  cbn [Py.lstrip_by]. by rewrite (Hfirst c r).
Qed.

Lemma normalize_title_same r : tidy r -> Pack.normalize_title r = r.
Proof.
  intros (Hunder & Hblank & Hs & Hfirst & Hlast).
  unfold Pack.normalize_title. cbn zeta.
  fold (collapse (Py.replace (str "_") (str " ") r)).
  rewrite CaseBlind.replace_underscore.
  assert (map (fun c => if ascii_dec "_" c then " "%char else c) r = r) as ->.
  { clear -Hunder. induction Hunder as [|c r Hc _ IH]; [done|]. cbn [map].
    rewrite IH. by destruct (ascii_dec "_" c). }
  rewrite collapse_tidy by done. by apply strip_tidy.
Qed.

End Tidy.

(** X19.  [normalize_title] puts a title into a normal form and leaves a
    title in that form as it is.  Its result has no underscore; its only
    white-space characters are blanks, no two of them side by side and none
    at the start or the end.  A text of that kind comes back unchanged, so
    that normalizing twice is normalizing once; and the display name that
    [game_key_from_stem] gives is of that kind. *)
Theorem X19_normalize_title_normal_form (title : text) :
  Tidy.tidy (Pack.normalize_title title) /\
  (Tidy.tidy title -> Pack.normalize_title title = title) /\
  Pack.normalize_title (Pack.normalize_title title) = Pack.normalize_title title /\
  Tidy.tidy (Pack.game_key_from_stem title).2.
Proof.
  split; [apply Tidy.normalize_title_tidy|].
  split; [apply Tidy.normalize_title_same|].
  split; [apply Tidy.normalize_title_same, Tidy.normalize_title_tidy|].
  apply Tidy.normalize_title_tidy.
Qed.

(** ** Script 01: the cue files taken when there is no archive *)
Module Existing.
Import Fs Cue01.

Lemma starts_with_app n : forall post, Py.starts_with n (n ++ post) = true.
Proof.
  induction n as [|a n IH]; intros post; [done|]. cbn [app Py.starts_with].
  by destruct (ascii_dec a a).
Qed.

Lemma contains_prefix n post : contains n (n ++ post) = true.
Proof. destruct (n ++ post) eqn:E; cbn [contains]; by rewrite <- E, starts_with_app. Qed.

Lemma show_app p q : show (p ++ q) = show p ++ show q.
Proof. unfold show. by rewrite map_app, concat_app. Qed.

(** The text of a path starts with the text of a directory above it. *)
Lemma path_text_app d rest :
  exists post, path_text (d ++ rest) = path_text d ++ post.
Proof.
  destruct d as [|a d].
  - destruct rest as [|b rest]; [by exists []|].
    cbn [app path_text]. unfold show. cbn [map concat]. by eexists.
  - change (path_text ((a :: d) ++ rest)) with (show ((a :: d) ++ rest)).
    rewrite show_app. by eexists.
Qed.

Lemma parents_elem d p : d ∈ parents p -> exists rest, parent p = d ++ rest.
Proof.
  unfold parents. rewrite list_elem_of_In, in_map_iff.
  intros (n & <- & Hn). apply in_rev, in_seq in Hn.
  unfold parent. rewrite removelast_firstn_len.
  exists (drop n (take (Nat.pred (length p)) p)).
  rewrite <- (take_drop n (take (Nat.pred (length p)) p)) at 1.
  f_equal. rewrite take_take. f_equal. lia.
Qed.

(** The first test of [outside] never decides: what it turns down, the
    second test turns down as well. *)
Lemma above_contains out_dir p :
  out_dir ∈ parents p ->
  contains (path_text out_dir) (path_text (parent p)) = true.
Proof.
  intros (rest & ->)%parents_elem.
  destruct (path_text_app out_dir rest) as [post ->]. apply contains_prefix.
Qed.

Lemma outside_contains out_dir p :
  outside out_dir p = true <->
  contains (path_text out_dir) (path_text (parent p)) = false.
Proof.
  unfold outside. rewrite andb_true_iff, !negb_true_iff, bool_decide_eq_false.
  split; [by intros [_ H]|]. intros H. split; [|done].
  intros Hin. by rewrite (above_contains _ _ Hin) in H.
Qed.

End Existing.

(** X20.  The cue files that [process_existing_cues] takes.  They are the
    paths of the directory, at most two levels down, whose name ends with
    .cue and whose directory, written as text, does not hold the text of
    [out_dir].  The test [out_dir not in p.parents] decides nothing: a path
    below [out_dir] is turned down by the test of the texts as well.  That
    test turns down more than the paths below [out_dir]: a cue file in a
    directory beside [out_dir] whose name starts with the name of [out_dir]
    is left out, without a message. *)
Theorem X20_existing_cues_selection (root out_dir : Fs.path) (w : Fs.world)
    (p : Fs.path) :
  (p ∈ Cue01.existing_cues root out_dir w <->
   Fs.exists_ p w = true /\ Fs.below root 2 (str ".cue") p = true /\
   Cue01.contains (Cue01.path_text out_dir) (Cue01.path_text (Fs.parent p)) = false) /\
  (out_dir ∈ Cue01.parents p ->
   Cue01.contains (Cue01.path_text out_dir) (Cue01.path_text (Fs.parent p)) = true) /\
  (forall more,
     out_dir <> [] ->
     Fs.parent p = Fs.with_name out_dir (Fs.name out_dir ++ more) ->
     p ∉ Cue01.existing_cues root out_dir w).
Proof.
  assert (p ∈ Cue01.existing_cues root out_dir w <->
          Fs.exists_ p w = true /\ Fs.below root 2 (str ".cue") p = true /\
          Cue01.contains (Cue01.path_text out_dir)
                         (Cue01.path_text (Fs.parent p)) = false) as Hsel.
  { unfold Cue01.existing_cues.
    rewrite list_elem_of_In, filter_In, <- list_elem_of_In,
            Locate.find_with_depth_elem, Existing.outside_contains.
    tauto. }
  split; [exact Hsel|]. split; [apply Existing.above_contains|].
  intros more Hne Hparent Hin. apply Hsel in Hin as (_ & _ & Hc).
  rewrite Hparent in Hc.
  assert (out_dir = Fs.parent out_dir ++ [Fs.name out_dir]) as Hout.
  { unfold Fs.parent, Fs.name. by apply app_removelast_last. }
  assert (Cue01.path_text (Fs.with_name out_dir (Fs.name out_dir ++ more)) =
          Cue01.path_text out_dir ++ more) as Htext.
  { unfold Fs.with_name. rewrite Hout at 3.
    destruct (Fs.parent out_dir) as [|a d].
    - cbn. by rewrite !app_nil_r.
    - cbn [app Cue01.path_text].
      change (a :: d ++ [Fs.name out_dir ++ more])
        with ((a :: d) ++ [Fs.name out_dir ++ more]).
      change (a :: d ++ [Fs.name out_dir])
        with ((a :: d) ++ [Fs.name out_dir]).
      rewrite !Existing.show_app. unfold Fs.show at 2 4. cbn [map concat].
      by rewrite !app_nil_r, <- !app_assoc. }
  by rewrite Htext, Existing.contains_prefix in Hc.
Qed.

Lemma X20_sibling_witness :
  [str "ps1"; str "SingleTrackDiscImages.old"; str "Game.cue"] ∉
  Cue01.existing_cues [str "ps1"] [str "ps1"; str "SingleTrackDiscImages"]
    (Fs.World (list_to_map
                 [([str "ps1"; str "SingleTrackDiscImages.old"; str "Game.cue"], [])])
              {[ [str "ps1"]; [str "ps1"; str "SingleTrackDiscImages.old"] ]} []).
Proof.
  apply (proj2 (proj2 (X20_existing_cues_selection [str "ps1"]
                         [str "ps1"; str "SingleTrackDiscImages"] _ _)) (str ".old"));
    [discriminate | reflexivity].
Defined.
(** * C2 in full: stems that differ in the disc number and in the code *)

(** ** Patterns that never go back *)

Module DetTheory.
Import Re ReTheory ReFirst ReLocal.

(** An item of a pattern written without alternatives: a greedy repetition
    of a class, or the end of the text. *)
Inductive item : Type :=
| Take (p : N -> bool) (lo : nat) (hi : option nat)
| End.

Definition item_re (it : item) : Re.t :=
  match it with
  | Take p lo hi => Rep true p lo hi
  | End => Eos
  end.

Definition compile (its : list item) : Re.t :=
  foldr (fun it k => Cat (item_re it) k) Eps its.

(** The items of a pattern written with [cat]: a character is a
    repetition of one, an optional character a repetition of at most
    one. *)
Definition item_of (r : Re.t) : option item :=
  match r with
  | Chr p => Some (Take p 1 (Some 1%nat))
  | Rep true p lo hi => Some (Take p lo hi)
  | Opt (Chr p) => Some (Take p 0 (Some 1%nat))
  | Eos => Some End
  | _ => None
  end.

Fixpoint items_of (r : Re.t) : option (list item) :=
  match r with
  | Cat e k =>
      match item_of e, items_of k with
      | Some it, Some its => Some (it :: its)
      | _, _ => None
      end
  | Eps => Some []
  | _ => None
  end.

Definition minus_hi (hi : option nat) (k : nat) : option nat :=
  match hi with
  | Some h => Some (h - k)%nat
  | None => None
  end.

Section Det.
Context {A : Type} (code : A -> N).

(** The longest beginning of [s] that a repetition of [p] up to [hi] takes,
    and the rest. *)
Fixpoint span (p : N -> bool) (hi : option nat) (s : list A) : list A * list A :=
  match s with
  | c :: s' =>
      if p (code c) && room hi then consume c (span p (less hi) s') else ([], s)
  | [] => ([], [])
  end.

(** The match of a list of items, each taking all it can. *)
Fixpoint det (its : list item) (s : list A) : option (list A * list A) :=
  match its with
  | [] => Some ([], s)
  | Take p lo hi :: its' =>
      let x := span p hi s in
      if (lo <=? length x.1)%nat
      then (fun y => (x.1 ++ y.1, y.2)) <$> det its' x.2
      else None
  | End :: its' => if at_end code s then det its' s else None
  end.

(** Taking less of [p] does not help the rest of the pattern. *)
Definition guards (p : N -> bool) (k : Re.t) : Prop :=
  forall w s, w <> [] -> Forall (fun a => p (code a) = true) w ->
    runs code k s = [] -> runs code k (w ++ s) = [].

Fixpoint ok (its : list item) : Prop :=
  match its with
  | [] => True
  | Take p lo hi :: its' => (hi = Some lo \/ guards p (compile its')) /\ ok its'
  | End :: its' => ok its'
  end.

(** *** The items of a pattern *)

Lemma item_runs e it s :
  item_of e = Some it -> runs code e s = runs code (item_re it) s.
Proof.
  destruct e as [p|g p lo hi|e|e1 e2| |]; cbn [item_of]; try done.
  - intros [= <-]. cbn [item_re runs].
    destruct s as [|c s]; [done|]. cbn [rep room less Nat.pred].
    destruct (p (code c)); [|done]. cbn [andb app map].
    destruct s as [|c' s]; [done|]. cbn [rep room]. by rewrite andb_false_r.
  - destruct g; [|done]. by intros [= <-].
  - destruct e as [p| | | | |]; try done. intros [= <-]. cbn [item_re runs].
    destruct s as [|c s]; [done|]. cbn [rep room less Nat.pred].
    destruct (p (code c)); [|done]. cbn [andb app map].
    destruct s as [|c' s]; [done|]. cbn [rep room]. by rewrite andb_false_r.
  - by intros [= <-].
Qed.

Lemma items_runs r : forall its,
  items_of r = Some its -> forall s, runs code r s = runs code (compile its) s.
Proof.
  induction r as [p|g p lo hi|r IH|r1 _ r2 IH2| |]; intros its; cbn [items_of];
    try done.
  - destruct (item_of r1) as [it|] eqn:E1; [|done].
    destruct (items_of r2) as [its'|]; [|done]. intros [= <-] s.
    cbn [compile foldr runs]. rewrite (item_runs r1 it s E1).
    apply flat_map_ext. intros x. by rewrite (IH2 its' eq_refl).
  - by intros [= <-].
Qed.

(** *** What [span] takes *)

Lemma span_split p : forall s hi, s = (span p hi s).1 ++ (span p hi s).2.
Proof.
  induction s as [|c s IH]; intros hi; [done|]. cbn [span].
  destruct (p (code c) && room hi); [|done]. cbn. f_equal. apply IH.
Qed.

Lemma span_all p : forall s hi,
  Forall (fun a => p (code a) = true) (span p hi s).1.
Proof.
  induction s as [|c s IH]; intros hi; [constructor|]. cbn [span].
  destruct (p (code c)) eqn:Hc; [|constructor].
  destruct (room hi); [|constructor]. cbn. constructor; [done|apply IH].
Qed.

Lemma span_fits p : forall s hi, fits (length (span p hi s).1) hi.
Proof.
  induction s as [|c s IH]; intros hi.
  - destruct hi; cbn; [lia|done].
  - cbn [span]. destruct (p (code c) && room hi) eqn:E.
    + cbn. specialize (IH (less hi)).
      destruct hi as [[|h]|]; cbn in *; [by rewrite andb_false_r in E|lia|done].
    + destruct hi; cbn; [lia|done].
Qed.

Lemma span_stops p : forall s hi,
  stops code p hi (length (span p hi s).1) (span p hi s).2.
Proof.
  induction s as [|c s IH]; intros hi; [right; by left|]. cbn [span].
  destruct (p (code c)) eqn:Hc; cbn [andb].
  - destruct (room hi) eqn:Hr.
    + cbn. destruct (IH (less hi)) as [H|H]; [|by right].
      left. destruct hi as [[|h]|]; cbn in *; [done| |done].
      injection H as H. f_equal. lia.
    + left. by destruct hi as [[|h]|].
  - right; right. by exists c, s.
Qed.

Lemma span_exact p w t hi :
  Forall (fun a => p (code a) = true) w -> fits (length w) hi ->
  stops code p hi (length w) t -> span p hi (w ++ t) = (w, t).
Proof.
  revert hi. induction w as [|c w IH]; intros hi Hw Hfit Hstop.
  - cbn [app length] in *. destruct t as [|c t]; [done|]. cbn [span].
    destruct Hstop as [->|[[=]|(c' & t' & [= <- <-] & Hc)]]; [|by rewrite Hc].
    cbn [room]. by rewrite andb_false_r.
  - apply Forall_cons in Hw as [Hc Hw]. cbn [app span length] in *. rewrite Hc.
    assert (room hi = true) as ->.
    { destruct hi as [[|h]|]; cbn in *; [lia|done..]. }
    cbn [andb]. rewrite IH; [done|done| |].
    + destruct hi as [h|]; cbn in *; lia.
    + destruct Hstop as [->|H]; [by left|by right].
Qed.

Lemma span_app p t : forall u hi,
  span p hi (u ++ t) =
  match (span p hi u).2 with
  | [] => (u ++ (span p (minus_hi hi (length u)) t).1,
           (span p (minus_hi hi (length u)) t).2)
  | _ => ((span p hi u).1, (span p hi u).2 ++ t)
  end.
Proof.
  induction u as [|c u IH]; intros hi.
  - cbn [app span length snd]. assert (minus_hi hi 0 = hi) as ->.
    { destruct hi; cbn; [by rewrite Nat.sub_0_r|done]. }
    by destruct (span p hi t).
  - cbn [app span]. destruct (p (code c) && room hi) eqn:E; [|done].
    rewrite IH. cbn [consume fst snd length].
    destruct (span p (less hi) u).2; [|done].
    assert (minus_hi (less hi) (length u) = minus_hi hi (S (length u))) as ->.
    { destruct hi as [h|]; [|done]. cbn. f_equal. lia. }
    done.
Qed.

(** *** The runs of a repetition, next to what [span] takes *)

Lemma rep_longest p s lo hi :
  (lo <= length (span p hi s).1)%nat ->
  head (rep code true p lo hi s) = Some (span p hi s).
Proof.
  intros Hlo. pose proof (span_split p s hi) as Hs.
  pose proof (first_rep_greedy code p (span p hi s).1 lo hi (span p hi s).2
                (span_all p s hi) Hlo (span_fits p s hi) (span_stops p s hi)) as H.
  rewrite <- Hs in H. unfold match_here in H. cbn [runs] in H. rewrite H.
  by destruct (span p hi s).
Qed.

Lemma rep_short p : forall s lo hi,
  (length (span p hi s).1 < lo)%nat -> rep code true p lo hi s = [].
Proof.
  induction s as [|c s IH]; intros lo hi Hlo.
  - cbn [rep]. destruct lo; [cbn in Hlo; lia|done].
  - cbn [rep span] in *. destruct (p (code c) && room hi).
    + cbn [consume fst length] in Hlo. rewrite IH by lia.
      destruct lo; [lia|done].
    + destruct lo; [cbn in Hlo; lia|done].
Qed.

Lemma rep_rest p : forall s lo hi x,
  x ∈ rep code true p lo hi s ->
  x = span p hi s \/
  exists w, w <> [] /\ Forall (fun a => p (code a) = true) w /\
            x.2 = w ++ (span p hi s).2.
Proof.
  induction s as [|c s IH]; intros lo hi x Hx.
  - cbn [rep app] in Hx. destruct lo; [|by apply elem_of_nil in Hx].
    apply list_elem_of_singleton in Hx as ->. by left.
  - cbn [rep span] in *. apply elem_of_app in Hx as [Hx|Hx].
    + destruct (p (code c) && room hi) eqn:E; [|by apply elem_of_nil in Hx].
      apply list_elem_of_fmap in Hx as (y & -> & Hy).
      destruct (IH _ _ _ Hy) as [->|(w & Hw & Hp & E')]; [by left|].
      right. by exists w.
    + destruct lo; [|by apply elem_of_nil in Hx].
      apply list_elem_of_singleton in Hx as ->.
      destruct (p (code c)) eqn:Hc; [|by left].
      destruct (room hi); [|by left]. cbn [andb]. right.
      exists (c :: (span p (less hi) s).1). split; [done|]. split.
      * constructor; [done|apply span_all].
      * cbn. f_equal. apply span_split.
Qed.

Lemma rep_least p : forall s lo hi x,
  x ∈ rep code true p lo hi s -> (lo <= length x.1)%nat.
Proof.
  induction s as [|c s IH]; intros lo hi x Hx.
  - cbn [rep app] in Hx. destruct lo; [lia|by apply elem_of_nil in Hx].
  - cbn [rep] in Hx. apply elem_of_app in Hx as [Hx|Hx].
    + destruct (p (code c) && room hi); [|by apply elem_of_nil in Hx].
      apply list_elem_of_fmap in Hx as (y & -> & Hy).
      apply IH in Hy. cbn. lia.
    + destruct lo; [lia|by apply elem_of_nil in Hx].
Qed.

(** With exactly [lo] repetitions asked for there is one run at most. *)
Lemma rep_exact p s lo x :
  x ∈ rep code true p lo (Some lo) s -> x = span p (Some lo) s.
Proof.
  intros Hx. destruct (rep_rest p s lo (Some lo) x Hx) as [H|(w & Hw & _ & E)];
    [done|exfalso].
  pose proof (rep_least p s lo (Some lo) x Hx) as Hlo.
  pose proof (span_fits p s (Some lo)) as Hfit. cbn in Hfit.
  pose proof (rep_split code true p s lo (Some lo) x Hx) as H1.
  pose proof (span_split p s (Some lo)) as H2.
  rewrite H1 in H2 at 1. rewrite E in H2.
  apply (f_equal length) in H2. rewrite !length_app in H2.
  destruct w; [done|]. cbn in H2. lia.
Qed.

(** *** The first run of a pattern is what [det] finds *)

Lemma flat_map_nil {B C} (f : B -> list C) (l : list B) :
  (forall x, x ∈ l -> f x = []) -> flat_map f l = [].
Proof.
  induction l as [|x l IH]; intros H; [done|]. cbn.
  rewrite (H x) by apply list_elem_of_here. apply IH.
  intros y Hy. apply H. by apply list_elem_of_further.
Qed.

Lemma det_runs its : ok its -> forall s,
  match det its s with
  | Some x => head (runs code (compile its) s) = Some x
  | None => runs code (compile its) s = []
  end.
Proof.
  induction its as [|[p lo hi|] its IH]; intros Hok s.
  - done.
  - destruct Hok as [Hg Hok]. specialize (IH Hok).
    cbn [det compile foldr item_re runs].
    destruct (Nat.leb_spec lo (length (span p hi s).1)) as [Hlo|Hlo].
    + pose proof (rep_longest p s lo hi Hlo) as Hhead.
      destruct (rep code true p lo hi s) as [|x0 l] eqn:Erep; [done|].
      injection Hhead as ->. specialize (IH (span p hi s).2).
      fold (compile its) in *.
      destruct (det its (span p hi s).2) as [y|] eqn:Ey;
        cbn [fmap option_fmap option_map].
      * cbn [flat_map]. destruct (runs code (compile its) (span p hi s).2);
          [done|]. by injection IH as ->.
      * apply flat_map_nil. intros x Hx.
        assert (runs code (compile its) x.2 = []) as ->; [|done].
        rewrite <- Erep in Hx. destruct Hg as [->|Hg].
        { by rewrite (rep_exact p s lo x Hx). }
        destruct (rep_rest p s lo hi x Hx) as [->|(w & Hw & Hp & ->)]; [done|].
        by apply Hg.
    + by rewrite rep_short.
  - cbn [det compile foldr item_re runs ok] in *.
    destruct (at_end code s); [|done]. cbn [flat_map fst snd]. rewrite app_nil_r.
    specialize (IH Hok s). fold (compile its) in *.
    destruct (det its s) as [y|].
    + destruct (runs code (compile its) s) as [|y' l]; [done|].
      injection IH as ->. cbn. by destruct y.
    + by rewrite IH.
Qed.

Lemma det_match r its :
  items_of r = Some its -> ok its ->
  forall s, match_here code r s = det its s.
Proof.
  intros Hr Hok s. unfold match_here. rewrite (items_runs r its Hr).
  pose proof (det_runs its Hok s) as H.
  destruct (det its s); [done|]. by rewrite H.
Qed.

Lemma det_split its : forall s x, det its s = Some x -> s = x.1 ++ x.2.
Proof.
  induction its as [|[p lo hi|] its IH]; intros s x; cbn [det].
  - by intros [= <-].
  - destruct (lo <=? _)%nat; [|done].
    destruct (det its (span p hi s).2) as [y|] eqn:Ey; [|done].
    cbn. intros [= <-]. cbn. rewrite <- app_assoc, <- (IH _ _ Ey).
    apply span_split.
  - destruct (at_end code s); [|done]. apply IH.
Qed.

(** *** How a continuation guards a repetition *)

(** No run of [k] starts with a character of [p]. *)
Definition refuses (p : N -> bool) (k : Re.t) : Prop :=
  forall c s, p (code c) = true -> runs code k (c :: s) = [].

Definition apart (p q : N -> bool) : Prop :=
  forall c : A, p (code c) = true -> q (code c) = false.

Lemma guards_refuses p k : refuses p k -> guards p k.
Proof.
  intros H w s Hw Hp _. destruct w as [|c w]; [done|].
  apply Forall_cons in Hp as [Hc _]. by apply H.
Qed.

Lemma refuses_some p q lo hi its :
  apart p q -> refuses p (compile (Take q (S lo) hi :: its)).
Proof.
  intros Hpq c s Hc. cbn [compile foldr item_re runs rep].
  by rewrite (Hpq c Hc).
Qed.

Lemma refuses_more p q hi its :
  apart p q -> refuses p (compile its) ->
  refuses p (compile (Take q 0 hi :: its)).
Proof.
  intros Hpq Hk c s Hc. cbn [compile foldr item_re runs rep].
  rewrite (Hpq c Hc). cbn [andb app flat_map fst snd].
  fold (compile its). by rewrite (Hk c s Hc).
Qed.

Lemma guards_end p : guards p (compile [End]).
Proof.
  intros w s Hw _. cbn [compile foldr item_re runs].
  destruct (at_end code s) eqn:E; [done|]. intros _.
  rewrite at_end_behind; [done| |done]. by intros ->.
Qed.

Lemma guards_last p : guards p (compile []).
Proof. by intros w s _ _. Qed.

(** The rest of a match that runs to [End] is at the end. *)
Lemma det_at_end its : forall s x,
  det (its ++ [End]) s = Some x -> at_end code x.2 = true.
Proof.
  induction its as [|[p lo hi|] its IH]; intros s x; cbn [app det].
  - destruct (at_end code s) eqn:E; [|done]. by intros [= <-].
  - destruct (lo <=? _)%nat; [|done].
    destruct (det (its ++ [End]) (span p hi s).2) as [y|] eqn:Ey; [|done].
    cbn. intros [= <-]. cbn. by eapply IH.
  - destruct (at_end code s); [|done]. apply IH.
Qed.

(** One item on a text that begins with what it takes. *)
Lemma det_take p lo hi its w t :
  Forall (fun a => p (code a) = true) w -> (lo <= length w)%nat ->
  fits (length w) hi -> stops code p hi (length w) t ->
  det (Take p lo hi :: its) (w ++ t) = (fun y => (w ++ y.1, y.2)) <$> det its t.
Proof.
  intros Hw Hlo Hfit Hstop. cbn [det]. rewrite span_exact by done.
  cbn [fst snd]. by rewrite (proj2 (Nat.leb_le _ _) Hlo).
Qed.

(** Behind white space a pattern that begins with \s* and a character
    finds nothing when that character is not there. *)
Lemma det_needs p q its s :
  match (span p None s).2 with
  | c :: _ => q (code c) = false
  | [] => True
  end ->
  det (Take p 0 None :: Take q 1 (Some 1%nat) :: its) s = None.
Proof.
  intros H. cbn [det Nat.leb]. 
  destruct (span p None s).2 as [|c v] eqn:E; cbn [span].
  - done.
  - by rewrite H.
Qed.

(** The last character of a match is one of the last item. *)
Lemma det_last its p lo hi : forall s x,
  det (its ++ [Take p (S lo) hi]) s = Some x ->
  exists m c, x.1 = m ++ [c] /\ p (code c) = true.
Proof.
  induction its as [|[q lo' hi'|] its IH]; intros s x; cbn [app det].
  - pose proof (span_all p s hi) as Hall.
    destruct (span p hi s) as [w v]. cbn [fst snd] in *.
    destruct w as [|c w _] using rev_ind; [done|].
    destruct (S lo <=? _)%nat; [|done]. cbn. intros [= <-]. cbn.
    apply Forall_app in Hall as [_ [Hc _]%Forall_cons].
    exists w, c. by rewrite app_nil_r.
  - destruct (lo' <=? _)%nat; [|done].
    destruct (det (its ++ [Take p (S lo) hi]) (span q hi' s).2) as [y|] eqn:Ey;
      [|done].
    cbn. intros [= <-]. cbn. destruct (IH _ _ Ey) as (m & c & -> & Hc).
    exists ((span q hi' s).1 ++ m), c. by rewrite app_assoc.
  - destruct (at_end code s); [|done]. apply IH.
Qed.

Lemma app_cross (a b c d : list A) :
  a ++ b = c ++ d ->
  (exists k, a = c ++ k /\ d = k ++ b) \/ (exists k, c = a ++ k /\ b = k ++ d).
Proof.
  revert c. induction a as [|x a IH]; intros c E.
  - right. by exists c.
  - destruct c as [|y c].
    + left. by exists (x :: a).
    + injection E as -> E. destruct (IH c E) as [(k & -> & ->)|(k & -> & ->)].
      * left. by exists k.
      * right. by exists k.
Qed.

(** A match that ends with a character of [q] does not end within a text
    that has none. *)
Lemma ends_before (q : A -> bool) u P m u' :
  u ++ P = m ++ u' ->
  (exists m' c, m = m' ++ [c] /\ q c = true) ->
  Forall (fun a => q a = false) P ->
  exists u'', u' = u'' ++ P.
Proof.
  intros E (m' & c & -> & Hc) HP.
  destruct (app_cross _ _ _ _ E) as [(k & _ & ->)|(k & Ek & ->)]; [by exists k|].
  destruct k as [|c' k _] using rev_ind; [by exists []|exfalso].
  rewrite app_assoc in Ek. apply app_inj_tail in Ek as [_ ->].
  apply Forall_app in HP as [HP _]. apply Forall_app in HP as [_ HP].
  apply Forall_cons in HP as [HP _]. congruence.
Qed.

(** A pattern that begins with \s* and a character finds nothing at the
    start of a text without that character before its first character that
    is not white space. *)
Lemma det_needs_in p q its b : forall y,
  Forall (fun a => q (code a) = false) y ->
  Exists (fun a => p (code a) = false) y ->
  det (Take p 0 None :: Take q 1 (Some 1%nat) :: its) (y ++ b) = None.
Proof.
  intros y Hq Hp. apply det_needs.
  induction y as [|c y IH]; [by apply Exists_nil in Hp|].
  apply Forall_cons in Hq as [Hc Hq]. cbn [app span room].
  destruct (p (code c)) eqn:Ec; cbn [andb consume snd]; [|done].
  apply IH; [done|]. apply Exists_cons in Hp as [Hp|Hp]; [congruence|done].
Qed.

(** *** Items on a text that begins with what they take *)

Definition starts_without (p : N -> bool) (t : list A) : Prop :=
  match t with
  | c :: _ => p (code c) = false
  | [] => True
  end.

Lemma starts_without_stops p hi n t : starts_without p t -> stops code p hi n t.
Proof. destruct t as [|c t]; [right; by left|]. intros H. right; right. by exists c, t. Qed.

Lemma det_chr p its c t :
  p (code c) = true ->
  det (Take p 1 (Some 1%nat) :: its) (c :: t) =
  (fun y => (c :: y.1, y.2)) <$> det its t.
Proof.
  intros Hc. apply (det_take p 1 (Some 1%nat) its [c] t);
    [by constructor|cbn; lia|cbn; lia|by left].
Qed.

Lemma det_opt p its c t :
  p (code c) = true ->
  det (Take p 0 (Some 1%nat) :: its) (c :: t) =
  (fun y => (c :: y.1, y.2)) <$> det its t.
Proof.
  intros Hc. apply (det_take p 0 (Some 1%nat) its [c] t);
    [by constructor|cbn; lia|cbn; lia|by left].
Qed.

Lemma det_skip p hi its t :
  starts_without p t -> det (Take p 0 hi :: its) t = det its t.
Proof.
  intros Ht.
  pose proof (det_take p 0 hi its [] t (Forall_nil_2 _) (Nat.le_refl _)) as H.
  cbn [app length] in H. rewrite H.
  - by destruct (det its t) as [[]|].
  - destruct hi; cbn; [lia|done].
  - by apply starts_without_stops.
Qed.

Lemma det_all p lo its w t :
  Forall (fun a => p (code a) = true) w -> (lo <= length w)%nat ->
  starts_without p t ->
  det (Take p lo None :: its) (w ++ t) = (fun y => (w ++ y.1, y.2)) <$> det its t.
Proof.
  intros Hw Hlo Ht. apply det_take; [done|done|done|by apply starts_without_stops].
Qed.

(** Every character of a match is one of a class of the pattern. *)
Lemma det_accepts its : forall s x,
  det its s = Some x ->
  Forall (fun a => accepts (compile its) (code a) = true) x.1.
Proof.
  induction its as [|[p lo hi|] its IH]; intros s x; cbn [det].
  - intros [= <-]. constructor.
  - destruct (lo <=? _)%nat; [|done].
    destruct (det its (span p hi s).2) as [y|] eqn:Ey; [|done].
    cbn [fmap option_fmap option_map]. intros [= <-]. cbn [fst].
    change (compile (Take p lo hi :: its))
      with (Cat (Rep true p lo hi) (compile its)).
    cbn [accepts]. apply Forall_app. split.
    + eapply Forall_impl; [apply span_all|]. cbn beta. by intros a ->.
    + eapply Forall_impl; [by eapply IH|]. cbn beta. intros a ->.
      apply orb_true_r.
  - destruct (at_end code s); [|done]. intros H.
    change (compile (End :: its)) with (Cat Eos (compile its)).
    cbn [accepts]. by eapply IH.
Qed.

Lemma det_cons_inv p lo hi its s x :
  det (Take p lo hi :: its) s = Some x ->
  exists y, det its (span p hi s).2 = Some y /\
            x = ((span p hi s).1 ++ y.1, y.2) /\
            (lo <= length (span p hi s).1)%nat.
Proof.
  cbn [det]. destruct (Nat.leb_spec lo (length (span p hi s).1)); [|done].
  destruct (det its (span p hi s).2) as [y|]; [|done].
  cbn. intros [= <-]. by exists y.
Qed.

(** Where the one character of [q] is. *)
Lemma unique_split (q : A -> bool) : forall x1 c1 y1 x2 c2 y2,
  x1 ++ c1 :: y1 = x2 ++ c2 :: y2 ->
  Forall (fun a => q a = false) x1 -> Forall (fun a => q a = false) y1 ->
  q c2 = true -> x1 = x2.
Proof.
  induction x1 as [|a x1 IH]; intros c1 y1 x2 c2 y2 E Hx Hy Hc.
  - destruct x2 as [|a' x2]; [done|]. injection E as -> ->.
    apply Forall_app in Hy as [_ [Hy _]%Forall_cons]. congruence.
  - apply Forall_cons in Hx as [Ha Hx]. destruct x2 as [|a' x2].
    + injection E as -> _. congruence.
    + injection E as -> E. f_equal. by eapply IH.
Qed.

End Det.

(** ** Two texts that differ in a number *)

Section Sim.
Context {A : Type} (code : A -> N).

(** The digits. *)
Variable dig : A -> bool.
Hypothesis dig_not_newline : forall a, dig a = true -> (code a =? 10) = false.

Definition number (n : list A) : Prop :=
  n <> [] /\ Forall (fun a => dig a = true) n.

(** An item that does not tell one number from another: it takes no digit,
    or as many as there are. *)
Definition blind (it : item) : Prop :=
  match it with
  | End => True
  | Take p lo hi =>
      (forall a, dig a = true -> p (code a) = false) \/
      ((forall a, dig a = true -> p (code a) = true) /\ hi = None /\ (lo <= 1)%nat)
  end.

(** The matches at the start of [u ++ n1 ++ b] and of [u ++ n2 ++ b]: none,
    the same within [u], or one that takes the number and ends at the same
    place in [b]. *)
Inductive sim (u n1 n2 b : list A) :
    option (list A * list A) -> option (list A * list A) -> Prop :=
| sim_none : sim u n1 n2 b None None
| sim_before m u' :
    u = m ++ u' ->
    sim u n1 n2 b (Some (m, u' ++ n1 ++ b)) (Some (m, u' ++ n2 ++ b))
| sim_across b0 rest :
    b = b0 ++ rest ->
    sim u n1 n2 b (Some (u ++ n1 ++ b0, rest)) (Some (u ++ n2 ++ b0, rest)).

Lemma number_not_at_end n u b : number n -> at_end code (u ++ n ++ b) = false.
Proof using dig_not_newline.
  intros [Hne Hn]. destruct n as [|d n]; [done|].
  apply Forall_cons in Hn as [Hd _].
  apply at_end_behind; [done|]. cbn [app at_end].
  destruct (n ++ b); [by apply dig_not_newline|done].
Qed.

Lemma span_number_out p hi n b :
  number n -> (forall a, dig a = true -> p (code a) = false) ->
  span code p hi (n ++ b) = ([], n ++ b).
Proof.
  intros [Hne Hn] Hp. destruct n as [|d n]; [done|].
  apply Forall_cons in Hn as [Hd _]. cbn [app span]. by rewrite (Hp d Hd).
Qed.

Lemma span_number_in p n b :
  number n -> (forall a, dig a = true -> p (code a) = true) ->
  span code p None (n ++ b) =
  (n ++ (span code p None b).1, (span code p None b).2).
Proof.
  intros [_ Hn] Hp. induction Hn as [|d n Hd _ IH].
  - cbn [app]. by destruct (span code p None b).
  - cbn [app span room less]. rewrite (Hp d Hd). cbn [andb]. by rewrite IH.
Qed.

Lemma sim_extend m0 u0 u n1 n2 b o1 o2 :
  sim u0 n1 n2 b o1 o2 -> u = m0 ++ u0 ->
  sim u n1 n2 b ((fun y => (m0 ++ y.1, y.2)) <$> o1)
                ((fun y => (m0 ++ y.1, y.2)) <$> o2).
Proof.
  intros [|m u' E|b0 rest E] ->; cbn [fmap option_fmap option_map fst snd].
  - constructor.
  - apply sim_before. by rewrite E, app_assoc.
  - rewrite !(app_assoc m0). by apply sim_across.
Qed.

Lemma det_sim its n1 n2 b :
  Forall blind its -> number n1 -> number n2 ->
  forall u, sim u n1 n2 b (det code its (u ++ n1 ++ b)) (det code its (u ++ n2 ++ b)).
Proof using dig_not_newline.
  intros Hits H1 H2.
  induction Hits as [|[p lo hi|] its Hit _ IH]; intros u.
  - cbn [det]. by apply (sim_before u n1 n2 b [] u).
  - cbn [det].
    rewrite (span_app code p (n1 ++ b) u hi), (span_app code p (n2 ++ b) u hi).
    pose proof (span_split code p u hi) as Hu.
    destruct (span code p hi u) as [m v] eqn:Eu. cbn [fst snd] in *.
    destruct v as [|c v].
    + rewrite app_nil_r in Hu. subst m.
      destruct Hit as [Hout|(Hin & -> & Hlo)].
      * rewrite !span_number_out by done. cbn [fst snd]. rewrite !app_nil_r.
        destruct (lo <=? length u)%nat; [|constructor].
        apply (sim_extend u [] u); [apply (IH [])|by rewrite app_nil_r].
      * cbn [minus_hi]. rewrite !span_number_in by done. cbn [fst snd].
        assert (forall n, number n ->
                  (lo <=? length (u ++ n ++ (span code p None b).1))%nat = true)
          as Hlen.
        { intros n [Hne _]. apply Nat.leb_le. rewrite !length_app.
          destruct n; [done|]. cbn. lia. }
        rewrite !Hlen by done.
        pose proof (span_split code p b None) as Hb.
        destruct (det code its (span code p None b).2) as [y|] eqn:Ey;
          cbn [fmap option_fmap option_map fst snd]; [|constructor].
        rewrite <- !app_assoc.
        apply (sim_across u n1 n2 b ((span code p None b).1 ++ y.1) y.2).
        rewrite <- app_assoc, <- (det_split code its _ _ Ey). exact Hb.
    + cbn [fst snd]. destruct (lo <=? length m)%nat; [|constructor].
      apply (sim_extend m (c :: v) u); [apply (IH (c :: v))|done].
  - cbn [det]. rewrite !number_not_at_end by done. constructor.
Qed.

End Sim.

(** ** Substitution in two texts that differ in a number *)

Section SubSim.
Context {A : Type} (code : A -> N).
Variable dig : A -> bool.
Hypothesis dig_not_newline : forall a, dig a = true -> (code a =? 10) = false.
Variable r : Re.t.
Variable its : list item.
Hypothesis r_det : forall s, match_here code r s = det code its s.
Hypothesis r_blind : Forall (blind code dig) its.
Hypothesis r_some : nullable r = false.
Variable repl : list A.

(** Before the numbers stands [a0 ++ P], and no match ends within [P]: the
    two texts become the same, or the scan gets to [P] in both, having put
    out the same. *)
Lemma sub_sim_tail P n1 n2 b :
  number dig n1 -> number dig n2 ->
  (forall u m u',
     det code its (u ++ P ++ n1 ++ b) = Some (m, u' ++ n1 ++ b) ->
     u ++ P = m ++ u' -> exists u'', u' = u'' ++ P) ->
  forall a0,
    sub code r repl (a0 ++ P ++ n1 ++ b) = sub code r repl (a0 ++ P ++ n2 ++ b) \/
    exists x,
      sub code r repl (a0 ++ P ++ n1 ++ b) = x ++ sub code r repl (P ++ n1 ++ b) /\
      sub code r repl (a0 ++ P ++ n2 ++ b) = x ++ sub code r repl (P ++ n2 ++ b).
Proof using All.
  intros H1 H2 Htail a0.
  remember (length a0) as k eqn:Ek. revert a0 Ek.
  induction k as [k IH] using lt_wf_ind. intros a0 Ek.
  destruct a0 as [|c a0]; [right; by exists []|].
  pose proof (det_sim code dig dig_not_newline its n1 n2 b r_blind H1 H2
                ((c :: a0) ++ P)) as Hsim.
  rewrite <- !app_assoc, <- !r_det in Hsim. cbn [app] in *.
  inversion Hsim as [E1 E2|m u' E E1 E2|b0 rest E E1 E2];
    symmetry in E1, E2.
  - rewrite !sub_none by done.
    destruct (IH (length a0) ltac:(cbn in Ek; lia) a0 eq_refl)
      as [H|(x & Hx1 & Hx2)].
    + left. by f_equal.
    + right. exists (c :: x). cbn [app]. by rewrite Hx1, Hx2.
  - pose proof (match_here_nonempty code _ _ _ r_some E1) as Hm.
    cbn [fst] in Hm.
    destruct (Htail (c :: a0) m u') as (u'' & ->);
      [by rewrite <- r_det|done|].
    rewrite app_assoc in E. change (c :: a0 ++ P) with ((c :: a0) ++ P) in E.
    apply app_inv_tail in E.
    rewrite (sub_some code r repl _ _ _ E1 Hm), (sub_some code r repl _ _ _ E2 Hm).
    rewrite <- !app_assoc.
    destruct (IH (length u'')) with (a0 := u'') as [H|(x & Hx1 & Hx2)]; [|done| |].
    + rewrite Ek, E, length_app. destruct m; [done|]. cbn. lia.
    + left. by f_equal.
    + right. exists (repl ++ x). by rewrite Hx1, Hx2, <- !app_assoc.
  - pose proof (match_here_nonempty code _ _ _ r_some E1) as Hm1.
    pose proof (match_here_nonempty code _ _ _ r_some E2) as Hm2.
    rewrite (sub_some code r repl _ _ _ E1 Hm1), (sub_some code r repl _ _ _ E2 Hm2).
    by left.
Qed.

End SubSim.

End DetTheory.

(** ** The three patterns of the key, item by item *)

Module KeyPatterns.
Import Chars Re ReTheory ReFirst ReLocal SubLocal DetTheory.

Ltac each_ascii :=
  let c := fresh "c" in
  intros c; destruct c as [[] [] [] [] [] [] [] []]; vm_compute; done.

Definition code_items : list item :=
  [Take (ci space) 0 None; Take (ci (lit "[")) 1 (Some 1%nat);
   Take (ci (lit "S")) 1 (Some 1%nat); Take (ci (oneof "LC")) 1 (Some 1%nat);
   Take (ci upper_AZ) 2 (Some 2%nat); Take (ci upper_AZ) 0 (Some 1%nat);
   Take (ci (lit "-")) 0 (Some 1%nat); Take (ci digit) 1 None;
   Take (ci (lit "]")) 1 (Some 1%nat); Take (ci space) 0 None; End].

Definition paren_items : list item :=
  [Take (ci space) 0 None; Take (ci (lit "(")) 1 (Some 1%nat);
   Take (ci (lit "d")) 1 (Some 1%nat); Take (ci (lit "i")) 1 (Some 1%nat);
   Take (ci (lit "s")) 1 (Some 1%nat); Take (ci (lit "c")) 1 (Some 1%nat);
   Take (ci space) 0 None; Take (ci digit) 1 None;
   Take (ci (lit ")")) 1 (Some 1%nat)].

Definition bare_items : list item :=
  [Take (ci (oneof " _-")) 0 None;
   Take (ci (lit "d")) 1 (Some 1%nat); Take (ci (lit "i")) 1 (Some 1%nat);
   Take (ci (lit "s")) 1 (Some 1%nat); Take (ci (lit "c")) 1 (Some 1%nat);
   Take (ci (oneof "_-")) 0 (Some 1%nat); Take (ci space) 0 None;
   Take (ci digit) 1 None].

Lemma code_items_of : items_of Pack.CODE_SUFFIX_RE = Some code_items.
Proof. reflexivity. Qed.

Lemma paren_items_of : items_of Pack.DISC_PAREN_RE = Some paren_items.
Proof. reflexivity. Qed.

Lemma bare_items_of : items_of Pack.DISC_BARE_RE = Some bare_items.
Proof. reflexivity. Qed.

(** *** No item goes back *)

Lemma apart_space_bracket : apart code_s (ci space) (ci (lit "[")).
Proof. each_ascii. Qed.
Lemma apart_space_paren : apart code_s (ci space) (ci (lit "(")).
Proof. each_ascii. Qed.
Lemma apart_space_digit : apart code_s (ci space) (ci digit).
Proof. each_ascii. Qed.
Lemma apart_digit_close : apart code_s (ci digit) (ci (lit "]")).
Proof. each_ascii. Qed.
Lemma apart_digit_paren : apart code_s (ci digit) (ci (lit ")")).
Proof. each_ascii. Qed.
Lemma apart_letter_hyphen : apart code_s (ci upper_AZ) (ci (lit "-")).
Proof. each_ascii. Qed.
Lemma apart_letter_digit : apart code_s (ci upper_AZ) (ci digit).
Proof. each_ascii. Qed.
Lemma apart_hyphen_digit : apart code_s (ci (lit "-")) (ci digit).
Proof. each_ascii. Qed.
Lemma apart_blank_d : apart code_s (ci (oneof " _-")) (ci (lit "d")).
Proof. each_ascii. Qed.
Lemma apart_sep_space : apart code_s (ci (oneof "_-")) (ci space).
Proof. each_ascii. Qed.
Lemma apart_sep_digit : apart code_s (ci (oneof "_-")) (ci digit).
Proof. each_ascii. Qed.

Lemma code_ok : ok code_s code_items.
Proof.
  unfold code_items. cbn [ok]. repeat split; try (by left); right.
  - apply guards_refuses, refuses_some, apart_space_bracket.
  - apply guards_refuses, refuses_more; [apply apart_letter_hyphen|].
    apply refuses_some, apart_letter_digit.
  - apply guards_refuses, refuses_some, apart_hyphen_digit.
  - apply guards_refuses, refuses_some, apart_digit_close.
  - apply guards_end.
Qed.

Lemma paren_ok : ok code_s paren_items.
Proof.
  unfold paren_items. cbn [ok]. repeat split; try (by left); right.
  - apply guards_refuses, refuses_some, apart_space_paren.
  - apply guards_refuses, refuses_some, apart_space_digit.
  - apply guards_refuses, refuses_some, apart_digit_paren.
Qed.

Lemma bare_ok : ok code_s bare_items.
Proof.
  unfold bare_items. cbn [ok]. repeat split; try (by left); right.
  - apply guards_refuses, refuses_some, apart_blank_d.
  - apply guards_refuses, refuses_more; [apply apart_sep_space|].
    apply refuses_some, apart_sep_digit.
  - apply guards_refuses, refuses_some, apart_space_digit.
  - apply guards_last.
Qed.

(** What the patterns find is what their items take. *)
Lemma code_det s :
  match_here code_s Pack.CODE_SUFFIX_RE s = det code_s code_items s.
Proof. apply det_match; [apply code_items_of|apply code_ok]. Qed.

Lemma paren_det s :
  match_here code_s Pack.DISC_PAREN_RE s = det code_s paren_items s.
Proof. apply det_match; [apply paren_items_of|apply paren_ok]. Qed.

Lemma bare_det s :
  match_here code_s Pack.DISC_BARE_RE s = det code_s bare_items s.
Proof. apply det_match; [apply bare_items_of|apply bare_ok]. Qed.

(** *** No item tells one number from another *)

Lemma digit_not_newline a : isdigit a = true -> (code_s a =? 10) = false.
Proof. revert a. each_ascii. Qed.

Ltac blind_item :=
  first [ left; each_ascii
        | right; split; [each_ascii | split; [reflexivity | lia]] ].

Lemma code_blind : Forall (blind code_s isdigit) code_items.
Proof. unfold code_items. repeat (constructor; [try done; blind_item|]). constructor. Qed.

Lemma paren_blind : Forall (blind code_s isdigit) paren_items.
Proof. unfold paren_items. repeat (constructor; [try done; blind_item|]). constructor. Qed.

Lemma bare_blind : Forall (blind code_s isdigit) bare_items.
Proof. unfold bare_items. repeat (constructor; [try done; blind_item|]). constructor. Qed.

End KeyPatterns.

(** ** The marker patterns on a stem with a disc marker *)

Module KeyFacts.
Import Chars Re ReTheory ReFirst ReLocal SubLocal DetTheory KeyPatterns.

(** A disc number, white space, and the separator the bare pattern allows
    behind the word. *)
Definition num (n : text) : Prop := number isdigit n.
Definition blank (g : text) : Prop := Forall (fun c => isspace c = true) g.
Definition sep (h : text) : Prop := h = [] \/ h = str "_" \/ h = str "-".

Ltac ascii_facts :=
  let c := fresh "c" in
  intros c; destruct c as [[] [] [] [] [] [] [] []]; vm_compute;
  intuition congruence.

Lemma ci_space : forall c, ci space (code_s c) = isspace c.
Proof. ascii_facts. Qed.

Lemma space_facts : forall c,
  isspace c = true ->
  ci (lit "(") (code_s c) = false /\ ci (lit ")") (code_s c) = false /\
  ci (lit "[") (code_s c) = false /\ ci digit (code_s c) = false /\
  ci (oneof "_-") (code_s c) = false.
Proof. ascii_facts. Qed.

Lemma digit_facts : forall c,
  isdigit c = true ->
  ci digit (code_s c) = true /\ ci space (code_s c) = false /\
  ci (lit "(") (code_s c) = false /\ ci (lit ")") (code_s c) = false /\
  ci (lit "[") (code_s c) = false /\ ci (oneof "_-") (code_s c) = false /\
  ci (oneof " _-") (code_s c) = false /\ isspace c = false.
Proof. ascii_facts. Qed.

Lemma num_head n : num n -> exists d n', n = d :: n' /\ isdigit d = true.
Proof.
  intros [Hne Hn]. destruct n as [|d n']; [done|].
  apply Forall_cons in Hn as [Hd _]. by exists d, n'.
Qed.

Lemma num_last n : num n -> exists n' d, n = n' ++ [d] /\ isdigit d = true.
Proof.
  intros [Hne Hn]. destruct n as [|d n' _] using rev_ind; [done|].
  apply Forall_app in Hn as [_ [Hd _]%Forall_cons]. by exists n', d.
Qed.

Lemma num_digits n : num n -> Forall (fun a => ci digit (code_s a) = true) n.
Proof.
  intros [_ Hn]. eapply Forall_impl; [exact Hn|]. intros c Hc.
  by apply digit_facts.
Qed.

Lemma blank_spaces g : blank g -> Forall (fun a => ci space (code_s a) = true) g.
Proof.
  intros Hg. eapply Forall_impl; [exact Hg|]. intros c Hc. by rewrite ci_space.
Qed.

(** *** The patterns at a marker *)

Lemma digits_at n b :
  num n ->
  det code_s [Take (ci digit) 1 None] (n ++ b) =
  Some (n ++ (span code_s (ci digit) None b).1, (span code_s (ci digit) None b).2).
Proof.
  intros Hn. cbn [det].
  rewrite (span_number_in code_s isdigit (ci digit) n b Hn)
    by (intros a Ha; by apply digit_facts).
  cbn [fst snd fmap option_fmap option_map]. rewrite app_nil_r.
  destruct Hn as [Hne _]. destruct n; [done|]. reflexivity.
Qed.

Lemma digits_close_at n b :
  num n ->
  det code_s [Take (ci digit) 1 None; Take (ci (lit ")")) 1 (Some 1%nat)]
      (n ++ ")"%char :: b) =
  Some (n ++ [")"%char], b).
Proof.
  intros Hn.
  rewrite det_all; [|by apply num_digits| |reflexivity].
  - by rewrite det_chr.
  - destruct Hn as [Hne _]. destruct n; [done|cbn; lia].
Qed.

Lemma gap_starts_without (q : N -> bool) g n b :
  blank g -> num n ->
  (forall c, isspace c = true -> q (code_s c) = false) ->
  (forall c, isdigit c = true -> q (code_s c) = false) ->
  starts_without code_s q (g ++ n ++ b).
Proof.
  intros Hg (d & n' & -> & Hd)%num_head Hs Hq.
  destruct g as [|c g]; cbn; [by apply Hq|].
  apply Forall_cons in Hg as [Hc _]. by apply Hs.
Qed.

Lemma bare_at h g n b :
  sep h -> blank g -> num n ->
  det code_s bare_items (str "disc" ++ h ++ g ++ n ++ b) =
  Some (str "disc" ++ h ++ g ++ n ++ (span code_s (ci digit) None b).1,
        (span code_s (ci digit) None b).2).
Proof.
  intros Hh Hg Hn. unfold bare_items.
  change (str "disc") with ["d"; "i"; "s"; "c"]%char. cbn [app].
  rewrite det_skip by reflexivity. rewrite !det_chr by reflexivity.
  assert (det code_s [Take (ci space) 0 None; Take (ci digit) 1 None]
              (g ++ n ++ b) =
          Some (g ++ n ++ (span code_s (ci digit) None b).1,
                (span code_s (ci digit) None b).2)) as Hgap.
  { rewrite det_all; [|by apply blank_spaces|lia|].
    - by rewrite digits_at.
    - destruct (num_head n Hn) as (d & n' & -> & Hd). cbn. by apply digit_facts. }
  destruct Hh as [->|[->| ->]]; cbn [app].
  - rewrite det_skip.
    + by rewrite Hgap.
    + apply gap_starts_without; [done|done| |]; intros c Hc.
      * by apply space_facts.
      * by apply digit_facts.
  - change (str "_") with ["_"%char]. cbn [app].
    rewrite det_opt by reflexivity. by rewrite Hgap.
  - change (str "-") with ["-"%char]. cbn [app].
    rewrite det_opt by reflexivity. by rewrite Hgap.
Qed.

Lemma paren_at g n b :
  blank g -> num n ->
  det code_s paren_items (str "(disc" ++ g ++ n ++ ")"%char :: b) =
  Some (str "(disc" ++ g ++ n ++ [")"%char], b).
Proof.
  intros Hg Hn. unfold paren_items.
  change (str "(disc") with ["("; "d"; "i"; "s"; "c"]%char. cbn [app].
  rewrite det_skip by reflexivity. rewrite !det_chr by reflexivity.
  rewrite det_all; [|by apply blank_spaces|lia|].
  - by rewrite digits_close_at.
  - destruct (num_head n Hn) as (d & n' & -> & Hd). cbn. by apply digit_facts.
Qed.

(** *** What a pattern leaves alone *)

(** A text without "(" that ends with a character that is no white space
    stays as it is under the parenthesised pattern, whatever follows. *)
Lemma needs_kept r its (q : N -> bool) y0 z b :
  (forall s, match_here code_s r s =
             det code_s (Take (ci space) 0 None :: Take q 1 (Some 1%nat) :: its) s) ->
  Forall (fun a => q (code_s a) = false) (y0 ++ [z]) ->
  ci space (code_s z) = false ->
  sub code_s r [] ((y0 ++ [z]) ++ b) = (y0 ++ [z]) ++ sub code_s r [] b.
Proof.
  intros Hr Hq Hz. apply sub_dead_prefix. intros u1 u2 E Hne.
  rewrite Hr. apply det_needs_in.
  - rewrite E in Hq. by apply Forall_app in Hq as [_ ?].
  - apply PackFacts.snoc_suffix in E as [->|(u' & ->)]; [done|].
    apply Exists_app. right. by left.
Qed.

Lemma paren_kept y0 z b :
  Forall (fun a => ci (lit "(") (code_s a) = false) (y0 ++ [z]) ->
  ci space (code_s z) = false ->
  sub code_s Pack.DISC_PAREN_RE [] ((y0 ++ [z]) ++ b) =
  (y0 ++ [z]) ++ sub code_s Pack.DISC_PAREN_RE [] b.
Proof.
  apply (needs_kept Pack.DISC_PAREN_RE (tail (tail paren_items)) (ci (lit "("))).
  intros s. exact (paren_det s).
Qed.

Lemma code_kept y0 z b :
  Forall (fun a => ci (lit "[") (code_s a) = false) (y0 ++ [z]) ->
  ci space (code_s z) = false ->
  sub code_s Pack.CODE_SUFFIX_RE [] ((y0 ++ [z]) ++ b) =
  (y0 ++ [z]) ++ sub code_s Pack.CODE_SUFFIX_RE [] b.
Proof.
  apply (needs_kept Pack.CODE_SUFFIX_RE (tail (tail code_items)) (ci (lit "["))).
  intros s. exact (code_det s).
Qed.

(** *** The characters of a marker *)

Lemma sep_chars (q : N -> bool) h :
  sep h -> q (code_s "_") = false -> q (code_s "-") = false ->
  Forall (fun a => q (code_s a) = false) h.
Proof. intros [->|[->| ->]] H1 H2; by repeat constructor. Qed.

Lemma blank_chars (q : N -> bool) g :
  blank g -> (forall c, isspace c = true -> q (code_s c) = false) ->
  Forall (fun a => q (code_s a) = false) g.
Proof. intros Hg Hq. eapply Forall_impl; [exact Hg|]. exact Hq. Qed.

Lemma num_chars (q : N -> bool) n :
  num n -> (forall c, isdigit c = true -> q (code_s c) = false) ->
  Forall (fun a => q (code_s a) = false) n.
Proof. intros [_ Hn] Hq. eapply Forall_impl; [exact Hn|]. exact Hq. Qed.

(** [q] is no character of the bare marker before its number. *)
Lemma bare_word_chars (q : N -> bool) h g :
  sep h -> blank g ->
  Forall (fun a => q (code_s a) = false) (str "disc_-") ->
  (forall c, isspace c = true -> q (code_s c) = false) ->
  Forall (fun a => q (code_s a) = false) (str "disc" ++ h ++ g).
Proof.
  intros Hh Hg Hw Hs.
  change (str "disc_-") with (str "disc" ++ ["_"; "-"]%char) in Hw.
  apply Forall_app in Hw as [Hw Hsep].
  apply Forall_cons in Hsep as [H1 [H2 _]%Forall_cons].
  apply Forall_app. split; [done|]. apply Forall_app. split.
  - by apply sep_chars.
  - by apply blank_chars.
Qed.

Lemma paren_word_chars (q : N -> bool) g :
  blank g ->
  Forall (fun a => q (code_s a) = false) (str "(disc") ->
  (forall c, isspace c = true -> q (code_s c) = false) ->
  Forall (fun a => q (code_s a) = false) (str "(disc" ++ g).
Proof.
  intros Hg Hw Hs. apply Forall_app. split; [done|]. by apply blank_chars.
Qed.

(** *** The bare pattern takes a bare marker *)

Lemma bare_same a0 h g n1 n2 b :
  sep h -> blank g -> num n1 -> num n2 ->
  sub code_s Pack.DISC_BARE_RE [] (a0 ++ str "disc" ++ h ++ g ++ n1 ++ b) =
  sub code_s Pack.DISC_BARE_RE [] (a0 ++ str "disc" ++ h ++ g ++ n2 ++ b).
Proof.
  intros Hh Hg H1 H2. set (P := str "disc" ++ h ++ g).
  assert (forall n, str "disc" ++ h ++ g ++ n ++ b = P ++ n ++ b) as HP
    by (intros n; unfold P; by rewrite <- !app_assoc).
  rewrite !HP.
  assert (forall n, num n ->
            sub code_s Pack.DISC_BARE_RE [] (P ++ n ++ b) =
            sub code_s Pack.DISC_BARE_RE []
              (span code_s (ci digit) None b).2) as Hat.
  { intros n Hn. pose proof (bare_at h g n b Hh Hg Hn) as H.
    rewrite HP, <- bare_det in H.
    rewrite (sub_some code_s _ _ _ _ _ H); [done|].
    by change (str "disc" ++ h ++ g ++ n ++ (span code_s (ci digit) None b).1)
      with ("d"%char :: (str "isc" ++ h ++ g ++ n ++
                         (span code_s (ci digit) None b).1)). }
  destruct (sub_sim_tail code_s isdigit digit_not_newline Pack.DISC_BARE_RE
              bare_items bare_det bare_blind eq_refl [] P n1 n2 b H1 H2)
    with (a0 := a0) as [H|(x & Hx1 & Hx2)]; [|done|].
  - intros u m u' Hdet E.
    apply (ends_before (fun a => ci digit (code_s a)) u P m u' E).
    + change bare_items with
        ([Take (ci (oneof " _-")) 0 None;
          Take (ci (lit "d")) 1 (Some 1%nat); Take (ci (lit "i")) 1 (Some 1%nat);
          Take (ci (lit "s")) 1 (Some 1%nat); Take (ci (lit "c")) 1 (Some 1%nat);
          Take (ci (oneof "_-")) 0 (Some 1%nat); Take (ci space) 0 None] ++
         [Take (ci digit) 1 None]) in Hdet.
      exact (det_last code_s _ _ _ _ _ _ Hdet).
    + apply bare_word_chars; [done|done|by repeat constructor|].
      intros c Hc. by apply space_facts.
  - by rewrite Hx1, Hx2, !Hat.
Qed.

(** *** The parenthesised pattern takes a parenthesised marker *)

Definition paren_front : list item :=
  [Take (ci space) 0 None; Take (ci (lit "(")) 1 (Some 1%nat);
   Take (ci (lit "d")) 1 (Some 1%nat); Take (ci (lit "i")) 1 (Some 1%nat);
   Take (ci (lit "s")) 1 (Some 1%nat); Take (ci (lit "c")) 1 (Some 1%nat);
   Take (ci space) 0 None; Take (ci digit) 1 None].

Lemma paren_ends u P m u' s rest :
  det code_s paren_items s = Some (m, rest) ->
  u ++ P = m ++ u' ->
  Forall (fun a => ci (lit ")") (code_s a) = false) P ->
  exists u'', u' = u'' ++ P.
Proof.
  intros Hdet E HP.
  apply (ends_before (fun a => ci (lit ")") (code_s a)) u P m u' E); [|done].
  change paren_items with (paren_front ++ [Take (ci (lit ")")) 1 (Some 1%nat)])
    in Hdet.
  exact (det_last code_s _ _ _ _ _ _ Hdet).
Qed.

Lemma paren_same a0 g n1 n2 b :
  blank g -> num n1 -> num n2 ->
  sub code_s Pack.DISC_PAREN_RE [] (a0 ++ str "(disc" ++ g ++ n1 ++ ")"%char :: b) =
  sub code_s Pack.DISC_PAREN_RE [] (a0 ++ str "(disc" ++ g ++ n2 ++ ")"%char :: b).
Proof.
  intros Hg H1 H2. set (P := str "(disc" ++ g).
  assert (forall n, str "(disc" ++ g ++ n ++ ")"%char :: b =
                    P ++ n ++ ")"%char :: b) as HP
    by (intros n; unfold P; by rewrite <- !app_assoc).
  rewrite !HP.
  assert (forall n, num n ->
            sub code_s Pack.DISC_PAREN_RE [] (P ++ n ++ ")"%char :: b) =
            sub code_s Pack.DISC_PAREN_RE [] b) as Hat.
  { intros n Hn. pose proof (paren_at g n b Hg Hn) as H.
    rewrite HP, <- paren_det in H.
    by rewrite (sub_some code_s _ _ _ _ _ H). }
  destruct (sub_sim_tail code_s isdigit digit_not_newline Pack.DISC_PAREN_RE
              paren_items paren_det paren_blind eq_refl [] P n1 n2
              (")"%char :: b) H1 H2)
    with (a0 := a0) as [H|(x & Hx1 & Hx2)]; [|done|].
  - intros u m u' Hdet E. apply (paren_ends u P m u' _ _ Hdet E).
    apply paren_word_chars; [done|by repeat constructor|].
    intros c Hc. by apply space_facts.
  - by rewrite Hx1, Hx2, !Hat.
Qed.

(** *** The parenthesised pattern on a bare marker: it takes the marker
    with the parentheses around it, or leaves it where it is *)

Lemma paren_bare a0 h g n1 n2 b :
  sep h -> blank g -> num n1 -> num n2 ->
  sub code_s Pack.DISC_PAREN_RE [] (a0 ++ str "disc" ++ h ++ g ++ n1 ++ b) =
  sub code_s Pack.DISC_PAREN_RE [] (a0 ++ str "disc" ++ h ++ g ++ n2 ++ b) \/
  exists x y,
    sub code_s Pack.DISC_PAREN_RE [] (a0 ++ str "disc" ++ h ++ g ++ n1 ++ b) =
      x ++ str "disc" ++ h ++ g ++ n1 ++ y /\
    sub code_s Pack.DISC_PAREN_RE [] (a0 ++ str "disc" ++ h ++ g ++ n2 ++ b) =
      x ++ str "disc" ++ h ++ g ++ n2 ++ y.
Proof.
  intros Hh Hg H1 H2. set (P := str "disc" ++ h ++ g).
  assert (forall n t, str "disc" ++ h ++ g ++ n ++ t = P ++ n ++ t) as HP
    by (intros n t; unfold P; by rewrite <- !app_assoc).
  rewrite !HP.
  assert (forall n, num n ->
            sub code_s Pack.DISC_PAREN_RE [] (P ++ n ++ b) =
            P ++ n ++ sub code_s Pack.DISC_PAREN_RE [] b) as Hat.
  { intros n Hn. destruct (num_last n Hn) as (n' & d & -> & Hd).
    assert (forall t, P ++ (n' ++ [d]) ++ t = ((P ++ n') ++ [d]) ++ t) as Ha
      by (intros t; by rewrite <- !app_assoc).
    rewrite !Ha. apply paren_kept; [|by apply digit_facts].
    rewrite <- app_assoc. apply Forall_app. split.
    - apply bare_word_chars; [done|done|by repeat constructor|].
      intros c Hc. by apply space_facts.
    - apply num_chars; [done|]. intros c Hc. by apply digit_facts. }
  destruct (sub_sim_tail code_s isdigit digit_not_newline Pack.DISC_PAREN_RE
              paren_items paren_det paren_blind eq_refl [] P n1 n2 b H1 H2)
    with (a0 := a0) as [H|(x & Hx1 & Hx2)]; [|by left|].
  - intros u m u' Hdet E. apply (paren_ends u P m u' _ _ Hdet E).
    apply bare_word_chars; [done|done|by repeat constructor|].
    intros c Hc. by apply space_facts.
  - right. exists x, (sub code_s Pack.DISC_PAREN_RE [] b).
    by rewrite Hx1, Hx2, !Hat, !HP.
Qed.

(** *** The suffix pattern *)

Definition code_front : list item :=
  [Take (ci space) 0 None; Take (ci (lit "[")) 1 (Some 1%nat);
   Take (ci (lit "S")) 1 (Some 1%nat); Take (ci (oneof "LC")) 1 (Some 1%nat);
   Take (ci upper_AZ) 2 (Some 2%nat); Take (ci upper_AZ) 0 (Some 1%nat);
   Take (ci (lit "-")) 0 (Some 1%nat); Take (ci digit) 1 None;
   Take (ci (lit "]")) 1 (Some 1%nat); Take (ci space) 0 None].

(** A match of the suffix pattern goes to the end: none stops before a
    number. *)
Lemma code_to_end s m u n b :
  num n -> det code_s code_items s = Some (m, u ++ n ++ b) -> False.
Proof.
  intros Hn Hdet.
  change code_items with (code_front ++ [End]) in Hdet.
  apply det_at_end in Hdet. cbn [snd] in Hdet.
  by rewrite (number_not_at_end code_s isdigit digit_not_newline n u b Hn) in Hdet.
Qed.

(** The suffix pattern on a stem with a marker: it takes the marker with
    what stands around it, or leaves it where it is. *)
Lemma code_bare a0 h g n1 n2 b :
  sep h -> blank g -> num n1 -> num n2 ->
  Pack.strip_code (a0 ++ str "disc" ++ h ++ g ++ n1 ++ b) =
  Pack.strip_code (a0 ++ str "disc" ++ h ++ g ++ n2 ++ b) \/
  exists x y,
    Pack.strip_code (a0 ++ str "disc" ++ h ++ g ++ n1 ++ b) =
      x ++ str "disc" ++ h ++ g ++ n1 ++ y /\
    Pack.strip_code (a0 ++ str "disc" ++ h ++ g ++ n2 ++ b) =
      x ++ str "disc" ++ h ++ g ++ n2 ++ y.
Proof.
  intros Hh Hg H1 H2. unfold Pack.strip_code.
  change (str "") with (@nil ascii). set (P := str "disc" ++ h ++ g).
  assert (forall n t, str "disc" ++ h ++ g ++ n ++ t = P ++ n ++ t) as HP
    by (intros n t; unfold P; by rewrite <- !app_assoc).
  rewrite !HP.
  assert (forall n, num n ->
            sub code_s Pack.CODE_SUFFIX_RE [] (P ++ n ++ b) =
            P ++ n ++ sub code_s Pack.CODE_SUFFIX_RE [] b) as Hat.
  { intros n Hn. destruct (num_last n Hn) as (n' & d & -> & Hd).
    assert (forall t, P ++ (n' ++ [d]) ++ t = ((P ++ n') ++ [d]) ++ t) as Ha
      by (intros t; by rewrite <- !app_assoc).
    rewrite !Ha. apply code_kept; [|by apply digit_facts].
    rewrite <- app_assoc. apply Forall_app. split.
    - apply bare_word_chars; [done|done|by repeat constructor|].
      intros c Hc. by apply space_facts.
    - apply num_chars; [done|]. intros c Hc. by apply digit_facts. }
  destruct (sub_sim_tail code_s isdigit digit_not_newline Pack.CODE_SUFFIX_RE
              code_items code_det code_blind eq_refl [] P n1 n2 b H1 H2)
    with (a0 := a0) as [H|(x & Hx1 & Hx2)]; [|by left|].
  - intros u m u' Hdet _. by destruct (code_to_end _ _ _ _ _ H1 Hdet).
  - right. exists x, (sub code_s Pack.CODE_SUFFIX_RE [] b).
    by rewrite Hx1, Hx2, !Hat, !HP.
Qed.

Lemma code_paren a0 g n1 n2 b :
  blank g -> num n1 -> num n2 ->
  Pack.strip_code (a0 ++ str "(disc" ++ g ++ n1 ++ ")"%char :: b) =
  Pack.strip_code (a0 ++ str "(disc" ++ g ++ n2 ++ ")"%char :: b) \/
  exists x y,
    Pack.strip_code (a0 ++ str "(disc" ++ g ++ n1 ++ ")"%char :: b) =
      x ++ str "(disc" ++ g ++ n1 ++ ")"%char :: y /\
    Pack.strip_code (a0 ++ str "(disc" ++ g ++ n2 ++ ")"%char :: b) =
      x ++ str "(disc" ++ g ++ n2 ++ ")"%char :: y.
Proof.
  intros Hg H1 H2. unfold Pack.strip_code.
  change (str "") with (@nil ascii). set (P := str "(disc" ++ g).
  assert (forall n t, str "(disc" ++ g ++ n ++ ")"%char :: t =
                      P ++ n ++ ")"%char :: t) as HP
    by (intros n t; unfold P; by rewrite <- !app_assoc).
  rewrite !HP.
  assert (forall n, num n ->
            sub code_s Pack.CODE_SUFFIX_RE [] (P ++ n ++ ")"%char :: b) =
            P ++ n ++ ")"%char :: sub code_s Pack.CODE_SUFFIX_RE [] b) as Hat.
  { intros n Hn.
    assert (forall t, P ++ n ++ ")"%char :: t = ((P ++ n) ++ [")"%char]) ++ t)
      as Ha by (intros t; by rewrite <- !app_assoc).
    rewrite !Ha. apply code_kept; [|reflexivity].
    apply Forall_app. split; [|by repeat constructor].
    apply Forall_app. split.
    - apply paren_word_chars; [done|by repeat constructor|].
      intros c Hc. by apply space_facts.
    - apply num_chars; [done|]. intros c Hc. by apply digit_facts. }
  destruct (sub_sim_tail code_s isdigit digit_not_newline Pack.CODE_SUFFIX_RE
              code_items code_det code_blind eq_refl [] P n1 n2
              (")"%char :: b) H1 H2)
    with (a0 := a0) as [H|(x & Hx1 & Hx2)]; [|by left|].
  - intros u m u' Hdet _. by destruct (code_to_end _ _ _ _ _ H1 Hdet).
  - right. exists x, (sub code_s Pack.CODE_SUFFIX_RE [] b).
    by rewrite Hx1, Hx2, !Hat, !HP.
Qed.

(** *** The bracketed code at the end *)

(** A code as the suffix pattern reads it, in any letter case. *)
Definition code_chars (c : text) : Prop :=
  exists s l p h d, c = s :: l :: p ++ h ++ d /\
    ci (lit "S") (code_s s) = true /\ ci (oneof "LC") (code_s l) = true /\
    (2 <= length p <= 3)%nat /\
    Forall (fun a => ci upper_AZ (code_s a) = true) p /\
    (h = [] \/ h = ["-"%char]) /\ num d.

Lemma digit_more : forall c,
  isdigit c = true ->
  ci upper_AZ (code_s c) = false /\ ci (lit "-") (code_s c) = false /\
  ci (lit "]") (code_s c) = false.
Proof. ascii_facts. Qed.

Lemma code_tail_at h d :
  (h = [] \/ h = ["-"%char]) -> num d ->
  det code_s
    [Take (ci (lit "-")) 0 (Some 1%nat); Take (ci digit) 1 None;
     Take (ci (lit "]")) 1 (Some 1%nat); Take (ci space) 0 None; End]
    (h ++ d ++ ["]"%char]) =
  Some (h ++ d ++ ["]"%char], []).
Proof.
  intros Hh Hd.
  assert (det code_s
            [Take (ci digit) 1 None; Take (ci (lit "]")) 1 (Some 1%nat);
             Take (ci space) 0 None; End] (d ++ ["]"%char]) =
          Some (d ++ ["]"%char], [])) as Hdig.
  { rewrite det_all; [|by apply num_digits| |reflexivity].
    - rewrite det_chr by reflexivity. by rewrite det_skip.
    - destruct Hd as [Hne _]. destruct d; [done|cbn; lia]. }
  destruct Hh as [->| ->]; cbn [app].
  - rewrite det_skip; [done|].
    destruct (num_head d Hd) as (d0 & d' & -> & Hd0). cbn. by apply digit_more.
  - rewrite det_opt by reflexivity. by rewrite Hdig.
Qed.

Lemma code_tail_starts h d :
  (h = [] \/ h = ["-"%char]) -> num d ->
  starts_without code_s (ci upper_AZ) (h ++ d ++ ["]"%char]).
Proof.
  intros [->| ->] Hd; [|reflexivity].
  destruct (num_head d Hd) as (d0 & d' & -> & Hd0). cbn. by apply digit_more.
Qed.

Lemma code_at w c :
  blank w -> code_chars c ->
  det code_s code_items (w ++ "["%char :: c ++ ["]"%char]) =
  Some (w ++ "["%char :: c ++ ["]"%char], []).
Proof.
  intros Hw (s & l & p & h & d & -> & Hs & Hl & Hp & HAZ & Hh & Hd).
  pose proof (code_tail_at h d Hh Hd) as Htail.
  pose proof (code_tail_starts h d Hh Hd) as Hstart.
  unfold code_items.
  rewrite det_all; [|by apply blank_spaces|lia|reflexivity].
  rewrite det_chr by reflexivity. cbn [app].
  rewrite det_chr by done. rewrite det_chr by done.
  destruct p as [|a [|b [|e [|e' p]]]]; cbn [length] in Hp; try lia.
  - apply Forall_cons in HAZ as [Ha [Hb _]%Forall_cons].
    change (([a; b] ++ h ++ d) ++ ["]"%char])
      with ([a; b] ++ (h ++ d) ++ ["]"%char]).
    rewrite <- (app_assoc h).
    rewrite det_take; [|by repeat constructor|cbn; lia|cbn; lia|by left].
    rewrite det_skip by done. rewrite Htail.
    cbn [fmap option_fmap option_map fst snd app]. done.
  - apply Forall_cons in HAZ as [Ha [Hb [He _]%Forall_cons]%Forall_cons].
    change (([a; b; e] ++ h ++ d) ++ ["]"%char])
      with ([a; b] ++ e :: (h ++ d) ++ ["]"%char]).
    rewrite <- (app_assoc h).
    rewrite det_take; [|by repeat constructor|cbn; lia|cbn; lia|by left].
    rewrite det_opt by done. rewrite Htail.
    cbn [fmap option_fmap option_map fst snd app]. done.
Qed.

(** The classes of the suffix pattern behind its bracket have no
    bracket. *)
Lemma code_behind_bracket : forall c,
  accepts (compile (tail (tail code_items))) (code_s c) = true ->
  ci (lit "[") (code_s c) = false.
Proof. ascii_facts. Qed.

Lemma newline_no_bracket : forall c,
  (code_s c =? 10) = true -> ci (lit "[") (code_s c) = false.
Proof. ascii_facts. Qed.

Lemma at_end_no_bracket rest :
  at_end code_s rest = true ->
  Forall (fun a => ci (lit "[") (code_s a) = false) rest.
Proof.
  destruct rest as [|c [|c' rest]]; [constructor| |done].
  cbn. intros H. constructor; [by apply newline_no_bracket|constructor].
Qed.

(** Before a bracketed code the suffix pattern starts in the white space in
    front of it, not earlier. *)
Lemma code_not_before u z w c :
  isspace z = false ->
  det code_s code_items ((u ++ [z]) ++ w ++ "["%char :: c ++ ["]"%char]) = None.
Proof.
  intros Hz.
  destruct (det code_s code_items _) as [[m rest]|] eqn:Hdet; [exfalso|done].
  pose proof Hdet as Hend.
  change code_items with (code_front ++ [End]) in Hend.
  apply det_at_end in Hend. cbn [snd] in Hend.
  pose proof (det_split code_s _ _ _ Hdet) as Hs. cbn [fst snd] in Hs.
  unfold code_items in Hdet.
  apply det_cons_inv in Hdet as (y & Hy & [= -> ->] & _).
  pose proof (span_all code_s (ci space) ((u ++ [z]) ++ w ++ "["%char :: c ++ ["]"%char])
                None) as Hx.
  pose proof (span_split code_s (ci space)
                ((u ++ [z]) ++ w ++ "["%char :: c ++ ["]"%char]) None) as Hxs.
  destruct (span code_s (ci space) None _) as [x v]. cbn [fst snd] in *.
  apply det_cons_inv in Hy as (y' & Hy' & -> & Hlen). cbn [fst snd] in *.
  pose proof (span_all code_s (ci (lit "[")) v (Some 1%nat)) as Hc0.
  pose proof (span_split code_s (ci (lit "[")) v (Some 1%nat)) as Hv.
  pose proof (span_fits code_s (ci (lit "[")) v (Some 1%nat)) as Hfit.
  destruct (span code_s (ci (lit "[")) (Some 1%nat) v) as [k v']. cbn [fst snd] in *.
  destruct k as [|c0 [|c1 k]]; cbn in Hlen, Hfit; try lia.
  apply Forall_cons in Hc0 as [Hc0 _].
  pose proof (det_accepts code_s _ _ _ Hy') as Hacc.
  pose proof (det_split code_s _ _ _ Hy') as Hy's.
  assert (x = (u ++ [z]) ++ w) as Ex.
  { apply (unique_split (fun a => ci (lit "[") (code_s a)) x c0 (y'.1 ++ y'.2)
             ((u ++ [z]) ++ w) "["%char (c ++ ["]"%char])).
    - rewrite <- Hy's. cbn [app] in Hv. rewrite <- Hv, <- Hxs.
      by rewrite <- !app_assoc.
    - eapply Forall_impl; [exact Hx|]. cbn beta. intros a Ha.
      rewrite ci_space in Ha. by apply space_facts.
    - apply Forall_app. split.
      + eapply Forall_impl; [exact Hacc|]. exact code_behind_bracket.
      + by apply at_end_no_bracket.
    - reflexivity. }
  rewrite Ex in Hx. apply Forall_app in Hx as [Hx _].
  apply Forall_app in Hx as [_ [Hx _]%Forall_cons].
  rewrite ci_space in Hx. congruence.
Qed.

Lemma rstrip_behind (y0 : text) z mid :
  isspace z = false ->
  Py.rstrip ((y0 ++ [z]) ++ mid) = (y0 ++ [z]) ++ Py.rstrip mid.
Proof.
  intros Hz. unfold Py.rstrip.
  induction mid as [|c mid IH] using rev_ind.
  - rewrite !app_nil_r. by rewrite Sanitize.rstrip_snoc, Hz.
  - rewrite app_assoc, !Sanitize.rstrip_snoc, IH.
    destruct (isspace c); [done|]. by rewrite <- !app_assoc.
Qed.

(** The suffix pattern takes the bracketed code at the end of a stem and
    the white space before it. *)
Lemma strip_code_coded X c :
  code_chars c ->
  Pack.strip_code (X ++ "["%char :: c ++ ["]"%char]) = Py.rstrip X.
Proof.
  intros Hc. destruct (StripFacts.rstrip_split X) as (w & E & Hw).
  rewrite E at 1. rewrite <- app_assoc. unfold Pack.strip_code.
  change (str "") with (@nil ascii).
  rewrite sub_dead_prefix.
  - pose proof (code_at w c Hw Hc) as H. rewrite <- code_det in H.
    rewrite (sub_some code_s _ _ _ _ _ H) by (by destruct w).
    rewrite sub_nil by reflexivity. by rewrite !app_nil_r.
  - intros u1 u2 E2 Hne.
    destruct u2 as [|z u2 _] using rev_ind; [done|].
    assert (isspace z = false) as Hz.
    { apply (Sanitize.rstrip_last isspace X). 
      change (Py.rstrip_by isspace X) with (Py.rstrip X).
      by rewrite E2, app_assoc, last_snoc. }
    rewrite code_det. by apply code_not_before.
Qed.

(** *** The stem cleaned *)

Definition cleaned (s : text) : text := (Pack.game_key_from_stem s).2.

Lemma cleaned_eq s :
  cleaned s = Pack.normalize_title (Pack.strip_disc_markers (Pack.strip_code s)).
Proof. reflexivity. Qed.

Lemma markers_paren a0 g n1 n2 b :
  blank g -> num n1 -> num n2 ->
  Pack.strip_disc_markers (a0 ++ str "(disc" ++ g ++ n1 ++ ")"%char :: b) =
  Pack.strip_disc_markers (a0 ++ str "(disc" ++ g ++ n2 ++ ")"%char :: b).
Proof.
  intros Hg H1 H2. rewrite !PackClaims.strip_disc_markers_eq.
  by rewrite (paren_same a0 g n1 n2 b).
Qed.

Lemma markers_bare a0 h g n1 n2 b :
  sep h -> blank g -> num n1 -> num n2 ->
  Pack.strip_disc_markers (a0 ++ str "disc" ++ h ++ g ++ n1 ++ b) =
  Pack.strip_disc_markers (a0 ++ str "disc" ++ h ++ g ++ n2 ++ b).
Proof.
  intros Hh Hg H1 H2. rewrite !PackClaims.strip_disc_markers_eq.
  destruct (paren_bare a0 h g n1 n2 b Hh Hg H1 H2) as [H|(x & y & Hx1 & Hx2)].
  - by rewrite H.
  - rewrite Hx1, Hx2. by apply bare_same.
Qed.

(** The bracketed code at the end of a stem, when there is one. *)
Definition bracket (x : option text) : text :=
  match x with
  | Some c => "["%char :: c ++ ["]"%char]
  | None => []
  end.

Definition bracket_chars (x : option text) : Prop :=
  match x with
  | Some c => code_chars c
  | None => True
  end.

Lemma cleaned_paren a0 g n1 n2 mid x1 x2 :
  blank g -> num n1 -> num n2 -> bracket_chars x1 -> bracket_chars x2 ->
  (is_Some x1 <-> is_Some x2) ->
  cleaned (a0 ++ str "(disc" ++ g ++ n1 ++ ")"%char :: mid ++ bracket x1) =
  cleaned (a0 ++ str "(disc" ++ g ++ n2 ++ ")"%char :: mid ++ bracket x2).
Proof.
  intros Hg H1 H2 Hx1 Hx2 Hboth. rewrite !cleaned_eq. f_equal.
  destruct x1 as [c1|], x2 as [c2|]; cbn [bracket bracket_chars] in *.
  - assert (forall n c, num n -> code_chars c ->
              Pack.strip_code (a0 ++ str "(disc" ++ g ++ n ++
                               ")"%char :: mid ++ "["%char :: c ++ ["]"%char]) =
              a0 ++ str "(disc" ++ g ++ n ++ ")"%char :: Py.rstrip mid) as Hs.
    { intros n c Hn Hc.
      assert (forall t, a0 ++ str "(disc" ++ g ++ n ++ ")"%char :: mid ++ t =
                        (((a0 ++ str "(disc" ++ g ++ n) ++ [")"%char]) ++ mid) ++ t)
        as Ha by (intros t; by rewrite <- !app_assoc).
      rewrite Ha, (strip_code_coded _ c Hc), rstrip_behind by reflexivity.
      by rewrite <- !app_assoc. }
    rewrite !Hs by done. by apply markers_paren.
  - destruct Hboth as [Hb _]. by destruct (Hb (mk_is_Some _ _ eq_refl)).
  - destruct Hboth as [_ Hb]. by destruct (Hb (mk_is_Some _ _ eq_refl)).
  - rewrite !app_nil_r.
    destruct (code_paren a0 g n1 n2 mid Hg H1 H2) as [H|(x & y & Hy1 & Hy2)].
    + by rewrite H.
    + rewrite Hy1, Hy2. by apply markers_paren.
Qed.

Lemma cleaned_bare a0 h g n1 n2 mid x1 x2 :
  sep h -> blank g -> num n1 -> num n2 -> bracket_chars x1 -> bracket_chars x2 ->
  (is_Some x1 <-> is_Some x2) ->
  cleaned (a0 ++ str "disc" ++ h ++ g ++ n1 ++ mid ++ bracket x1) =
  cleaned (a0 ++ str "disc" ++ h ++ g ++ n2 ++ mid ++ bracket x2).
Proof.
  intros Hh Hg H1 H2 Hx1 Hx2 Hboth. rewrite !cleaned_eq. f_equal.
  destruct x1 as [c1|], x2 as [c2|]; cbn [bracket bracket_chars] in *.
  - assert (forall n c, num n -> code_chars c ->
              Pack.strip_code (a0 ++ str "disc" ++ h ++ g ++ n ++
                               mid ++ "["%char :: c ++ ["]"%char]) =
              a0 ++ str "disc" ++ h ++ g ++ n ++ Py.rstrip mid) as Hs.
    { intros n c Hn Hc. destruct (num_last n Hn) as (n' & d & -> & Hd).
      assert (forall t, a0 ++ str "disc" ++ h ++ g ++ (n' ++ [d]) ++ mid ++ t =
                        (((a0 ++ str "disc" ++ h ++ g ++ n') ++ [d]) ++ mid) ++ t)
        as Ha by (intros t; by rewrite <- !app_assoc).
      rewrite Ha, (strip_code_coded _ c Hc), rstrip_behind
        by (by apply digit_facts).
      by rewrite <- !app_assoc. }
    rewrite !Hs by done. by apply markers_bare.
  - destruct Hboth as [Hb _]. by destruct (Hb (mk_is_Some _ _ eq_refl)).
  - destruct Hboth as [_ Hb]. by destruct (Hb (mk_is_Some _ _ eq_refl)).
  - rewrite !app_nil_r.
    destruct (code_bare a0 h g n1 n2 mid Hh Hg H1 H2) as [H|(x & y & Hy1 & Hy2)].
    + by rewrite H.
    + rewrite Hy1, Hy2. by apply markers_bare.
Qed.

Lemma cleaned_coded X c1 c2 :
  code_chars c1 -> code_chars c2 ->
  cleaned (X ++ "["%char :: c1 ++ ["]"%char]) =
  cleaned (X ++ "["%char :: c2 ++ ["]"%char]).
Proof. intros H1 H2. rewrite !cleaned_eq. by rewrite !strip_code_coded. Qed.

End KeyFacts.

(** ** Stems with a disc marker and a code, as they are written *)

Module StemSpec.
Import Chars.

(** The word of a marker: "disc" in any letter case. *)
Definition disc_word (d : text) : Prop := Py.lower d = str "disc".

(** White space, and the separator a bare marker may have behind the
    word. *)
Definition blank (g : text) : Prop := Forall (fun c => isspace c = true) g.
Definition separator (h : text) : Prop := h = [] \/ h = str "_" \/ h = str "-".

(** The two forms of a marker: the word, white space or none, the number,
    in parentheses; and the word, a separator or none, white space or none,
    the number. *)
Definition paren_marker (d g n : text) : text :=
  str "(" ++ d ++ g ++ n ++ str ")".
Definition bare_marker (d h g n : text) : text := d ++ h ++ g ++ n.

(** A code as the suffix pattern reads it, in any letter case. *)
Definition code_like (c : text) : Prop := PackSpec.bracket_code (Py.upper c).

(** The bracketed code at the end of a stem, when there is one. *)
Definition bracket (x : option text) : text :=
  match x with
  | Some c => str "[" ++ c ++ str "]"
  | None => []
  end.

Definition bracket_ok (x : option text) : Prop :=
  match x with
  | Some c => code_like c
  | None => True
  end.

(** Both stems end with a code, or none of them. *)
Definition same_kind (x1 x2 : option text) : Prop := is_Some x1 <-> is_Some x2.

Definition key (stem : text) : text := (Pack.game_key_from_stem stem).1.

(** The claim read widely: the marker and the code may be missing in one of
    the two stems. *)
Definition same_key_without : Prop :=
  forall (pre mid d h g n : text) (x : option text),
    disc_word d -> separator h -> blank g -> PackSpec.is_number n ->
    bracket_ok x ->
    key (pre ++ bare_marker d h g n ++ mid ++ bracket x) = key (pre ++ mid).

End StemSpec.

Module KeyCase.
Import Chars Re DetTheory KeyPatterns KeyFacts StemSpec.

Ltac ascii_facts :=
  let c := fresh "c" in
  intros c; destruct c as [[] [] [] [] [] [] [] []]; vm_compute;
  intuition congruence.

Lemma key_lower s : key s = cleaned (Py.lower s).
Proof. unfold key, cleaned. by rewrite CaseBlind.cleaned_lower. Qed.

Lemma lower_app (a b : text) : Py.lower (a ++ b) = Py.lower a ++ Py.lower b.
Proof. apply map_app. Qed.

Lemma blank_lower g : StemSpec.blank g -> KeyFacts.blank (Py.lower g).
Proof.
  intros Hg. apply Forall_map. eapply Forall_impl; [exact Hg|].
  intros c Hc. cbn. by rewrite CaseBlind.isspace_lower.
Qed.

Lemma digit_lower : forall c, CodeFacts.is_digit c -> isdigit (Chars.lower c) = true.
Proof. unfold CodeFacts.is_digit. ascii_facts. Qed.

Lemma num_lower n : PackSpec.is_number n -> num (Py.lower n).
Proof.
  intros [Hne Hn]. split; [by destruct n|].
  apply Forall_map. eapply Forall_impl; [exact Hn|]. exact digit_lower.
Qed.

Lemma sep_lower h : separator h -> sep (Py.lower h).
Proof. intros [->|[->| ->]]; [by left|right; by left|right; by right]. Qed.

Lemma upper_S : forall c,
  Chars.upper c = "S"%char -> ci (lit "S") (code_s (Chars.lower c)) = true.
Proof. ascii_facts. Qed.

Lemma upper_LC : forall c,
  Chars.upper c = "L"%char \/ Chars.upper c = "C"%char ->
  ci (oneof "LC") (code_s (Chars.lower c)) = true.
Proof. ascii_facts. Qed.

Lemma upper_AZ_lower : forall c,
  CodeFacts.is_AZ (Chars.upper c) -> ci upper_AZ (code_s (Chars.lower c)) = true.
Proof. unfold CodeFacts.is_AZ. ascii_facts. Qed.

Lemma digit_of_upper : forall c,
  CodeFacts.is_digit (Chars.upper c) -> isdigit (Chars.lower c) = true.
Proof. unfold CodeFacts.is_digit. ascii_facts. Qed.

Lemma upper_hyphen : forall c,
  Chars.upper c = "-"%char -> Chars.lower c = "-"%char.
Proof. ascii_facts. Qed.

Lemma code_like_lower c : code_like c -> code_chars (Py.lower c).
Proof.
  intros (l & p & h & d & E & Hl & Hp & HAZ & Hh & Hd & Hdig).
  unfold Py.upper in E.
  destruct c as [|s' [|l' c']]; [done|done|]. cbn [map] in E.
  injection E as Es El E.
  apply map_eq_app in E as (p' & r' & -> & <- & E).
  apply map_eq_app in E as (h' & d' & -> & <- & <-).
  exists (Chars.lower s'), (Chars.lower l'), (Py.lower p'), (Py.lower h'),
         (Py.lower d').
  split; [unfold Py.lower; cbn [map]; by rewrite !map_app|].
  split; [by apply upper_S|]. split; [apply upper_LC; by rewrite El|].
  split; [unfold Py.lower; by rewrite length_map in *|]. split.
  - apply Forall_map. apply (proj1 (Forall_map Chars.upper _ p')) in HAZ.
    eapply Forall_impl; [exact HAZ|]. exact upper_AZ_lower.
  - split.
    + destruct h' as [|x [|y h']]; [by left| |by destruct Hh].
      right. destruct Hh as [Hh|[= Hx]]; [done|].
      unfold Py.lower. cbn [map]. by rewrite (upper_hyphen x Hx).
    + split; [by destruct d'|].
      apply Forall_map. apply (proj1 (Forall_map Chars.upper _ d')) in Hdig.
      eapply Forall_impl; [exact Hdig|]. exact digit_of_upper.
Qed.

Lemma bracket_lower x :
  bracket_ok x ->
  Py.lower (StemSpec.bracket x) = KeyFacts.bracket (Py.lower <$> x) /\
  bracket_chars (Py.lower <$> x).
Proof.
  destruct x as [c|]; cbn [StemSpec.bracket bracket_ok fmap option_fmap option_map
                           KeyFacts.bracket bracket_chars]; [|done].
  intros Hc. split; [|by apply code_like_lower].
  by rewrite !lower_app.
Qed.

Lemma same_kind_lower x1 x2 :
  same_kind x1 x2 -> is_Some (Py.lower <$> x1) <-> is_Some (Py.lower <$> x2).
Proof. unfold same_kind. by rewrite !fmap_is_Some. Qed.

(** Stems with a marker in parentheses. *)
Lemma key_paren pre mid d1 d2 g n1 n2 x1 x2 :
  disc_word d1 -> disc_word d2 -> StemSpec.blank g ->
  PackSpec.is_number n1 -> PackSpec.is_number n2 ->
  bracket_ok x1 -> bracket_ok x2 -> same_kind x1 x2 ->
  key (pre ++ paren_marker d1 g n1 ++ mid ++ StemSpec.bracket x1) =
  key (pre ++ paren_marker d2 g n2 ++ mid ++ StemSpec.bracket x2).
Proof.
  intros Hd1 Hd2 Hg H1 H2 Hx1 Hx2 Hk. rewrite !key_lower.
  destruct (bracket_lower x1 Hx1) as [E1 Hc1].
  destruct (bracket_lower x2 Hx2) as [E2 Hc2].
  assert (forall d n x, disc_word d ->
            Py.lower (pre ++ paren_marker d g n ++ mid ++ StemSpec.bracket x) =
            Py.lower pre ++ str "(disc" ++ Py.lower g ++ Py.lower n ++
            ")"%char :: Py.lower mid ++ Py.lower (StemSpec.bracket x)) as Hl.
  { intros d n x Hd. unfold paren_marker. rewrite !lower_app, Hd.
    by rewrite <- !app_assoc. }
  rewrite !Hl, E1, E2 by done.
  apply cleaned_paren;
    auto using blank_lower, num_lower, same_kind_lower.
Qed.

(** Stems with a bare marker. *)
Lemma key_bare pre mid d1 d2 h g n1 n2 x1 x2 :
  disc_word d1 -> disc_word d2 -> separator h -> StemSpec.blank g ->
  PackSpec.is_number n1 -> PackSpec.is_number n2 ->
  bracket_ok x1 -> bracket_ok x2 -> same_kind x1 x2 ->
  key (pre ++ bare_marker d1 h g n1 ++ mid ++ StemSpec.bracket x1) =
  key (pre ++ bare_marker d2 h g n2 ++ mid ++ StemSpec.bracket x2).
Proof.
  intros Hd1 Hd2 Hh Hg H1 H2 Hx1 Hx2 Hk. rewrite !key_lower.
  destruct (bracket_lower x1 Hx1) as [E1 Hc1].
  destruct (bracket_lower x2 Hx2) as [E2 Hc2].
  assert (forall d n x, disc_word d ->
            Py.lower (pre ++ bare_marker d h g n ++ mid ++ StemSpec.bracket x) =
            Py.lower pre ++ str "disc" ++ Py.lower h ++ Py.lower g ++ Py.lower n ++
            Py.lower mid ++ Py.lower (StemSpec.bracket x)) as Hl.
  { intros d n x Hd. unfold bare_marker. rewrite !lower_app, Hd.
    by rewrite <- !app_assoc. }
  rewrite !Hl, E1, E2 by done.
  apply cleaned_bare;
    auto using blank_lower, num_lower, sep_lower, same_kind_lower.
Qed.

(** Stems without a marker. *)
Lemma key_coded stem c1 c2 :
  code_like c1 -> code_like c2 ->
  key (stem ++ StemSpec.bracket (Some c1)) = key (stem ++ StemSpec.bracket (Some c2)).
Proof.
  intros H1 H2. rewrite !key_lower, !lower_app.
  rewrite (proj1 (bracket_lower (Some c1) H1)), (proj1 (bracket_lower (Some c2) H2)).
  apply cleaned_coded; by apply code_like_lower.
Qed.

End KeyCase.

(** C2, as stated, fails when it is read widely, with the marker or the code
    in one of the two stems only.  "Game - Disc 1" has the key "game", and
    the same stem without its marker, "Game - " or "Game -", has the key
    "game -".  "Game [SLUS-00001] [SLUS-00002]" has the key
    "game [slus-00001]", and the same stem without its last code has the key
    "game". *)
Lemma C2_marker_in_one_stem_counterexample :
  StemSpec.key (str "Game - Disc 1") = str "game" /\
  StemSpec.key (str "Game - ") = str "game -" /\
  StemSpec.key (str "Game -") = str "game -" /\
  StemSpec.key (str "Game [SLUS-00001] [SLUS-00002]") = str "game [slus-00001]" /\
  StemSpec.key (str "Game [SLUS-00001]") = str "game" /\
  ~ StemSpec.same_key_without.
Proof.
  repeat split; try reflexivity.
  intros H.
  specialize (H (str "Game - ") [] (str "Disc") [] (str " ") (str "1") None).
  assert (StemSpec.key (str "Game - Disc 1") = StemSpec.key (str "Game - ")) as E.
  { apply H; try done.
    - by left.
    - by repeat constructor.
    - split; [done|by repeat constructor]. }
  vm_compute in E. discriminate E.
Qed.


